(** * Ring-buffer queues of lockfree_rb_q.cc

    A shallow embedding of the two queues of [lockfree_rb_q.cc]: the
    serialized [NaiveQueue] (one mutex, two condition variables) and the
    [LockFreeQueue] for N producers and M consumers.

    Model.  [unsigned long] and [size_t] are 64-bit (the source warns
    unless [__x86_64__]); they are integers in [0, 2^64) and every
    addition wraps ([wrap]).  The build is a debug build: [assert] is
    checked.

    [NaiveQueue::push] and [pop] run under the mutex, so each is one
    transition, enabled when the predicate of its [wait] holds.

    The lock-free queue is a transition system.  Each access to shared
    memory made by [push] or [pop] is one atomic step of the calling
    thread: where a statement reads one shared variable and writes
    another (lines 195, 197, 229, 231) the read and the write are two
    steps.  The thread's own registry entry is written by no other
    thread, so the steps of lines 203, 217, 240 and 254, which read it
    together with one more location, count as one.  The steps of all
    threads interleave in any order (sequential consistency), and a
    schedule is the list of the steps taken.  A thread keeps the events
    of the call it is in and the calls it has completed, so that claims
    on whole calls can be stated.

    Statements on reachable states are for runs that stay clear of the
    wrap-around of the 64-bit counters ([horizon]): the source uses
    [ULONG_MAX] as "no reservation" and compares counters with [<] and
    [>=], which is meant for counters that have not wrapped. *)

From Stdlib Require Import ZArith Lia List Bool.
From stdpp Require Import base tactics option list.

Local Open Scope Z_scope.

(** ** Machine integers *)

Definition ULONG_MAX : Z := 18446744073709551615.

(** Arithmetic on [unsigned long] is modulo 2^64. *)
Definition wrap (z : Z) : Z := z mod 18446744073709551616.

(** [x & y] on unsigned operands. *)
Definition band (x y : Z) : Z := Z.land x y.

(** ** Outcomes of a step

    [assert] failing (debug build), an access outside the registry, an
    access outside the slot array, and a step asked of a thread that has
    none to take. *)
Inductive outcome (A : Type) : Type :=
| Ok (a : A)
| AssertFail
| RegOutOfBounds
| SlotOutOfBounds
| NoStep.

Arguments Ok {A} a.
Arguments AssertFail {A}.
Arguments RegOutOfBounds {A}.
Arguments SlotOutOfBounds {A}.
Arguments NoStep {A}.

Definition obind {A B} (m : outcome A) (f : A -> outcome B) : outcome B :=
  match m with
  | Ok a => f a
  | AssertFail => AssertFail
  | RegOutOfBounds => RegOutOfBounds
  | SlotOutOfBounds => SlotOutOfBounds
  | NoStep => NoStep
  end.

Notation "x <~ m ;; k" := (obind m (fun x => k))
  (at level 100, m at next level, right associativity).

(** ** Naive serialized ring buffer queue *)

Module NaiveQueue.

Record t : Type := mk {
  head_ : Z;
  tail_ : Z;
  ptr_array_ : list Z
}.

Definition Q_MASK (Q_SIZE : Z) : Z := wrap (Q_SIZE - 1).

(** The constructor: both counters 0, the slot array as the allocator
    hands it out ([None] when [memalign] returns NULL). *)
Definition new (block : option (list Z)) : outcome t :=
  match block with
  | Some arr => Ok (mk 0 0 arr)
  | None => AssertFail
  end.

(** The predicate [cond_overflow_] waits for: [tail_ + Q_SIZE > head_]. *)
Definition not_full (Q_SIZE : Z) (q : t) : bool :=
  head_ q <? wrap (tail_ q + Q_SIZE).

(** The predicate [cond_empty_] waits for: [tail_ < head_]. *)
Definition not_empty (q : t) : bool := tail_ q <? head_ q.

(** [push] under the mutex: [None] while the wait predicate is false
    (the caller sleeps on the condition variable), else the store
    [ptr_array_[head_++ & Q_MASK] = x]. *)
Definition push (Q_SIZE : Z) (x : Z) (q : t) : option t :=
  if not_full Q_SIZE q then
    Some (mk (wrap (head_ q + 1)) (tail_ q)
             (<[Z.to_nat (band (head_ q) (Q_MASK Q_SIZE)) := x]> (ptr_array_ q)))
  else None.

(** [pop] under the mutex: [None] while the wait predicate is false,
    else [x = ptr_array_[tail_++ & Q_MASK]].  A read outside the array
    has no value in the model. *)
Definition pop (Q_SIZE : Z) (q : t) : option (Z * t) :=
  if not_empty q then
    match ptr_array_ q !! Z.to_nat (band (tail_ q) (Q_MASK Q_SIZE)) with
    | Some x => Some (x, mk (head_ q) (wrap (tail_ q + 1)) (ptr_array_ q))
    | None => None
    end
  else None.

(** Calls that took effect, in the order the mutex serialized them. *)
Inductive call : Type := Push (x : Z) | Pop.

(** Runs the calls in order; [None] if one of them would wait. The
    second component collects what the pops returned. *)
Fixpoint run (Q_SIZE : Z) (cs : list call) (q : t) (out : list Z)
  : option (t * list Z) :=
  match cs with
  | [] => Some (q, out)
  | Push x :: cs' =>
      match push Q_SIZE x q with
      | Some q' => run Q_SIZE cs' q' out
      | None => None
      end
  | Pop :: cs' =>
      match pop Q_SIZE q with
      | Some (x, q') => run Q_SIZE cs' q' (out ++ [x])
      | None => None
      end
  end.

End NaiveQueue.

(** ** Lock-free queue: data *)

Module ThrPos.
Record t : Type := mk { head : Z; tail : Z }.
End ThrPos.

(** The constructor arguments and the template parameter [Q_SIZE]. *)
Record params : Type := mkParams {
  n_producers_ : Z;
  n_consumers_ : Z;
  Q_SIZE : Z
}.

Definition Q_MASK (c : params) : Z := wrap (Q_SIZE c - 1).

(** [std::max(n_consumers_, n_producers_)]: the registry's dimension. *)
Definition n_threads (c : params) : Z := Z.max (n_consumers_ c) (n_producers_ c).

Record LockFreeQueue : Type := mkQ {
  head_ : Z;
  tail_ : Z;
  last_head_ : Z;
  last_tail_ : Z;
  thr_p_ : list ThrPos.t;
  ptr_array_ : list Z
}.

Definition set_head_ (v : Z) (q : LockFreeQueue) : LockFreeQueue :=
  mkQ v (tail_ q) (last_head_ q) (last_tail_ q) (thr_p_ q) (ptr_array_ q).
Definition set_tail_ (v : Z) (q : LockFreeQueue) : LockFreeQueue :=
  mkQ (head_ q) v (last_head_ q) (last_tail_ q) (thr_p_ q) (ptr_array_ q).
Definition set_last_head_ (v : Z) (q : LockFreeQueue) : LockFreeQueue :=
  mkQ (head_ q) (tail_ q) v (last_tail_ q) (thr_p_ q) (ptr_array_ q).
Definition set_last_tail_ (v : Z) (q : LockFreeQueue) : LockFreeQueue :=
  mkQ (head_ q) (tail_ q) (last_head_ q) v (thr_p_ q) (ptr_array_ q).
Definition set_thr_p_ (r : list ThrPos.t) (q : LockFreeQueue) : LockFreeQueue :=
  mkQ (head_ q) (tail_ q) (last_head_ q) (last_tail_ q) r (ptr_array_ q).
Definition set_ptr_array_ (a : list Z) (q : LockFreeQueue) : LockFreeQueue :=
  mkQ (head_ q) (tail_ q) (last_head_ q) (last_tail_ q) (thr_p_ q) a.

(** ** Construction *)

(** [memset(block, v, len)] on a block of bytes. *)
Definition memset (block : list Z) (v : Z) (len : Z) : list Z :=
  replicate (Z.to_nat len) v ++ drop (Z.to_nat len) block.

(** An [unsigned long] read from its bytes (x86_64: little endian). *)
Fixpoint decode_ulong (bytes : list Z) : Z :=
  match bytes with
  | [] => 0
  | b :: rest => b + 256 * decode_ulong rest
  end.

(** [sizeof(ThrPos)]: two [unsigned long], no padding. *)
Definition sizeof_ThrPos : Z := 16.

(** The first [n] [ThrPos] of a block of bytes. *)
Fixpoint ThrPos_array (n : nat) (bytes : list Z) : list ThrPos.t :=
  match n with
  | O => []
  | S k =>
      ThrPos.mk (decode_ulong (take 8 bytes))
                (decode_ulong (take 8 (drop 8 bytes)))
      :: ThrPos_array k (drop 16 bytes)
  end.

(** The size in bytes that the constructor asks of [memalign] for the
    registry, and that it hands to [memset]: [sizeof(ThrPos) * n], a
    product of [size_t], which wraps; and the number of [ThrPos] that
    fit in a block of this size. *)
Definition thr_p_bytes (c : params) : Z := wrap (sizeof_ThrPos * n_threads c).
Definition thr_p_len (c : params) : Z := thr_p_bytes c / sizeof_ThrPos.

(** [LockFreeQueue(n_producers, n_consumers)].  [blk_thr] and [blk_arr]
    are what the two [memalign] calls return: [None] for NULL, else the
    fresh block, of the size asked for ([blk_thr]: the bytes it holds,
    all of which [memset] overwrites; [blk_arr]: the pointers it
    happens to hold).  Each [assert] is on the pointer only.  The
    registry is the block of [thr_p_bytes c] bytes: it has
    [thr_p_len c] entries, which are max(N, M) only if the product did
    not wrap. *)
Definition LockFreeQueue_new (c : params)
    (blk_thr : option (list Z)) (blk_arr : option (list Z))
  : outcome LockFreeQueue :=
  match blk_thr with
  | None => AssertFail
  | Some bytes =>
      let bytes' := memset bytes 255 (thr_p_bytes c) in
      match blk_arr with
      | None => AssertFail
      | Some arr =>
          Ok (mkQ 0 0 0 0 (ThrPos_array (Z.to_nat (thr_p_len c)) bytes') arr)
      end
  end.

(** ** Registry access *)

(** [thr_pos()] for the thread whose [ThrId()] is [tid]. *)
Definition thr_pos (c : params) (tid : Z) (q : LockFreeQueue) : outcome ThrPos.t :=
  if tid <? n_threads c then
    match thr_p_ q !! Z.to_nat tid with
    | Some e => Ok e
    | None => RegOutOfBounds
    end
  else AssertFail.

(** [thr_pos().head = v] *)
Definition store_thr_head (c : params) (tid v : Z) (q : LockFreeQueue)
  : outcome LockFreeQueue :=
  e <~ thr_pos c tid q ;;
  Ok (set_thr_p_ (<[Z.to_nat tid := ThrPos.mk v (ThrPos.tail e)]> (thr_p_ q)) q).

(** [thr_pos().tail = v] *)
Definition store_thr_tail (c : params) (tid v : Z) (q : LockFreeQueue)
  : outcome LockFreeQueue :=
  e <~ thr_pos c tid q ;;
  Ok (set_thr_p_ (<[Z.to_nat tid := ThrPos.mk (ThrPos.head e) v]> (thr_p_ q)) q).

(** [thr_p_[i]] in the two scans. *)
Definition load_thr (i : Z) (q : LockFreeQueue) : outcome ThrPos.t :=
  match thr_p_ q !! Z.to_nat i with
  | Some e => Ok e
  | None => RegOutOfBounds
  end.

(** ** Events: one per atomic step *)

Inductive event : Type :=
| LoadHead (v : Z)                 (* reads head_ *)
| LoadTail (v : Z)                 (* reads tail_ *)
| StoreThrHead (tid v : Z)         (* thr_pos().head = v *)
| StoreThrTail (tid v : Z)         (* thr_pos().tail = v *)
| Fence                            (* __sync_synchronize() *)
| FetchAddHead (old : Z)           (* __sync_fetch_and_add(&head_, 1) *)
| FetchAddTail (old : Z)           (* __sync_fetch_and_add(&tail_, 1) *)
| TestLastTail (mine lt : Z)       (* thr_pos().head >= last_tail_ + Q_SIZE *)
| TestLastHead (mine lh : Z)       (* thr_pos().tail >= last_head_ *)
| Yield                            (* sched_yield() *)
| LoadThrTail (i v : Z)            (* reads thr_p_[i].tail *)
| LoadThrHead (i v : Z)            (* reads thr_p_[i].head *)
| StoreLastTail (v : Z)            (* last_tail_ = v *)
| StoreLastHead (v : Z)            (* last_head_ = v *)
| StoreSlot (mine idx x : Z)       (* ptr_array_[thr_pos().head & Q_MASK] = x *)
| LoadSlot (mine idx x : Z).       (* reads ptr_array_[thr_pos().tail & Q_MASK] *)

(** ** push, step by step

    Where a producer stands inside [push(ptr)]; [x] is [ptr]. *)
Inductive ppc : Type :=
| PIdle
| PLoadHead (x : Z)            (* line 195, right-hand side *)
| PStorePre (x h : Z)          (* line 195, the store *)
| PFence (x : Z)               (* line 196 *)
| PFetchAdd (x : Z)            (* line 197, right-hand side *)
| PStoreRes (x h : Z)          (* line 197, the store *)
| PTest (x : Z)                (* line 203 *)
| PYield (x : Z)               (* line 205 *)
| PLoadTail (x : Z)            (* line 207 *)
| PScan (x i min : Z)          (* lines 209-214 *)
| PWrite (x : Z)               (* line 217 *)
| PRelease (x : Z).            (* line 219 *)

Definition push_step (c : params) (tid : Z) (q : LockFreeQueue) (pc : ppc)
  : outcome (LockFreeQueue * ppc * event) :=
  match pc with
  | PIdle => NoStep
  | PLoadHead x => Ok (q, PStorePre x (head_ q), LoadHead (head_ q))
  | PStorePre x h =>
      q' <~ store_thr_head c tid h q ;;
      Ok (q', PFence x, StoreThrHead tid h)
  | PFence x => Ok (q, PFetchAdd x, Fence)
  | PFetchAdd x =>
      Ok (set_head_ (wrap (head_ q + 1)) q, PStoreRes x (head_ q), FetchAddHead (head_ q))
  | PStoreRes x h =>
      q' <~ store_thr_head c tid h q ;;
      Ok (q', PTest x, StoreThrHead tid h)
  | PTest x =>
      e <~ thr_pos c tid q ;;
      Ok (q,
          if wrap (last_tail_ q + Q_SIZE c) <=? ThrPos.head e then PYield x else PWrite x,
          TestLastTail (ThrPos.head e) (last_tail_ q))
  | PYield x => Ok (q, PLoadTail x, Yield)
  | PLoadTail x => Ok (q, PScan x 0 (tail_ q), LoadTail (tail_ q))
  | PScan x i min =>
      if i <? n_consumers_ c then
        e <~ load_thr i q ;;
        let tmp_t := ThrPos.tail e in
        Ok (q, PScan x (i + 1) (if tmp_t <? min then tmp_t else min), LoadThrTail i tmp_t)
      else
        Ok (set_last_tail_ min q, PTest x, StoreLastTail min)
  | PWrite x =>
      e <~ thr_pos c tid q ;;
      let idx := band (ThrPos.head e) (Q_MASK c) in
      match ptr_array_ q !! Z.to_nat idx with
      | Some _ =>
          Ok (set_ptr_array_ (<[Z.to_nat idx := x]> (ptr_array_ q)) q,
              PRelease x, StoreSlot (ThrPos.head e) idx x)
      | None => SlotOutOfBounds
      end
  | PRelease x =>
      q' <~ store_thr_head c tid ULONG_MAX q ;;
      Ok (q', PIdle, StoreThrHead tid ULONG_MAX)
  end.

(** ** pop, step by step *)
Inductive cpc : Type :=
| CIdle
| CLoadTail                    (* line 229, right-hand side *)
| CStorePre (t : Z)            (* line 229, the store *)
| CFence                       (* line 230 *)
| CFetchAdd                    (* line 231, right-hand side *)
| CStoreRes (t : Z)            (* line 231, the store *)
| CTest                        (* line 240 *)
| CYield                       (* line 242 *)
| CLoadHead                    (* line 244 *)
| CScan (i min : Z)            (* lines 246-251 *)
| CRead                        (* line 254 *)
| CRelease (ret : Z).          (* lines 256-257 *)

Definition pop_step (c : params) (tid : Z) (q : LockFreeQueue) (pc : cpc)
  : outcome (LockFreeQueue * cpc * event) :=
  match pc with
  | CIdle => NoStep
  | CLoadTail => Ok (q, CStorePre (tail_ q), LoadTail (tail_ q))
  | CStorePre t =>
      q' <~ store_thr_tail c tid t q ;;
      Ok (q', CFence, StoreThrTail tid t)
  | CFence => Ok (q, CFetchAdd, Fence)
  | CFetchAdd =>
      Ok (set_tail_ (wrap (tail_ q + 1)) q, CStoreRes (tail_ q), FetchAddTail (tail_ q))
  | CStoreRes t =>
      q' <~ store_thr_tail c tid t q ;;
      Ok (q', CTest, StoreThrTail tid t)
  | CTest =>
      e <~ thr_pos c tid q ;;
      Ok (q,
          if last_head_ q <=? ThrPos.tail e then CYield else CRead,
          TestLastHead (ThrPos.tail e) (last_head_ q))
  | CYield => Ok (q, CLoadHead, Yield)
  | CLoadHead => Ok (q, CScan 0 (head_ q), LoadHead (head_ q))
  | CScan i min =>
      if i <? n_producers_ c then
        e <~ load_thr i q ;;
        let tmp_h := ThrPos.head e in
        Ok (q, CScan (i + 1) (if tmp_h <? min then tmp_h else min), LoadThrHead i tmp_h)
      else
        Ok (set_last_head_ min q, CTest, StoreLastHead min)
  | CRead =>
      e <~ thr_pos c tid q ;;
      let idx := band (ThrPos.tail e) (Q_MASK c) in
      match ptr_array_ q !! Z.to_nat idx with
      | Some ret => Ok (q, CRelease ret, LoadSlot (ThrPos.tail e) idx ret)
      | None => SlotOutOfBounds
      end
  | CRelease ret =>
      q' <~ store_thr_tail c tid ULONG_MAX q ;;
      Ok (q', CIdle, StoreThrTail tid ULONG_MAX)
  end.

(** ** The system: one queue, its producers and its consumers *)

(** A thread: where it stands, the events of the call it is in, and the
    calls it has completed (argument of a push or result of a pop, with
    the call's events). *)
Record thread (PC : Type) : Type := mkThread {
  pc : PC;
  cur : list event;
  hist : list (Z * list event)
}.
Arguments mkThread {PC} pc cur hist.
Arguments pc {PC} t.
Arguments cur {PC} t.
Arguments hist {PC} t.

Record system : Type := mkSys {
  queue : LockFreeQueue;
  prods : list (thread ppc);
  cons : list (thread cpc)
}.

(** What a schedule is made of.  Producer [p] has [ThrId() = p], and so
    has consumer [c]: the two roles share the registry (lines 355-357). *)
Inductive action : Type :=
| CallPush (p : nat) (x : Z)   (* producer p enters push(x) *)
| StepPush (p : nat)           (* producer p takes its next step *)
| CallPop (c : nat)            (* consumer c enters pop() *)
| StepPop (c : nat).           (* consumer c takes its next step *)

Definition ppc_arg (pc : ppc) : Z :=
  match pc with
  | PIdle => 0
  | PLoadHead x | PStorePre x _ | PFence x | PFetchAdd x | PStoreRes x _
  | PTest x | PYield x | PLoadTail x | PScan x _ _ | PWrite x | PRelease x => x
  end.

Definition cpc_ret (pc : cpc) : Z :=
  match pc with
  | CRelease ret => ret
  | _ => 0
  end.

Definition is_PIdle (pc : ppc) : bool :=
  match pc with PIdle => true | _ => false end.
Definition is_CIdle (pc : cpc) : bool :=
  match pc with CIdle => true | _ => false end.

(** Book-keeping after a step: a call that returned moves to [hist]. *)
Definition advance {PC} (idle : PC -> bool) (v : Z) (t : thread PC)
    (pc' : PC) (ev : event) : thread PC :=
  if idle pc' then mkThread pc' [] (hist t ++ [(v, cur t ++ [ev])])
  else mkThread pc' (cur t ++ [ev]) (hist t).

Definition sys_step (c : params) (a : action) (s : system) : outcome system :=
  match a with
  | CallPush p x =>
      match prods s !! p with
      | Some t =>
          if is_PIdle (pc t) then
            Ok (mkSys (queue s) (<[p := mkThread (PLoadHead x) [] (hist t)]> (prods s)) (cons s))
          else NoStep
      | None => NoStep
      end
  | StepPush p =>
      match prods s !! p with
      | Some t =>
          r <~ push_step c (Z.of_nat p) (queue s) (pc t) ;;
          let '(q', pc', ev) := r in
          Ok (mkSys q' (<[p := advance is_PIdle (ppc_arg (pc t)) t pc' ev]> (prods s)) (cons s))
      | None => NoStep
      end
  | CallPop k =>
      match cons s !! k with
      | Some t =>
          if is_CIdle (pc t) then
            Ok (mkSys (queue s) (prods s) (<[k := mkThread CLoadTail [] (hist t)]> (cons s)))
          else NoStep
      | None => NoStep
      end
  | StepPop k =>
      match cons s !! k with
      | Some t =>
          r <~ pop_step c (Z.of_nat k) (queue s) (pc t) ;;
          let '(q', pc', ev) := r in
          Ok (mkSys q' (prods s) (<[k := advance is_CIdle (cpc_ret (pc t)) t pc' ev]> (cons s)))
      | None => NoStep
      end
  end.

Fixpoint run (c : params) (sched : list action) (s : system) : outcome system :=
  match sched with
  | [] => Ok s
  | a :: rest => s' <~ sys_step c a s ;; run c rest s'
  end.

(** The system around a freshly constructed queue: every thread idle. *)
Definition sys_init (c : params) (q : LockFreeQueue) : system :=
  mkSys q
        (replicate (Z.to_nat (n_producers_ c)) (mkThread PIdle [] []))
        (replicate (Z.to_nat (n_consumers_ c)) (mkThread CIdle [] [])).

(** A state of the system is reachable when a schedule leads to it from
    a fresh queue. *)
Definition reaches (c : params) (sched : list action) (s : system) : Prop :=
  exists blk_thr blk_arr q0,
    LockFreeQueue_new c blk_thr blk_arr = Ok q0 /\
    length (ptr_array_ q0) = Z.to_nat (Q_SIZE c) /\
    run c sched (sys_init c q0) = Ok s.

(** Runs one call of [push(x)] by thread [tid] with no other thread
    taking a step in between; [fuel] bounds the number of steps. *)
Fixpoint push_steps (fuel : nat) (c : params) (tid : Z) (q : LockFreeQueue)
    (pc : ppc) : outcome (LockFreeQueue * list event) :=
  match fuel with
  | O => NoStep
  | S fuel' =>
      r <~ push_step c tid q pc ;;
      let '(q', pc', ev) := r in
      if is_PIdle pc' then Ok (q', [ev])
      else
        r' <~ push_steps fuel' c tid q' pc' ;;
        Ok (fst r', ev :: snd r')
  end.

Definition push_alone (fuel : nat) (c : params) (tid x : Z) (q : LockFreeQueue)
  : outcome (LockFreeQueue * list event) :=
  push_steps fuel c tid q (PLoadHead x).

(** The same for one call of [pop()]; the result comes with the queue. *)
Fixpoint pop_steps (fuel : nat) (c : params) (tid : Z) (q : LockFreeQueue)
    (pc : cpc) : outcome (LockFreeQueue * Z * list event) :=
  match fuel with
  | O => NoStep
  | S fuel' =>
      r <~ pop_step c tid q pc ;;
      let '(q', pc', ev) := r in
      if is_CIdle pc' then Ok (q', cpc_ret pc, [ev])
      else
        r' <~ pop_steps fuel' c tid q' pc' ;;
        let '(q'', ret, evs) := r' in
        Ok (q'', ret, ev :: evs)
  end.

Definition pop_alone (fuel : nat) (c : params) (tid : Z) (q : LockFreeQueue)
  : outcome (LockFreeQueue * Z * list event) :=
  pop_steps fuel c tid q CLoadTail.

(** ** What the specification asks of a configuration

    The specification's words for a valid configuration (section 6 and 7:
    a capacity that is a power of two and at least 2, at least one
    producer and at least one consumer), to be compared with what the
    constructor checks. *)
Definition is_pow2 (z : Z) : bool := (0 <? z) && (2 ^ Z.log2 z =? z).

Definition spec_valid_config (c : params) : bool :=
  is_pow2 (Q_SIZE c) && (2 <=? Q_SIZE c)
  && (0 <? n_producers_ c) && (0 <? n_consumers_ c).

(** Construction as the specification words it: it fails exactly on an
    invalid configuration or a failed allocation. *)
Definition spec_construction_fails (c : params)
    (blk_thr blk_arr : option (list Z)) : Prop :=
  spec_valid_config c = false \/ blk_thr = None \/ blk_arr = None.

(** ** Invariants of the lock-free queue *)

(** [thr_p_[i].head] and [thr_p_[i].tail] as the registry [r] has them. *)
Definition reg_head (r : list ThrPos.t) (i : nat) : Z :=
  match r !! i with
  | Some e => ThrPos.head e
  | None => ULONG_MAX
  end.

Definition reg_tail (r : list ThrPos.t) (i : nat) : Z :=
  match r !! i with
  | Some e => ThrPos.tail e
  | None => ULONG_MAX
  end.

(** The reservation a producer holds: what its fetch-and-add returned,
    from that step until the entry is set back to [ULONG_MAX]. *)
Definition push_claim (r : list ThrPos.t) (p : nat) (pc : ppc) : option Z :=
  match pc with
  | PIdle | PLoadHead _ | PStorePre _ _ | PFence _ | PFetchAdd _ => None
  | PStoreRes _ h => Some h
  | PTest _ | PYield _ | PLoadTail _ | PScan _ _ _ | PWrite _ | PRelease _ =>
      Some (reg_head r p)
  end.

Definition pop_claim (r : list ThrPos.t) (k : nat) (pc : cpc) : option Z :=
  match pc with
  | CIdle | CLoadTail | CStorePre _ | CFence | CFetchAdd => None
  | CStoreRes t => Some t
  | CTest | CYield | CLoadHead | CScan _ _ | CRead | CRelease _ =>
      Some (reg_tail r k)
  end.

(** What holds of producer [p] where it stands. *)
Definition ppc_inv (c : params) (q : LockFreeQueue) (p : nat) (pc : ppc) : Prop :=
  let mine := reg_head (thr_p_ q) p in
  match pc with
  | PIdle | PLoadHead _ => True
  | PStorePre _ h => 0 <= h <= head_ q
  | PFence _ | PFetchAdd _ => 0 <= mine <= head_ q
  | PStoreRes _ h => 0 <= mine <= h /\ h < head_ q /\ last_head_ q <= h
  | PTest _ | PYield _ | PLoadTail _ =>
      0 <= mine < head_ q /\ last_head_ q <= mine
  | PScan _ i m =>
      (0 <= mine < head_ q /\ last_head_ q <= mine) /\ 0 <= i /\ 0 <= m <= tail_ q
  | PWrite _ | PRelease _ =>
      (0 <= mine < head_ q /\ last_head_ q <= mine) /\ mine < tail_ q + Q_SIZE c
  end.

(** What holds of consumer [k] where it stands. *)
Definition cpc_inv (q : LockFreeQueue) (k : nat) (pc : cpc) : Prop :=
  let mine := reg_tail (thr_p_ q) k in
  match pc with
  | CIdle | CLoadTail => True
  | CStorePre t => 0 <= t <= tail_ q
  | CFence | CFetchAdd => 0 <= mine <= tail_ q
  | CStoreRes t => 0 <= mine <= t /\ t < tail_ q /\ last_tail_ q <= t
  | CTest | CYield | CLoadHead =>
      0 <= mine < tail_ q /\ last_tail_ q <= mine
  | CScan i m =>
      (0 <= mine < tail_ q /\ last_tail_ q <= mine) /\ 0 <= i /\ 0 <= m <= head_ q
  | CRead | CRelease _ =>
      (0 <= mine < tail_ q /\ last_tail_ q <= mine) /\ mine < head_ q
  end.

(** The minimum a scan has computed so far is below the reservation of
    every thread whose entry it has passed. *)
Definition scan_tail_inv (r : list ThrPos.t) (pcp : ppc) (k : nat) (pck : cpc) : Prop :=
  match pcp with
  | PScan _ i m =>
      forall t, pop_claim r k pck = Some t -> Z.of_nat k < i -> m <= t
  | _ => True
  end.

Definition scan_head_inv (r : list ThrPos.t) (pck : cpc) (p : nat) (pcp : ppc) : Prop :=
  match pck with
  | CScan i m =>
      forall h, push_claim r p pcp = Some h -> Z.of_nat p < i -> m <= h
  | _ => True
  end.

(** The invariant of the system after [n] steps. *)
Record inv (c : params) (n : Z) (s : system) : Prop := mkInv {
  inv_head : 0 <= head_ (queue s) <= n;
  inv_tail : 0 <= tail_ (queue s) <= n;
  inv_last_head : 0 <= last_head_ (queue s) <= head_ (queue s);
  inv_last_tail : 0 <= last_tail_ (queue s) <= tail_ (queue s);
  inv_reg_len : length (thr_p_ (queue s)) = Z.to_nat (thr_p_len c);
  inv_arr_len : length (ptr_array_ (queue s)) = Z.to_nat (Q_SIZE c);
  inv_prods_len : length (prods s) = Z.to_nat (n_producers_ c);
  inv_cons_len : length (cons s) = Z.to_nat (n_consumers_ c);
  inv_reg_head : forall i,
      reg_head (thr_p_ (queue s)) i = ULONG_MAX \/
      0 <= reg_head (thr_p_ (queue s)) i <= head_ (queue s);
  inv_reg_tail : forall i,
      reg_tail (thr_p_ (queue s)) i = ULONG_MAX \/
      0 <= reg_tail (thr_p_ (queue s)) i <= tail_ (queue s);
  inv_prod : forall p t, prods s !! p = Some t -> ppc_inv c (queue s) p (pc t);
  inv_cons : forall k t, cons s !! k = Some t -> cpc_inv (queue s) k (pc t);
  inv_scan_tail : forall p tp k tk,
      prods s !! p = Some tp -> cons s !! k = Some tk ->
      scan_tail_inv (thr_p_ (queue s)) (pc tp) k (pc tk);
  inv_scan_head : forall k tk p tp,
      cons s !! k = Some tk -> prods s !! p = Some tp ->
      scan_head_inv (thr_p_ (queue s)) (pc tk) p (pc tp)
}.

(** The counters stay clear of their wrap-around for [n] steps. *)
Definition horizon (c : params) (n : Z) : Prop :=
  0 < Q_SIZE c /\ 0 <= n /\ n + Q_SIZE c < ULONG_MAX.


(** Every index handed out by [tail_] that [head_] has not reached is
    the reservation of a consumer, and every index handed out by [head_]
    beyond [tail_ + Q_SIZE] is the reservation of a producer. *)
Definition tail_covered (s : system) : Prop :=
  forall v, head_ (queue s) <= v < tail_ (queue s) ->
    exists k tk, cons s !! k = Some tk /\
      pop_claim (thr_p_ (queue s)) k (pc tk) = Some v.

Definition head_covered (c : params) (s : system) : Prop :=
  forall v, tail_ (queue s) + Q_SIZE c <= v < head_ (queue s) ->
    exists p tp, prods s !! p = Some tp /\
      push_claim (thr_p_ (queue s)) p (pc tp) = Some v.


(** ** Schedules used as examples *)

(** A whole [push(x)] by producer [p] that does not wait: the call and
    its eight steps. *)
Definition push_call (p : nat) (x : Z) : list action :=
  CallPush p x :: replicate 8 (StepPush p).

(** A whole [pop()] by consumer [k] that does not wait. *)
Definition pop_call (k : nat) : list action :=
  CallPop k :: replicate 8 (StepPop k).

(** A whole [pop()] by consumer [k] that goes once round its wait loop,
    scanning [n] registry entries. *)
Definition pop_call_wait (k n : nat) : list action :=
  CallPop k :: replicate (12 + n) (StepPop k).

(** A whole [push(x)] that goes once round its wait loop. *)
Definition push_call_wait (p : nat) (x : Z) (n : nat) : list action :=
  CallPush p x :: replicate (12 + n) (StepPush p).


(** Consumer 1 reads [tail_] and is held before it stores the value;
    the producer fills the queue, consumer 0 empties it, the producer's
    third push waits once and publishes [last_tail_ = 2]; then consumer 1
    stores the 0 it had read. (1 producer, 2 consumers, [Q_SIZE] 2.) *)
Definition sched_stale_snapshot : list action :=
  [CallPop 1%nat; StepPop 1%nat]
  ++ push_call 0 11 ++ push_call 0 12
  ++ pop_call_wait 0 1 ++ pop_call 0
  ++ push_call_wait 0 13 2
  ++ [StepPop 1%nat].

(** Producer 0 fills the queue; its third push waits, computes the
    minimum 0 and is held before it stores it; the consumer pops twice;
    producer 1 waits in turn and publishes [last_tail_ = 2]. The next
    step of producer 0 stores its 0. (2 producers, 1 consumer,
    [Q_SIZE] 2.) *)
Definition sched_late_publish : list action :=
  push_call 0 11 ++ push_call 0 12
  ++ CallPush 0 13 :: replicate 9 (StepPush 0)
  ++ pop_call_wait 0 2 ++ pop_call 0
  ++ CallPush 1 14 :: replicate 10 (StepPush 1).

(** ** The specification's words on the counters *)

(** Section 3: [head >= tail] always, and the number of live items
    [head - tail] is within [0, Q]. *)
Definition spec_live_items (c : params) (q : LockFreeQueue) : Prop :=
  tail_ q <= head_ q /\ 0 <= head_ q - tail_ q <= Q_SIZE c.

(** Section 3: [last_tail] is at most every per-consumer registry tail
    that is not the sentinel, and those are at most [tail]; the same for
    [last_head] and the producers. *)
Definition spec_cached_bounds (c : params) (q : LockFreeQueue) : Prop :=
  (forall k, (k < Z.to_nat (n_consumers_ c))%nat ->
     reg_tail (thr_p_ q) k <> ULONG_MAX ->
     last_tail_ q <= reg_tail (thr_p_ q) k <= tail_ q) /\
  (forall p, (p < Z.to_nat (n_producers_ c))%nat ->
     reg_head (thr_p_ q) p <> ULONG_MAX ->
     last_head_ q <= reg_head (thr_p_ q) p <= head_ q).

(** The step is the fetch-and-add of a push, of a pop. *)
Definition is_push_faa (s : system) (a : action) : bool :=
  match a with
  | StepPush p =>
      match prods s !! p with
      | Some t => match pc t with PFetchAdd _ => true | _ => false end
      | None => false
      end
  | _ => false
  end.

Definition is_pop_faa (s : system) (a : action) : bool :=
  match a with
  | StepPop k =>
      match cons s !! k with
      | Some t => match pc t with CFetchAdd => true | _ => false end
      | None => false
      end
  | _ => false
  end.


(** ** The reservation protocol, as the specification words it

    Section 4.3 of the specification, written as the events of one call,
    to be compared with the events [push_step] and [pop_step] produce. *)

(** "recompute [last_tail] as min(tail, min over c of reg[c].tail_local)
    (sentinels compared as max)": the sentinel is the largest
    [unsigned long], so the plain minimum does it. *)
Definition spec_min (first : Z) (entries : list Z) : Z := foldr Z.min first entries.

(** Steps 1 and 2 of push: pre-publish the head read, fence, claim a slot
    by fetch-and-add, publish the claim. *)
Definition spec_push_claim (tid h0 my_head : Z) : list event :=
  [LoadHead h0; StoreThrHead tid h0; Fence; FetchAddHead my_head;
   StoreThrHead tid my_head].

(** Step 3 of push, one turn: the test found [my_head >= last_tail + Q];
    yield, read [tail] ([t]), read the registry tail of consumers 0, 1, ...
    ([vs]), publish the minimum. *)
Definition spec_push_round (my_head : Z) (r : Z * Z * list Z) : list event :=
  [TestLastTail my_head r.1.1; Yield; LoadTail r.1.2]
  ++ imap (fun i v => LoadThrTail (Z.of_nat i) v) r.2
  ++ [StoreLastTail (spec_min r.1.2 r.2)].

(** The test that ends the loop, then steps 4 and 5: write the payload
    at [my_head & (Q-1)], release the reservation. *)
Definition spec_push_finish (c : params) (tid x my_head lt : Z) : list event :=
  [TestLastTail my_head lt;
   StoreSlot my_head (band my_head (Q_SIZE c - 1)) x;
   StoreThrHead tid ULONG_MAX].

Definition spec_push_loop (tid h0 my_head : Z) (rounds : list (Z * Z * list Z)) : list event :=
  spec_push_claim tid h0 my_head ++ concat (map (spec_push_round my_head) rounds).

Definition spec_push_rounds_ok (c : params) (my_head : Z) (rounds : list (Z * Z * list Z)) : Prop :=
  Forall (fun r => r.1.1 + Q_SIZE c <= my_head /\
                   length r.2 = Z.to_nat (n_consumers_ c)) rounds.

(** The events of a whole [push(x)] by thread [tid]. *)
Definition spec_push_protocol (c : params) (tid x : Z) (tr : list event) : Prop :=
  exists h0 my_head rounds lt,
    spec_push_rounds_ok c my_head rounds /\
    my_head < lt + Q_SIZE c /\
    tr = spec_push_loop tid h0 my_head rounds ++ spec_push_finish c tid x my_head lt.

(** The same for pop. *)
Definition spec_pop_claim (tid t0 my_tail : Z) : list event :=
  [LoadTail t0; StoreThrTail tid t0; Fence; FetchAddTail my_tail;
   StoreThrTail tid my_tail].

Definition spec_pop_round (my_tail : Z) (r : Z * Z * list Z) : list event :=
  [TestLastHead my_tail r.1.1; Yield; LoadHead r.1.2]
  ++ imap (fun i v => LoadThrHead (Z.of_nat i) v) r.2
  ++ [StoreLastHead (spec_min r.1.2 r.2)].

Definition spec_pop_finish (c : params) (tid ret my_tail lh : Z) : list event :=
  [TestLastHead my_tail lh;
   LoadSlot my_tail (band my_tail (Q_SIZE c - 1)) ret;
   StoreThrTail tid ULONG_MAX].

Definition spec_pop_loop (tid t0 my_tail : Z) (rounds : list (Z * Z * list Z)) : list event :=
  spec_pop_claim tid t0 my_tail ++ concat (map (spec_pop_round my_tail) rounds).

Definition spec_pop_rounds_ok (c : params) (my_tail : Z) (rounds : list (Z * Z * list Z)) : Prop :=
  Forall (fun r => r.1.1 <= my_tail /\
                   length r.2 = Z.to_nat (n_producers_ c)) rounds.

(** The events of a whole [pop()] by thread [tid] that returns [ret]. *)
Definition spec_pop_protocol (c : params) (tid ret : Z) (tr : list event) : Prop :=
  exists t0 my_tail rounds lh,
    spec_pop_rounds_ok c my_tail rounds /\
    my_tail < lh /\
    tr = spec_pop_loop tid t0 my_tail rounds ++ spec_pop_finish c tid ret my_tail lh.

(** What an event says of the step that made it, in the words of
    section 4.3: a load names the value the queue holds, and a store or
    a fetch-and-add leaves the queue as the event has it, everything
    else untouched.  [tid] is the thread that takes the step, [q] the
    queue before it and [q'] the queue after it. *)
Definition spec_event_done (c : params) (tid : Z) (ev : event) (q q' : LockFreeQueue) : Prop :=
  match ev with
  | LoadHead v => v = head_ q /\ q' = q
  | LoadTail v => v = tail_ q /\ q' = q
  | StoreThrHead i v =>
      i = tid /\
      exists e, thr_p_ q !! Z.to_nat tid = Some e /\
        q' = set_thr_p_ (<[Z.to_nat tid := ThrPos.mk v (ThrPos.tail e)]> (thr_p_ q)) q
  | StoreThrTail i v =>
      i = tid /\
      exists e, thr_p_ q !! Z.to_nat tid = Some e /\
        q' = set_thr_p_ (<[Z.to_nat tid := ThrPos.mk (ThrPos.head e) v]> (thr_p_ q)) q
  | Fence | Yield => q' = q
  | FetchAddHead old => old = head_ q /\ q' = set_head_ (wrap (old + 1)) q
  | FetchAddTail old => old = tail_ q /\ q' = set_tail_ (wrap (old + 1)) q
  | TestLastTail mine lt =>
      (exists e, thr_p_ q !! Z.to_nat tid = Some e /\ mine = ThrPos.head e) /\
      lt = last_tail_ q /\ q' = q
  | TestLastHead mine lh =>
      (exists e, thr_p_ q !! Z.to_nat tid = Some e /\ mine = ThrPos.tail e) /\
      lh = last_head_ q /\ q' = q
  | LoadThrTail i v =>
      (exists e, thr_p_ q !! Z.to_nat i = Some e /\ v = ThrPos.tail e) /\ q' = q
  | LoadThrHead i v =>
      (exists e, thr_p_ q !! Z.to_nat i = Some e /\ v = ThrPos.head e) /\ q' = q
  | StoreLastTail v => q' = set_last_tail_ v q
  | StoreLastHead v => q' = set_last_head_ v q
  | StoreSlot mine idx x =>
      (exists e, thr_p_ q !! Z.to_nat tid = Some e /\ mine = ThrPos.head e) /\
      idx = band mine (Q_MASK c) /\
      (Z.to_nat idx < length (ptr_array_ q))%nat /\
      q' = set_ptr_array_ (<[Z.to_nat idx := x]> (ptr_array_ q)) q
  | LoadSlot mine idx x =>
      (exists e, thr_p_ q !! Z.to_nat tid = Some e /\ mine = ThrPos.tail e) /\
      idx = band mine (Q_MASK c) /\
      ptr_array_ q !! Z.to_nat idx = Some x /\ q' = q
  end.

(** The events of a call so far, by where the thread stands; [mine] is
    the thread's registry entry. *)
Definition ppc_trace (c : params) (tid mine : Z) (pc : ppc) (tr : list event) : Prop :=
  match pc with
  | PIdle | PLoadHead _ => tr = []
  | PStorePre _ h => tr = [LoadHead h]
  | PFence _ => exists h0, tr = [LoadHead h0; StoreThrHead tid h0]
  | PFetchAdd _ => exists h0, tr = [LoadHead h0; StoreThrHead tid h0; Fence]
  | PStoreRes _ h =>
      exists h0, tr = [LoadHead h0; StoreThrHead tid h0; Fence; FetchAddHead h]
  | PTest _ =>
      exists h0 rounds, spec_push_rounds_ok c mine rounds /\
        tr = spec_push_loop tid h0 mine rounds
  | PYield _ =>
      exists h0 rounds lt, spec_push_rounds_ok c mine rounds /\
        lt + Q_SIZE c <= mine /\
        tr = spec_push_loop tid h0 mine rounds ++ [TestLastTail mine lt]
  | PLoadTail _ =>
      exists h0 rounds lt, spec_push_rounds_ok c mine rounds /\
        lt + Q_SIZE c <= mine /\
        tr = spec_push_loop tid h0 mine rounds ++ [TestLastTail mine lt; Yield]
  | PScan _ i m =>
      exists h0 rounds lt t vs, spec_push_rounds_ok c mine rounds /\
        lt + Q_SIZE c <= mine /\
        i = Z.of_nat (length vs) /\ (length vs <= Z.to_nat (n_consumers_ c))%nat /\
        m = spec_min t vs /\
        tr = spec_push_loop tid h0 mine rounds
             ++ [TestLastTail mine lt; Yield; LoadTail t]
             ++ imap (fun i v => LoadThrTail (Z.of_nat i) v) vs
  | PWrite _ =>
      exists h0 rounds lt, spec_push_rounds_ok c mine rounds /\
        mine < lt + Q_SIZE c /\
        tr = spec_push_loop tid h0 mine rounds ++ [TestLastTail mine lt]
  | PRelease x =>
      exists h0 rounds lt, spec_push_rounds_ok c mine rounds /\
        mine < lt + Q_SIZE c /\
        tr = spec_push_loop tid h0 mine rounds
             ++ [TestLastTail mine lt; StoreSlot mine (band mine (Q_SIZE c - 1)) x]
  end.

Definition cpc_trace (c : params) (tid mine : Z) (pc : cpc) (tr : list event) : Prop :=
  match pc with
  | CIdle | CLoadTail => tr = []
  | CStorePre t => tr = [LoadTail t]
  | CFence => exists t0, tr = [LoadTail t0; StoreThrTail tid t0]
  | CFetchAdd => exists t0, tr = [LoadTail t0; StoreThrTail tid t0; Fence]
  | CStoreRes t =>
      exists t0, tr = [LoadTail t0; StoreThrTail tid t0; Fence; FetchAddTail t]
  | CTest =>
      exists t0 rounds, spec_pop_rounds_ok c mine rounds /\
        tr = spec_pop_loop tid t0 mine rounds
  | CYield =>
      exists t0 rounds lh, spec_pop_rounds_ok c mine rounds /\
        lh <= mine /\
        tr = spec_pop_loop tid t0 mine rounds ++ [TestLastHead mine lh]
  | CLoadHead =>
      exists t0 rounds lh, spec_pop_rounds_ok c mine rounds /\
        lh <= mine /\
        tr = spec_pop_loop tid t0 mine rounds ++ [TestLastHead mine lh; Yield]
  | CScan i m =>
      exists t0 rounds lh h vs, spec_pop_rounds_ok c mine rounds /\
        lh <= mine /\
        i = Z.of_nat (length vs) /\ (length vs <= Z.to_nat (n_producers_ c))%nat /\
        m = spec_min h vs /\
        tr = spec_pop_loop tid t0 mine rounds
             ++ [TestLastHead mine lh; Yield; LoadHead h]
             ++ imap (fun i v => LoadThrHead (Z.of_nat i) v) vs
  | CRead =>
      exists t0 rounds lh, spec_pop_rounds_ok c mine rounds /\
        mine < lh /\
        tr = spec_pop_loop tid t0 mine rounds ++ [TestLastHead mine lh]
  | CRelease ret =>
      exists t0 rounds lh, spec_pop_rounds_ok c mine rounds /\
        mine < lh /\
        tr = spec_pop_loop tid t0 mine rounds
             ++ [TestLastHead mine lh; LoadSlot mine (band mine (Q_SIZE c - 1)) ret]
  end.

(** Every thread's events so far fit the protocol, and so did each of
    its completed calls. *)
Record traces_inv (c : params) (s : system) : Prop := mkTracesInv {
  tr_prod_cur : forall p t, prods s !! p = Some t ->
      ppc_trace c (Z.of_nat p) (reg_head (thr_p_ (queue s)) p) (pc t) (cur t);
  tr_prod_hist : forall p t, prods s !! p = Some t ->
      Forall (fun e => spec_push_protocol c (Z.of_nat p) e.1 e.2) (hist t);
  tr_cons_cur : forall k t, cons s !! k = Some t ->
      cpc_trace c (Z.of_nat k) (reg_tail (thr_p_ (queue s)) k) (pc t) (cur t);
  tr_cons_hist : forall k t, cons s !! k = Some t ->
      Forall (fun e => spec_pop_protocol c (Z.of_nat k) e.1 e.2) (hist t)
}.


(** How many events of a call are a fetch-and-add on [head_], on [tail_]. *)
Definition is_FetchAddHead (e : event) : bool :=
  match e with FetchAddHead _ => true | _ => false end.

Definition is_FetchAddTail (e : event) : bool :=
  match e with FetchAddTail _ => true | _ => false end.

Fixpoint count_events (f : event -> bool) (tr : list event) : nat :=
  match tr with
  | [] => 0
  | e :: rest => (if f e then 1 else 0) + count_events f rest
  end.


(** ** One producer, one consumer *)

(** The arguments of the pushes a producer has made, the one it is in
    included, and the results of the pops a consumer has completed. *)
Definition pushed (t : thread ppc) : list Z :=
  map fst (hist t) ++ (if is_PIdle (pc t) then [] else [ppc_arg (pc t)]).

Definition popped (t : thread cpc) : list Z := map fst (hist t).

(** With one producer, where it stands fixes [head_] and its registry
    entry in terms of the number [J] of pushes it has completed. *)
Definition spsc_prod (q : LockFreeQueue) (J : Z) (pc : ppc) : Prop :=
  let mine := reg_head (thr_p_ q) 0 in
  match pc with
  | PIdle | PLoadHead _ => head_ q = J /\ mine = ULONG_MAX
  | PStorePre _ h => head_ q = J /\ mine = ULONG_MAX /\ h = J
  | PFence _ | PFetchAdd _ => head_ q = J /\ mine = J
  | PStoreRes _ h => head_ q = J + 1 /\ mine = J /\ h = J
  | PTest _ | PYield _ | PLoadTail _ | PScan _ _ _ | PWrite _ =>
      head_ q = J + 1 /\ mine = J
  | PRelease x =>
      head_ q = J + 1 /\ mine = J /\ ptr_array_ q !! Z.to_nat J = Some x
  end.

(** With one consumer, the same for [tail_] and the number [I] of pops
    completed; [done] are the completed pushes. *)
Definition spsc_cons (q : LockFreeQueue) (done : list (Z * list event)) (I : Z)
    (pc : cpc) : Prop :=
  let mine := reg_tail (thr_p_ q) 0 in
  let J := Z.of_nat (length done) in
  match pc with
  | CIdle | CLoadTail => tail_ q = I
  | CStorePre t => tail_ q = I /\ t = I
  | CFence | CFetchAdd => tail_ q = I /\ mine = I
  | CStoreRes t => tail_ q = I + 1 /\ t = I
  | CTest | CYield | CLoadHead => tail_ q = I + 1 /\ mine = I
  | CScan i m => tail_ q = I + 1 /\ mine = I /\ (1 <= i -> m <= J)
  | CRead => tail_ q = I + 1 /\ mine = I /\ I < J
  | CRelease ret =>
      tail_ q = I + 1 /\ mine = I /\
      exists e, done !! Z.to_nat I = Some e /\ e.1 = ret
  end.

Record spsc_facts (q : LockFreeQueue) (tp : thread ppc) (tc : thread cpc) : Prop :=
  mkSpsc {
  spsc_p : spsc_prod q (Z.of_nat (length (hist tp))) (pc tp);
  spsc_c : spsc_cons q (hist tp) (Z.of_nat (length (hist tc))) (pc tc);
  spsc_last_head : last_head_ q <= Z.of_nat (length (hist tp));
  spsc_slots : forall i e, hist tp !! i = Some e -> ptr_array_ q !! i = Some e.1;
  spsc_popped : forall i e, hist tc !! i = Some e ->
      exists e', hist tp !! i = Some e' /\ e'.1 = e.1
}.

(** The facts hold as long as no more than [Q_SIZE] pushes were made. *)
Definition spsc_inv (c : params) (s : system) : Prop :=
  exists tp tc, prods s = [tp] /\ cons s = [tc] /\
    (Z.of_nat (length (pushed tp)) <= Q_SIZE c -> spsc_facts (queue s) tp tc).


(** ** The serialized queue: what was pushed and what is stored *)

(** The arguments of the pushes among the calls, in order. *)
Definition pushes_of (cs : list NaiveQueue.call) : list Z :=
  flat_map (fun c => match c with NaiveQueue.Push x => [x] | NaiveQueue.Pop => [] end) cs.

(** After the pushes [P] and the pops that returned [out]: the counters
    count them, [out] is the front of [P] and slot [i] holds push [i]. *)
Record naive_inv (Q : Z) (q : NaiveQueue.t) (out P : list Z) : Prop := mkNaiveInv {
  ni_head : NaiveQueue.head_ q = Z.of_nat (length P);
  ni_tail : NaiveQueue.tail_ q = Z.of_nat (length out);
  ni_out : out = take (length out) P;
  ni_slots : forall i x, P !! i = Some x -> NaiveQueue.ptr_array_ q !! i = Some x;
  ni_len : length (NaiveQueue.ptr_array_ q) = Z.to_nat Q
}.

(** The schedule in which the producer makes all its pushes, none of
    which waits, and the consumer then makes as many pops: the first
    goes once round its wait loop, the others do not wait. *)
Definition sched_push_all_pop_all (xs : list Z) : list action :=
  concat (map (push_call 0) xs)
  ++ match xs with
     | [] => []
     | _ :: rest => pop_call_wait 0 1 ++ concat (map (fun _ => pop_call 0) rest)
     end.

(** ** Tickets: what the two fetch-and-add counters hand out

    A value returned by the fetch-and-add of line 197 (line 231) is a
    ticket for one slot. The definitions below read, off a state of the
    system, which tickets are held and how far their holders got, and,
    off the threads' events, which tickets had their slot written and
    which had it read. *)

(** How far the holder of a ticket got: still before or in its wait
    loop, past the loop with the slot access ahead, or past the slot
    access with the release ahead. *)
Inductive stage : Type := Waiting | Passed | Finished.

Definition push_hold (r : list ThrPos.t) (p : nat) (pc : ppc) : option (Z * stage) :=
  match pc with
  | PIdle | PLoadHead _ | PStorePre _ _ | PFence _ | PFetchAdd _ => None
  | PStoreRes _ h => Some (h, Waiting)
  | PTest _ | PYield _ | PLoadTail _ | PScan _ _ _ => Some (reg_head r p, Waiting)
  | PWrite _ => Some (reg_head r p, Passed)
  | PRelease _ => Some (reg_head r p, Finished)
  end.

Definition pop_hold (r : list ThrPos.t) (k : nat) (pc : cpc) : option (Z * stage) :=
  match pc with
  | CIdle | CLoadTail | CStorePre _ | CFence | CFetchAdd => None
  | CStoreRes t => Some (t, Waiting)
  | CTest | CYield | CLoadHead | CScan _ _ => Some (reg_tail r k, Waiting)
  | CRead => Some (reg_tail r k, Passed)
  | CRelease _ => Some (reg_tail r k, Finished)
  end.

(** All the events of a thread, oldest first. *)
Definition events_of {PC} (t : thread PC) : list event :=
  concat (map snd (hist t)) ++ cur t.

(** Ticket and pointer of a store into the slot array, of a load from it. *)
Definition store_of (e : event) : option (Z * Z) :=
  match e with StoreSlot h _ x => Some (h, x) | _ => None end.

Definition load_of (e : event) : option (Z * Z) :=
  match e with LoadSlot t _ x => Some (t, x) | _ => None end.

(** The stores of line 217 made so far by all producers, and the loads
    of line 254 made so far by all consumers. *)
Definition stores (s : system) : list (Z * Z) :=
  concat (map (fun t => omap store_of (events_of t)) (prods s)).

Definition loads (s : system) : list (Z * Z) :=
  concat (map (fun t => omap load_of (events_of t)) (cons s)).

(** The state of the queue in terms of tickets. *)
Record tickets : Type := mkTickets {
  t_head : Z;
  t_tail : Z;
  t_slots : list Z;
  t_prods : list (option (Z * stage));
  t_cons : list (option (Z * stage));
  t_stored : list (Z * Z);
  t_loaded : list (Z * Z)
}.

Definition tickets_of (s : system) : tickets :=
  mkTickets (head_ (queue s)) (tail_ (queue s)) (ptr_array_ (queue s))
    (imap (fun p t => push_hold (thr_p_ (queue s)) p (pc t)) (prods s))
    (imap (fun k t => pop_hold (thr_p_ (queue s)) k (pc t)) (cons s))
    (stores s) (loads s).

(** What a step of a thread does to the tickets. *)
Definition r_push_claim (p : nat) (a : tickets) : tickets :=
  mkTickets (t_head a + 1) (t_tail a) (t_slots a)
    (<[p := Some (t_head a, Waiting)]> (t_prods a)) (t_cons a)
    (t_stored a) (t_loaded a).

Definition r_push_stage (p : nat) (h : Z) (st : stage) (a : tickets) : tickets :=
  mkTickets (t_head a) (t_tail a) (t_slots a)
    (<[p := Some (h, st)]> (t_prods a)) (t_cons a)
    (t_stored a) (t_loaded a).

Definition r_push_write (Q : Z) (p : nat) (h x : Z) (a : tickets) : tickets :=
  mkTickets (t_head a) (t_tail a) (<[Z.to_nat (h mod Q) := x]> (t_slots a))
    (<[p := Some (h, Finished)]> (t_prods a)) (t_cons a)
    ((h, x) :: t_stored a) (t_loaded a).

Definition r_push_release (p : nat) (a : tickets) : tickets :=
  mkTickets (t_head a) (t_tail a) (t_slots a)
    (<[p := None]> (t_prods a)) (t_cons a)
    (t_stored a) (t_loaded a).

Definition r_pop_claim (k : nat) (a : tickets) : tickets :=
  mkTickets (t_head a) (t_tail a + 1) (t_slots a)
    (t_prods a) (<[k := Some (t_tail a, Waiting)]> (t_cons a))
    (t_stored a) (t_loaded a).

Definition r_pop_stage (k : nat) (t : Z) (st : stage) (a : tickets) : tickets :=
  mkTickets (t_head a) (t_tail a) (t_slots a)
    (t_prods a) (<[k := Some (t, st)]> (t_cons a))
    (t_stored a) (t_loaded a).

Definition r_pop_read (k : nat) (t v : Z) (a : tickets) : tickets :=
  mkTickets (t_head a) (t_tail a) (t_slots a)
    (t_prods a) (<[k := Some (t, Finished)]> (t_cons a))
    (t_stored a) ((t, v) :: t_loaded a).

Definition r_pop_release (k : nat) (a : tickets) : tickets :=
  mkTickets (t_head a) (t_tail a) (t_slots a)
    (t_prods a) (<[k := None]> (t_cons a))
    (t_stored a) (t_loaded a).

(** Thread [i] of [l] holds ticket [v] and got as far as [st]. *)
Definition holds (l : list (option (Z * stage))) (i : nat) (v : Z) (st : stage) : Prop :=
  l !! i = Some (Some (v, st)).

(** The steps in terms of tickets, each with what the code has checked
    when it takes it: a producer leaves its wait loop only with a ticket
    less than [Q] ahead of [tail_] and of every ticket a consumer holds;
    a consumer leaves its own only with a ticket below [head_] and below
    every ticket a producer holds. *)
Inductive ring_step (Q : Z) (a : tickets) : tickets -> Prop :=
| rs_silent : ring_step Q a a
| rs_push_claim p :
    t_prods a !! p = Some None -> ring_step Q a (r_push_claim p a)
| rs_push_pass p h :
    holds (t_prods a) p h Waiting ->
    h < t_tail a + Q ->
    (forall k t st, holds (t_cons a) k t st -> h < t + Q) ->
    ring_step Q a (r_push_stage p h Passed a)
| rs_push_write p h x :
    holds (t_prods a) p h Passed -> ring_step Q a (r_push_write Q p h x a)
| rs_push_release p h :
    holds (t_prods a) p h Finished -> ring_step Q a (r_push_release p a)
| rs_pop_claim k :
    t_cons a !! k = Some None -> ring_step Q a (r_pop_claim k a)
| rs_pop_pass k t :
    holds (t_cons a) k t Waiting ->
    t < t_head a ->
    (forall p h st, holds (t_prods a) p h st -> t < h) ->
    ring_step Q a (r_pop_stage k t Passed a)
| rs_pop_read k t v :
    holds (t_cons a) k t Passed ->
    t_slots a !! Z.to_nat (t mod Q) = Some v ->
    ring_step Q a (r_pop_read k t v a)
| rs_pop_release k t :
    holds (t_cons a) k t Finished -> ring_step Q a (r_pop_release k a).

(** Two states of the tickets that differ in the order of the recorded
    stores and loads only. *)
Record tickets_eqv (a a' : tickets) : Prop := mkTicketsEqv {
  te_head : t_head a' = t_head a;
  te_tail : t_tail a' = t_tail a;
  te_slots : t_slots a' = t_slots a;
  te_prods : t_prods a' = t_prods a;
  te_cons : t_cons a' = t_cons a;
  te_stored : t_stored a' ≡ₚ t_stored a;
  te_loaded : t_loaded a' ≡ₚ t_loaded a
}.

(** What the tickets satisfy in every reachable state. *)
Record ring_inv (Q : Z) (a : tickets) : Prop := mkRingInv {
  ri_len : length (t_slots a) = Z.to_nat Q;
  ri_head_nonneg : 0 <= t_head a;
  ri_tail_nonneg : 0 <= t_tail a;
  ri_prod_lt : forall p h st, holds (t_prods a) p h st -> 0 <= h < t_head a;
  ri_cons_lt : forall k t st, holds (t_cons a) k t st -> 0 <= t < t_tail a;
  ri_prod_room : forall p h st,
      holds (t_prods a) p h st -> st <> Waiting -> h < t_tail a + Q;
  ri_cons_room : forall k t st,
      holds (t_cons a) k t st -> st <> Waiting -> t < t_head a;
  ri_prod_distinct : forall p p' h st st',
      holds (t_prods a) p h st -> holds (t_prods a) p' h st' -> p = p';
  ri_cons_distinct : forall k k' t st st',
      holds (t_cons a) k t st -> holds (t_cons a) k' t st' -> k = k';
  ri_stored_range : forall h x,
      (h, x) ∈ t_stored a -> 0 <= h < t_head a /\ h < t_tail a + Q;
  ri_loaded_range : forall t v, (t, v) ∈ t_loaded a -> 0 <= t < t_tail a;
  ri_stored_nodup : NoDup (t_stored a).*1;
  ri_loaded_nodup : NoDup (t_loaded a).*1;
  ri_head_cover : forall h, 0 <= h < t_head a ->
      h ∈ (t_stored a).*1 \/
      exists p st, holds (t_prods a) p h st /\ st <> Finished;
  ri_tail_cover : forall t, 0 <= t < t_tail a ->
      t ∈ (t_loaded a).*1 \/
      exists k st, holds (t_cons a) k t st /\ st <> Finished;
  ri_unwritten : forall p h st,
      holds (t_prods a) p h st -> st <> Finished -> h ∉ (t_stored a).*1;
  ri_unread : forall k t st,
      holds (t_cons a) k t st -> st <> Finished -> t ∉ (t_loaded a).*1;
  ri_slots : forall h x,
      (h, x) ∈ t_stored a -> h ∉ (t_loaded a).*1 ->
      t_slots a !! Z.to_nat (h mod Q) = Some x;
  ri_prod_passed : forall p h st k t st',
      holds (t_prods a) p h st -> st <> Waiting ->
      holds (t_cons a) k t st' -> h < t + Q;
  ri_cons_passed : forall k t st p h st',
      holds (t_cons a) k t st -> st <> Waiting ->
      holds (t_prods a) p h st' -> t < h;
  ri_stored_held : forall h x k t st,
      (h, x) ∈ t_stored a -> holds (t_cons a) k t st -> h < t + Q;
  ri_sub : forall tv, tv ∈ t_loaded a -> tv ∈ t_stored a
}.

(** No thread is inside a call. *)
Definition quiescent (s : system) : Prop :=
  (forall p t, prods s !! p = Some t -> pc t = PIdle) /\
  (forall k t, cons s !! k = Some t -> pc t = CIdle).

(** The slot of the array a ticket stands for, as lines 217 and 254
    compute it. *)
Definition slot_of (c : params) (v : Z) : nat := Z.to_nat (band v (Q_MASK c)).

(** One producer and one consumer on a queue of two slots: two pushes,
    two pops, then a third push, which reuses slot 0 after once round its
    wait loop, and a third pop. *)
Definition sched_slot_reuse : list action :=
  push_call 0 7 ++ push_call 0 8 ++ pop_call_wait 0 1 ++ pop_call 0
  ++ push_call_wait 0 9 1 ++ pop_call_wait 0 1.

(** Two producers on a queue of two slots, each stopped in front of its
    store into the slot array. *)
Definition sched_two_writers : list action :=
  (CallPush 0 7 :: replicate 6 (StepPush 0))
  ++ (CallPush 1 8 :: replicate 6 (StepPush 1)).

(** ** One thread at a time

    What the queue holds when no call is in progress, as a list of items
    (oldest first): every registry entry is the sentinel, [head_ - tail_]
    is the number of items, the cached bounds are lower bounds of the
    counters, and item [i] sits in the slot of ticket [tail_ + i]. *)
Definition sentinel : ThrPos.t := ThrPos.mk ULONG_MAX ULONG_MAX.

Record holds_items (c : params) (q : LockFreeQueue) (L : list Z) : Prop := mkHoldsItems {
  hi_reg : thr_p_ q = replicate (Z.to_nat (n_threads c)) sentinel;
  hi_arr : length (ptr_array_ q) = Z.to_nat (Q_SIZE c);
  hi_tail : 0 <= tail_ q;
  hi_head : head_ q = tail_ q + Z.of_nat (length L);
  hi_room : Z.of_nat (length L) <= Q_SIZE c;
  hi_last_tail : 0 <= last_tail_ q <= tail_ q;
  hi_last_head : 0 <= last_head_ q <= head_ q;
  hi_slots : forall i x, L !! i = Some x ->
      ptr_array_ q !! slot_of c (tail_ q + Z.of_nat i) = Some x
}.

(** Where a producer stands while it goes round its wait loop, and what
    keeps it there: its ticket is [Q_SIZE] or more beyond [tail_]. *)
Definition push_stuck (c : params) (tid : Z) (q : LockFreeQueue) (pc : ppc) : Prop :=
  0 <= tid < n_threads c /\
  length (thr_p_ q) = Z.to_nat (n_threads c) /\
  (forall i e, thr_p_ q !! i = Some e -> 0 <= ThrPos.tail e) /\
  0 <= last_tail_ q <= tail_ q /\
  0 <= Q_SIZE c /\
  tail_ q + Q_SIZE c <= reg_head (thr_p_ q) (Z.to_nat tid) <= ULONG_MAX /\
  match pc with
  | PTest _ | PYield _ | PLoadTail _ => True
  | PScan _ i m => 0 <= i /\ 0 <= m <= tail_ q
  | _ => False
  end.

(** The same for a consumer: its ticket is [head_] or beyond. *)
Definition pop_stuck (c : params) (tid : Z) (q : LockFreeQueue) (pc : cpc) : Prop :=
  0 <= tid < n_threads c /\
  length (thr_p_ q) = Z.to_nat (n_threads c) /\
  last_head_ q <= head_ q /\
  head_ q <= reg_tail (thr_p_ q) (Z.to_nat tid) /\
  match pc with
  | CTest | CYield | CLoadHead => True
  | CScan i m => 0 <= i /\ m <= head_ q
  | _ => False
  end.

(** ** The serialized queue as a list of items

    The items the queue holds, oldest first: [head_ - tail_] is their
    number and item [i] sits in slot [(tail_ + i) & Q_MASK]. *)
Record naive_holds (Q : Z) (q : NaiveQueue.t) (L : list Z) : Prop := mkNaiveHolds {
  nh_tail : 0 <= NaiveQueue.tail_ q;
  nh_head : NaiveQueue.head_ q = NaiveQueue.tail_ q + Z.of_nat (length L);
  nh_room : Z.of_nat (length L) <= Q;
  nh_len : length (NaiveQueue.ptr_array_ q) = Z.to_nat Q;
  nh_slots : forall i x, L !! i = Some x ->
      NaiveQueue.ptr_array_ q
        !! Z.to_nat (band (NaiveQueue.tail_ q + Z.of_nat i) (NaiveQueue.Q_MASK Q))
      = Some x
}.

(** Calls made one at a time on the lock-free queue, each by the thread
    named with it and each run to its end before the next starts; the
    second component collects what the pops returned. *)
Fixpoint alone_run (fuel : nat) (c : params) (cs : list (Z * NaiveQueue.call))
    (q : LockFreeQueue) (out : list Z) : outcome (LockFreeQueue * list Z) :=
  match cs with
  | [] => Ok (q, out)
  | (tid, NaiveQueue.Push x) :: cs' =>
      r <~ push_alone fuel c tid x q ;;
      alone_run fuel c cs' (fst r) out
  | (tid, NaiveQueue.Pop) :: cs' =>
      r <~ pop_alone fuel c tid q ;;
      alone_run fuel c cs' (fst (fst r)) (out ++ [snd (fst r)])
  end.

(** ** The registry between calls *)

(** A producer that has not yet written its registry entry in the call
    it is in, if it is in one; the same for a consumer. *)
Definition before_publish_p (pc : ppc) : bool :=
  match pc with PIdle | PLoadHead _ | PStorePre _ _ => true | _ => false end.

Definition before_publish_c (pc : cpc) : bool :=
  match pc with CIdle | CLoadTail | CStorePre _ => true | _ => false end.

(** The [head] field of entry [i] is the sentinel unless producer [i]
    has written it in the call it is in, and the same for the [tail]
    field and consumer [i]. *)
Definition registry_restored (s : system) : Prop :=
  (forall i, (forall t, prods s !! i = Some t -> before_publish_p (pc t) = true) ->
     reg_head (thr_p_ (queue s)) i = ULONG_MAX) /\
  (forall i, (forall t, cons s !! i = Some t -> before_publish_c (pc t) = true) ->
     reg_tail (thr_p_ (queue s)) i = ULONG_MAX).


(** ** Calls and their tickets *)

(** The ticket a call has drawn: what its fetch-and-add returned. *)
Definition faa_head_of (e : event) : option Z :=
  match e with FetchAddHead h => Some h | _ => None end.

Definition faa_tail_of (e : event) : option Z :=
  match e with FetchAddTail t => Some t | _ => None end.

Definition push_ticket (tr : list event) : option Z := head (omap faa_head_of tr).
Definition pop_ticket (tr : list event) : option Z := head (omap faa_tail_of tr).

(** The calls a producer has made, the one it is in included, each with
    its argument and its events so far. *)
Definition push_calls (t : thread ppc) : list (Z * list event) :=
  hist t ++ (if is_PIdle (pc t) then [] else [(ppc_arg (pc t), cur t)]).

(** Everything the producers were given, and everything the consumers
    have returned. *)
Definition all_pushed (s : system) : list Z := concat (map pushed (prods s)).
Definition all_popped (s : system) : list Z := concat (map popped (cons s)).

(** ** The test: lines 276-393

    [run_test] on the lock-free queue: [PRODUCERS] producers each push
    the addresses of the cells of [x] that are theirs, [CONSUMERS]
    consumers pop as long as the shared counter [n] tells them to, and
    the cells are checked once every thread has ended. *)

Definition X_EMPTY : Z := 0.
Definition X_MISSED : Z := 255.

(** [(q_type)v]: the conversion to [unsigned char]. *)
Definition to_q_type (v : Z) : Z := v mod 256.

(** What [n.fetch_add(1)] stores into the [atomic<int>]. *)
Definition wrap_int (z : Z) : Z := (z + 2147483648) mod 4294967296 - 2147483648.

(** The constants of the test: the queue's ([QUEUE_SIZE], [PRODUCERS],
    [CONSUMERS]), [N], and the address of [x]. *)
Record test_config : Type := mkTest {
  t_queue : params;
  t_N : Z;
  t_x : Z
}.

Definition PRODUCERS (g : test_config) : Z := n_producers_ (t_queue g).
Definition CONSUMERS (g : test_config) : Z := n_consumers_ (t_queue g).

(** [N * PRODUCERS], the number of cells of [x]. *)
Definition x_size (g : test_config) : Z := t_N g * PRODUCERS g.

(** The cell of [x] a pointer points to, if any. *)
Definition x_index (g : test_config) (v : Z) : option nat :=
  if (t_x g <=? v) && (v <? t_x g + x_size g) then Some (Z.to_nat (v - t_x g)) else None.

Definition INT_MAX : Z := 2147483647.

(** The constants are what the test takes them to be: the size of the
    queue is a power of two, [x] is not at address 0, and [N],
    [PRODUCERS], [CONSUMERS] and the values of [n] are [int]s that are
    not negative. *)
Record test_fits (g : test_config) : Prop := mkTestFits {
  tf_pow2 : is_pow2 (Q_SIZE (t_queue g)) = true;
  tf_x : 0 < t_x g;
  tf_N : 0 <= t_N g;
  tf_producers : 0 <= PRODUCERS g <= INT_MAX;
  tf_consumers : 0 <= CONSUMERS g;
  tf_int : x_size g + CONSUMERS g <= INT_MAX
}.

(** Where a producer stands: at the test of its [for] loop with the
    loop variable [i], inside [push(x + i)], or past the loop.  Where a
    consumer stands: at the [fetch_add] of its [while] loop, inside
    [pop()], at the two [assert]s with the pointer [v] it got, at the
    write through [v], or past the loop. *)
Inductive producer_at : Type :=
| AtFor (i : Z)
| InPush (i : Z)
| ProducerEnded.

Inductive consumer_at : Type :=
| AtWhile
| InPop
| AtAssert (v : Z)
| AtMark (v : Z)
| ConsumerEnded.

Record test_state : Type := mkTestState {
  ts_sys : system;
  ts_x : list Z;
  ts_n : Z;
  ts_prods : list producer_at;
  ts_cons : list consumer_at
}.

(** What a step of the test comes to: the next state; an [assert] of
    line 331 or 332 that fails; a pointer dereferenced that does not
    point into [x]; a step of [push] or [pop] that does not succeed; a
    step asked of a thread that has ended. *)
Inductive test_outcome (A : Type) : Type :=
| Done (a : A)
| Asserted
| Wild
| QueueFault
| Stuck.

Arguments Done {A} a.
Arguments Asserted {A}.
Arguments Wild {A}.
Arguments QueueFault {A}.
Arguments Stuck {A}.

(** [Producer::operator()], lines 308-316, step by step. *)
Definition producer_step (g : test_config) (p : nat) (st : test_state)
  : test_outcome test_state :=
  match ts_prods st !! p with
  | Some (AtFor i) =>
      if i <? x_size g then
        match sys_step (t_queue g) (CallPush p (t_x g + i)) (ts_sys st) with
        | Ok s' =>
            Done (mkTestState s' (<[Z.to_nat i := X_MISSED]> (ts_x st)) (ts_n st)
                    (<[p := InPush i]> (ts_prods st)) (ts_cons st))
        | _ => QueueFault
        end
      else
        Done (mkTestState (ts_sys st) (ts_x st) (ts_n st)
                (<[p := ProducerEnded]> (ts_prods st)) (ts_cons st))
  | Some (InPush i) =>
      match sys_step (t_queue g) (StepPush p) (ts_sys st) with
      | Ok s' =>
          let returned :=
            match prods s' !! p with Some t => is_PIdle (pc t) | None => false end in
          Done (mkTestState s' (ts_x st) (ts_n st)
                  (<[p := if returned then AtFor (wrap (i + PRODUCERS g)) else InPush i]>
                     (ts_prods st))
                  (ts_cons st))
      | _ => QueueFault
      end
  | Some ProducerEnded | None => Stuck
  end.

(** [Consumer::operator()], lines 325-335, step by step. *)
Definition consumer_step (g : test_config) (k : nat) (st : test_state)
  : test_outcome test_state :=
  match ts_cons st !! k with
  | Some AtWhile =>
      let n' := wrap_int (ts_n st + 1) in
      if ts_n st <? x_size g then
        match sys_step (t_queue g) (CallPop k) (ts_sys st) with
        | Ok s' =>
            Done (mkTestState s' (ts_x st) n' (ts_prods st) (<[k := InPop]> (ts_cons st)))
        | _ => QueueFault
        end
      else
        Done (mkTestState (ts_sys st) (ts_x st) n' (ts_prods st)
                (<[k := ConsumerEnded]> (ts_cons st)))
  | Some InPop =>
      match sys_step (t_queue g) (StepPop k) (ts_sys st) with
      | Ok s' =>
          let next :=
            match cons s' !! k with
            | Some t => if is_CIdle (pc t) then AtAssert (default 0 (last (popped t)))
                        else InPop
            | None => InPop
            end in
          Done (mkTestState s' (ts_x st) (ts_n st) (ts_prods st) (<[k := next]> (ts_cons st)))
      | _ => QueueFault
      end
  | Some (AtAssert v) =>
      if v =? 0 then Asserted
      else
        match x_index g v with
        | Some i =>
            match ts_x st !! i with
            | Some b =>
                if b =? X_MISSED then
                  Done (mkTestState (ts_sys st) (ts_x st) (ts_n st) (ts_prods st)
                          (<[k := AtMark v]> (ts_cons st)))
                else Asserted
            | None => Wild
            end
        | None => Wild
        end
  | Some (AtMark v) =>
      match x_index g v with
      | Some i =>
          Done (mkTestState (ts_sys st)
                  (<[i := to_q_type (Z.of_nat k + 1)]> (ts_x st)) (ts_n st)
                  (ts_prods st) (<[k := AtWhile]> (ts_cons st)))
      | None => Wild
      end
  | Some ConsumerEnded | None => Stuck
  end.

(** The threads of [run_test], under a schedule. *)
Inductive test_action : Type :=
| RunProducer (p : nat)
| RunConsumer (k : nat).

Definition test_step (g : test_config) (a : test_action) (st : test_state)
  : test_outcome test_state :=
  match a with
  | RunProducer p => producer_step g p st
  | RunConsumer k => consumer_step g k st
  end.

Fixpoint test_run (g : test_config) (sched : list test_action) (st : test_state)
  : test_outcome test_state :=
  match sched with
  | [] => Done st
  | a :: rest =>
      match test_step g a st with
      | Done st' => test_run g rest st'
      | Asserted => Asserted
      | Wild => Wild
      | QueueFault => QueueFault
      | Stuck => Stuck
      end
  end.

(** Lines 344-360: [n] and [x] are reset, producer [i] starts with
    [thr_id() = i], and so does consumer [i]. *)
Definition test_start (g : test_config) (q : LockFreeQueue) : test_state :=
  mkTestState (sys_init (t_queue g) q)
    (replicate (Z.to_nat (x_size g)) X_EMPTY) 0
    (map (fun p => AtFor (Z.of_nat p)) (seq 0 (Z.to_nat (PRODUCERS g))))
    (replicate (Z.to_nat (CONSUMERS g)) AtWhile).

Definition is_ProducerEnded (a : producer_at) : bool :=
  match a with ProducerEnded => true | _ => false end.
Definition is_ConsumerEnded (a : consumer_at) : bool :=
  match a with ConsumerEnded => true | _ => false end.
Definition is_InPop (a : consumer_at) : bool :=
  match a with InPop => true | _ => false end.

(** Lines 363-364: every thread has been joined. *)
Definition all_joined (st : test_state) : bool :=
  forallb is_ProducerEnded (ts_prods st) && forallb is_ConsumerEnded (ts_cons st).

(** Lines 367-379: [res] after the loop over [x]. *)
Fixpoint check_data (xs : list Z) : Z :=
  match xs with
  | [] => 0
  | b :: rest =>
      if b =? X_EMPTY then 1
      else if b =? X_MISSED then 2
      else check_data rest
  end.

(** [run_test], lines 338-381, under a schedule of its threads: [res],
    which is 0 when the test prints Passed. *)
Definition run_test (g : test_config) (sched : list test_action) (q : LockFreeQueue)
  : test_outcome Z :=
  match test_run g sched (test_start g q) with
  | Done st => if all_joined st then Done (check_data (ts_x st)) else Stuck
  | Asserted => Asserted
  | Wild => Wild
  | QueueFault => QueueFault
  | Stuck => Stuck
  end.

(** The pointer a consumer holds between its [pop] and its write. *)
Definition pending (a : consumer_at) : option Z :=
  match a with AtAssert v | AtMark v => Some v | _ => None end.

(** How many entries of a list satisfy a test. *)
Definition how_many {A} (f : A -> bool) (l : list A) : nat :=
  length (List.filter f l).

(** Where producer [p] stands in the test against where it stands in
    the queue: its pushes so far are the addresses of [x + p],
    [x + p + PRODUCERS], ... in this order. *)
Definition producer_ok (g : test_config) (p : nat) (a : producer_at) (t : thread ppc) : Prop :=
  (forall j v, pushed t !! j = Some v ->
     v = t_x g + (Z.of_nat p + Z.of_nat j * PRODUCERS g) /\
     Z.of_nat p + Z.of_nat j * PRODUCERS g < x_size g) /\
  match a with
  | AtFor i => pc t = PIdle /\ i = Z.of_nat p + Z.of_nat (length (hist t)) * PRODUCERS g
  | InPush i =>
      is_PIdle (pc t) = false /\
      i = Z.of_nat p + Z.of_nat (length (hist t)) * PRODUCERS g
  | ProducerEnded => pc t = PIdle
  end.

Definition consumer_ok (a : consumer_at) (t : thread cpc) : Prop :=
  match a with
  | AtWhile | ConsumerEnded => pc t = CIdle
  | InPop => is_CIdle (pc t) = false
  | AtAssert v | AtMark v => pc t = CIdle /\ last (popped t) = Some v
  end.

(** The cell of [x] a pointer points to holds [b]. *)
Definition cell_is (g : test_config) (xs : list Z) (v b : Z) : Prop :=
  exists i, x_index g v = Some i /\ xs !! i = Some b.

(** What the test keeps, after [steps] steps: the queue is in a
    reachable state; the threads stand in the queue where the test has
    them; a cell whose address was popped, and written through, holds
    the mark of its consumer; a cell whose address was pushed, and not
    yet written through, holds [X_MISSED]; and [n] counts the pops
    started and the consumers that have ended. *)
Record test_inv (g : test_config) (steps : Z) (st : test_state) : Prop := mkTestInv {
  ti_reach : exists sched,
      Z.of_nat (length sched) <= steps /\ reaches (t_queue g) sched (ts_sys st);
  ti_x_len : length (ts_x st) = Z.to_nat (x_size g);
  ti_prods_len : length (ts_prods st) = length (prods (ts_sys st));
  ti_cons_len : length (ts_cons st) = length (cons (ts_sys st));
  ti_prod : forall p a t,
      ts_prods st !! p = Some a -> prods (ts_sys st) !! p = Some t -> producer_ok g p a t;
  ti_cons : forall k a t,
      ts_cons st !! k = Some a -> cons (ts_sys st) !! k = Some t -> consumer_ok a t;
  ti_marked : forall k a t v,
      ts_cons st !! k = Some a -> cons (ts_sys st) !! k = Some t ->
      v ∈ popped t -> pending a <> Some v ->
      cell_is g (ts_x st) v (to_q_type (Z.of_nat k + 1));
  ti_missed : forall v,
      v ∈ all_pushed (ts_sys st) ->
      v ∉ all_popped (ts_sys st) \/
        (exists k a, ts_cons st !! k = Some a /\ pending a = Some v) ->
      cell_is g (ts_x st) v X_MISSED;
  ti_n : 0 <= ts_n st;
  ti_started :
      Z.of_nat (length (all_popped (ts_sys st))) + Z.of_nat (how_many is_InPop (ts_cons st))
      = Z.min (ts_n st) (x_size g);
  ti_ended :
      Z.of_nat (how_many is_ConsumerEnded (ts_cons st)) = Z.max 0 (ts_n st - x_size g)
}.

(** A small instance of the test: two producers, two consumers, a
    queue of two slots, [N = 2] and [x] at address 1000; the schedule
    that lets the four threads take turns until each has ended. *)
Definition test_small : test_config := mkTest (mkParams 2 2 2) 2 1000.

Definition sched_take_turns : list test_action :=
  concat (replicate 25 [RunProducer 0; RunConsumer 0; RunProducer 1; RunConsumer 1]) ++
  concat (replicate 10 [RunConsumer 0; RunConsumer 1]).

(** ** The test on the serialized queue

    The same [run_test], on [NaiveQueue]: a call of [push] or [pop]
    takes effect in one step, under the mutex, and has no step to take
    while its wait predicate is false.  The state keeps, next to the
    queue, the arguments of the pushes and the results of the pops
    that took effect, in the order the mutex gave them. *)
Record naive_test_state : Type := mkNaiveTest {
  nt_queue : NaiveQueue.t;
  nt_pushed : list Z;
  nt_popped : list Z;
  nt_x : list Z;
  nt_n : Z;
  nt_prods : list producer_at;
  nt_cons : list consumer_at
}.

(** [Producer::operator()]: the write to [x[i]], then [push(x + i)]. *)
Definition naive_producer_step (g : test_config) (p : nat) (st : naive_test_state)
  : test_outcome naive_test_state :=
  match nt_prods st !! p with
  | Some (AtFor i) =>
      if i <? x_size g then
        Done (mkNaiveTest (nt_queue st) (nt_pushed st) (nt_popped st)
                (<[Z.to_nat i := X_MISSED]> (nt_x st)) (nt_n st)
                (<[p := InPush i]> (nt_prods st)) (nt_cons st))
      else
        Done (mkNaiveTest (nt_queue st) (nt_pushed st) (nt_popped st) (nt_x st) (nt_n st)
                (<[p := ProducerEnded]> (nt_prods st)) (nt_cons st))
  | Some (InPush i) =>
      match NaiveQueue.push (Q_SIZE (t_queue g)) (t_x g + i) (nt_queue st) with
      | Some q' =>
          Done (mkNaiveTest q' (nt_pushed st ++ [t_x g + i]) (nt_popped st)
                  (nt_x st) (nt_n st)
                  (<[p := AtFor (wrap (i + PRODUCERS g))]> (nt_prods st)) (nt_cons st))
      | None => Stuck
      end
  | Some ProducerEnded | None => Stuck
  end.

(** [Consumer::operator()]: [pop()] returns in one step once the queue
    is not empty; the asserts and the write are as on the lock-free
    queue. *)
Definition naive_consumer_step (g : test_config) (k : nat) (st : naive_test_state)
  : test_outcome naive_test_state :=
  match nt_cons st !! k with
  | Some AtWhile =>
      Done (mkNaiveTest (nt_queue st) (nt_pushed st) (nt_popped st) (nt_x st)
              (wrap_int (nt_n st + 1)) (nt_prods st)
              (<[k := if nt_n st <? x_size g then InPop else ConsumerEnded]> (nt_cons st)))
  | Some InPop =>
      if NaiveQueue.not_empty (nt_queue st) then
        match NaiveQueue.pop (Q_SIZE (t_queue g)) (nt_queue st) with
        | Some (v, q') =>
            Done (mkNaiveTest q' (nt_pushed st) (nt_popped st ++ [v]) (nt_x st) (nt_n st)
                    (nt_prods st) (<[k := AtAssert v]> (nt_cons st)))
        | None => QueueFault
        end
      else Stuck
  | Some (AtAssert v) =>
      if v =? 0 then Asserted
      else
        match x_index g v with
        | Some i =>
            match nt_x st !! i with
            | Some b =>
                if b =? X_MISSED then
                  Done (mkNaiveTest (nt_queue st) (nt_pushed st) (nt_popped st) (nt_x st)
                          (nt_n st) (nt_prods st) (<[k := AtMark v]> (nt_cons st)))
                else Asserted
            | None => Wild
            end
        | None => Wild
        end
  | Some (AtMark v) =>
      match x_index g v with
      | Some i =>
          Done (mkNaiveTest (nt_queue st) (nt_pushed st) (nt_popped st)
                  (<[i := to_q_type (Z.of_nat k + 1)]> (nt_x st)) (nt_n st)
                  (nt_prods st) (<[k := AtWhile]> (nt_cons st)))
      | None => Wild
      end
  | Some ConsumerEnded | None => Stuck
  end.

Definition naive_test_step (g : test_config) (a : test_action) (st : naive_test_state)
  : test_outcome naive_test_state :=
  match a with
  | RunProducer p => naive_producer_step g p st
  | RunConsumer k => naive_consumer_step g k st
  end.

Fixpoint naive_test_run (g : test_config) (sched : list test_action) (st : naive_test_state)
  : test_outcome naive_test_state :=
  match sched with
  | [] => Done st
  | a :: rest =>
      match naive_test_step g a st with
      | Done st' => naive_test_run g rest st'
      | Asserted => Asserted
      | Wild => Wild
      | QueueFault => QueueFault
      | Stuck => Stuck
      end
  end.

Definition naive_test_start (g : test_config) (q : NaiveQueue.t) : naive_test_state :=
  mkNaiveTest q [] []
    (replicate (Z.to_nat (x_size g)) X_EMPTY) 0
    (map (fun p => AtFor (Z.of_nat p)) (seq 0 (Z.to_nat (PRODUCERS g))))
    (replicate (Z.to_nat (CONSUMERS g)) AtWhile).

(** [run_test] on the serialized queue, under a schedule of its threads. *)
Definition run_test_naive (g : test_config) (sched : list test_action) (q : NaiveQueue.t)
  : test_outcome Z :=
  match naive_test_run g sched (naive_test_start g q) with
  | Done st =>
      if forallb is_ProducerEnded (nt_prods st) && forallb is_ConsumerEnded (nt_cons st)
      then Done (check_data (nt_x st)) else Stuck
  | Asserted => Asserted
  | Wild => Wild
  | QueueFault => QueueFault
  | Stuck => Stuck
  end.

(** [main], lines 383-393: the two queues are constructed and tested
    one after the other; [blk_thr], [blk_arr] and [blk_naive] are what
    the three [memalign] calls return. *)
Definition main (g : test_config) (blk_thr blk_arr blk_naive : option (list Z))
    (sched sched_naive : list test_action) : test_outcome (Z * Z) :=
  match LockFreeQueue_new (t_queue g) blk_thr blk_arr with
  | Ok lf_q =>
      match run_test g sched lf_q with
      | Done res =>
          match NaiveQueue.new blk_naive with
          | Ok n_q =>
              match run_test_naive g sched_naive n_q with
              | Done res' => Done (res, res')
              | Asserted => Asserted
              | Wild => Wild
              | QueueFault => QueueFault
              | Stuck => Stuck
              end
          | _ => Asserted
          end
      | Asserted => Asserted
      | Wild => Wild
      | QueueFault => QueueFault
      | Stuck => Stuck
      end
  | _ => Asserted
  end.

(** Up to where the addresses of a producer have been pushed. *)
Definition pushed_below (g : test_config) (a : producer_at) : Z :=
  match a with
  | AtFor i | InPush i => i
  | ProducerEnded => x_size g
  end.

(** What the test keeps on the serialized queue. *)
Record naive_test_inv (g : test_config) (st : naive_test_state) : Prop := mkNaiveTestInv {
  nti_queue : exists L,
      naive_holds (Q_SIZE (t_queue g)) (nt_queue st) L /\
      nt_pushed st = nt_popped st ++ L;
  nti_head : NaiveQueue.head_ (nt_queue st) = Z.of_nat (length (nt_pushed st));
  nti_x_len : length (nt_x st) = Z.to_nat (x_size g);
  nti_prods_len : length (nt_prods st) = Z.to_nat (PRODUCERS g);
  nti_cons_len : length (nt_cons st) = Z.to_nat (CONSUMERS g);
  nti_loop : forall p a, nt_prods st !! p = Some a -> a <> ProducerEnded ->
      exists J : nat, pushed_below g a = Z.of_nat p + Z.of_nat J * PRODUCERS g;
  nti_in_push : forall p i, nt_prods st !! p = Some (InPush i) ->
      i < x_size g /\ cell_is g (nt_x st) (t_x g + i) X_MISSED;
  nti_pushed : forall v, v ∈ nt_pushed st ->
      exists p a (j : nat),
        nt_prods st !! p = Some a /\
        v = t_x g + (Z.of_nat p + Z.of_nat j * PRODUCERS g) /\
        Z.of_nat p + Z.of_nat j * PRODUCERS g < pushed_below g a /\
        Z.of_nat p + Z.of_nat j * PRODUCERS g < x_size g;
  nti_nodup : NoDup (nt_pushed st);
  nti_pending : forall k a v,
      nt_cons st !! k = Some a -> pending a = Some v -> v ∈ nt_popped st;
  nti_pending_one : forall k1 k2 a1 a2 v,
      nt_cons st !! k1 = Some a1 -> nt_cons st !! k2 = Some a2 ->
      pending a1 = Some v -> pending a2 = Some v -> k1 = k2;
  nti_marked : forall v, v ∈ nt_popped st ->
      (exists k a, nt_cons st !! k = Some a /\ pending a = Some v) \/
      (exists k : nat, Z.of_nat k < CONSUMERS g /\
         cell_is g (nt_x st) v (to_q_type (Z.of_nat k + 1)));
  nti_missed : forall v, v ∈ nt_pushed st ->
      v ∉ nt_popped st \/ (exists k a, nt_cons st !! k = Some a /\ pending a = Some v) ->
      cell_is g (nt_x st) v X_MISSED;
  nti_n : 0 <= nt_n st;
  nti_started :
      Z.of_nat (length (nt_popped st)) + Z.of_nat (how_many is_InPop (nt_cons st))
      = Z.min (nt_n st) (x_size g);
  nti_ended :
      Z.of_nat (how_many is_ConsumerEnded (nt_cons st)) = Z.max 0 (nt_n st - x_size g)
}.

(** The schedule that lets the four threads of the small instance take
    turns on the serialized queue until each has ended. *)
Definition sched_naive_turns : list test_action :=
  concat (replicate 5 [RunProducer 0; RunProducer 1; RunConsumer 0; RunConsumer 1]) ++
  concat (replicate 4 [RunConsumer 0; RunConsumer 1]).

(** * Proofs *)

(** ** Machine integers *)

Lemma wrap_small z : 0 <= z <= ULONG_MAX -> wrap z = z.
Proof. unfold wrap, ULONG_MAX. intros H. apply Z.mod_small. lia. Qed.

Lemma wrap_range z : 0 <= wrap z <= ULONG_MAX.
Proof.
  unfold wrap, ULONG_MAX.
  pose proof (Z.mod_pos_bound z 18446744073709551616). lia.
Qed.

Lemma band_le x m : 0 <= x -> 0 <= m -> 0 <= band x m <= m.
Proof.
  intros Hx Hm. unfold band.
  rewrite <- (Z2N.id x Hx), <- (Z2N.id m Hm), <- N2Z.inj_land.
  split; [apply N2Z.is_nonneg|].
  apply N2Z.inj_le, N.land_le_r.
Qed.

(** ** Construction *)

Lemma ThrPos_array_memset (n : nat) (rest : list Z) :
  ThrPos_array n (replicate (16 * n)%nat 255 ++ rest)
  = replicate n (ThrPos.mk ULONG_MAX ULONG_MAX).
Proof.
  induction n as [|k IH]; [done|].
  replace (16 * S k)%nat with (16 + 16 * k)%nat by lia.
  rewrite replicate_add, <- app_assoc.
  remember (replicate (16 * k)%nat 255 ++ rest) as tl eqn:Etl.
  cbn [ThrPos_array replicate app take drop].
  rewrite take_0, drop_0, IH. reflexivity.
Qed.

Lemma thr_p_bytes_len c : thr_p_bytes c = sizeof_ThrPos * thr_p_len c /\ 0 <= thr_p_len c.
Proof.
  unfold thr_p_len, thr_p_bytes, wrap, sizeof_ThrPos.
  change 18446744073709551616 with (16 * 1152921504606846976).
  rewrite Z.mul_mod_distr_l by lia.
  rewrite (Z.mul_comm 16 (_ mod _)), Z.div_mul by lia.
  pose proof (Z.mod_pos_bound (n_threads c) 1152921504606846976). lia.
Qed.

(** As long as [sizeof(ThrPos) * max(N, M)] fits [size_t], the registry
    has max(N, M) entries. *)
Lemma thr_p_len_fits c :
  0 <= n_threads c -> sizeof_ThrPos * n_threads c <= ULONG_MAX ->
  thr_p_len c = n_threads c.
Proof.
  intros Hn Hfit. unfold thr_p_len, thr_p_bytes.
  rewrite wrap_small by (unfold sizeof_ThrPos in *; lia). unfold sizeof_ThrPos.
  rewrite Z.mul_comm, Z.div_mul; lia.
Qed.

Lemma LockFreeQueue_new_Ok c blk_thr blk_arr q :
  LockFreeQueue_new c blk_thr blk_arr = Ok q ->
  exists bytes arr,
    blk_thr = Some bytes /\ blk_arr = Some arr /\
    q = mkQ 0 0 0 0
          (replicate (Z.to_nat (thr_p_len c)) (ThrPos.mk ULONG_MAX ULONG_MAX)) arr.
Proof.
  unfold LockFreeQueue_new, memset.
  destruct blk_thr as [bytes|]; [|done]. destruct blk_arr as [arr|]; [|done].
  intros [= <-]. exists bytes, arr. split_and!; try done.
  destruct (thr_p_bytes_len c) as [-> Hlen]. unfold sizeof_ThrPos.
  replace (Z.to_nat (16 * thr_p_len c)) with (16 * Z.to_nat (thr_p_len c))%nat by lia.
  by rewrite ThrPos_array_memset.
Qed.




(** C8, as the claim has it, fails: with no producer, no consumer and a
    capacity of 3 the specification calls the configuration invalid, and
    the constructor, given its two blocks, returns a queue. *)
Lemma construction_unchecked_counterexample :
  spec_construction_fails (mkParams 0 0 3) (Some []) (Some [0; 0; 0]) /\
  LockFreeQueue_new (mkParams 0 0 3) (Some []) (Some [0; 0; 0])
  = Ok (mkQ 0 0 0 0 [] [0; 0; 0]).
Proof. split; [left|]; reflexivity. Qed.

(** C8, amended. The constructor fails, on an [assert], exactly when one
    of its two allocations returns NULL; whatever the number of
    producers and consumers and whatever the capacity, it returns a queue
    when both allocations succeed. *)
Theorem construction_fails_iff_alloc_fails c blk_thr blk_arr :
  (LockFreeQueue_new c blk_thr blk_arr = AssertFail <->
   blk_thr = None \/ blk_arr = None) /\
  (forall bytes arr, blk_thr = Some bytes -> blk_arr = Some arr ->
     exists q, LockFreeQueue_new c blk_thr blk_arr = Ok q) /\
  (blk_thr = None \/ blk_arr = None \/
   exists q, LockFreeQueue_new c blk_thr blk_arr = Ok q).
Proof.
  unfold LockFreeQueue_new.
  destruct blk_thr as [bytes|], blk_arr as [arr|]; split_and!;
    try (split; [intros; try discriminate; auto | intros [?|?]; done]);
    try (intros ?? [=] [=]; eauto); eauto.
Qed.

(** ** Registry bounds *)

Lemma thr_pos_Ok c q tid :
  0 <= tid < n_threads c -> length (thr_p_ q) = Z.to_nat (n_threads c) ->
  exists e, thr_p_ q !! Z.to_nat tid = Some e /\ thr_pos c tid q = Ok e.
Proof.
  intros Ht Hl. destruct (lookup_lt_is_Some_2 (thr_p_ q) (Z.to_nat tid)) as [e He]; [rewrite Hl; lia|].
  exists e. split; [done|]. unfold thr_pos.
  destruct (Z.ltb_spec tid (n_threads c)); [|lia]. by rewrite He.
Qed.


Lemma load_thr_Ok c q i bound :
  0 < n_threads c -> i < bound -> bound <= n_threads c ->
  length (thr_p_ q) = Z.to_nat (n_threads c) ->
  exists e, thr_p_ q !! Z.to_nat i = Some e /\ load_thr i q = Ok e.
Proof.
  intros Hn Hi Hb Hl. destruct (lookup_lt_is_Some_2 (thr_p_ q) (Z.to_nat i)) as [e He]; [rewrite Hl; lia|].
  exists e. split; [done|]. unfold load_thr. by rewrite He.
Qed.

Lemma push_step_registry_ok c q tid pc :
  0 <= tid < n_threads c ->
  length (thr_p_ q) = Z.to_nat (n_threads c) ->
  push_step c tid q pc <> AssertFail /\ push_step c tid q pc <> RegOutOfBounds.
Proof.
  intros Ht Hl.
  destruct (thr_pos_Ok c q tid Ht Hl) as (e & He & Hpos).
  assert (Hnc : n_consumers_ c <= n_threads c) by (unfold n_threads; lia).
  destruct pc; cbn [push_step]; unfold store_thr_head;
    rewrite ?Hpos; cbn [obind]; try (split; discriminate).
  - destruct (Z.ltb_spec i (n_consumers_ c)) as [Hi|Hi]; [|split; discriminate].
    destruct (load_thr_Ok c q i _ ltac:(lia) Hi Hnc Hl) as (e' & _ & ->). split; discriminate.
  - destruct (ptr_array_ q !! _); split; discriminate.
Qed.

Lemma pop_step_registry_ok c q tid pc :
  0 <= tid < n_threads c ->
  length (thr_p_ q) = Z.to_nat (n_threads c) ->
  pop_step c tid q pc <> AssertFail /\ pop_step c tid q pc <> RegOutOfBounds.
Proof.
  intros Ht Hl.
  destruct (thr_pos_Ok c q tid Ht Hl) as (e & He & Hpos).
  assert (Hnp : n_producers_ c <= n_threads c) by (unfold n_threads; lia).
  destruct pc; cbn [pop_step]; unfold store_thr_tail;
    rewrite ?Hpos; cbn [obind]; try (split; discriminate).
  - destruct (Z.ltb_spec i (n_producers_ c)) as [Hi|Hi]; [|split; discriminate].
    destruct (load_thr_Ok c q i _ ltac:(lia) Hi Hnp Hl) as (e' & _ & ->). split; discriminate.
  - destruct (ptr_array_ q !! _); split; discriminate.
Qed.



(** ** The serialized queue *)

Lemma NaiveQueue_push_Some Q x q q' :
  0 <= NaiveQueue.head_ q ->
  NaiveQueue.push Q x q = Some q' ->
  NaiveQueue.head_ q < wrap (NaiveQueue.tail_ q + Q) /\
  q' = NaiveQueue.mk (NaiveQueue.head_ q + 1) (NaiveQueue.tail_ q)
         (<[Z.to_nat (band (NaiveQueue.head_ q) (NaiveQueue.Q_MASK Q)) := x]>
            (NaiveQueue.ptr_array_ q)).
Proof.
  intros Hh. unfold NaiveQueue.push, NaiveQueue.not_full.
  destruct (Z.ltb_spec (NaiveQueue.head_ q) (wrap (NaiveQueue.tail_ q + Q))) as [Hlt|]; [|done].
  intros [= <-]. split; [done|].
  pose proof (wrap_range (NaiveQueue.tail_ q + Q)).
  rewrite wrap_small; [done|lia].
Qed.

Lemma NaiveQueue_pop_Some Q q v q' :
  0 <= NaiveQueue.tail_ q -> NaiveQueue.head_ q <= ULONG_MAX ->
  NaiveQueue.pop Q q = Some (v, q') ->
  NaiveQueue.tail_ q < NaiveQueue.head_ q /\
  NaiveQueue.ptr_array_ q !! Z.to_nat (band (NaiveQueue.tail_ q) (NaiveQueue.Q_MASK Q)) = Some v /\
  q' = NaiveQueue.mk (NaiveQueue.head_ q) (NaiveQueue.tail_ q + 1) (NaiveQueue.ptr_array_ q).
Proof.
  intros Ht Hh. unfold NaiveQueue.pop, NaiveQueue.not_empty.
  destruct (Z.ltb_spec (NaiveQueue.tail_ q) (NaiveQueue.head_ q)) as [Hlt|]; [|done].
  destruct (NaiveQueue.ptr_array_ q !! _) as [y|] eqn:Hy; [|done].
  intros [= <- <-]. split_and!; try done.
  rewrite wrap_small; [done|lia].
Qed.

(** ** Steps of the system *)

Lemma reg_head_store_head r p e v p' :
  r !! p = Some e ->
  reg_head (<[p := ThrPos.mk v (ThrPos.tail e)]> r) p'
  = if decide (p' = p) then v else reg_head r p'.
Proof.
  intros He. unfold reg_head. case_decide as Hd.
  - subst. rewrite list_lookup_insert_eq; [done|]. by eapply lookup_lt_Some.
  - rewrite list_lookup_insert_ne; [done|congruence].
Qed.

Lemma reg_tail_store_head r p e v p' :
  r !! p = Some e ->
  reg_tail (<[p := ThrPos.mk v (ThrPos.tail e)]> r) p' = reg_tail r p'.
Proof.
  intros He. unfold reg_tail. destruct (decide (p' = p)) as [->|Hd].
  - rewrite list_lookup_insert_eq; [by rewrite He|]. by eapply lookup_lt_Some.
  - rewrite list_lookup_insert_ne; [done|congruence].
Qed.

Lemma reg_tail_store_tail r k e v k' :
  r !! k = Some e ->
  reg_tail (<[k := ThrPos.mk (ThrPos.head e) v]> r) k'
  = if decide (k' = k) then v else reg_tail r k'.
Proof.
  intros He. unfold reg_tail. case_decide as Hd.
  - subst. rewrite list_lookup_insert_eq; [done|]. by eapply lookup_lt_Some.
  - rewrite list_lookup_insert_ne; [done|congruence].
Qed.

Lemma reg_head_store_tail r k e v k' :
  r !! k = Some e ->
  reg_head (<[k := ThrPos.mk (ThrPos.head e) v]> r) k' = reg_head r k'.
Proof.
  intros He. unfold reg_head. destruct (decide (k' = k)) as [->|Hd].
  - rewrite list_lookup_insert_eq; [by rewrite He|]. by eapply lookup_lt_Some.
  - rewrite list_lookup_insert_ne; [done|congruence].
Qed.

Lemma reg_head_lookup r p e : r !! p = Some e -> ThrPos.head e = reg_head r p.
Proof. intros H. unfold reg_head. by rewrite H. Qed.

Lemma reg_tail_lookup r p e : r !! p = Some e -> ThrPos.tail e = reg_tail r p.
Proof. intros H. unfold reg_tail. by rewrite H. Qed.

Lemma pc_advance {PC} (idle : PC -> bool) v (t : thread PC) pc' ev :
  pc (advance idle v t pc' ev) = pc'.
Proof. unfold advance. by destruct (idle pc'). Qed.

Lemma sys_step_CallPush c p x s s' :
  sys_step c (CallPush p x) s = Ok s' ->
  exists t, prods s !! p = Some t /\ pc t = PIdle /\
    s' = mkSys (queue s) (<[p := mkThread (PLoadHead x) [] (hist t)]> (prods s)) (cons s).
Proof.
  cbn [sys_step]. destruct (prods s !! p) as [t|]; [|done].
  destruct (pc t) eqn:Hpc; try done. intros [= <-]. eauto.
Qed.

Lemma sys_step_CallPop c k s s' :
  sys_step c (CallPop k) s = Ok s' ->
  exists t, cons s !! k = Some t /\ pc t = CIdle /\
    s' = mkSys (queue s) (prods s) (<[k := mkThread CLoadTail [] (hist t)]> (cons s)).
Proof.
  cbn [sys_step]. destruct (cons s !! k) as [t|]; [|done].
  destruct (pc t) eqn:Hpc; try done. intros [= <-]. eauto.
Qed.

Lemma sys_step_StepPush c p s s' :
  sys_step c (StepPush p) s = Ok s' ->
  exists t q' pc' ev,
    prods s !! p = Some t /\
    push_step c (Z.of_nat p) (queue s) (pc t) = Ok (q', pc', ev) /\
    s' = mkSys q' (<[p := advance is_PIdle (ppc_arg (pc t)) t pc' ev]> (prods s)) (cons s).
Proof.
  cbn [sys_step]. destruct (prods s !! p) as [t|]; [|done].
  destruct (push_step c (Z.of_nat p) (queue s) (pc t)) as [[[q' pc'] ev]| | | |] eqn:Hs; try done.
  cbn [obind]. intros [= <-]. by exists t, q', pc', ev.
Qed.

Lemma sys_step_StepPop c k s s' :
  sys_step c (StepPop k) s = Ok s' ->
  exists t q' pc' ev,
    cons s !! k = Some t /\
    pop_step c (Z.of_nat k) (queue s) (pc t) = Ok (q', pc', ev) /\
    s' = mkSys q' (prods s) (<[k := advance is_CIdle (cpc_ret (pc t)) t pc' ev]> (cons s)).
Proof.
  cbn [sys_step]. destruct (cons s !! k) as [t|]; [|done].
  destruct (pop_step c (Z.of_nat k) (queue s) (pc t)) as [[[q' pc'] ev]| | | |] eqn:Hs; try done.
  cbn [obind]. intros [= <-]. by exists t, q', pc', ev.
Qed.

Lemma thr_pos_inv c tid q e :
  thr_pos c tid q = Ok e -> thr_p_ q !! Z.to_nat tid = Some e.
Proof.
  unfold thr_pos. destruct (tid <? n_threads c); [|done].
  destruct (thr_p_ q !! Z.to_nat tid); [|done]. by intros [= ->].
Qed.

Lemma store_thr_head_inv c p v q q' :
  store_thr_head c (Z.of_nat p) v q = Ok q' ->
  exists e, thr_p_ q !! p = Some e /\
    q' = set_thr_p_ (<[p := ThrPos.mk v (ThrPos.tail e)]> (thr_p_ q)) q.
Proof.
  unfold store_thr_head.
  destruct (thr_pos c (Z.of_nat p) q) as [e| | | |] eqn:He; try done.
  apply thr_pos_inv in He. rewrite Nat2Z.id in *. cbn [obind]. intros [= <-]. eauto.
Qed.

Lemma store_thr_tail_inv c k v q q' :
  store_thr_tail c (Z.of_nat k) v q = Ok q' ->
  exists e, thr_p_ q !! k = Some e /\
    q' = set_thr_p_ (<[k := ThrPos.mk (ThrPos.head e) v]> (thr_p_ q)) q.
Proof.
  unfold store_thr_tail.
  destruct (thr_pos c (Z.of_nat k) q) as [e| | | |] eqn:He; try done.
  apply thr_pos_inv in He. rewrite Nat2Z.id in *. cbn [obind]. intros [= <-]. eauto.
Qed.

(** ** Frame properties of the invariant *)

Lemma ppc_inv_claim c q p pc h :
  ppc_inv c q p pc -> push_claim (thr_p_ q) p pc = Some h ->
  reg_head (thr_p_ q) p <= h /\ last_head_ q <= h /\ h < head_ q.
Proof. destruct pc; cbn; intros Hi [= <-]; lia. Qed.

Lemma cpc_inv_claim q k pc t :
  cpc_inv q k pc -> pop_claim (thr_p_ q) k pc = Some t ->
  reg_tail (thr_p_ q) k <= t /\ last_tail_ q <= t /\ t < tail_ q.
Proof. destruct pc; cbn; intros Hi [= <-]; lia. Qed.

Lemma push_claim_ext r r' p pc :
  reg_head r' p = reg_head r p -> push_claim r' p pc = push_claim r p pc.
Proof. intros H. destruct pc; cbn; congruence. Qed.

Lemma pop_claim_ext r r' k pc :
  reg_tail r' k = reg_tail r k -> pop_claim r' k pc = pop_claim r k pc.
Proof. intros H. destruct pc; cbn; congruence. Qed.

Lemma ppc_inv_frame c q q' p pc :
  ppc_inv c q p pc ->
  reg_head (thr_p_ q') p = reg_head (thr_p_ q) p ->
  head_ q <= head_ q' -> tail_ q <= tail_ q' ->
  (forall h, push_claim (thr_p_ q) p pc = Some h -> last_head_ q' <= h) ->
  ppc_inv c q' p pc.
Proof.
  intros Hi Hr Hh Ht Hc. destruct pc; cbn in *; rewrite ?Hr;
    try specialize (Hc _ eq_refl); lia.
Qed.

Lemma cpc_inv_frame q q' k pc :
  cpc_inv q k pc ->
  reg_tail (thr_p_ q') k = reg_tail (thr_p_ q) k ->
  head_ q <= head_ q' -> tail_ q <= tail_ q' ->
  (forall t, pop_claim (thr_p_ q) k pc = Some t -> last_tail_ q' <= t) ->
  cpc_inv q' k pc.
Proof.
  intros Hi Hr Hh Ht Hc. destruct pc; cbn in *; rewrite ?Hr;
    try specialize (Hc _ eq_refl); lia.
Qed.

Lemma scan_tail_inv_ext r r' pcp k pck :
  reg_tail r' k = reg_tail r k ->
  scan_tail_inv r pcp k pck -> scan_tail_inv r' pcp k pck.
Proof.
  intros Hr. destruct pcp; try done. cbn. by rewrite (pop_claim_ext r r' k pck Hr).
Qed.

Lemma scan_head_inv_ext r r' pck p pcp :
  reg_head r' p = reg_head r p ->
  scan_head_inv r pck p pcp -> scan_head_inv r' pck p pcp.
Proof.
  intros Hr. destruct pck; try done. cbn. by rewrite (push_claim_ext r r' p pcp Hr).
Qed.

(** A step of producer [p] keeps the invariant when it keeps its own
    part of it and leaves the rest of the queue as the others need it. *)
Lemma inv_push_update c n s p t q' t' :
  inv c n s -> prods s !! p = Some t ->
  0 <= head_ q' <= n + 1 -> head_ (queue s) <= head_ q' ->
  tail_ q' = tail_ (queue s) ->
  last_head_ q' = last_head_ (queue s) ->
  0 <= last_tail_ q' <= tail_ (queue s) ->
  length (thr_p_ q') = length (thr_p_ (queue s)) ->
  length (ptr_array_ q') = length (ptr_array_ (queue s)) ->
  (forall i, reg_tail (thr_p_ q') i = reg_tail (thr_p_ (queue s)) i) ->
  (forall i, i <> p -> reg_head (thr_p_ q') i = reg_head (thr_p_ (queue s)) i) ->
  (reg_head (thr_p_ q') p = ULONG_MAX \/ 0 <= reg_head (thr_p_ q') p <= head_ q') ->
  ppc_inv c q' p (pc t') ->
  (forall k tk t0, cons s !! k = Some tk ->
     pop_claim (thr_p_ (queue s)) k (pc tk) = Some t0 -> last_tail_ q' <= t0) ->
  (forall k tk, cons s !! k = Some tk ->
     scan_tail_inv (thr_p_ (queue s)) (pc t') k (pc tk)) ->
  (forall h, push_claim (thr_p_ q') p (pc t') = Some h ->
     push_claim (thr_p_ (queue s)) p (pc t) = Some h \/ head_ (queue s) <= h) ->
  inv c (n + 1) (mkSys q' (<[p := t']> (prods s)) (cons s)).
Proof.
  intros [Hh Ht Hlh Hlt Hrl Hal Hpl Hcl Hrh Hrt HP HC HX1 HX2] Hlook
         Hh' Hhm Ht' Hlh' Hlt' Hrl' Hal' Hrt' Hrh' Hrp Hown Hclaims Hscan Hclaim.
  constructor; cbn [queue prods cons]; rewrite ?length_insert; try lia.
  - intros i. destruct (decide (i = p)) as [->|Hne]; [done|]. rewrite Hrh' by done.
    destruct (Hrh i); [by left|right; lia].
  - intros i. rewrite Hrt', Ht'. apply Hrt.
  - intros p' tp Hl. apply list_lookup_insert_Some in Hl as [(<- & <- & _)|(Hne & Hl)]; [done|].
    eapply ppc_inv_frame; [by apply HP| |lia..|].
    + by apply Hrh'.
    + intros h Hc. rewrite Hlh'. by eapply ppc_inv_claim; [apply HP|].
  - intros k tk Hk. eapply cpc_inv_frame; [by apply HC|by apply Hrt'|lia..|].
    intros t0 Hc. by eapply Hclaims.
  - intros p' tp k tk Hl Hk.
    apply (scan_tail_inv_ext (thr_p_ (queue s))); [by apply Hrt'|].
    apply list_lookup_insert_Some in Hl as [(<- & <- & _)|(Hne & Hl)]; [by eapply Hscan|].
    by eapply HX1.
  - intros k tk p' tp Hk Hl.
    apply list_lookup_insert_Some in Hl as [(<- & <- & _)|(Hne & Hl)].
    + specialize (HX2 k tk p t Hk Hlook). specialize (HC k tk Hk).
      destruct (pc tk); try done. cbn in *. intros h Hc Hlt0.
      destruct (Hclaim h Hc) as [Hold|Hnew]; [by apply HX2|lia].
    + apply (scan_head_inv_ext (thr_p_ (queue s))); [apply Hrh'; congruence|].
      by eapply HX2.
Qed.

(** The same for a step of consumer [k]. *)
Lemma inv_pop_update c n s k t q' t' :
  inv c n s -> cons s !! k = Some t ->
  0 <= tail_ q' <= n + 1 -> tail_ (queue s) <= tail_ q' ->
  head_ q' = head_ (queue s) ->
  last_tail_ q' = last_tail_ (queue s) ->
  0 <= last_head_ q' <= head_ (queue s) ->
  length (thr_p_ q') = length (thr_p_ (queue s)) ->
  length (ptr_array_ q') = length (ptr_array_ (queue s)) ->
  (forall i, reg_head (thr_p_ q') i = reg_head (thr_p_ (queue s)) i) ->
  (forall i, i <> k -> reg_tail (thr_p_ q') i = reg_tail (thr_p_ (queue s)) i) ->
  (reg_tail (thr_p_ q') k = ULONG_MAX \/ 0 <= reg_tail (thr_p_ q') k <= tail_ q') ->
  cpc_inv q' k (pc t') ->
  (forall p tp h, prods s !! p = Some tp ->
     push_claim (thr_p_ (queue s)) p (pc tp) = Some h -> last_head_ q' <= h) ->
  (forall p tp, prods s !! p = Some tp ->
     scan_head_inv (thr_p_ (queue s)) (pc t') p (pc tp)) ->
  (forall v, pop_claim (thr_p_ q') k (pc t') = Some v ->
     pop_claim (thr_p_ (queue s)) k (pc t) = Some v \/ tail_ (queue s) <= v) ->
  inv c (n + 1) (mkSys q' (prods s) (<[k := t']> (cons s))).
Proof.
  intros [Hh Ht Hlh Hlt Hrl Hal Hpl Hcl Hrh Hrt HP HC HX1 HX2] Hlook
         Ht' Htm Hh' Hlt' Hlh' Hrl' Hal' Hrh' Hrt' Hrk Hown Hclaims Hscan Hclaim.
  constructor; cbn [queue prods cons]; rewrite ?length_insert; try lia.
  - intros i. rewrite Hrh', Hh'. apply Hrh.
  - intros i. destruct (decide (i = k)) as [->|Hne]; [done|]. rewrite Hrt' by done.
    destruct (Hrt i); [by left|right; lia].
  - intros p tp Hp. eapply ppc_inv_frame; [by apply HP|by apply Hrh'|lia..|].
    intros h Hc. by eapply Hclaims.
  - intros k' tk Hl. apply list_lookup_insert_Some in Hl as [(<- & <- & _)|(Hne & Hl)]; [done|].
    eapply cpc_inv_frame; [by apply HC| |lia..|].
    + by apply Hrt'.
    + intros v Hc. rewrite Hlt'. by eapply cpc_inv_claim; [apply HC|].
  - intros p tp k' tk Hp Hl.
    apply list_lookup_insert_Some in Hl as [(<- & <- & _)|(Hne & Hl)].
    + specialize (HX1 p tp k t Hp Hlook). specialize (HP p tp Hp).
      destruct (pc tp); try done. cbn in *. intros v Hc Hlt0.
      destruct (Hclaim v Hc) as [Hold|Hnew]; [by apply HX1|lia].
    + apply (scan_tail_inv_ext (thr_p_ (queue s))); [apply Hrt'; congruence|].
      by eapply HX1.
  - intros k' tk p tp Hl Hp.
    apply (scan_head_inv_ext (thr_p_ (queue s))); [by apply Hrh'|].
    apply list_lookup_insert_Some in Hl as [(<- & <- & _)|(Hne & Hl)]; [by eapply Hscan|].
    by eapply HX2.
Qed.

(** ** The invariant holds in every reachable state *)

Ltac step_inv H :=
  cbn [push_step pop_step] in H; unfold load_thr in H;
  repeat match type of H with
  | context [store_thr_head ?c ?p ?v ?q] =>
      let E := fresh "Hst" in
      destruct (store_thr_head c p v q) eqn:E; cbn [obind] in H;
      [apply store_thr_head_inv in E as (? & ? & ->) | discriminate ..]
  | context [store_thr_tail ?c ?p ?v ?q] =>
      let E := fresh "Hst" in
      destruct (store_thr_tail c p v q) eqn:E; cbn [obind] in H;
      [apply store_thr_tail_inv in E as (? & ? & ->) | discriminate ..]
  | context [thr_pos ?c ?p ?q] =>
      let E := fresh "Hpos" in
      destruct (thr_pos c p q) eqn:E; cbn [obind] in H;
      [apply thr_pos_inv in E; rewrite Nat2Z.id in E | discriminate ..]
  | context [if ?b then _ else _] => destruct b eqn:?
  | context [match ?x with _ => _ end] => destruct x eqn:?; cbn [obind] in H
  end; simplify_eq.

Ltac reg_simpl :=
  repeat match goal with
  | He : ?r !! ?p = Some ?e |- _ =>
      first
        [ rewrite (reg_head_store_head r p e _ _ He) in *
        | rewrite (reg_tail_store_head r p e _ _ He) in *
        | rewrite (reg_tail_store_tail r p e _ _ He) in *
        | rewrite (reg_head_store_tail r p e _ _ He) in *
        | rewrite (reg_head_lookup r p e He) in *
        | rewrite (reg_tail_lookup r p e He) in * ]
  end.

Ltac q_simpl :=
  cbn [ppc_inv cpc_inv scan_tail_inv scan_head_inv push_claim pop_claim
       queue prods cons pc head_ tail_ last_head_ last_tail_ thr_p_ ptr_array_
       set_head_ set_tail_ set_last_head_ set_last_tail_ set_thr_p_ set_ptr_array_] in *.

Ltac wrap_simpl :=
  repeat match goal with
  | H : context [wrap ?z] |- _ => rewrite (wrap_small z) in H by (unfold ULONG_MAX; lia)
  | |- context [wrap ?z] => rewrite (wrap_small z) by (unfold ULONG_MAX; lia)
  end.

Ltac claim_goal :=
  let h := fresh "h" in
  intros h [= <-]; reg_simpl; repeat case_decide; subst; try done;
  first [left; reflexivity | right; lia | idtac].

Lemma inv_step_push c n p s s' :
  horizon c (n + 1) -> inv c n s -> sys_step c (StepPush p) s = Ok s' -> inv c (n + 1) s'.
Proof.
  intros (HQ & Hn & Hhor) HI Hstep. unfold ULONG_MAX in Hhor.
  apply sys_step_StepPush in Hstep as (t & q' & pc' & ev & Hlook & Hstep & ->).
  pose proof HI as [Hh Ht Hlh Hlt Hrl Hal Hpl Hcl Hrh Hrt HP HC HX1 HX2].
  pose proof (HP p t Hlook) as Hown. pose proof (Hrh p) as Hrp.
  assert (Hcl0 : forall k tk t0, cons s !! k = Some tk ->
            pop_claim (thr_p_ (queue s)) k (pc tk) = Some t0 ->
            reg_tail (thr_p_ (queue s)) k <= t0 /\ last_tail_ (queue s) <= t0 /\
            t0 < tail_ (queue s)).
  { intros k tk t0 Hk Hc. by apply (cpc_inv_claim _ _ _ _ (HC _ _ Hk) Hc). }
  destruct (pc t) eqn:Hpc; step_inv Hstep.
  all: eapply (inv_push_update c n s p t); [exact HI|exact Hlook|..];
    rewrite ?pc_advance, ?Hpc; q_simpl; rewrite ?length_insert; wrap_simpl;
    try done; try lia.
  all: try (intros; reg_simpl; repeat case_decide; subst; try done; try lia; fail).
  all: try (intros k tk v Hk Hc; by apply (Hcl0 k tk v Hk Hc)).
  all: try (claim_goal; fail).
  all: try (destruct Hrp as [Hrp|Hrp]; reg_simpl; repeat case_decide; try done;
            first [left; unfold ULONG_MAX in *; lia | right; lia]).
  all: try (destruct (Hrt (Z.to_nat i)); reg_simpl; unfold ULONG_MAX in *; lia).
  all: try (intros k tk Hk v Hc Hlt0;
            destruct (Hcl0 k tk v Hk Hc) as (Hr1 & _ & _);
            specialize (HX1 p t k tk Hlook Hk); rewrite Hpc in HX1; cbn in HX1;
            specialize (HX1 v Hc);
            destruct (decide (Z.of_nat k = i)) as [<-|Hne];
            [rewrite Nat2Z.id in *|]; reg_simpl; lia).
  intros k tk v Hk Hc.
  specialize (HX1 p t k tk Hlook Hk). rewrite Hpc in HX1. cbn in HX1.
  apply HX1; [done|]. apply lookup_lt_Some in Hk. lia.
Qed.

Lemma inv_step_pop c n k s s' :
  horizon c (n + 1) -> inv c n s -> sys_step c (StepPop k) s = Ok s' -> inv c (n + 1) s'.
Proof.
  intros (HQ & Hn & Hhor) HI Hstep. unfold ULONG_MAX in Hhor.
  apply sys_step_StepPop in Hstep as (t & q' & pc' & ev & Hlook & Hstep & ->).
  pose proof HI as [Hh Ht Hlh Hlt Hrl Hal Hpl Hcl Hrh Hrt HP HC HX1 HX2].
  pose proof (HC k t Hlook) as Hown. pose proof (Hrt k) as Hrk.
  assert (Hcl0 : forall p tp h, prods s !! p = Some tp ->
            push_claim (thr_p_ (queue s)) p (pc tp) = Some h ->
            reg_head (thr_p_ (queue s)) p <= h /\ last_head_ (queue s) <= h /\
            h < head_ (queue s)).
  { intros p tp h Hp Hc. by apply (ppc_inv_claim _ _ _ _ _ (HP _ _ Hp) Hc). }
  destruct (pc t) eqn:Hpc; step_inv Hstep.
  all: eapply (inv_pop_update c n s k t); [exact HI|exact Hlook|..];
    rewrite ?pc_advance, ?Hpc; q_simpl; rewrite ?length_insert; wrap_simpl;
    try done; try lia.
  all: try (intros; reg_simpl; repeat case_decide; subst; try done; try lia; fail).
  all: try (intros p tp v Hp Hc; by apply (Hcl0 p tp v Hp Hc)).
  all: try (claim_goal; fail).
  all: try (destruct Hrk as [Hrk|Hrk]; reg_simpl; repeat case_decide; try done;
            first [left; unfold ULONG_MAX in *; lia | right; lia]).
  all: try (destruct (Hrh (Z.to_nat i)); reg_simpl; unfold ULONG_MAX in *; lia).
  all: try (intros p tp Hp v Hc Hlt0;
            destruct (Hcl0 p tp v Hp Hc) as (Hr1 & _ & _);
            specialize (HX2 k t p tp Hlook Hp); rewrite Hpc in HX2; cbn in HX2;
            specialize (HX2 v Hc);
            destruct (decide (Z.of_nat p = i)) as [<-|Hne];
            [rewrite Nat2Z.id in *|]; reg_simpl; lia).
  intros p tp v Hp Hc.
  specialize (HX2 k t p tp Hlook Hp). rewrite Hpc in HX2. cbn in HX2.
  apply HX2; [done|]. apply lookup_lt_Some in Hp. lia.
Qed.

Lemma inv_step c n a s s' :
  horizon c (n + 1) -> inv c n s -> sys_step c a s = Ok s' -> inv c (n + 1) s'.
Proof.
  intros Hhor HI Hstep. destruct a as [p x|p|k|k].
  - apply sys_step_CallPush in Hstep as (t & Hlook & Hpc & ->).
    pose proof HI as [Hh Ht Hlh Hlt Hrl Hal Hpl Hcl Hrh Hrt HP HC HX1 HX2].
    apply (inv_push_update c n s p t); rewrite ?Hpc; cbn [pc]; try done; try lia.
    intros k tk t0 Hk Hc. by apply (cpc_inv_claim _ _ _ _ (HC _ _ Hk) Hc).
  - by eapply inv_step_push.
  - apply sys_step_CallPop in Hstep as (t & Hlook & Hpc & ->).
    pose proof HI as [Hh Ht Hlh Hlt Hrl Hal Hpl Hcl Hrh Hrt HP HC HX1 HX2].
    apply (inv_pop_update c n s k t); rewrite ?Hpc; cbn [pc]; try done; try lia.
    intros p tp h Hp Hc. by apply (ppc_inv_claim _ _ _ _ _ (HP _ _ Hp) Hc).
  - by eapply inv_step_pop.
Qed.

Lemma inv_init c blk_thr blk_arr q0 :
  0 <= Q_SIZE c ->
  LockFreeQueue_new c blk_thr blk_arr = Ok q0 ->
  length (ptr_array_ q0) = Z.to_nat (Q_SIZE c) ->
  inv c 0 (sys_init c q0).
Proof.
  intros HQ Hnew Hlen. apply LockFreeQueue_new_Ok in Hnew as (bytes & arr & _ & _ & ->).
  assert (Hr : forall i, reg_head (replicate (Z.to_nat (thr_p_len c))
                 (ThrPos.mk ULONG_MAX ULONG_MAX)) i = ULONG_MAX /\
               reg_tail (replicate (Z.to_nat (thr_p_len c))
                 (ThrPos.mk ULONG_MAX ULONG_MAX)) i = ULONG_MAX).
  { intros i. unfold reg_head, reg_tail.
    destruct (replicate _ _ !! i) as [e|] eqn:He; [|done].
    apply lookup_replicate in He as [-> _]. done. }
  constructor; unfold sys_init; cbn [queue prods cons head_ tail_ last_head_ last_tail_
    thr_p_ ptr_array_]; rewrite ?length_replicate; try done; try lia.
  - intros i. left. apply Hr.
  - intros i. left. apply Hr.
  - intros p t Hl. apply lookup_replicate in Hl as [-> _]. done.
  - intros k t Hl. apply lookup_replicate in Hl as [-> _]. done.
  - intros p tp k tk Hl _. apply lookup_replicate in Hl as [-> _]. done.
  - intros k tk p tp Hl _. apply lookup_replicate in Hl as [-> _]. done.
Qed.

Lemma inv_run c sched : forall n s s',
  horizon c (n + Z.of_nat (length sched)) -> 0 <= n ->
  inv c n s -> run c sched s = Ok s' ->
  inv c (n + Z.of_nat (length sched)) s'.
Proof.
  induction sched as [|a sched IH]; intros n s s' Hhor Hn HI Hrun.
  - cbn in *. simplify_eq. by rewrite Z.add_0_r.
  - cbn [run] in Hrun. destruct (sys_step c a s) as [s1| | | |] eqn:Hs; try done.
    cbn [obind] in Hrun. cbn [length] in *.
    replace (n + Z.of_nat (S (length sched))) with ((n + 1) + Z.of_nat (length sched)) in * by lia.
    eapply IH; [done|lia| |done].
    eapply inv_step; [|done..]. unfold horizon in *. lia.
Qed.

Lemma inv_reaches c sched s :
  horizon c (Z.of_nat (length sched)) -> reaches c sched s ->
  inv c (Z.of_nat (length sched)) s.
Proof.
  intros Hhor (b1 & b2 & q0 & Hnew & Hlen & Hrun).
  apply (inv_run c sched 0 (sys_init c q0) s); [done|lia| |done].
  eapply inv_init; [|done..]. unfold horizon in Hhor. lia.
Qed.

(** ** Reservations beyond the other counter belong to waiting threads *)

Lemma covered_push_update c s p t q' t' :
  prods s !! p = Some t ->
  tail_covered s -> head_covered c s ->
  head_ (queue s) <= head_ q' -> tail_ q' = tail_ (queue s) ->
  (forall i, reg_tail (thr_p_ q') i = reg_tail (thr_p_ (queue s)) i) ->
  (forall i, i <> p -> reg_head (thr_p_ q') i = reg_head (thr_p_ (queue s)) i) ->
  (forall v, push_claim (thr_p_ (queue s)) p (pc t) = Some v ->
     push_claim (thr_p_ q') p (pc t') = Some v \/ v < tail_ (queue s) + Q_SIZE c) ->
  (forall v, head_ (queue s) <= v < head_ q' ->
     push_claim (thr_p_ q') p (pc t') = Some v) ->
  tail_covered (mkSys q' (<[p := t']> (prods s)) (cons s)) /\
  head_covered c (mkSys q' (<[p := t']> (prods s)) (cons s)).
Proof.
  intros Hlook HT HH Hh Ht Hrt Hrh Hkeep Hnew. split.
  - intros v Hv. cbn [queue cons] in *.
    destruct (HT v ltac:(lia)) as (k & tk & Hk & Hc).
    exists k, tk. split; [done|]. by rewrite (pop_claim_ext _ _ k (pc tk) (Hrt k)).
  - intros v Hv. cbn [queue prods] in *.
    assert (Hp : (p < length (prods s))%nat) by by eapply lookup_lt_Some.
    destruct (Z.lt_ge_cases v (head_ (queue s))) as [Hold|Hfresh].
    + destruct (HH v ltac:(lia)) as (p' & tp & Hp' & Hc).
      destruct (decide (p' = p)) as [->|Hne].
      * simplify_eq. destruct (Hkeep v Hc) as [Hc'|Hlow]; [|lia].
        exists p, t'. by rewrite list_lookup_insert_eq.
      * exists p', tp. rewrite list_lookup_insert_ne by done. split; [done|].
        by rewrite (push_claim_ext _ _ p' (pc tp) (Hrh p' Hne)).
    + exists p, t'. rewrite list_lookup_insert_eq by done. split; [done|].
      apply Hnew. lia.
Qed.

Lemma covered_pop_update c s k t q' t' :
  cons s !! k = Some t ->
  tail_covered s -> head_covered c s ->
  tail_ (queue s) <= tail_ q' -> head_ q' = head_ (queue s) ->
  (forall i, reg_head (thr_p_ q') i = reg_head (thr_p_ (queue s)) i) ->
  (forall i, i <> k -> reg_tail (thr_p_ q') i = reg_tail (thr_p_ (queue s)) i) ->
  (forall v, pop_claim (thr_p_ (queue s)) k (pc t) = Some v ->
     pop_claim (thr_p_ q') k (pc t') = Some v \/ v < head_ (queue s)) ->
  (forall v, tail_ (queue s) <= v < tail_ q' ->
     pop_claim (thr_p_ q') k (pc t') = Some v) ->
  tail_covered (mkSys q' (prods s) (<[k := t']> (cons s))) /\
  head_covered c (mkSys q' (prods s) (<[k := t']> (cons s))).
Proof.
  intros Hlook HT HH Ht Hh Hrh Hrt Hkeep Hnew. split.
  - intros v Hv. cbn [queue cons] in *.
    assert (Hp : (k < length (cons s))%nat) by by eapply lookup_lt_Some.
    destruct (Z.lt_ge_cases v (tail_ (queue s))) as [Hold|Hfresh].
    + destruct (HT v ltac:(lia)) as (k' & tk & Hk' & Hc).
      destruct (decide (k' = k)) as [->|Hne].
      * simplify_eq. destruct (Hkeep v Hc) as [Hc'|Hlow]; [|lia].
        exists k, t'. by rewrite list_lookup_insert_eq.
      * exists k', tk. rewrite list_lookup_insert_ne by done. split; [done|].
        by rewrite (pop_claim_ext _ _ k' (pc tk) (Hrt k' Hne)).
    + exists k, t'. rewrite list_lookup_insert_eq by done. split; [done|].
      apply Hnew. lia.
  - intros v Hv. cbn [queue prods] in *.
    destruct (HH v ltac:(lia)) as (p & tp & Hp & Hc).
    exists p, tp. split; [done|]. by rewrite (push_claim_ext _ _ p (pc tp) (Hrh p)).
Qed.

Lemma covered_step c n a s s' :
  horizon c (n + 1) -> inv c n s ->
  tail_covered s /\ head_covered c s ->
  sys_step c a s = Ok s' ->
  tail_covered s' /\ head_covered c s'.
Proof.
  intros (HQ & Hn & Hhor) HI [HT HH] Hstep. unfold ULONG_MAX in Hhor.
  pose proof HI as [Hh Ht Hlh Hlt Hrl Hal Hpl Hcl Hrh Hrt HP HC HX1 HX2].
  destruct a as [p x|p|k|k].
  - apply sys_step_CallPush in Hstep as (t & Hlook & Hpc & ->).
    apply (covered_push_update c s p t); rewrite ?Hpc; cbn [pc push_claim]; try done; lia.
  - apply sys_step_StepPush in Hstep as (t & q' & pc' & ev & Hlook & Hstep & ->).
    pose proof (HP p t Hlook) as Hown.
    destruct (pc t) eqn:Hpc; step_inv Hstep.
    all: apply (covered_push_update c s p t); [exact Hlook|exact HT|exact HH|..];
      rewrite ?pc_advance, ?Hpc; q_simpl; wrap_simpl; try done; try lia.
    all: try (intros; reg_simpl; repeat case_decide; subst; try done; try lia; fail).
    all: try (intros v [= <-]; reg_simpl; repeat case_decide; subst; try done;
              first [left; reflexivity | right; lia]).
    all: intros v Hv; f_equal; lia.
  - apply sys_step_CallPop in Hstep as (t & Hlook & Hpc & ->).
    apply (covered_pop_update c s k t); rewrite ?Hpc; cbn [pc pop_claim]; try done; lia.
  - apply sys_step_StepPop in Hstep as (t & q' & pc' & ev & Hlook & Hstep & ->).
    pose proof (HC k t Hlook) as Hown.
    destruct (pc t) eqn:Hpc; step_inv Hstep.
    all: apply (covered_pop_update c s k t); [exact Hlook|exact HT|exact HH|..];
      rewrite ?pc_advance, ?Hpc; q_simpl; wrap_simpl; try done; try lia.
    all: try (intros; reg_simpl; repeat case_decide; subst; try done; try lia; fail).
    all: try (intros v [= <-]; reg_simpl; repeat case_decide; subst; try done;
              first [left; reflexivity | right; lia]).
    all: intros v Hv; f_equal; lia.
Qed.

Lemma covered_run c sched : forall n s s',
  horizon c (n + Z.of_nat (length sched)) -> 0 <= n ->
  inv c n s -> tail_covered s /\ head_covered c s ->
  run c sched s = Ok s' ->
  tail_covered s' /\ head_covered c s'.
Proof.
  induction sched as [|a sched IH]; intros n s s' Hhor Hn HI Hcov Hrun.
  - cbn in *. by simplify_eq.
  - cbn [run] in Hrun. destruct (sys_step c a s) as [s1| | | |] eqn:Hs; try done.
    cbn [obind] in Hrun. cbn [length] in *.
    replace (n + Z.of_nat (S (length sched))) with ((n + 1) + Z.of_nat (length sched)) in * by lia.
    assert (Hhor1 : horizon c (n + 1)) by (unfold horizon in *; lia).
    eapply (IH (n + 1)); [done|lia| | |done].
    + by eapply inv_step.
    + by eapply covered_step.
Qed.

Lemma covered_reaches c sched s :
  horizon c (Z.of_nat (length sched)) -> reaches c sched s ->
  tail_covered s /\ head_covered c s.
Proof.
  intros Hhor (b1 & b2 & q0 & Hnew & Hlen & Hrun).
  assert (HQ : 0 <= Q_SIZE c) by (unfold horizon in Hhor; lia).
  apply (covered_run c sched 0 (sys_init c q0) s); [done|lia| | |done].
  - by eapply inv_init.
  - apply LockFreeQueue_new_Ok in Hnew as (bytes & arr & _ & _ & ->).
    split; intros v; cbn; lia.
Qed.

Lemma omap_length_le {A B} (f : A -> option B) (l : list A) :
  (length (omap f l) <= length l)%nat.
Proof.
  induction l as [|a l IH]; [done|]. cbn. destruct (f a); cbn; lia.
Qed.

(** At most as many reservations as threads to hold them. *)
Lemma claims_count {T} (f : nat -> T -> option Z) (l : list T) (a len : Z) :
  (forall v, a <= v < a + len ->
     exists k t, l !! k = Some t /\ f k t = Some v) ->
  len <= Z.of_nat (length l).
Proof.
  intros Hcov. destruct (Z.le_gt_cases len 0) as [|Hpos]; [lia|].
  set (claims := omap (fun kt => f kt.1 kt.2) (imap pair l)).
  assert (Hsub : seqZ a len ⊆+ claims).
  { apply NoDup_submseteq; [apply NoDup_seqZ|].
    intros v Hv. apply elem_of_seqZ in Hv.
    destruct (Hcov v ltac:(lia)) as (k & t & Hk & Hf).
    apply list_elem_of_omap. exists (k, t). split; [|done].
    apply list_elem_of_lookup. exists k. by rewrite list_lookup_imap, Hk. }
  apply submseteq_length in Hsub. rewrite length_seqZ in Hsub.
  assert (Hlen : (length claims <= length l)%nat).
  { unfold claims. etrans; [apply omap_length_le|]. by rewrite length_imap. }
  lia.
Qed.

(** ** Claims on the counters *)

Lemma reaches_intro c sched s bytes arr q0 :
  LockFreeQueue_new c (Some bytes) (Some arr) = Ok q0 ->
  length (ptr_array_ q0) = Z.to_nat (Q_SIZE c) ->
  run c sched (sys_init c q0) = Ok s ->
  reaches c sched s.
Proof. intros H1 H2 H3. by exists (Some bytes), (Some arr), q0. Qed.

Ltac reach_by_run :=
  eapply reaches_intro with (bytes := []) (arr := [0; 0]);
  [reflexivity | reflexivity | vm_compute; reflexivity].

(** C1, as the claim has it, fails. A consumer that calls [pop()] on
    the fresh queue has taken [tail_] to 1 after four steps, with
    [head_] still 0; and a producer that starts a third [push] on a full
    queue of capacity 2 has taken [head_] to 3 with [tail_] still 0. *)
Lemma live_items_counterexample :
  (exists s,
     reaches (mkParams 1 1 2) (CallPop 0 :: replicate 4 (StepPop 0)) s /\
     head_ (queue s) < tail_ (queue s) /\
     ~ spec_live_items (mkParams 1 1 2) (queue s)) /\
  (exists s,
     reaches (mkParams 1 1 2)
       (push_call 0 11 ++ push_call 0 12 ++ CallPush 0 13 :: replicate 4 (StepPush 0)) s /\
     Q_SIZE (mkParams 1 1 2) < head_ (queue s) - tail_ (queue s) /\
     ~ spec_live_items (mkParams 1 1 2) (queue s)).
Proof.
  split.
  - eexists. split; [|split].
    + reach_by_run.
    + vm_compute. reflexivity.
    + intros [H _]. vm_compute in H. by apply H.
  - eexists. split; [|split].
    + reach_by_run.
    + vm_compute. reflexivity.
    + intros [_ [_ H]]. vm_compute in H. by apply H.
Qed.

(** C1, amended. In every state reached before the counters can wrap,
    [head_ - tail_] lies between minus the number of consumers and
    [Q_SIZE] plus the number of producers: [tail_] runs ahead of [head_]
    only by reservations of consumers still waiting, [head_] ahead of
    [tail_ + Q_SIZE] only by reservations of producers still waiting.
    And where a slot is accessed the bound of the claim holds: a
    producer past its wait loop holds a reservation below
    [tail_ + Q_SIZE], a consumer past its wait loop one below [head_]. *)
Theorem live_items_within_waiters c sched s :
  0 <= n_producers_ c -> 0 <= n_consumers_ c ->
  horizon c (Z.of_nat (length sched)) ->
  reaches c sched s ->
  - n_consumers_ c <= head_ (queue s) - tail_ (queue s) <= Q_SIZE c + n_producers_ c /\
  (forall p t, prods s !! p = Some t ->
     (exists x, pc t = PWrite x \/ pc t = PRelease x) ->
     0 <= reg_head (thr_p_ (queue s)) p < head_ (queue s) /\
     reg_head (thr_p_ (queue s)) p < tail_ (queue s) + Q_SIZE c) /\
  (forall k t, cons s !! k = Some t ->
     (pc t = CRead \/ exists ret, pc t = CRelease ret) ->
     0 <= reg_tail (thr_p_ (queue s)) k < tail_ (queue s) /\
     reg_tail (thr_p_ (queue s)) k < head_ (queue s)).
Proof.
  intros HN HM Hhor Hreach.
  pose proof (inv_reaches c sched s Hhor Hreach) as HI.
  destruct (covered_reaches c sched s Hhor Hreach) as [HT HH].
  split; [|split].
  - pose proof (claims_count (fun k t => pop_claim (thr_p_ (queue s)) k (pc t))
                  (cons s) (head_ (queue s)) (tail_ (queue s) - head_ (queue s))) as Hc.
    pose proof (claims_count (fun p t => push_claim (thr_p_ (queue s)) p (pc t))
                  (prods s) (tail_ (queue s) + Q_SIZE c)
                  (head_ (queue s) - (tail_ (queue s) + Q_SIZE c))) as Hp.
    rewrite (inv_cons_len _ _ _ HI) in Hc. rewrite (inv_prods_len _ _ _ HI) in Hp.
    split.
    + assert (tail_ (queue s) - head_ (queue s) <= Z.of_nat (Z.to_nat (n_consumers_ c))); [|lia].
      apply Hc. intros v Hv. apply HT. lia.
    + assert (head_ (queue s) - (tail_ (queue s) + Q_SIZE c)
              <= Z.of_nat (Z.to_nat (n_producers_ c))); [|lia].
      apply Hp. intros v Hv. apply HH. lia.
  - intros p t Hp [x [Hpc|Hpc]]; pose proof (inv_prod _ _ _ HI p t Hp) as Hi;
      rewrite Hpc in Hi; cbn in Hi; lia.
  - intros k t Hk [Hpc|[ret Hpc]]; pose proof (inv_cons _ _ _ HI k t Hk) as Hi;
      rewrite Hpc in Hi; cbn in Hi; lia.
Qed.

Lemma live_items_within_waiters_witness :
  exists s,
    reaches (mkParams 1 1 2) (CallPop 0 :: replicate 4 (StepPop 0)) s /\
    - 1 <= head_ (queue s) - tail_ (queue s) <= 2 + 1.
Proof.
  eexists. split.
  - reach_by_run.
  - apply (live_items_within_waiters (mkParams 1 1 2) (CallPop 0 :: replicate 4 (StepPop 0))).
    + vm_compute. discriminate.
    + vm_compute. discriminate.
    + vm_compute. repeat split; discriminate.
    + reach_by_run.
Defined.

(** C6, as the claim has it, fails twice over. After
    [sched_stale_snapshot] the entry of consumer 1 holds 0, not the
    sentinel, and [last_tail_] is 2. After [sched_late_publish] the next
    step of producer 0 takes [last_tail_] from 2 back to 0. *)
Lemma cached_bounds_counterexample :
  (exists s,
     reaches (mkParams 1 2 2) sched_stale_snapshot s /\
     reg_tail (thr_p_ (queue s)) 1 = 0 /\ last_tail_ (queue s) = 2 /\
     ~ spec_cached_bounds (mkParams 1 2 2) (queue s)) /\
  (exists s s',
     reaches (mkParams 2 1 2) sched_late_publish s /\
     sys_step (mkParams 2 1 2) (StepPush 0) s = Ok s' /\
     last_tail_ (queue s) = 2 /\ last_tail_ (queue s') = 0).
Proof.
  split.
  - eexists. split; [|split_and!].
    + reach_by_run.
    + vm_compute. reflexivity.
    + vm_compute. reflexivity.
    + intros [H _]. specialize (H 1%nat). vm_compute in H.
      destruct H as [H _]; [lia|discriminate|]. by apply H.
  - eexists. eexists. split; [|split_and!].
    + reach_by_run.
    + vm_compute. reflexivity.
    + vm_compute. reflexivity.
    + vm_compute. reflexivity.
Qed.

(** C6, amended. In every state reached before the counters can wrap:
    [last_tail_ <= tail_] and [last_head_ <= head_]; every registry tail
    that is not the sentinel is at most [tail_], every registry head that
    is not the sentinel at most [head_]; and [last_tail_] is at most the
    reservation of every consumer that holds one (from its fetch-and-add
    until it sets its entry back to the sentinel), as [last_head_] is at
    most the reservation of every producer that holds one. An entry
    that holds only the value its thread read before its fetch-and-add
    is at most the reservation to come. Nothing is said of the order of
    successive values of [last_head_] and [last_tail_]. *)
Theorem cached_bounds_below_reservations c sched s :
  horizon c (Z.of_nat (length sched)) ->
  reaches c sched s ->
  (0 <= last_tail_ (queue s) <= tail_ (queue s) /\
   0 <= last_head_ (queue s) <= head_ (queue s)) /\
  (forall i, reg_tail (thr_p_ (queue s)) i = ULONG_MAX \/
             0 <= reg_tail (thr_p_ (queue s)) i <= tail_ (queue s)) /\
  (forall i, reg_head (thr_p_ (queue s)) i = ULONG_MAX \/
             0 <= reg_head (thr_p_ (queue s)) i <= head_ (queue s)) /\
  (forall k tk t, cons s !! k = Some tk ->
     pop_claim (thr_p_ (queue s)) k (pc tk) = Some t ->
     last_tail_ (queue s) <= t /\ reg_tail (thr_p_ (queue s)) k <= t /\
     t < tail_ (queue s)) /\
  (forall p tp h, prods s !! p = Some tp ->
     push_claim (thr_p_ (queue s)) p (pc tp) = Some h ->
     last_head_ (queue s) <= h /\ reg_head (thr_p_ (queue s)) p <= h /\
     h < head_ (queue s)).
Proof.
  intros Hhor Hreach.
  pose proof (inv_reaches c sched s Hhor Hreach) as
    [Hh Ht Hlh Hlt Hrl Hal Hpl Hcl Hrh Hrt HP HC HX1 HX2].
  split; [lia|]. split; [exact Hrt|]. split; [exact Hrh|]. split.
  - intros k tk t Hk Hc.
    destruct (cpc_inv_claim _ _ _ _ (HC _ _ Hk) Hc) as (? & ? & ?). done.
  - intros p tp h Hp Hc.
    destruct (ppc_inv_claim _ _ _ _ _ (HP _ _ Hp) Hc) as (? & ? & ?). done.
Qed.

Lemma cached_bounds_below_reservations_witness :
  exists s,
    reaches (mkParams 1 2 2) sched_stale_snapshot s /\
    0 <= last_tail_ (queue s) <= tail_ (queue s).
Proof.
  eexists. split.
  - reach_by_run.
  - apply (cached_bounds_below_reservations (mkParams 1 2 2) sched_stale_snapshot).
    + vm_compute. repeat split; discriminate.
    + reach_by_run.
Defined.

(** ** The calls follow the protocol *)

Lemma spec_min_snoc t vs v :
  spec_min t (vs ++ [v]) = if v <? spec_min t vs then v else spec_min t vs.
Proof.
  unfold spec_min. rewrite foldr_app. cbn [foldr].
  assert (H : forall a, foldr Z.min (Z.min v a) vs = Z.min v (foldr Z.min a vs)).
  { induction vs as [|w vs IH]; intros a; [done|]. cbn. rewrite IH. lia. }
  rewrite H. destruct (Z.ltb_spec v (foldr Z.min t vs)); lia.
Qed.

Lemma push_step_frame c p q pc q' pc' ev :
  push_step c (Z.of_nat p) q pc = Ok (q', pc', ev) ->
  (forall i, reg_tail (thr_p_ q') i = reg_tail (thr_p_ q) i) /\
  (forall i, i <> p -> reg_head (thr_p_ q') i = reg_head (thr_p_ q) i).
Proof.
  intros H. destruct pc; step_inv H; q_simpl; split; intros; reg_simpl;
    repeat case_decide; done.
Qed.

Lemma pop_step_frame c k q pc q' pc' ev :
  pop_step c (Z.of_nat k) q pc = Ok (q', pc', ev) ->
  (forall i, reg_head (thr_p_ q') i = reg_head (thr_p_ q) i) /\
  (forall i, i <> k -> reg_tail (thr_p_ q') i = reg_tail (thr_p_ q) i).
Proof.
  intros H. destruct pc; step_inv H; q_simpl; split; intros; reg_simpl;
    repeat case_decide; done.
Qed.

Lemma concat_map_snoc {A B} (f : A -> list B) (l : list A) (a : A) :
  concat (map f (l ++ [a])) = concat (map f l) ++ f a.
Proof. rewrite map_app, concat_app. cbn. by rewrite app_nil_r. Qed.

Lemma push_step_trace c q p pc tr q' pc' ev :
  0 < Q_SIZE c -> 0 <= last_tail_ q -> last_tail_ q + Q_SIZE c <= ULONG_MAX ->
  ppc_trace c (Z.of_nat p) (reg_head (thr_p_ q) p) pc tr ->
  push_step c (Z.of_nat p) q pc = Ok (q', pc', ev) ->
  if is_PIdle pc' then spec_push_protocol c (Z.of_nat p) (ppc_arg pc) (tr ++ [ev])
  else ppc_trace c (Z.of_nat p) (reg_head (thr_p_ q') p) pc' (tr ++ [ev]).
Proof.
  intros HQ Hlt0 Hlt1 Htr H.
  assert (Hmask : Q_MASK c = Q_SIZE c - 1).
  { unfold Q_MASK. apply wrap_small. lia. }
  unfold ULONG_MAX in Hlt1.
  destruct pc as [|x|x h|x|x|x h|x|x|x|x i m|x|x]; cbn [ppc_trace] in Htr.
  - done.
  - step_inv H. by subst.
  - step_inv H. subst. cbn. by eexists.
  - step_inv H. destruct Htr as [h0 ->]. cbn. by eexists.
  - step_inv H. destruct Htr as [h0 ->]. cbn. by eexists.
  - step_inv H. destruct Htr as [h0 ->]. cbn [is_PIdle ppc_trace]. q_simpl. reg_simpl.
    case_decide; [|done]. exists h0, []. split; [constructor|done].
  - destruct Htr as (h0 & rounds & Hok & ->).
    step_inv H; cbn [is_PIdle ppc_trace]; reg_simpl; wrap_simpl;
      exists h0, rounds, (last_tail_ q'); (split_and!; [done|lia|done]).
  - destruct Htr as (h0 & rounds & lt & Hok & Hge & ->).
    step_inv H. cbn [is_PIdle ppc_trace].
    exists h0, rounds, lt. split_and!; [done..|]. by rewrite <- app_assoc.
  - destruct Htr as (h0 & rounds & lt & Hok & Hge & ->).
    step_inv H. cbn [is_PIdle ppc_trace].
    exists h0, rounds, lt, (tail_ q'), []. split_and!; [done|done|done|cbn; lia|done|].
    by rewrite <- app_assoc.
  - destruct Htr as (h0 & rounds & lt & t & vs & Hok & Hge & -> & Hlen & -> & ->).
    step_inv H; cbn [is_PIdle ppc_trace]; q_simpl.
    + exists h0, rounds, lt, t, (vs ++ [ThrPos.tail t0]).
      rewrite length_app, spec_min_snoc, imap_app. cbn [length imap].
      split_and!; [done|done|lia|lia| |].
      * by destruct (ThrPos.tail t0 <? spec_min t vs).
      * rewrite Nat.add_0_r, <- !app_assoc. cbn [app]. by rewrite <- ?app_assoc.
    + exists h0, rounds, lt, t, (vs ++ [ThrPos.tail t0]).
      rewrite length_app, spec_min_snoc, imap_app. cbn [length imap].
      split_and!; [done|done|lia|lia| |].
      * by destruct (ThrPos.tail t0 <? spec_min t vs).
      * rewrite Nat.add_0_r, <- !app_assoc. cbn [app]. by rewrite <- ?app_assoc.
    + exists h0, (rounds ++ [(lt, t, vs)]). split.
      * apply Forall_app. split; [done|]. constructor; [|constructor].
        cbn. split; [done|lia].
      * unfold spec_push_loop. rewrite concat_map_snoc. unfold spec_push_round. cbn [fst snd].
        rewrite <- !app_assoc. cbn [app]. by rewrite <- ?app_assoc.
  - destruct Htr as (h0 & rounds & lt & Hok & Hge & ->).
    step_inv H. cbn [is_PIdle ppc_trace]. q_simpl. reg_simpl. rewrite Hmask.
    exists h0, rounds, lt. split_and!; [done..|]. by rewrite <- app_assoc.
  - destruct Htr as (h0 & rounds & lt & Hok & Hge & ->).
    step_inv H. cbn [is_PIdle ppc_arg].
    exists h0, (reg_head (thr_p_ q) p), rounds, lt. split_and!; [done..|].
    unfold spec_push_finish. by rewrite <- !app_assoc.
Qed.

Lemma pop_step_trace c q k pc tr q' pc' ev :
  0 < Q_SIZE c -> Q_SIZE c <= ULONG_MAX ->
  cpc_trace c (Z.of_nat k) (reg_tail (thr_p_ q) k) pc tr ->
  pop_step c (Z.of_nat k) q pc = Ok (q', pc', ev) ->
  if is_CIdle pc' then spec_pop_protocol c (Z.of_nat k) (cpc_ret pc) (tr ++ [ev])
  else cpc_trace c (Z.of_nat k) (reg_tail (thr_p_ q') k) pc' (tr ++ [ev]).
Proof.
  intros HQ HQ1 Htr H.
  assert (Hmask : Q_MASK c = Q_SIZE c - 1).
  { unfold Q_MASK. apply wrap_small. lia. }
  destruct pc as [| |t| | |t| | | |i m| |ret]; cbn [cpc_trace] in Htr.
  - done.
  - step_inv H. by subst.
  - step_inv H. subst. cbn. by eexists.
  - step_inv H. destruct Htr as [t0 ->]. cbn. by eexists.
  - step_inv H. destruct Htr as [t0 ->]. cbn. by eexists.
  - step_inv H. destruct Htr as [t0 ->]. cbn [is_CIdle cpc_trace]. q_simpl. reg_simpl.
    case_decide; [|done]. exists t0, []. split; [constructor|done].
  - destruct Htr as (t0 & rounds & Hok & ->).
    step_inv H; cbn [is_CIdle cpc_trace]; reg_simpl;
      exists t0, rounds, (last_head_ q'); (split_and!; [done|lia|done]).
  - destruct Htr as (t0 & rounds & lh & Hok & Hge & ->).
    step_inv H. cbn [is_CIdle cpc_trace].
    exists t0, rounds, lh. split_and!; [done..|]. by rewrite <- app_assoc.
  - destruct Htr as (t0 & rounds & lh & Hok & Hge & ->).
    step_inv H. cbn [is_CIdle cpc_trace].
    exists t0, rounds, lh, (head_ q'), []. split_and!; [done|done|done|cbn; lia|done|].
    by rewrite <- app_assoc.
  - destruct Htr as (t0 & rounds & lh & h & vs & Hok & Hge & -> & Hlen & -> & ->).
    step_inv H; cbn [is_CIdle cpc_trace]; q_simpl.
    + exists t0, rounds, lh, h, (vs ++ [ThrPos.head t]).
      rewrite length_app, spec_min_snoc, imap_app. cbn [length imap].
      split_and!; [done|done|lia|lia| |].
      * by destruct (ThrPos.head t <? spec_min h vs).
      * rewrite Nat.add_0_r, <- !app_assoc. cbn [app]. by rewrite <- ?app_assoc.
    + exists t0, rounds, lh, h, (vs ++ [ThrPos.head t]).
      rewrite length_app, spec_min_snoc, imap_app. cbn [length imap].
      split_and!; [done|done|lia|lia| |].
      * by destruct (ThrPos.head t <? spec_min h vs).
      * rewrite Nat.add_0_r, <- !app_assoc. cbn [app]. by rewrite <- ?app_assoc.
    + exists t0, (rounds ++ [(lh, h, vs)]). split.
      * apply Forall_app. split; [done|]. constructor; [|constructor].
        cbn. split; [done|lia].
      * unfold spec_pop_loop. rewrite concat_map_snoc. unfold spec_pop_round. cbn [fst snd].
        rewrite <- !app_assoc. cbn [app]. by rewrite <- ?app_assoc.
  - destruct Htr as (t0 & rounds & lh & Hok & Hge & ->).
    step_inv H. cbn [is_CIdle cpc_trace]. q_simpl. reg_simpl. rewrite Hmask.
    exists t0, rounds, lh. split_and!; [done..|]. by rewrite <- app_assoc.
  - destruct Htr as (t0 & rounds & lh & Hok & Hge & ->).
    step_inv H. cbn [is_CIdle cpc_ret].
    exists t0, (reg_tail (thr_p_ q) k), rounds, lh. split_and!; [done..|].
    unfold spec_pop_finish. by rewrite <- !app_assoc.
Qed.

Lemma ppc_trace_ext c tid mine mine' pc tr :
  mine' = mine -> ppc_trace c tid mine pc tr -> ppc_trace c tid mine' pc tr.
Proof. by intros ->. Qed.

Lemma cpc_trace_ext c tid mine mine' pc tr :
  mine' = mine -> cpc_trace c tid mine pc tr -> cpc_trace c tid mine' pc tr.
Proof. by intros ->. Qed.

Lemma traces_step c n a s s' :
  horizon c (n + 1) -> inv c n s -> traces_inv c s ->
  sys_step c a s = Ok s' -> traces_inv c s'.
Proof.
  intros (HQ & Hn & Hhor) HI [HPc HPh HCc HCh] Hstep.
  pose proof HI as [Hh Ht Hlh Hlt _ _ _ _ _ _ _ _ _ _].
  destruct a as [p x|p|k|k].
  - apply sys_step_CallPush in Hstep as (t & Hlook & Hpc & ->).
    constructor; cbn [queue prods cons]; try done.
    + intros p' t' Hl. apply list_lookup_insert_Some in Hl as [(<- & <- & _)|(Hne & Hl)];
        [done|by apply HPc].
    + intros p' t' Hl. apply list_lookup_insert_Some in Hl as [(<- & <- & _)|(Hne & Hl)];
        [by apply (HPh p t)|by apply HPh].
  - apply sys_step_StepPush in Hstep as (t & q' & pc' & ev & Hlook & Hstep & ->).
    destruct (push_step_frame _ _ _ _ _ _ _ Hstep) as [Hrt Hrh].
    pose proof (push_step_trace c (queue s) p (pc t) (cur t) q' pc' ev HQ
                  ltac:(lia) ltac:(lia) (HPc p t Hlook) Hstep) as Hown.
    constructor; cbn [queue prods cons].
    + intros p' t' Hl. apply list_lookup_insert_Some in Hl as [(<- & <- & _)|(Hne & Hl)].
      * unfold advance. destruct (is_PIdle pc') eqn:Hidle; [|done].
        destruct pc'; done.
      * eapply ppc_trace_ext; [apply Hrh; congruence|by apply HPc].
    + intros p' t' Hl. apply list_lookup_insert_Some in Hl as [(<- & <- & _)|(Hne & Hl)];
        [|by apply HPh].
      unfold advance. destruct (is_PIdle pc') eqn:Hidle; cbn [hist]; [|by apply (HPh p t)].
      apply Forall_app. split; [by apply (HPh p t)|]. by constructor.
    + intros k t' Hk. eapply cpc_trace_ext; [apply Hrt|by apply HCc].
    + done.
  - apply sys_step_CallPop in Hstep as (t & Hlook & Hpc & ->).
    constructor; cbn [queue prods cons]; try done.
    + intros k' t' Hl. apply list_lookup_insert_Some in Hl as [(<- & <- & _)|(Hne & Hl)];
        [done|by apply HCc].
    + intros k' t' Hl. apply list_lookup_insert_Some in Hl as [(<- & <- & _)|(Hne & Hl)];
        [by apply (HCh k t)|by apply HCh].
  - apply sys_step_StepPop in Hstep as (t & q' & pc' & ev & Hlook & Hstep & ->).
    destruct (pop_step_frame _ _ _ _ _ _ _ Hstep) as [Hrh Hrt].
    pose proof (pop_step_trace c (queue s) k (pc t) (cur t) q' pc' ev HQ
                  ltac:(lia) (HCc k t Hlook) Hstep) as Hown.
    constructor; cbn [queue prods cons].
    + intros p t' Hp. eapply ppc_trace_ext; [apply Hrh|by apply HPc].
    + done.
    + intros k' t' Hl. apply list_lookup_insert_Some in Hl as [(<- & <- & _)|(Hne & Hl)].
      * unfold advance. destruct (is_CIdle pc') eqn:Hidle; [|done].
        destruct pc'; done.
      * eapply cpc_trace_ext; [apply Hrt; congruence|by apply HCc].
    + intros k' t' Hl. apply list_lookup_insert_Some in Hl as [(<- & <- & _)|(Hne & Hl)];
        [|by apply HCh].
      unfold advance. destruct (is_CIdle pc') eqn:Hidle; cbn [hist]; [|by apply (HCh k t)].
      apply Forall_app. split; [by apply (HCh k t)|]. by constructor.
Qed.

Lemma traces_run c sched : forall n s s',
  horizon c (n + Z.of_nat (length sched)) -> 0 <= n ->
  inv c n s -> traces_inv c s ->
  run c sched s = Ok s' -> traces_inv c s'.
Proof.
  induction sched as [|a sched IH]; intros n s s' Hhor Hn HI Htr Hrun.
  - cbn in *. by simplify_eq.
  - cbn [run] in Hrun. destruct (sys_step c a s) as [s1| | | |] eqn:Hs; try done.
    cbn [obind] in Hrun. cbn [length] in *.
    replace (n + Z.of_nat (S (length sched))) with ((n + 1) + Z.of_nat (length sched)) in * by lia.
    assert (Hhor1 : horizon c (n + 1)) by (unfold horizon in *; lia).
    eapply (IH (n + 1)); [done|lia| | |done].
    + by eapply inv_step.
    + by eapply traces_step.
Qed.

Lemma traces_reaches c sched s :
  horizon c (Z.of_nat (length sched)) -> reaches c sched s -> traces_inv c s.
Proof.
  intros Hhor (b1 & b2 & q0 & Hnew & Hlen & Hrun).
  assert (HQ : 0 <= Q_SIZE c) by (unfold horizon in Hhor; lia).
  apply (traces_run c sched 0 (sys_init c q0) s); [done|lia| | |done].
  - by eapply inv_init.
  - constructor; unfold sys_init; cbn [prods cons]; intros i t Hl;
      apply lookup_replicate in Hl as [-> _]; by cbn.
Qed.

Ltac horizon_by_run := vm_compute; repeat split; discriminate.

(** ** The counters advance one fetch-and-add at a time *)

Lemma count_events_app f l1 l2 :
  count_events f (l1 ++ l2) = (count_events f l1 + count_events f l2)%nat.
Proof. induction l1 as [|e l1 IH]; cbn; [done|]. rewrite IH. lia. Qed.

Lemma count_events_none f l :
  Forall (fun e => f e = false) l -> count_events f l = 0%nat.
Proof. induction 1 as [|e l He _ IH]; cbn; [done|]. by rewrite He, IH. Qed.

Lemma count_events_concat_none {A} f (g : A -> list event) (l : list A) :
  (forall a, count_events f (g a) = 0%nat) ->
  count_events f (concat (map g l)) = 0%nat.
Proof.
  intros Hg. induction l as [|a l IH]; cbn; [done|].
  by rewrite count_events_app, Hg, IH.
Qed.

Lemma count_events_imap_none f (g : nat -> Z -> event) (vs : list Z) :
  (forall i v, f (g i v) = false) -> count_events f (imap g vs) = 0%nat.
Proof.
  intros Hg. apply count_events_none, Forall_lookup. intros i e He.
  rewrite list_lookup_imap in He. destruct (vs !! i); simplify_eq/=. apply Hg.
Qed.

Lemma spec_push_protocol_faa c tid x tr :
  spec_push_protocol c tid x tr ->
  count_events is_FetchAddHead tr = 1%nat /\ count_events is_FetchAddTail tr = 0%nat.
Proof.
  intros (h0 & my & rounds & lt & _ & _ & ->).
  unfold spec_push_loop. rewrite !count_events_app.
  rewrite !(count_events_concat_none _ (spec_push_round my)); [done|..];
    intros r; unfold spec_push_round; rewrite !count_events_app;
    rewrite count_events_imap_none; done.
Qed.

Lemma spec_pop_protocol_faa c tid ret tr :
  spec_pop_protocol c tid ret tr ->
  count_events is_FetchAddTail tr = 1%nat /\ count_events is_FetchAddHead tr = 0%nat.
Proof.
  intros (t0 & my & rounds & lh & _ & _ & ->).
  unfold spec_pop_loop. rewrite !count_events_app.
  rewrite !(count_events_concat_none _ (spec_pop_round my)); [done|..];
    intros r; unfold spec_pop_round; rewrite !count_events_app;
    rewrite count_events_imap_none; done.
Qed.

Lemma sys_step_counters c n a s s' :
  horizon c (n + 1) -> inv c n s -> sys_step c a s = Ok s' ->
  head_ (queue s') = head_ (queue s) + (if is_push_faa s a then 1 else 0) /\
  tail_ (queue s') = tail_ (queue s) + (if is_pop_faa s a then 1 else 0).
Proof.
  intros (HQ & Hn & Hhor) HI Hstep. unfold ULONG_MAX in Hhor.
  pose proof (inv_head _ _ _ HI) as Hh. pose proof (inv_tail _ _ _ HI) as Ht.
  destruct a as [p x|p|k|k]; cbn [is_push_faa is_pop_faa].
  - apply sys_step_CallPush in Hstep as (t & Hlook & Hpc & ->). cbn. lia.
  - apply sys_step_StepPush in Hstep as (t & q' & pc' & ev & Hlook & Hstep & ->).
    rewrite Hlook. destruct (pc t) eqn:Hpc; step_inv Hstep; q_simpl; wrap_simpl; lia.
  - apply sys_step_CallPop in Hstep as (t & Hlook & Hpc & ->). cbn. lia.
  - apply sys_step_StepPop in Hstep as (t & q' & pc' & ev & Hlook & Hstep & ->).
    rewrite Hlook. destruct (pc t) eqn:Hpc; step_inv Hstep; q_simpl; wrap_simpl; lia.
Qed.

(** C7. Neither queue ever takes a counter back. In the lock-free
    queue, before the counters can wrap, a step of the system changes
    [head_] only if it is the fetch-and-add of a push, which adds exactly
    1, and [tail_] only if it is the fetch-and-add of a pop, which adds
    exactly 1; every completed push has done exactly one fetch-and-add on
    [head_] and none on [tail_], every completed pop exactly one on
    [tail_] and none on [head_]. In the serialized queue a push either
    goes through, adds exactly 1 to [head_] and leaves [tail_], or
    waits, which it does only when its predicate
    [tail_ + Q_SIZE > head_] is false; a pop either goes through, adds
    exactly 1 to [tail_] and leaves [head_], or waits, which it does
    only when its predicate [tail_ < head_] is false (a slot outside
    the array apart). *)
Theorem counters_never_decrease c sched s a s' Q x nq :
  horizon c (Z.of_nat (length sched) + 1) ->
  reaches c sched s ->
  sys_step c a s = Ok s' ->
  0 <= NaiveQueue.head_ nq <= ULONG_MAX ->
  0 <= NaiveQueue.tail_ nq <= ULONG_MAX ->
  (head_ (queue s') = head_ (queue s) + (if is_push_faa s a then 1 else 0) /\
   tail_ (queue s') = tail_ (queue s) + (if is_pop_faa s a then 1 else 0) /\
   head_ (queue s) <= head_ (queue s') /\ tail_ (queue s) <= tail_ (queue s')) /\
  (forall p t j y tr, prods s !! p = Some t -> hist t !! j = Some (y, tr) ->
     count_events is_FetchAddHead tr = 1%nat /\
     count_events is_FetchAddTail tr = 0%nat) /\
  (forall k t j y tr, cons s !! k = Some t -> hist t !! j = Some (y, tr) ->
     count_events is_FetchAddTail tr = 1%nat /\
     count_events is_FetchAddHead tr = 0%nat) /\
  match NaiveQueue.push Q x nq with
  | Some nq' =>
      NaiveQueue.head_ nq' = NaiveQueue.head_ nq + 1 /\
      NaiveQueue.tail_ nq' = NaiveQueue.tail_ nq
  | None => wrap (NaiveQueue.tail_ nq + Q) <= NaiveQueue.head_ nq
  end /\
  match NaiveQueue.pop Q nq with
  | Some (v, nq') =>
      NaiveQueue.tail_ nq' = NaiveQueue.tail_ nq + 1 /\
      NaiveQueue.head_ nq' = NaiveQueue.head_ nq
  | None =>
      NaiveQueue.head_ nq <= NaiveQueue.tail_ nq \/
      NaiveQueue.ptr_array_ nq
        !! Z.to_nat (band (NaiveQueue.tail_ nq) (NaiveQueue.Q_MASK Q)) = None
  end.
Proof.
  intros Hhor1 Hreach Hstep Hnh Hnt.
  assert (Hhor : horizon c (Z.of_nat (length sched))) by (unfold horizon in *; lia).
  pose proof (inv_reaches c sched s Hhor Hreach) as HI.
  pose proof (traces_reaches c sched s Hhor Hreach) as HT.
  destruct (sys_step_counters c _ a s s' Hhor1 HI Hstep) as [Hh Ht].
  split; [|split; [|split; [|split]]].
  - split_and!; [done|done|..].
    + rewrite Hh. destruct (is_push_faa s a); lia.
    + rewrite Ht. destruct (is_pop_faa s a); lia.
  - intros p t j y tr Hp Hj. eapply spec_push_protocol_faa.
    by apply (Forall_lookup_1 _ _ _ _ (tr_prod_hist _ _ HT p t Hp) Hj).
  - intros k t j y tr Hk Hj. eapply spec_pop_protocol_faa.
    by apply (Forall_lookup_1 _ _ _ _ (tr_cons_hist _ _ HT k t Hk) Hj).
  - destruct (NaiveQueue.push Q x nq) as [nq'|] eqn:Hp.
    + apply NaiveQueue_push_Some in Hp as [_ ->]; [done|lia].
    + unfold NaiveQueue.push, NaiveQueue.not_full in Hp.
      destruct (Z.ltb_spec (NaiveQueue.head_ nq) (wrap (NaiveQueue.tail_ nq + Q)));
        [done|lia].
  - destruct (NaiveQueue.pop Q nq) as [[v nq']|] eqn:Hp.
    + apply NaiveQueue_pop_Some in Hp as (_ & _ & ->); [done|lia..].
    + unfold NaiveQueue.pop, NaiveQueue.not_empty in Hp.
      destruct (Z.ltb_spec (NaiveQueue.tail_ nq) (NaiveQueue.head_ nq)); [|left; lia].
      destruct (NaiveQueue.ptr_array_ nq !! _) as [v|]; [done|by right].
Qed.

Lemma counters_never_decrease_witness :
  exists s s',
    reaches (mkParams 1 1 2) (CallPush 0 7 :: replicate 3 (StepPush 0)) s /\
    sys_step (mkParams 1 1 2) (StepPush 0) s = Ok s' /\
    head_ (queue s') = head_ (queue s) + 1 /\
    tail_ (queue s') = tail_ (queue s) + 0 /\
    (exists nq', NaiveQueue.push 2 7 (NaiveQueue.mk 1 0 [5; 0]) = Some nq' /\
       NaiveQueue.head_ nq' = 2 /\ NaiveQueue.tail_ nq' = 0) /\
    (exists v nq', NaiveQueue.pop 2 (NaiveQueue.mk 1 0 [5; 0]) = Some (v, nq') /\
       NaiveQueue.tail_ nq' = 1 /\ NaiveQueue.head_ nq' = 1).
Proof.
  eexists _, _. split; [reach_by_run|]. split; [vm_compute; reflexivity|].
  pose proof (counters_never_decrease (mkParams 1 1 2)
                (CallPush 0 7 :: replicate 3 (StepPush 0)) _ (StepPush 0) _
                2 7 (NaiveQueue.mk 1 0 [5; 0])
                ltac:(horizon_by_run) ltac:(reach_by_run)
                ltac:(vm_compute; reflexivity)
                ltac:(vm_compute; split; discriminate)
                ltac:(vm_compute; split; discriminate)) as ((Hh & Ht & _) & _ & _ & Hpush & Hpop).
  split; [exact Hh|]. split; [exact Ht|]. split.
  - eexists. split; [reflexivity|]. exact Hpush.
  - eexists _, _. split; [reflexivity|]. exact Hpop.
Defined.

(** ** One producer and one consumer: first in, first out *)

Lemma is_pow2_spec Q : is_pow2 Q = true -> 0 < Q /\ Q - 1 = Z.ones (Z.log2 Q).
Proof.
  unfold is_pow2. intros H. apply andb_true_iff in H as [H1 H2].
  apply Z.ltb_lt in H1. apply Z.eqb_eq in H2. split; [done|].
  rewrite Z.ones_equiv. lia.
Qed.

Lemma band_small Q i : is_pow2 Q = true -> 0 <= i < Q -> band i (Q - 1) = i.
Proof.
  intros HQ Hi. destruct (is_pow2_spec Q HQ) as [Hpos Hones].
  unfold band. rewrite Hones, Z.land_ones by apply Z.log2_nonneg.
  apply Z.mod_small. unfold is_pow2 in HQ. apply andb_true_iff in HQ as [_ H2].
  apply Z.eqb_eq in H2. lia.
Qed.

Lemma pushed_advance c p q (t : thread ppc) q' pc' ev :
  push_step c (Z.of_nat p) q (pc t) = Ok (q', pc', ev) ->
  pushed (advance is_PIdle (ppc_arg (pc t)) t pc' ev) = pushed t.
Proof.
  intros H. unfold pushed, advance.
  destruct (pc t); step_inv H; cbn; try done.
  rewrite map_app. cbn. by rewrite app_nil_r.
Qed.

Lemma spsc_cons_frame q q' done done' I pc :
  tail_ q' = tail_ q -> reg_tail (thr_p_ q') 0 = reg_tail (thr_p_ q) 0 ->
  spsc_cons q done I pc -> spsc_cons q' (done ++ done') I pc.
Proof.
  intros Ht Hr. unfold spsc_cons. rewrite Ht, Hr, length_app.
  destruct pc; try done.
  - intros (? & ? & ?). split_and!; [done..|]. lia.
  - intros (? & ? & ?). split_and!; [done..|]. lia.
  - intros (? & ? & e & He & ?). split_and!; [done..|]. exists e.
    split; [|done]. by apply lookup_app_l_Some.
Qed.

Lemma spsc_cons_frame0 q q' done I pc :
  tail_ q' = tail_ q -> reg_tail (thr_p_ q') 0 = reg_tail (thr_p_ q) 0 ->
  spsc_cons q done I pc -> spsc_cons q' done I pc.
Proof.
  intros Ht Hr H. rewrite <- (app_nil_r done). by apply (spsc_cons_frame q).
Qed.

Lemma spsc_prod_frame q q' J pc :
  head_ q' = head_ q -> reg_head (thr_p_ q') 0 = reg_head (thr_p_ q) 0 ->
  ptr_array_ q' = ptr_array_ q ->
  spsc_prod q J pc -> spsc_prod q' J pc.
Proof. intros Hh Hr Ha. unfold spsc_prod. by rewrite Hh, Hr, Ha. Qed.

Lemma single_lookup {A} (l : list A) (x : A) i y :
  l = [x] -> l !! i = Some y -> i = 0%nat /\ y = x.
Proof. intros -> H. destruct i as [|[|i]]; cbn in H; by simplify_eq. Qed.

Lemma spsc_step_push c n p s s' :
  n_producers_ c = 1 -> n_consumers_ c = 1 -> is_pow2 (Q_SIZE c) = true ->
  horizon c (n + 1) -> inv c n s -> spsc_inv c s ->
  sys_step c (StepPush p) s = Ok s' -> spsc_inv c s'.
Proof.
  intros HN HM Hpow (HQ & Hn & Hhor) HI (tp & tc & Hp & Hc & Hf) Hstep.
  unfold ULONG_MAX in Hhor.
  apply sys_step_StepPush in Hstep as (t & q' & pc' & ev & Hlook & Hstep & ->).
  destruct (single_lookup _ _ _ _ Hp Hlook) as [-> ->].
  rewrite Hp, Hc. cbn [insert list_insert].
  eexists _, tc. split_and!; [reflexivity..|].
  rewrite (pushed_advance _ _ _ _ _ _ _ Hstep). intros Hlen.
  destruct (push_step_frame c 0%nat _ _ _ _ _ Hstep) as [Hrt _].
  destruct (Hf Hlen) as [Fp Fc Flh Fs Fpop].
  pose proof (inv_arr_len _ _ _ HI) as Hal.
  pose proof (inv_last_tail _ _ _ HI) as Hlt. pose proof (inv_tail _ _ _ HI) as Htl.
  assert (Hmask : Q_MASK c = Q_SIZE c - 1).
  { unfold Q_MASK. apply wrap_small. unfold ULONG_MAX. lia. }
  unfold pushed in Hlen. rewrite length_app, length_map in Hlen.
  destruct (pc tp) eqn:Hpc; step_inv Hstep; unfold advance; cbn [is_PIdle pc cur hist] in *.
  all: constructor; cbn [pc hist]; try done.
  all: try (apply (spsc_cons_frame0 (queue s)); [done|apply Hrt|done]).
  all: try (apply (spsc_cons_frame (queue s)); [done|apply Hrt|done]).
  all: try (unfold spsc_prod in *; rewrite ?length_app; cbn [length];
            q_simpl; reg_simpl; repeat case_decide; wrap_simpl; try done; lia).
  - (* the payload is stored in slot J *)
    unfold spsc_prod in *. q_simpl. reg_simpl. destruct Fp as [Fh Fm].
    rewrite Fm, Hmask, (band_small _ _ Hpow) by (cbn in Hlen; lia).
    split_and!; [done..|]. apply list_lookup_insert_eq. rewrite Hal. cbn in Hlen. lia.
  - intros i e Hi. q_simpl. reg_simpl. unfold spsc_prod in Fp. destruct Fp as [Fh Fm].
    rewrite Fm, Hmask, (band_small _ _ Hpow) by (cbn in Hlen; lia).
    apply lookup_lt_Some in Hi as Hlt'.
    rewrite list_lookup_insert_ne by lia. by apply Fs.
  - intros i e Hi. q_simpl. apply lookup_app_Some in Hi as [Hi|[Hge Hi]]; [by apply Fs|].
    apply list_lookup_singleton_Some in Hi as [Hi <-]. cbn [fst ppc_arg].
    unfold spsc_prod in Fp. destruct Fp as (_ & _ & Fa).
    rewrite Nat2Z.id in Fa. by replace i with (length (hist tp)) by lia.
  - intros i e Hi. destruct (Fpop i e Hi) as (e' & He' & Heq). exists e'.
    split; [|done]. by apply lookup_app_l_Some.
Qed.

Lemma spsc_step_pop c n k s s' :
  n_producers_ c = 1 -> n_consumers_ c = 1 -> is_pow2 (Q_SIZE c) = true ->
  horizon c (n + 1) -> inv c n s -> spsc_inv c s ->
  sys_step c (StepPop k) s = Ok s' -> spsc_inv c s'.
Proof.
  intros HN HM Hpow (HQ & Hn & Hhor) HI (tp & tc & Hp & Hc & Hf) Hstep.
  unfold ULONG_MAX in Hhor.
  apply sys_step_StepPop in Hstep as (t & q' & pc' & ev & Hlook & Hstep & ->).
  destruct (single_lookup _ _ _ _ Hc Hlook) as [-> ->].
  rewrite Hp, Hc. cbn [insert list_insert].
  eexists tp, _. split_and!; [reflexivity..|]. intros Hlen.
  destruct (pop_step_frame c 0%nat _ _ _ _ _ Hstep) as [Hrh _].
  destruct (Hf Hlen) as [Fp Fc Flh Fs Fpop].
  assert (Hptp : prods s !! 0%nat = Some tp) by by rewrite Hp.
  pose proof (inv_cons _ _ _ HI 0%nat tc Hlook) as Hown.
  pose proof (inv_prod _ _ _ HI 0%nat tp Hptp) as Hpown.
  pose proof (inv_head _ _ _ HI) as Hhd. pose proof (inv_tail _ _ _ HI) as Htl.
  assert (Hmask : Q_MASK c = Q_SIZE c - 1).
  { unfold Q_MASK. apply wrap_small. unfold ULONG_MAX. lia. }
  unfold pushed in Hlen. rewrite length_app, length_map in Hlen.
  destruct (pc tc) eqn:Hpc; step_inv Hstep; unfold advance; cbn [is_CIdle pc cur hist] in *.
  all: constructor; cbn [pc hist]; try done.
  all: try (apply (spsc_prod_frame (queue s)); [done|apply Hrh|done|done]).
  all: try (unfold spsc_cons in *; rewrite ?length_app; cbn [length];
            q_simpl; reg_simpl; repeat case_decide; wrap_simpl; try done; lia).
  - (* the scan reads the producer's entry *)
    unfold spsc_cons in *. q_simpl. destruct Fc as (Ft & Fm & Fmin).
    destruct Hown as (_ & Hi0 & Hm). split_and!; [done..|]. intros _.
    assert (i = 0) by lia. subst i. change (Z.to_nat 0) with 0%nat in *.
    reg_simpl. unfold spsc_prod in Fp. destruct (pc tp); lia.
  - unfold spsc_cons in *. q_simpl. destruct Fc as (Ft & Fm & Fmin).
    destruct Hown as (_ & Hi0 & Hm). split_and!; [done..|]. intros _.
    assert (i = 0) by lia. subst i. change (Z.to_nat 0) with 0%nat in *.
    reg_simpl. unfold spsc_prod in Fp. destruct (pc tp); lia.
  - (* the slot read holds what push number I stored *)
    unfold spsc_cons in *. q_simpl. reg_simpl. destruct Fc as (Ft & Fm & Flt).
    split_and!; [done..|].
    assert (HIQ : 0 <= Z.of_nat (length (hist tc)) < Q_SIZE c) by lia.
    rewrite Fm, Hmask, (band_small _ _ Hpow HIQ), Nat2Z.id in *.
    destruct (lookup_lt_is_Some_2 (hist tp) (length (hist tc))) as [e He]; [lia|].
    exists e. split; [done|]. pose proof (Fs _ _ He) as Hs. congruence.
  - intros i e Hi. apply lookup_app_Some in Hi as [Hi|[Hge Hi]]; [by apply Fpop|].
    apply list_lookup_singleton_Some in Hi as [Hi <-]. cbn [fst cpc_ret].
    unfold spsc_cons in Fc. destruct Fc as (_ & _ & e' & He' & Hret).
    rewrite Nat2Z.id in He'. exists e'. split; [|done].
    by replace i with (length (hist tc)) by lia.
Qed.

Lemma spsc_step c n a s s' :
  n_producers_ c = 1 -> n_consumers_ c = 1 -> is_pow2 (Q_SIZE c) = true ->
  horizon c (n + 1) -> inv c n s -> spsc_inv c s ->
  sys_step c a s = Ok s' -> spsc_inv c s'.
Proof.
  intros HN HM Hpow Hhor HI Hs Hstep. destruct a as [p x|p|k|k].
  - destruct Hs as (tp & tc & Hp & Hc & Hf).
    apply sys_step_CallPush in Hstep as (t & Hlook & Hpc & ->).
    destruct (single_lookup _ _ _ _ Hp Hlook) as [-> ->].
    rewrite Hp, Hc. cbn [insert list_insert].
    eexists _, tc. split_and!; [reflexivity..|].
    unfold pushed. cbn [pc hist is_PIdle]. rewrite length_app. intros Hlen.
    destruct Hf as [Fp Fc Flh Fs Fpop].
    { unfold pushed. rewrite Hpc. cbn [is_PIdle]. rewrite app_nil_r. lia. }
    rewrite Hpc in Fp. by constructor.
  - by eapply spsc_step_push.
  - destruct Hs as (tp & tc & Hp & Hc & Hf).
    apply sys_step_CallPop in Hstep as (t & Hlook & Hpc & ->).
    destruct (single_lookup _ _ _ _ Hc Hlook) as [-> ->].
    rewrite Hp, Hc. cbn [insert list_insert].
    eexists tp, _. split_and!; [reflexivity..|]. intros Hlen.
    destruct (Hf Hlen) as [Fp Fc Flh Fs Fpop].
    rewrite Hpc in Fc. by constructor.
  - by eapply spsc_step_pop.
Qed.

Lemma spsc_run c sched : forall n s s',
  n_producers_ c = 1 -> n_consumers_ c = 1 -> is_pow2 (Q_SIZE c) = true ->
  horizon c (n + Z.of_nat (length sched)) -> 0 <= n ->
  inv c n s -> spsc_inv c s ->
  run c sched s = Ok s' -> spsc_inv c s'.
Proof.
  induction sched as [|a sched IH]; intros n s s' HN HM Hpow Hhor Hn HI Hs Hrun.
  - cbn in *. by simplify_eq.
  - cbn [run] in Hrun. destruct (sys_step c a s) as [s1| | | |] eqn:Hstep; try done.
    cbn [obind] in Hrun. cbn [length] in *.
    replace (n + Z.of_nat (S (length sched))) with ((n + 1) + Z.of_nat (length sched)) in * by lia.
    assert (Hhor1 : horizon c (n + 1)) by (unfold horizon in *; lia).
    eapply (IH (n + 1)); [done..|lia| | |done].
    + by eapply inv_step.
    + by eapply spsc_step.
Qed.

Lemma spsc_reaches c sched s :
  n_producers_ c = 1 -> n_consumers_ c = 1 -> is_pow2 (Q_SIZE c) = true ->
  horizon c (Z.of_nat (length sched)) -> reaches c sched s -> spsc_inv c s.
Proof.
  intros HN HM Hpow Hhor (b1 & b2 & q0 & Hnew & Hlen & Hrun).
  assert (HQ : 0 <= Q_SIZE c) by (unfold horizon in Hhor; lia).
  apply (spsc_run c sched 0 (sys_init c q0) s); [done..|lia| | |done].
  - by eapply inv_init.
  - apply LockFreeQueue_new_Ok in Hnew as (bytes & arr & _ & _ & ->).
    unfold sys_init. rewrite HN, HM. cbn [prods cons queue replicate Z.to_nat Pos.to_nat
      Pos.iter_op Nat.add].
    eexists _, _. split_and!; [reflexivity..|]. intros _.
    constructor; cbn; try done.
    unfold thr_p_len, thr_p_bytes, n_threads. rewrite HN, HM. cbn. done.
Qed.

Lemma spsc_popped_prefix c sched s tp tc :
  n_producers_ c = 1 -> n_consumers_ c = 1 -> is_pow2 (Q_SIZE c) = true ->
  horizon c (Z.of_nat (length sched)) -> reaches c sched s ->
  prods s = [tp] -> cons s = [tc] ->
  Z.of_nat (length (pushed tp)) <= Q_SIZE c ->
  popped tc = take (length (popped tc)) (pushed tp).
Proof.
  intros HN HM Hpow Hhor Hreach Hp Hc Hlen.
  destruct (spsc_reaches c sched s HN HM Hpow Hhor Hreach) as (tp' & tc' & Hp' & Hc' & Hf).
  rewrite Hp in Hp'. rewrite Hc in Hc'. simplify_eq.
  destruct (Hf Hlen) as [_ _ _ _ Fpop].
  unfold popped, pushed. apply list_eq. intros i.
  rewrite length_map. destruct (decide (i < length (hist tc'))%nat) as [Hi|Hi].
  - rewrite lookup_take_lt by done.
    destruct (lookup_lt_is_Some_2 _ _ Hi) as [e He].
    destruct (Fpop i e He) as (e' & He' & Heq).
    rewrite lookup_app_l by (rewrite length_map; by eapply lookup_lt_Some).
    rewrite !list_lookup_fmap, He, He'. cbn. by rewrite Heq.
  - rewrite lookup_take_ge by lia. apply lookup_ge_None. rewrite length_map. lia.
Qed.

(** ** The serialized queue: first in, first out *)

Lemma naive_mask Q : 0 < Q <= ULONG_MAX -> NaiveQueue.Q_MASK Q = Q - 1.
Proof. intros H. unfold NaiveQueue.Q_MASK. apply wrap_small. lia. Qed.

Lemma naive_inv_push Q x q out P q' :
  is_pow2 Q = true -> Q <= ULONG_MAX ->
  naive_inv Q q out P -> Z.of_nat (length P) < Q ->
  NaiveQueue.push Q x q = Some q' ->
  naive_inv Q q' out (P ++ [x]).
Proof.
  intros Hpow HQ [Hh Ht Ho Hs Hl] HP Hpush.
  destruct (is_pow2_spec Q Hpow) as [Hpos _].
  apply NaiveQueue_push_Some in Hpush as [_ ->]; [|lia].
  rewrite naive_mask, Hh, band_small, Nat2Z.id by (done || lia).
  constructor; cbn; rewrite ?length_app, ?length_insert; cbn; try done; try lia.
  - rewrite take_app_le; [done|]. rewrite Ho, length_take. lia.
  - intros i y Hi. apply lookup_app_Some in Hi as [Hi|[Hge Hi]].
    + apply lookup_lt_Some in Hi as Hlt. rewrite list_lookup_insert_ne by lia. by apply Hs.
    + apply list_lookup_singleton_Some in Hi as [Hi <-].
      replace i with (length P) by lia. apply list_lookup_insert_eq. lia.
Qed.

Lemma naive_inv_pop Q q out P v q' :
  is_pow2 Q = true -> Q <= ULONG_MAX ->
  naive_inv Q q out P -> Z.of_nat (length P) <= Q ->
  NaiveQueue.pop Q q = Some (v, q') ->
  naive_inv Q q' (out ++ [v]) P.
Proof.
  intros Hpow HQ [Hh Ht Ho Hs Hl] HP Hpop.
  destruct (is_pow2_spec Q Hpow) as [Hpos _].
  apply NaiveQueue_pop_Some in Hpop as (Hlt & Hv & ->); [|lia..].
  rewrite naive_mask, Ht, band_small, Nat2Z.id in Hv by (done || lia).
  destruct (lookup_lt_is_Some_2 P (length out)) as [y Hy]; [lia|].
  pose proof (Hs _ _ Hy) as Hy'. assert (y = v) by congruence. subst y.
  constructor; cbn; rewrite ?length_app; cbn; try done; try lia.
  replace (length out + 1)%nat with (S (length out)) by lia.
  rewrite (take_S_r _ _ _ Hy). by rewrite <- Ho.
Qed.

Lemma naive_run_inv Q cs : forall q out P q' out',
  is_pow2 Q = true -> Q <= ULONG_MAX ->
  naive_inv Q q out P ->
  Z.of_nat (length (P ++ pushes_of cs)) <= Q ->
  NaiveQueue.run Q cs q out = Some (q', out') ->
  naive_inv Q q' out' (P ++ pushes_of cs).
Proof.
  induction cs as [|[x|] cs IH]; intros q out P q' out' Hpow HQ Hinv Hlen Hrun.
  - cbn in *. simplify_eq. by rewrite app_nil_r.
  - cbn [NaiveQueue.run pushes_of flat_map] in *.
    destruct (NaiveQueue.push Q x q) as [q1|] eqn:Hpush; [|done].
    change (flat_map _ cs) with (pushes_of cs) in *.
    rewrite (app_assoc P [x]) in *.
    apply (IH q1 out); try done.
    apply (naive_inv_push Q x q); try done.
    rewrite !length_app in Hlen. cbn in Hlen. lia.
  - cbn [NaiveQueue.run pushes_of flat_map] in *.
    destruct (NaiveQueue.pop Q q) as [[v q1]|] eqn:Hpop; [|done].
    change (flat_map _ cs) with (pushes_of cs) in *. cbn [app] in *.
    apply (IH q1 (out ++ [v])); try done.
    apply (naive_inv_pop Q q out P v); try done.
    rewrite length_app in Hlen. lia.
Qed.

Lemma naive_push_phase Q xs : forall P q rest out,
  is_pow2 Q = true -> Q <= ULONG_MAX ->
  naive_inv Q q [] P ->
  Z.of_nat (length P + length xs) <= Q ->
  exists q1, naive_inv Q q1 [] (P ++ xs) /\
    NaiveQueue.run Q (map NaiveQueue.Push xs ++ rest) q out
    = NaiveQueue.run Q rest q1 out.
Proof.
  induction xs as [|x xs IH]; intros P q rest out Hpow HQ Hinv Hlen.
  - exists q. by rewrite app_nil_r.
  - cbn [map app NaiveQueue.run length] in *.
    destruct (is_pow2_spec Q Hpow) as [Hpos _].
    assert (Hen : NaiveQueue.not_full Q q = true).
    { unfold NaiveQueue.not_full. rewrite (ni_head _ _ _ _ Hinv), (ni_tail _ _ _ _ Hinv).
      cbn [length Z.of_nat]. rewrite Z.add_0_l, wrap_small by lia.
      apply Z.ltb_lt. lia. }
    unfold NaiveQueue.push at 1. rewrite Hen.
    destruct (IH (P ++ [x])
               (NaiveQueue.mk (wrap (NaiveQueue.head_ q + 1)) (NaiveQueue.tail_ q)
                  (<[Z.to_nat (band (NaiveQueue.head_ q) (NaiveQueue.Q_MASK Q)) := x]>
                     (NaiveQueue.ptr_array_ q))) rest out Hpow HQ) as (q1 & Hq1 & Hrun).
    + apply (naive_inv_push Q x q); try done; [lia|].
      unfold NaiveQueue.push. by rewrite Hen.
    + rewrite length_app. cbn. lia.
    + exists q1. rewrite <- app_assoc in Hq1. done.
Qed.

Lemma naive_pop_phase Q m : forall q out P,
  is_pow2 Q = true -> Q <= ULONG_MAX ->
  naive_inv Q q out P -> Z.of_nat (length P) <= Q ->
  (length out + m <= length P)%nat ->
  exists q1, NaiveQueue.run Q (replicate m NaiveQueue.Pop) q out
             = Some (q1, take (length out + m) P).
Proof.
  induction m as [|m IH]; intros q out P Hpow HQ Hinv HP Hlen.
  - exists q. cbn. rewrite Nat.add_0_r. by rewrite <- (ni_out _ _ _ _ Hinv).
  - cbn [replicate NaiveQueue.run].
    destruct (is_pow2_spec Q Hpow) as [Hpos _].
    destruct (lookup_lt_is_Some_2 P (length out)) as [v Hv]; [lia|].
    assert (Hpop : NaiveQueue.pop Q q
              = Some (v, NaiveQueue.mk (NaiveQueue.head_ q) (wrap (NaiveQueue.tail_ q + 1))
                           (NaiveQueue.ptr_array_ q))).
    { unfold NaiveQueue.pop, NaiveQueue.not_empty.
      rewrite (ni_head _ _ _ _ Hinv), (ni_tail _ _ _ _ Hinv).
      destruct (Z.ltb_spec (Z.of_nat (length out)) (Z.of_nat (length P))); [|lia].
      rewrite naive_mask, band_small, Nat2Z.id by (done || lia).
      by rewrite (ni_slots _ _ _ _ Hinv _ _ Hv). }
    rewrite Hpop.
    destruct (IH _ (out ++ [v]) P Hpow HQ (naive_inv_pop _ _ _ _ _ _ Hpow HQ Hinv HP Hpop) HP)
      as (q1 & Hrun).
    + rewrite length_app. cbn. lia.
    + exists q1. rewrite Hrun, length_app. cbn [length].
      by replace (length out + 1 + m)%nat with (length out + S m)%nat by lia.
Qed.

(** ** The run in which all pushes come first *)

Ltac closed_simpl r :=
  change (Z.of_nat 0) with 0 in r;
  change (Z.max 1 1) with 1 in r;
  change (0 <? 1) with true in r;
  change (1 <? 1) with false in r;
  change (0 + 1) with 1 in r;
  change (Z.to_nat 0) with 0%nat in r.

Ltac state_simpl :=
  cbn [obind set_head_ set_tail_ set_last_head_ set_last_tail_ set_thr_p_
       set_ptr_array_ head_ tail_ last_head_ last_tail_ thr_p_ ptr_array_
       ThrPos.head ThrPos.tail].

Ltac run1 :=
  cbn [run];
  match goal with
  | |- context [sys_step ?c ?a ?s] =>
      let r := fresh "r" in
      set (r := sys_step c a s);
      cbn in r; unfold store_thr_head, store_thr_tail, thr_pos, load_thr, n_threads in r;
      cbn in r; closed_simpl r; cbn in r; subst r; state_simpl
  end.

Lemma push_call_run Q x h t lh lt rtv arr hp tc :
  is_pow2 Q = true -> 0 <= h < Q -> 0 <= lt -> lt + Q <= ULONG_MAX ->
  length arr = Z.to_nat Q ->
  exists tr,
    run (mkParams 1 1 Q) (push_call 0 x)
      (mkSys (mkQ h t lh lt [ThrPos.mk ULONG_MAX rtv] arr)
             [mkThread PIdle [] hp] [tc])
    = Ok (mkSys (mkQ (h + 1) t lh lt [ThrPos.mk ULONG_MAX rtv] (<[Z.to_nat h := x]> arr))
                [mkThread PIdle [] (hp ++ [(x, tr)])] [tc]).
Proof.
  intros Hpow Hh Hlt0 Hlt1 Hlen.
  destruct (is_pow2_spec Q Hpow) as [Hpos _].
  assert (Hc : (wrap (lt + Q) <=? h) = false).
  { rewrite wrap_small by lia. lia. }
  assert (Hm : band h (Q_MASK (mkParams 1 1 Q)) = h).
  { unfold Q_MASK. cbn [Q_SIZE]. rewrite wrap_small by (unfold ULONG_MAX in *; lia).
    by apply band_small. }
  destruct (lookup_lt_is_Some_2 arr (Z.to_nat h)) as [old Hold]; [lia|].
  eexists. unfold push_call. cbn [replicate].
  do 6 run1. run1. rewrite Hc. state_simpl.
  run1. rewrite Hm, Hold. state_simpl.
  run1. rewrite wrap_small by (unfold ULONG_MAX in *; lia). reflexivity.
Qed.

Lemma pop_call_run Q h t lh lt rhv arr tp hc :
  is_pow2 Q = true -> Q <= ULONG_MAX -> 0 <= t < Q -> t < lh ->
  length arr = Z.to_nat Q ->
  exists v tr,
    run (mkParams 1 1 Q) (pop_call 0)
      (mkSys (mkQ h t lh lt [ThrPos.mk rhv ULONG_MAX] arr)
             [tp] [mkThread CIdle [] hc])
    = Ok (mkSys (mkQ h (t + 1) lh lt [ThrPos.mk rhv ULONG_MAX] arr)
                [tp] [mkThread CIdle [] (hc ++ [(v, tr)])]).
Proof.
  intros Hpow HQ Ht Hlh Hlen.
  destruct (is_pow2_spec Q Hpow) as [Hpos _].
  assert (Hc : (lh <=? t) = false) by lia.
  assert (Hm : band t (Q_MASK (mkParams 1 1 Q)) = t).
  { unfold Q_MASK. cbn [Q_SIZE]. rewrite wrap_small by (unfold ULONG_MAX in *; lia).
    by apply band_small. }
  destruct (lookup_lt_is_Some_2 arr (Z.to_nat t)) as [v Hv]; [lia|].
  exists v. eexists. unfold pop_call. cbn [replicate].
  do 6 run1. run1. rewrite Hc. state_simpl.
  run1. rewrite Hm, Hv. state_simpl.
  run1. rewrite wrap_small by (unfold ULONG_MAX in *; lia). reflexivity.
Qed.

Lemma pop_call_wait_run Q h t lh lt arr tp hc :
  is_pow2 Q = true -> Q <= ULONG_MAX -> 0 <= t < Q -> lh <= t -> t < h ->
  h < ULONG_MAX ->
  length arr = Z.to_nat Q ->
  exists v tr,
    run (mkParams 1 1 Q) (pop_call_wait 0 1)
      (mkSys (mkQ h t lh lt [ThrPos.mk ULONG_MAX ULONG_MAX] arr)
             [tp] [mkThread CIdle [] hc])
    = Ok (mkSys (mkQ h (t + 1) h lt [ThrPos.mk ULONG_MAX ULONG_MAX] arr)
                [tp] [mkThread CIdle [] (hc ++ [(v, tr)])]).
Proof.
  intros Hpow HQ Ht Hlh Hth Hh Hlen.
  destruct (is_pow2_spec Q Hpow) as [Hpos _].
  assert (Hc1 : (lh <=? t) = true) by lia.
  assert (Hc2 : (ULONG_MAX <? h) = false) by lia.
  assert (Hc3 : (h <=? t) = false) by lia.
  assert (Hm : band t (Q_MASK (mkParams 1 1 Q)) = t).
  { unfold Q_MASK. cbn [Q_SIZE]. rewrite wrap_small by (unfold ULONG_MAX in *; lia).
    by apply band_small. }
  destruct (lookup_lt_is_Some_2 arr (Z.to_nat t)) as [v Hv]; [lia|].
  exists v. eexists. unfold pop_call_wait. cbn [replicate Nat.add].
  do 6 run1. run1. rewrite Hc1. state_simpl.
  do 2 run1. run1. rewrite Hc2. state_simpl.
  run1. run1. rewrite Hc3. state_simpl.
  run1. rewrite Hm, Hv. state_simpl.
  run1. rewrite wrap_small by (unfold ULONG_MAX in *; lia). reflexivity.
Qed.

Lemma run_app c l1 l2 s :
  run c (l1 ++ l2) s = obind (run c l1 s) (run c l2).
Proof.
  revert s. induction l1 as [|a l1 IH]; intros s; [done|].
  cbn [app run]. destruct (sys_step c a s); cbn [obind]; [apply IH|done..].
Qed.

Lemma push_phase Q xs : forall h t lh lt rtv arr hp tc,
  is_pow2 Q = true -> 0 <= h -> h + Z.of_nat (length xs) <= Q ->
  0 <= lt -> lt + Q <= ULONG_MAX -> length arr = Z.to_nat Q ->
  exists hp' arr',
    map fst hp' = map fst hp ++ xs /\ length arr' = Z.to_nat Q /\
    run (mkParams 1 1 Q) (concat (map (push_call 0) xs))
      (mkSys (mkQ h t lh lt [ThrPos.mk ULONG_MAX rtv] arr)
             [mkThread PIdle [] hp] [tc])
    = Ok (mkSys (mkQ (h + Z.of_nat (length xs)) t lh lt
                   [ThrPos.mk ULONG_MAX rtv] arr')
                [mkThread PIdle [] hp'] [tc]).
Proof.
  induction xs as [|x xs IH]; intros h t lh lt rtv arr hp tc Hpow Hh Hlen Hlt0 Hlt1 Harr.
  - exists hp, arr. cbn. rewrite app_nil_r, Z.add_0_r. done.
  - cbn [map concat length] in *. rewrite run_app.
    destruct (push_call_run Q x h t lh lt rtv arr hp tc Hpow) as [tr ->]; [lia|done..|].
    cbn [obind].
    destruct (IH (h + 1) t lh lt rtv (<[Z.to_nat h := x]> arr) (hp ++ [(x, tr)]) tc Hpow)
      as (hp' & arr' & Hmap & Harr' & ->); [lia|lia|done|done|by rewrite length_insert|].
    exists hp', arr'. split_and!; [|done|].
    + rewrite Hmap, map_app. cbn. by rewrite <- app_assoc.
    + do 3 f_equal. lia.
Qed.

Lemma pop_phase Q (rest : list Z) : forall h t lh lt rhv arr tp hc,
  is_pow2 Q = true -> Q <= ULONG_MAX -> 0 <= t ->
  t + Z.of_nat (length rest) <= lh -> lh <= Q ->
  length arr = Z.to_nat Q ->
  exists hc',
    length hc' = (length hc + length rest)%nat /\
    run (mkParams 1 1 Q) (concat (map (fun _ => pop_call 0) rest))
      (mkSys (mkQ h t lh lt [ThrPos.mk rhv ULONG_MAX] arr)
             [tp] [mkThread CIdle [] hc])
    = Ok (mkSys (mkQ h (t + Z.of_nat (length rest)) lh lt
                   [ThrPos.mk rhv ULONG_MAX] arr)
                [tp] [mkThread CIdle [] hc']).
Proof.
  induction rest as [|x rest IH]; intros h t lh lt rhv arr tp hc Hpow HQ Ht Hlen Hlh Harr.
  - exists hc. cbn. rewrite Nat.add_0_r, Z.add_0_r. done.
  - cbn [map concat length] in *. rewrite run_app.
    destruct (pop_call_run Q h t lh lt rhv arr tp hc Hpow HQ) as (v & tr & ->);
      [lia|lia|done|].
    cbn [obind].
    destruct (IH h (t + 1) lh lt rhv arr tp (hc ++ [(v, tr)]) Hpow HQ)
      as (hc' & Hl & ->); [lia|lia|done|done|].
    exists hc'. split.
    + rewrite Hl, length_app. cbn. lia.
    + do 3 f_equal. lia.
Qed.

Lemma push_all_pop_all_run Q xs blk_thr blk_arr q0 :
  is_pow2 Q = true -> Q < ULONG_MAX -> Z.of_nat (length xs) <= Q ->
  LockFreeQueue_new (mkParams 1 1 Q) blk_thr blk_arr = Ok q0 ->
  length (ptr_array_ q0) = Z.to_nat Q ->
  exists s tp tc,
    run (mkParams 1 1 Q) (sched_push_all_pop_all xs) (sys_init (mkParams 1 1 Q) q0) = Ok s /\
    prods s = [tp] /\ cons s = [tc] /\
    pushed tp = xs /\ length (hist tc) = length xs.
Proof.
  intros Hpow HQ Hlen Hnew Harr.
  apply LockFreeQueue_new_Ok in Hnew as (bytes & arr & _ & _ & ->). cbn [ptr_array_] in Harr.
  change (sys_init (mkParams 1 1 Q) _)
    with (mkSys (mkQ 0 0 0 0 [ThrPos.mk ULONG_MAX ULONG_MAX] arr)
                [mkThread PIdle [] []] [mkThread CIdle [] []]).
  unfold sched_push_all_pop_all. rewrite run_app.
  destruct (push_phase Q xs 0 0 0 0 ULONG_MAX arr [] (mkThread CIdle [] []) Hpow)
    as (hp & arr' & Hmap & Harr' & ->); [lia|lia|lia|lia|done|].
  cbn [obind]. cbn [map app] in Hmap. rewrite Z.add_0_l.
  destruct xs as [|x rest].
  - cbn [run]. eexists _, _, _. split_and!; [reflexivity..| |done].
    unfold pushed. cbn [hist pc is_PIdle]. by rewrite app_nil_r.
  - rewrite run_app. cbn [length] in *.
    destruct (pop_call_wait_run Q (Z.of_nat (S (length rest))) 0 0 0 arr'
                (mkThread PIdle [] hp) [] Hpow) as (v & tr & ->); [lia..|done|].
    cbn [obind].
    destruct (pop_phase Q rest (Z.of_nat (S (length rest))) (0 + 1)
                (Z.of_nat (S (length rest))) 0 ULONG_MAX arr'
                (mkThread PIdle [] hp) ([] ++ [(v, tr)]) Hpow)
      as (hc' & Hl & ->); [lia..|done|].
    eexists _, _, _. split_and!; [reflexivity..| |].
    + unfold pushed. cbn [hist pc is_PIdle]. by rewrite app_nil_r.
    + cbn [hist]. rewrite Hl. cbn. lia.
Qed.

Lemma length_concat_const {A B} (f : A -> list B) (l : list A) (n : nat) :
  (forall a, length (f a) = n) -> length (concat (map f l)) = (n * length l)%nat.
Proof.
  intros Hf. induction l as [|a l IH]; cbn; [lia|].
  rewrite length_app, Hf, IH. lia.
Qed.

Lemma length_sched_push_all_pop_all xs :
  (length (sched_push_all_pop_all xs) <= 18 * length xs + 5)%nat.
Proof.
  unfold sched_push_all_pop_all. rewrite length_app.
  rewrite (length_concat_const (push_call 0) xs 9) by done.
  destruct xs as [|x rest]; cbn [length]; [lia|].
  rewrite length_app, (length_concat_const (fun _ => pop_call 0) rest 9) by done.
  cbn. lia.
Qed.

(** C4. One producer, one consumer, capacity [Q_SIZE] a power of two,
    and pushes [x1 .. xk] with [k <= Q_SIZE]. On the lock-free queue, in
    every interleaving, what the consumer has received so far is the
    front of [x1 .. xk], in order, so that [k] completed pops have
    returned exactly [x1 .. xk]; and in the run where the producer makes
    its [k] pushes and the consumer then its [k] pops, all of them
    return. On the serialized queue, for every order in which the calls
    take effect, what was popped is the front of [x1 .. xk], and [k]
    pushes followed by [k] pops return exactly [x1 .. xk]. *)
Theorem spsc_round_trip Q xs :
  is_pow2 Q = true -> 19 * Q + 5 < ULONG_MAX ->
  Z.of_nat (length xs) <= Q ->
  (forall sched s,
     horizon (mkParams 1 1 Q) (Z.of_nat (length sched)) ->
     reaches (mkParams 1 1 Q) sched s ->
     exists tp tc,
       prods s = [tp] /\ cons s = [tc] /\
       (pushed tp = xs ->
        popped tc = take (length (popped tc)) xs /\
        (length (popped tc) = length xs -> popped tc = xs))) /\
  (exists s tp tc,
     reaches (mkParams 1 1 Q) (sched_push_all_pop_all xs) s /\
     prods s = [tp] /\ cons s = [tc] /\ pushed tp = xs /\ popped tc = xs) /\
  (forall arr cs q out,
     length arr = Z.to_nat Q -> pushes_of cs = xs ->
     NaiveQueue.run Q cs (NaiveQueue.mk 0 0 arr) [] = Some (q, out) ->
     out = take (length out) xs) /\
  (forall arr, length arr = Z.to_nat Q ->
     exists q,
       NaiveQueue.run Q (map NaiveQueue.Push xs ++ replicate (length xs) NaiveQueue.Pop)
         (NaiveQueue.mk 0 0 arr) [] = Some (q, xs)).
Proof.
  intros Hpow HQ Hlen.
  destruct (is_pow2_spec Q Hpow) as [Hpos _].
  assert (Hsafe : forall sched s tp tc,
     horizon (mkParams 1 1 Q) (Z.of_nat (length sched)) ->
     reaches (mkParams 1 1 Q) sched s ->
     prods s = [tp] -> cons s = [tc] -> pushed tp = xs ->
     popped tc = take (length (popped tc)) xs).
  { intros sched s tp tc Hhor Hreach Hp Hc <-.
    by apply (spsc_popped_prefix (mkParams 1 1 Q) sched s tp tc). }
  split; [|split; [|split]].
  - intros sched s Hhor Hreach.
    destruct (spsc_reaches (mkParams 1 1 Q) sched s eq_refl eq_refl Hpow Hhor Hreach)
      as (tp & tc & Hp & Hc & _).
    exists tp, tc. split_and!; [done..|]. intros Hxs.
    pose proof (Hsafe sched s tp tc Hhor Hreach Hp Hc Hxs) as Hpre.
    split; [done|]. intros Hk. rewrite Hpre, Hk. apply take_ge. lia.
  - destruct (push_all_pop_all_run Q xs (Some [])
                (Some (replicate (Z.to_nat Q) 0))
                (mkQ 0 0 0 0 [ThrPos.mk ULONG_MAX ULONG_MAX] (replicate (Z.to_nat Q) 0))
                Hpow ltac:(lia) Hlen eq_refl)
      as (s & tp & tc & Hrun & Hp & Hc & Hpushed & Hk).
    { cbn. by rewrite length_replicate. }
    assert (Hreach : reaches (mkParams 1 1 Q) (sched_push_all_pop_all xs) s).
    { eapply reaches_intro with (bytes := []) (arr := replicate (Z.to_nat Q) 0);
        [reflexivity| |exact Hrun].
      cbn. by rewrite length_replicate. }
    exists s, tp, tc. split_and!; try done.
    assert (Hhor : horizon (mkParams 1 1 Q) (Z.of_nat (length (sched_push_all_pop_all xs)))).
    { pose proof (length_sched_push_all_pop_all xs). unfold horizon. cbn [Q_SIZE]. lia. }
    rewrite (Hsafe _ s tp tc Hhor Hreach Hp Hc Hpushed).
    unfold popped. rewrite length_map, Hk. apply take_ge. lia.
  - intros arr cs q out Harr <- Hrun.
    assert (Hinit : naive_inv Q (NaiveQueue.mk 0 0 arr) [] []) by by constructor.
    pose proof (naive_run_inv Q cs _ _ _ _ _ Hpow ltac:(lia) Hinit Hlen Hrun) as Hinv.
    apply (ni_out _ _ _ _ Hinv).
  - intros arr Harr.
    assert (Hinit : naive_inv Q (NaiveQueue.mk 0 0 arr) [] []) by by constructor.
    destruct (naive_push_phase Q xs [] (NaiveQueue.mk 0 0 arr)
                (replicate (length xs) NaiveQueue.Pop) [] Hpow ltac:(lia) Hinit)
      as (q1 & Hq1 & ->); [cbn; lia|].
    cbn [app] in Hq1.
    destruct (naive_pop_phase Q (length xs) q1 [] xs Hpow ltac:(lia) Hq1 Hlen)
      as (q2 & ->); [cbn; lia|].
    exists q2. cbn [length Nat.add]. by rewrite take_ge by lia.
Qed.

Lemma spsc_round_trip_witness :
  (exists s tp tc,
     reaches (mkParams 1 1 4) (sched_push_all_pop_all [5; 6; 7]) s /\
     prods s = [tp] /\ cons s = [tc] /\ pushed tp = [5; 6; 7] /\ popped tc = [5; 6; 7]) /\
  (exists q,
     NaiveQueue.run 4 (map NaiveQueue.Push [5; 6; 7] ++ replicate 3 NaiveQueue.Pop)
       (NaiveQueue.mk 0 0 [0; 0; 0; 0]) [] = Some (q, [5; 6; 7])).
Proof.
  pose proof (spsc_round_trip 4 [5; 6; 7] ltac:(reflexivity)
                ltac:(vm_compute; reflexivity) ltac:(vm_compute; discriminate))
    as (_ & Hrun & _ & Hnaive).
  split; [exact Hrun|]. apply (Hnaive [0; 0; 0; 0]). reflexivity.
Defined.

(** ** No step of the system faults

    In a reachable state every thread passes the [assert] of
    [thr_pos()], and stays inside the registry and inside the slot
    array. *)
Lemma push_step_slot c q tid pc :
  0 <= tid < n_threads c ->
  length (thr_p_ q) = Z.to_nat (n_threads c) ->
  push_step c tid q pc = SlotOutOfBounds ->
  exists e, thr_p_ q !! Z.to_nat tid = Some e /\
    ptr_array_ q !! Z.to_nat (band (ThrPos.head e) (Q_MASK c)) = None.
Proof.
  intros Ht Hl.
  destruct (thr_pos_Ok c q tid Ht Hl) as (e & He & Hpos).
  assert (Hnc : n_consumers_ c <= n_threads c) by (unfold n_threads; lia).
  destruct pc; cbn [push_step]; unfold store_thr_head;
    rewrite ?Hpos; cbn [obind]; try discriminate.
  - destruct (Z.ltb_spec i (n_consumers_ c)) as [Hi|Hi]; [|discriminate].
    by destruct (load_thr_Ok c q i _ ltac:(lia) Hi Hnc Hl) as (e' & _ & ->).
  - destruct (ptr_array_ q !! _) eqn:Hs; [discriminate|]. by exists e.
Qed.

Lemma pop_step_slot c q tid pc :
  0 <= tid < n_threads c ->
  length (thr_p_ q) = Z.to_nat (n_threads c) ->
  pop_step c tid q pc = SlotOutOfBounds ->
  exists e, thr_p_ q !! Z.to_nat tid = Some e /\
    ptr_array_ q !! Z.to_nat (band (ThrPos.tail e) (Q_MASK c)) = None.
Proof.
  intros Ht Hl.
  destruct (thr_pos_Ok c q tid Ht Hl) as (e & He & Hpos).
  assert (Hnp : n_producers_ c <= n_threads c) by (unfold n_threads; lia).
  destruct pc; cbn [pop_step]; unfold store_thr_tail;
    rewrite ?Hpos; cbn [obind]; try discriminate.
  - destruct (Z.ltb_spec i (n_producers_ c)) as [Hi|Hi]; [|discriminate].
    by destruct (load_thr_Ok c q i _ ltac:(lia) Hi Hnp Hl) as (e' & _ & ->).
  - destruct (ptr_array_ q !! _) eqn:Hs; [discriminate|]. by exists e.
Qed.


(** ** Tickets *)

Lemma holds_insert l i v j h st :
  holds (<[i := v]> l) j h st <->
  (j = i /\ (i < length l)%nat /\ v = Some (h, st)) \/ (j <> i /\ holds l j h st).
Proof.
  unfold holds. rewrite list_lookup_insert_Some. split.
  - intros [(-> & -> & Hl)|(Hne & Hl)]; [by left|right]. split; [congruence|done].
  - intros [(-> & Hl & ->)|(Hne & Hl)]; [by left|right]. split; [congruence|done].
Qed.

Lemma holds_insert_eq l i h st x :
  l !! i = Some x -> holds (<[i := Some (h, st)]> l) i h st.
Proof. intros Hl. apply holds_insert. left. by apply lookup_lt_Some in Hl. Qed.

Lemma holds_insert_ne l i v j h st :
  j <> i -> holds l j h st -> holds (<[i := v]> l) j h st.
Proof. intros Hne Hl. apply holds_insert. by right. Qed.

Lemma elem_of_fst (l : list (Z * Z)) h : h ∈ l.*1 <-> exists x, (h, x) ∈ l.
Proof.
  rewrite list_elem_of_fmap. split.
  - intros ([h' x] & -> & Hin). by exists x.
  - intros (x & Hin). by exists (h, x).
Qed.

Lemma mod_window Q h h' :
  0 < Q -> 0 <= h -> 0 <= h' -> h <> h' -> h - Q < h' < h + Q ->
  Z.to_nat (h mod Q) <> Z.to_nat (h' mod Q).
Proof.
  intros HQ Hh Hh' Hne Hw He.
  pose proof (Z.mod_pos_bound h Q HQ). pose proof (Z.mod_pos_bound h' Q HQ).
  assert (Hm : h mod Q = h' mod Q) by lia.
  pose proof (Z.div_mod h Q ltac:(lia)) as E1.
  pose proof (Z.div_mod h' Q ltac:(lia)) as E2.
  rewrite Hm in E1. set (u := h / Q) in *. set (v := h' / Q) in *.
  destruct (Z.lt_trichotomy u v) as [Hl|[Hl|Hl]]; nia.
Qed.

Ltac holds_split :=
  repeat match goal with
  | H : holds (<[_ := _]> _) _ _ _ |- _ =>
      apply holds_insert in H; destruct H as [(-> & ? & ?)|(? & H)]; simplify_eq
  end.

Ltac ring_cbn :=
  cbn [r_push_claim r_push_stage r_push_write r_push_release
       r_pop_claim r_pop_stage r_pop_read r_pop_release
       t_head t_tail t_slots t_prods t_cons t_stored t_loaded] in *.

(** The bounds the invariant gives on what is in the context. *)
Ltac ring_facts HI :=
  try match goal with
  | H1 : holds (t_prods _) _ _ _, H2 : holds (t_cons _) _ _ _ |- _ =>
      try pose proof (ri_prod_passed _ _ HI _ _ _ _ _ _ H1 ltac:(done) H2);
      try pose proof (ri_cons_passed _ _ HI _ _ _ _ _ _ H2 ltac:(done) H1)
  end;
  try match goal with
  | H1 : (_, _) ∈ t_stored _, H2 : holds (t_cons _) _ _ _ |- _ =>
      pose proof (ri_stored_held _ _ HI _ _ _ _ _ H1 H2)
  end;
  repeat match goal with
  | H : holds (t_prods _) _ _ _ |- _ =>
      pose proof (ri_prod_lt _ _ HI _ _ _ H);
      try pose proof (ri_prod_room _ _ HI _ _ _ H ltac:(done));
      clear H
  | H : holds (t_cons _) _ _ _ |- _ =>
      pose proof (ri_cons_lt _ _ HI _ _ _ H);
      try pose proof (ri_cons_room _ _ HI _ _ _ H ltac:(done));
      clear H
  | H : (_, _) ∈ t_stored _ |- _ => pose proof (ri_stored_range _ _ HI _ _ H); clear H
  | H : (_, _) ∈ t_loaded _ |- _ => pose proof (ri_loaded_range _ _ HI _ _ H); clear H
  end;
  pose proof (ri_head_nonneg _ _ HI); pose proof (ri_tail_nonneg _ _ HI).

Ltac ring_fields HI :=
  pose proof HI as [Hlen Hh0 Ht0 Hplt Hclt Hproom Hcroom Hpd Hcd Hsr Hlr Hsn Hln
                    Hhc Htc Huw Hur Hsl Hpp Hcp Hsh Hsub].

Ltac ring_start HI :=
  ring_fields HI; constructor; ring_cbn; try done; intros; holds_split;
  try (by eauto); try (ring_facts HI; lia).

Lemma ring_inv_push_claim Q a p :
  0 < Q -> ring_inv Q a -> t_prods a !! p = Some None ->
  ring_inv Q (r_push_claim p a).
Proof.
  intros HQ HI Hp. ring_start HI.
  - destruct (decide (h = t_head a)) as [->|Hne].
    + right. exists p, Waiting. split; [by eapply holds_insert_eq|done].
    + destruct (Hhc h ltac:(lia)) as [Hin|(p' & st & Hh & Hst)]; [by left|right].
      exists p', st. split; [|done]. apply holds_insert_ne; [|done].
      intros ->. unfold holds in Hh. congruence.
  - intros (x & Hin)%elem_of_fst. apply Hsr in Hin. lia.
Qed.

Lemma cover_insert l p v h0 :
  (exists p0 st, holds l p0 h0 st /\ st <> Finished) ->
  (forall st, holds l p h0 st -> st <> Finished ->
     exists st', v = Some (h0, st') /\ st' <> Finished) ->
  exists p0 st, holds (<[p := v]> l) p0 h0 st /\ st <> Finished.
Proof.
  intros (p0 & st & Hh & Hst) Hown. destruct (decide (p0 = p)) as [->|Hne].
  - destruct (Hown st Hh Hst) as (st' & -> & Hst'). exists p, st'.
    split; [|done]. apply holds_insert. left. split_and!; [done| |done].
    by apply lookup_lt_Some in Hh.
  - exists p0, st. split; [|done]. by apply holds_insert_ne.
Qed.

Lemma ring_inv_push_pass Q a p h :
  0 < Q -> ring_inv Q a ->
  holds (t_prods a) p h Waiting ->
  h < t_tail a + Q ->
  (forall k t st, holds (t_cons a) k t st -> h < t + Q) ->
  ring_inv Q (r_push_stage p h Passed a).
Proof.
  intros HQ HI Hp Hroom Hguard. ring_start HI.
  destruct (Hhc h0 ltac:(lia)) as [Hin|Hcov]; [by left|right].
  apply cover_insert; [done|]. intros st Hh Hst.
  unfold holds in *. simplify_eq. by exists Passed.
Qed.

Lemma ring_inv_push_write Q a p h x :
  0 < Q -> ring_inv Q a ->
  holds (t_prods a) p h Passed ->
  ring_inv Q (r_push_write Q p h x a).
Proof.
  intros HQ HI Hp.
  pose proof (ri_prod_lt _ _ HI _ _ _ Hp) as Hh.
  pose proof (ri_prod_room _ _ HI _ _ _ Hp ltac:(done)) as Hroom.
  pose proof (ri_unwritten _ _ HI _ _ _ Hp ltac:(done)) as Hfresh.
  ring_start HI.
  - by rewrite length_insert.
  - match goal with H : _ ∈ _ :: _ |- _ => apply elem_of_cons in H as [[= -> ->]|H] end;
      [lia|by apply Hsr in H].
  - rewrite fmap_cons. by apply NoDup_cons.
  - rewrite fmap_cons.
    destruct (Hhc h0 ltac:(lia)) as [Hin|(p0 & st & Hc0 & Hst)].
    { left. by apply elem_of_cons; right. }
    destruct (decide (p0 = p)) as [->|Hne].
    + unfold holds in *. simplify_eq. left. by apply elem_of_cons; left.
    + right. exists p0, st. split; [by apply holds_insert_ne|done].
  - rewrite fmap_cons. apply not_elem_of_cons. split; [|by eauto].
    intros ->. match goal with H : _ <> p |- _ => apply H end. by eapply Hpd.
  - match goal with H : _ ∈ _ :: _ |- _ => apply elem_of_cons in H as [[= -> ->]|Hin] end.
    { apply list_lookup_insert_eq. rewrite Hlen.
      pose proof (Z.mod_pos_bound h Q HQ). lia. }
    assert (Hne : h0 <> h).
    { intros ->. apply Hfresh. apply elem_of_fst. by exists x0. }
    pose proof (Hsr _ _ Hin) as Hr0.
    rewrite list_lookup_insert_ne; [by apply Hsl|].
    apply mod_window; [lia..|]. split.
    + destruct (Z.lt_ge_cases (h - Q) h0) as [|Hge]; [done|exfalso].
      destruct (Htc h0 ltac:(lia)) as [Hl|(k & st & Hk & Hst)]; [done|].
      pose proof (Hpp _ _ _ _ _ _ Hp ltac:(done) Hk). lia.
    + destruct (Z.lt_ge_cases h0 (h + Q)) as [|Hge]; [done|exfalso].
      destruct (Htc h ltac:(lia)) as [(v & Hl)%elem_of_fst|(k & st & Hk & Hst)].
      * apply Hfresh. apply elem_of_fst. exists v. by apply Hsub.
      * pose proof (Hsh _ _ _ _ _ Hin Hk). lia.
  - match goal with H : _ ∈ _ :: _ |- _ => apply elem_of_cons in H as [[= -> ->]|Hin] end;
      [by eapply Hpp|by eapply Hsh].
  - apply elem_of_cons. right. by apply Hsub.
Qed.

Lemma ring_inv_push_release Q a p h :
  0 < Q -> ring_inv Q a ->
  holds (t_prods a) p h Finished ->
  ring_inv Q (r_push_release p a).
Proof.
  intros HQ HI Hp. ring_start HI.
  destruct (Hhc h0 ltac:(lia)) as [Hin|Hcov]; [by left|right].
  apply cover_insert; [done|]. intros st Hh Hst.
  unfold holds in *. by simplify_eq.
Qed.

Lemma ring_inv_pop_claim Q a k :
  0 < Q -> ring_inv Q a -> t_cons a !! k = Some None ->
  ring_inv Q (r_pop_claim k a).
Proof.
  intros HQ HI Hk. ring_start HI.
  - destruct (decide (t = t_tail a)) as [->|Hne].
    + right. exists k, Waiting. split; [by eapply holds_insert_eq|done].
    + destruct (Htc t ltac:(lia)) as [Hin|(k' & st & Hh & Hst)]; [by left|right].
      exists k', st. split; [|done]. apply holds_insert_ne; [|done].
      intros ->. unfold holds in Hh. congruence.
  - intros (x & Hin)%elem_of_fst. apply Hlr in Hin. lia.
Qed.

Lemma ring_inv_pop_pass Q a k t :
  0 < Q -> ring_inv Q a ->
  holds (t_cons a) k t Waiting ->
  t < t_head a ->
  (forall p h st, holds (t_prods a) p h st -> t < h) ->
  ring_inv Q (r_pop_stage k t Passed a).
Proof.
  intros HQ HI Hk Hroom Hguard. ring_start HI.
  destruct (Htc t0 ltac:(lia)) as [Hin|Hcov]; [by left|right].
  apply cover_insert; [done|]. intros st Hh Hst.
  unfold holds in *. simplify_eq. by exists Passed.
Qed.

Lemma ring_inv_pop_read Q a k t v :
  0 < Q -> ring_inv Q a ->
  holds (t_cons a) k t Passed ->
  t_slots a !! Z.to_nat (t mod Q) = Some v ->
  ring_inv Q (r_pop_read k t v a).
Proof.
  intros HQ HI Hk Hv.
  pose proof (ri_cons_lt _ _ HI _ _ _ Hk) as Ht.
  pose proof (ri_cons_room _ _ HI _ _ _ Hk ltac:(done)) as Hroom.
  pose proof (ri_unread _ _ HI _ _ _ Hk ltac:(done)) as Hfresh.
  ring_start HI.
  - match goal with H : _ ∈ _ :: _ |- _ => apply elem_of_cons in H as [[= -> ->]|H] end;
      [lia|by apply Hlr in H].
  - rewrite fmap_cons. by apply NoDup_cons.
  - rewrite fmap_cons.
    destruct (Htc t0 ltac:(lia)) as [Hin|(k0 & st & Hc0 & Hst)].
    { left. by apply elem_of_cons; right. }
    destruct (decide (k0 = k)) as [->|Hne].
    + unfold holds in *. simplify_eq. left. by apply elem_of_cons; left.
    + right. exists k0, st. split; [by apply holds_insert_ne|done].
  - rewrite fmap_cons. apply not_elem_of_cons. split; [|by eauto].
    intros ->. match goal with H : _ <> k |- _ => apply H end. by eapply Hcd.
  - apply Hsl; [done|]. rewrite fmap_cons in *.
    match goal with H : _ ∉ _ :: _ |- _ => apply not_elem_of_cons in H as [_ H] end. done.
  - match goal with H : _ ∈ _ :: _ |- _ => apply elem_of_cons in H as [->|Hin] end;
      [|by apply Hsub].
    destruct (Hhc t ltac:(lia)) as [(x & Hin)%elem_of_fst|(p & st & Hp & Hst)].
    + pose proof (Hsl _ _ Hin Hfresh). by simplify_eq.
    + pose proof (Hcp _ _ _ _ _ _ Hk ltac:(done) Hp). lia.
Qed.

Lemma ring_inv_pop_release Q a k t :
  0 < Q -> ring_inv Q a ->
  holds (t_cons a) k t Finished ->
  ring_inv Q (r_pop_release k a).
Proof.
  intros HQ HI Hk. ring_start HI.
  destruct (Htc t0 ltac:(lia)) as [Hin|Hcov]; [by left|right].
  apply cover_insert; [done|]. intros st Hh Hst.
  unfold holds in *. by simplify_eq.
Qed.

Lemma ring_inv_step Q a a' :
  0 < Q -> ring_inv Q a -> ring_step Q a a' -> ring_inv Q a'.
Proof.
  intros HQ HI Hstep. destruct Hstep.
  - done.
  - by apply ring_inv_push_claim.
  - by apply ring_inv_push_pass.
  - by apply ring_inv_push_write.
  - by eapply ring_inv_push_release.
  - by apply ring_inv_pop_claim.
  - by apply ring_inv_pop_pass.
  - by apply ring_inv_pop_read.
  - by eapply ring_inv_pop_release.
Qed.

Lemma ring_inv_eqv Q a a' :
  tickets_eqv a a' -> ring_inv Q a -> ring_inv Q a'.
Proof.
  intros [Eh Et Es Ep Ec Est Eld] HI. ring_fields HI.
  constructor; rewrite ?Eh, ?Et, ?Es, ?Ep, ?Ec; try done.
  all: try (setoid_rewrite Est); try (setoid_rewrite Eld); try done.
Qed.

Lemma ring_inv_init Q arr np nc :
  length arr = Z.to_nat Q ->
  ring_inv Q (mkTickets 0 0 arr (replicate np None) (replicate nc None) [] []).
Proof.
  intros Hlen.
  assert (Hno : forall n i h st, ~ holds (replicate n None) i h st).
  { intros n i h st Hh. unfold holds in Hh. by apply lookup_replicate in Hh as [? _]. }
  constructor; cbn; try done; try lia; try (intros; exfalso; by eapply Hno);
    try (intros; by apply NoDup_nil); try (intros ? ? []%elem_of_nil);
    try (intros ? []%elem_of_nil).
  all: match goal with |- ?g => idtac g end.
Qed.

(** ** The steps of the system are steps on tickets *)

Lemma events_of_advance {PC} (idle : PC -> bool) v (t : thread PC) pc' ev :
  events_of (advance idle v t pc' ev) = events_of t ++ [ev].
Proof.
  unfold events_of, advance. destruct (idle pc'); cbn [hist cur].
  - rewrite concat_map_snoc, app_nil_r. cbn [snd]. by rewrite app_assoc.
  - by rewrite app_assoc.
Qed.

Lemma imap_insert_frame {A B} (f g : nat -> A -> B) (l : list A) p x :
  (forall i y, i <> p -> l !! i = Some y -> g i y = f i y) ->
  imap g (<[p := x]> l) = <[p := g p x]> (imap f l).
Proof.
  intros Hfg. apply list_eq. intros i.
  destruct (decide (i = p)) as [->|Hne].
  - destruct (decide (p < length l)%nat) as [Hlt|Hge].
    + rewrite list_lookup_imap, !list_lookup_insert_eq; rewrite ?length_imap; done.
    + rewrite list_lookup_imap, !list_insert_ge; rewrite ?length_imap; [|lia..].
      rewrite list_lookup_imap. by rewrite (lookup_ge_None_2 l p) by lia.
  - rewrite list_lookup_imap, !list_lookup_insert_ne, list_lookup_imap by done.
    destruct (l !! i) as [y|] eqn:Hy; [|done]. cbn. f_equal. by apply Hfg.
Qed.

Lemma concat_map_insert {A B} (f : A -> list B) (l : list A) i y y' z :
  l !! i = Some y -> f y' = f y ++ z ->
  concat (map f (<[i := y']> l)) ≡ₚ z ++ concat (map f l).
Proof.
  revert i. induction l as [|a l IH]; intros [|i] Hl Hf; try done; cbn in *.
  - simplify_eq. rewrite Hf, (Permutation_app_comm (f y) z). by rewrite <- app_assoc.
  - rewrite (IH i Hl Hf). apply Permutation_app_swap_app.
Qed.

(** What a step of producer [p] that leaves the other entries of the
    registry alone does to the tickets. *)
Lemma tickets_eqv_push s p t q' t' evs a' :
  prods s !! p = Some t ->
  events_of t' = events_of t ++ evs ->
  (forall i, reg_tail (thr_p_ q') i = reg_tail (thr_p_ (queue s)) i) ->
  (forall i, i <> p -> reg_head (thr_p_ q') i = reg_head (thr_p_ (queue s)) i) ->
  t_head a' = head_ q' -> t_tail a' = tail_ q' -> t_slots a' = ptr_array_ q' ->
  t_prods a' = <[p := push_hold (thr_p_ q') p (pc t')]> (t_prods (tickets_of s)) ->
  t_cons a' = t_cons (tickets_of s) ->
  t_stored a' = omap store_of evs ++ stores s ->
  t_loaded a' = loads s ->
  tickets_eqv a' (tickets_of (mkSys q' (<[p := t']> (prods s)) (cons s))).
Proof.
  intros Hlook Hev Hrt Hrh E1 E2 E3 E4 E5 E6 E7.
  constructor; cbn [tickets_of t_head t_tail t_slots t_prods t_cons t_stored t_loaded
                    queue prods cons] in *; try done; try (symmetry; done).
  - rewrite E4.
    apply (imap_insert_frame (fun p t => push_hold (thr_p_ (queue s)) p (pc t))
             (fun p t => push_hold (thr_p_ q') p (pc t))).
    intros i y Hi _. destruct (pc y); cbn [push_hold]; by rewrite ?Hrh.
  - rewrite E5. apply imap_ext. intros i y _.
    destruct (pc y); cbn [pop_hold]; by rewrite ?Hrt.
  - rewrite E6. unfold stores. cbn [prods].
    apply (concat_map_insert _ _ _ t). { done. } by rewrite Hev, omap_app.
  - by rewrite E7.
Qed.

Lemma tickets_eqv_pop s k t q' t' evs a' :
  cons s !! k = Some t ->
  events_of t' = events_of t ++ evs ->
  (forall i, reg_head (thr_p_ q') i = reg_head (thr_p_ (queue s)) i) ->
  (forall i, i <> k -> reg_tail (thr_p_ q') i = reg_tail (thr_p_ (queue s)) i) ->
  t_head a' = head_ q' -> t_tail a' = tail_ q' -> t_slots a' = ptr_array_ q' ->
  t_prods a' = t_prods (tickets_of s) ->
  t_cons a' = <[k := pop_hold (thr_p_ q') k (pc t')]> (t_cons (tickets_of s)) ->
  t_stored a' = stores s ->
  t_loaded a' = omap load_of evs ++ loads s ->
  tickets_eqv a' (tickets_of (mkSys q' (prods s) (<[k := t']> (cons s)))).
Proof.
  intros Hlook Hev Hrh Hrt E1 E2 E3 E4 E5 E6 E7.
  constructor; cbn [tickets_of t_head t_tail t_slots t_prods t_cons t_stored t_loaded
                    queue prods cons] in *; try done; try (symmetry; done).
  - rewrite E4. apply imap_ext. intros i y _.
    destruct (pc y); cbn [push_hold]; by rewrite ?Hrh.
  - rewrite E5.
    apply (imap_insert_frame (fun k t => pop_hold (thr_p_ (queue s)) k (pc t))
             (fun k t => pop_hold (thr_p_ q') k (pc t))).
    intros i y Hi _. destruct (pc y); cbn [pop_hold]; by rewrite ?Hrt.
  - by rewrite E6.
  - rewrite E7. unfold loads. cbn [cons].
    apply (concat_map_insert _ _ _ t). { done. } by rewrite Hev, omap_app.
Qed.

Lemma band_mod Q h : is_pow2 Q = true -> 0 <= h -> band h (Q - 1) = h mod Q.
Proof.
  intros HQ Hh. destruct (is_pow2_spec Q HQ) as [Hpos Hones].
  unfold band. rewrite Hones, Z.land_ones by apply Z.log2_nonneg.
  unfold is_pow2 in HQ. apply andb_true_iff in HQ as [_ H2].
  apply Z.eqb_eq in H2. by rewrite H2.
Qed.

Lemma tickets_hold_prod s p t :
  prods s !! p = Some t ->
  t_prods (tickets_of s) !! p = Some (push_hold (thr_p_ (queue s)) p (pc t)).
Proof. intros H. cbn. by rewrite list_lookup_imap, H. Qed.

Lemma tickets_hold_cons s k t :
  cons s !! k = Some t ->
  t_cons (tickets_of s) !! k = Some (pop_hold (thr_p_ (queue s)) k (pc t)).
Proof. intros H. cbn. by rewrite list_lookup_imap, H. Qed.

Lemma holds_prod_claim s p h st :
  holds (t_prods (tickets_of s)) p h st ->
  exists t, prods s !! p = Some t /\ push_claim (thr_p_ (queue s)) p (pc t) = Some h.
Proof.
  unfold holds. cbn. rewrite list_lookup_imap.
  destruct (prods s !! p) as [t|]; [|done]. cbn. intros [= H]. exists t. split; [done|].
  destruct (pc t); cbn in *; by simplify_eq.
Qed.

Lemma holds_cons_claim s k t st :
  holds (t_cons (tickets_of s)) k t st ->
  exists tk, cons s !! k = Some tk /\ pop_claim (thr_p_ (queue s)) k (pc tk) = Some t.
Proof.
  unfold holds. cbn. rewrite list_lookup_imap.
  destruct (cons s !! k) as [tk|]; [|done]. cbn. intros [= H]. exists tk. split; [done|].
  destruct (pc tk); cbn in *; by simplify_eq.
Qed.

Ltac tk_cbn :=
  rewrite ?pc_advance;
  cbn [tickets_of r_push_claim r_push_stage r_push_write r_push_release
       r_pop_claim r_pop_stage r_pop_read r_pop_release
       t_head t_tail t_slots t_prods t_cons t_stored t_loaded
       push_hold pop_hold omap store_of load_of app
       queue prods cons pc head_ tail_ last_head_ last_tail_ thr_p_ ptr_array_
       set_head_ set_tail_ set_last_head_ set_last_tail_ set_thr_p_ set_ptr_array_].

Lemma Q_MASK_small c : 0 < Q_SIZE c <= ULONG_MAX -> Q_MASK c = Q_SIZE c - 1.
Proof. intros H. unfold Q_MASK. apply wrap_small. lia. Qed.

Lemma ring_step_push c n p s s' :
  is_pow2 (Q_SIZE c) = true -> horizon c (n + 1) -> inv c n s ->
  sys_step c (StepPush p) s = Ok s' ->
  exists a', ring_step (Q_SIZE c) (tickets_of s) a' /\ tickets_eqv a' (tickets_of s').
Proof.
  intros Hpow (HQ & Hn & Hhor) HI Hstep.
  assert (Hmask : Q_MASK c = Q_SIZE c - 1) by (apply Q_MASK_small; lia).
  unfold ULONG_MAX in Hhor.
  apply sys_step_StepPush in Hstep as (t & q' & pc' & ev & Hlook & Hstep & ->).
  pose proof (push_step_frame _ _ _ _ _ _ _ Hstep) as [Hfrt Hfrh].
  pose proof (tickets_hold_prod s p t Hlook) as Hhold.
  pose proof HI as [Hh Ht Hlh Hlt Hrl Hal Hpl Hcl Hrh Hrt HP HC HX1 HX2].
  pose proof (HP p t Hlook) as Hown.
  destruct (pc t) eqn:Hpc; step_inv Hstep.
  all: try (exists (tickets_of s); split; [constructor|];
            eapply tickets_eqv_push with (evs := [_]);
            [exact Hlook|apply events_of_advance|exact Hfrt|exact Hfrh|..];
            tk_cbn; try reflexivity; reg_simpl; repeat case_decide; try done;
            symmetry; exact (list_insert_id _ _ _ Hhold)).
  - exists (r_push_claim p (tickets_of s)). split.
    { apply rs_push_claim. exact Hhold. }
    eapply tickets_eqv_push with (evs := [_]);
      [exact Hlook|apply events_of_advance|exact Hfrt|exact Hfrh|..];
      tk_cbn; wrap_simpl; reflexivity.
  - exists (r_push_stage p (reg_head (thr_p_ (queue s)) p) Passed (tickets_of s)).
    reg_simpl. q_simpl.
    match goal with H : (_ <=? _) = false |- _ => apply Z.leb_gt in H; rename H into Htest end.
    rewrite wrap_small in Htest by (unfold ULONG_MAX; lia).
    split.
    { apply rs_push_pass.
      - exact Hhold.
      - tk_cbn. lia.
      - intros k t0 st (tk & Hk & Hc)%holds_cons_claim.
        pose proof (cpc_inv_claim _ _ _ _ (HC _ _ Hk) Hc). lia. }
    eapply tickets_eqv_push with (evs := [_]);
      [exact Hlook|apply events_of_advance|exact Hfrt|exact Hfrh|..];
      tk_cbn; reflexivity.
  - exists (r_push_write (Q_SIZE c) p (reg_head (thr_p_ (queue s)) p) x (tickets_of s)).
    reg_simpl. q_simpl. split.
    { apply rs_push_write. exact Hhold. }
    eapply tickets_eqv_push with (evs := [_]);
      [exact Hlook|apply events_of_advance|exact Hfrt|exact Hfrh|..];
      tk_cbn; try reflexivity.
    by rewrite Hmask, band_mod by (done || lia).
  - exists (r_push_release p (tickets_of s)). split.
    { eapply rs_push_release. exact Hhold. }
    eapply tickets_eqv_push with (evs := [_]);
      [exact Hlook|apply events_of_advance|exact Hfrt|exact Hfrh|..];
      tk_cbn; reflexivity.
Qed.

Lemma ring_step_pop c n k s s' :
  is_pow2 (Q_SIZE c) = true -> horizon c (n + 1) -> inv c n s ->
  sys_step c (StepPop k) s = Ok s' ->
  exists a', ring_step (Q_SIZE c) (tickets_of s) a' /\ tickets_eqv a' (tickets_of s').
Proof.
  intros Hpow (HQ & Hn & Hhor) HI Hstep.
  assert (Hmask : Q_MASK c = Q_SIZE c - 1) by (apply Q_MASK_small; lia).
  unfold ULONG_MAX in Hhor.
  apply sys_step_StepPop in Hstep as (t & q' & pc' & ev & Hlook & Hstep & ->).
  pose proof (pop_step_frame _ _ _ _ _ _ _ Hstep) as [Hfrh Hfrt].
  pose proof (tickets_hold_cons s k t Hlook) as Hhold.
  pose proof HI as [Hh Ht Hlh Hlt Hrl Hal Hpl Hcl Hrh Hrt HP HC HX1 HX2].
  pose proof (HC k t Hlook) as Hown.
  destruct (pc t) eqn:Hpc; step_inv Hstep.
  all: try (exists (tickets_of s); split; [constructor|];
            eapply tickets_eqv_pop with (evs := [_]);
            [exact Hlook|apply events_of_advance|exact Hfrh|exact Hfrt|..];
            tk_cbn; try reflexivity; reg_simpl; repeat case_decide; try done;
            symmetry; exact (list_insert_id _ _ _ Hhold)).
  - exists (r_pop_claim k (tickets_of s)). split.
    { apply rs_pop_claim. exact Hhold. }
    eapply tickets_eqv_pop with (evs := [_]);
      [exact Hlook|apply events_of_advance|exact Hfrh|exact Hfrt|..];
      tk_cbn; wrap_simpl; reflexivity.
  - exists (r_pop_stage k (reg_tail (thr_p_ (queue s)) k) Passed (tickets_of s)).
    reg_simpl. q_simpl.
    match goal with H : (_ <=? _) = false |- _ => apply Z.leb_gt in H; rename H into Htest end.
    split.
    { apply rs_pop_pass.
      - exact Hhold.
      - tk_cbn. lia.
      - intros p h st (tp & Hp & Hc)%holds_prod_claim.
        pose proof (ppc_inv_claim _ _ _ _ _ (HP _ _ Hp) Hc). lia. }
    eapply tickets_eqv_pop with (evs := [_]);
      [exact Hlook|apply events_of_advance|exact Hfrh|exact Hfrt|..];
      tk_cbn; reflexivity.
  - exists (r_pop_read k (reg_tail (thr_p_ (queue s)) k) z (tickets_of s)).
    reg_simpl. q_simpl. split.
    { apply rs_pop_read; [exact Hhold|]. tk_cbn.
      by rewrite <- band_mod, <- Hmask by (done || lia). }
    eapply tickets_eqv_pop with (evs := [_]);
      [exact Hlook|apply events_of_advance|exact Hfrh|exact Hfrt|..];
      tk_cbn; reflexivity.
  - exists (r_pop_release k (tickets_of s)). split.
    { eapply rs_pop_release. exact Hhold. }
    eapply tickets_eqv_pop with (evs := [_]);
      [exact Hlook|apply events_of_advance|exact Hfrh|exact Hfrt|..];
      tk_cbn; reflexivity.
Qed.

Lemma ring_step_sys c n a s s' :
  is_pow2 (Q_SIZE c) = true -> horizon c (n + 1) -> inv c n s -> traces_inv c s ->
  sys_step c a s = Ok s' ->
  exists a', ring_step (Q_SIZE c) (tickets_of s) a' /\ tickets_eqv a' (tickets_of s').
Proof.
  intros Hpow Hhor HI [HPc _ HCc _] Hstep. destruct a as [p x|p|k|k].
  - apply sys_step_CallPush in Hstep as (t & Hlook & Hpc & ->).
    pose proof (HPc p t Hlook) as Hcur. rewrite Hpc in Hcur. cbn in Hcur.
    exists (tickets_of s). split; [constructor|].
    eapply tickets_eqv_push with (evs := []);
      [exact Hlook| |done|done|done|done|done| |done|done|done].
    + unfold events_of. cbn [hist cur]. by rewrite Hcur, !app_nil_r.
    + pose proof (tickets_hold_prod s p t Hlook) as Hhold. rewrite Hpc in Hhold.
      symmetry. exact (list_insert_id _ _ _ Hhold).
  - by eapply ring_step_push.
  - apply sys_step_CallPop in Hstep as (t & Hlook & Hpc & ->).
    pose proof (HCc k t Hlook) as Hcur. rewrite Hpc in Hcur. cbn in Hcur.
    exists (tickets_of s). split; [constructor|].
    eapply tickets_eqv_pop with (evs := []);
      [exact Hlook| |done|done|done|done|done|done| |done|done].
    + unfold events_of. cbn [hist cur]. by rewrite Hcur, !app_nil_r.
    + pose proof (tickets_hold_cons s k t Hlook) as Hhold. rewrite Hpc in Hhold.
      symmetry. exact (list_insert_id _ _ _ Hhold).
  - by eapply ring_step_pop.
Qed.

Lemma ring_inv_sys_step c n a s s' :
  is_pow2 (Q_SIZE c) = true -> horizon c (n + 1) -> inv c n s -> traces_inv c s ->
  ring_inv (Q_SIZE c) (tickets_of s) ->
  sys_step c a s = Ok s' -> ring_inv (Q_SIZE c) (tickets_of s').
Proof.
  intros Hpow Hhor HI Htr HR Hstep.
  destruct (ring_step_sys c n a s s' Hpow Hhor HI Htr Hstep) as (a' & Hrs & Heq).
  apply (ring_inv_eqv _ a'); [done|].
  eapply ring_inv_step; [|done..]. unfold horizon in Hhor. lia.
Qed.

Lemma ring_inv_run c sched : forall n s s',
  is_pow2 (Q_SIZE c) = true ->
  horizon c (n + Z.of_nat (length sched)) -> 0 <= n ->
  inv c n s -> traces_inv c s -> ring_inv (Q_SIZE c) (tickets_of s) ->
  run c sched s = Ok s' -> ring_inv (Q_SIZE c) (tickets_of s').
Proof.
  induction sched as [|a sched IH]; intros n s s' Hpow Hhor Hn HI Htr HR Hrun.
  - cbn in *. by simplify_eq.
  - cbn [run] in Hrun. destruct (sys_step c a s) as [s1| | | |] eqn:Hs; try done.
    cbn [obind] in Hrun. cbn [length] in *.
    replace (n + Z.of_nat (S (length sched))) with ((n + 1) + Z.of_nat (length sched)) in * by lia.
    assert (Hhor1 : horizon c (n + 1)) by (unfold horizon in *; lia).
    eapply (IH (n + 1)); [done|done|lia| | | |done].
    + by eapply inv_step.
    + by eapply traces_step.
    + by eapply ring_inv_sys_step.
Qed.

Lemma imap_replicate_const {A B} (f : nat -> A -> B) n x y :
  (forall i, f i x = y) -> imap f (replicate n x) = replicate n y.
Proof.
  revert f. induction n as [|n IH]; intros f Hf; [done|].
  cbn. rewrite Hf. f_equal. apply IH. intros i. apply Hf.
Qed.

Lemma ring_inv_reaches c sched s :
  is_pow2 (Q_SIZE c) = true ->
  horizon c (Z.of_nat (length sched)) -> reaches c sched s ->
  ring_inv (Q_SIZE c) (tickets_of s).
Proof.
  intros Hpow Hhor Hreach.
  pose proof Hreach as (b1 & b2 & q0 & Hnew & Hlen & Hrun).
  assert (HQ : 0 <= Q_SIZE c) by (unfold horizon in Hhor; lia).
  apply (ring_inv_run c sched 0 (sys_init c q0) s); [done|done|lia| | | |done].
  - by eapply inv_init.
  - constructor; unfold sys_init; cbn [prods cons]; intros i t Hl;
      apply lookup_replicate in Hl as [-> _]; by cbn.
  - apply LockFreeQueue_new_Ok in Hnew as (bytes & arr & _ & _ & ->).
    unfold tickets_of, sys_init, stores, loads. cbn [queue prods cons head_ tail_ ptr_array_ thr_p_].
    cbn [ptr_array_] in Hlen.
    rewrite !(imap_replicate_const _ _ _ None) by done.
    assert (E2 : forall {A} (x : A) (f : A -> list (Z * Z)) n, f x = [] ->
              concat (map f (replicate n x)) = []).
    { intros A x f m Hf. induction m as [|m IHm]; [done|]. cbn. by rewrite Hf, IHm. }
    rewrite !E2 by done. by apply ring_inv_init.
Qed.

(** ** What the queue guarantees, in terms of tickets *)

Lemma holds_prod_intro s p t h st :
  prods s !! p = Some t ->
  push_hold (thr_p_ (queue s)) p (pc t) = Some (h, st) ->
  holds (t_prods (tickets_of s)) p h st.
Proof. intros Hp Hh. unfold holds. by rewrite (tickets_hold_prod s p t Hp), Hh. Qed.

Lemma holds_cons_intro s k t v st :
  cons s !! k = Some t ->
  pop_hold (thr_p_ (queue s)) k (pc t) = Some (v, st) ->
  holds (t_cons (tickets_of s)) k v st.
Proof. intros Hk Hh. unfold holds. by rewrite (tickets_hold_cons s k t Hk), Hh. Qed.

Lemma slot_of_mod c v :
  is_pow2 (Q_SIZE c) = true -> Q_SIZE c <= ULONG_MAX -> 0 <= v ->
  slot_of c v = Z.to_nat (v mod Q_SIZE c).
Proof.
  intros Hpow HQ Hv. destruct (is_pow2_spec _ Hpow) as [Hpos _].
  unfold slot_of. by rewrite Q_MASK_small, band_mod by (done || lia).
Qed.

(** Two producers past their wait loops hold tickets less than [Q] apart. *)
Lemma passed_producers_window Q a p p' h h' :
  0 < Q -> ring_inv Q a ->
  holds (t_prods a) p h Passed -> holds (t_prods a) p' h' Passed ->
  h' < h + Q.
Proof.
  intros HQ HI Hp Hp'. ring_fields HI.
  destruct (Z.lt_ge_cases h' (h + Q)) as [|Hge]; [done|exfalso].
  pose proof (Hproom _ _ _ Hp' ltac:(done)). pose proof (Hplt _ _ _ Hp).
  destruct (Htc h ltac:(lia)) as [(v & Hl)%elem_of_fst|(k & st & Hk & Hst)].
  - apply (Huw _ _ _ Hp ltac:(done)). apply elem_of_fst. exists v. by apply Hsub.
  - pose proof (Hpp _ _ _ _ _ _ Hp' ltac:(done) Hk). lia.
Qed.

(** X2. Every value a [pop] has read from the slot array under ticket
    [t] is the value the [push] that drew ticket [t] stored there: no
    pop reads a slot before its push wrote it or after a later push
    wrote over it. *)
Theorem popped_was_pushed c sched s t v :
  is_pow2 (Q_SIZE c) = true ->
  horizon c (Z.of_nat (length sched)) ->
  reaches c sched s ->
  (t, v) ∈ loads s -> (t, v) ∈ stores s.
Proof.
  intros Hpow Hhor Hreach Hin.
  by apply (ri_sub _ _ (ring_inv_reaches c sched s Hpow Hhor Hreach)).
Qed.

Lemma popped_was_pushed_witness :
  exists s,
    reaches (mkParams 1 1 2) (sched_slot_reuse) s /\
    loads s = [(0, 7); (1, 8); (2, 9)] /\
    (2, 9) ∈ stores s.
Proof.
  eexists. split; [reach_by_run|]. split; [vm_compute; reflexivity|].
  apply (popped_was_pushed (mkParams 1 1 2) (sched_slot_reuse)).
  - reflexivity.
  - horizon_by_run.
  - reach_by_run.
  - vm_compute. repeat constructor.
Defined.

(** X3. A ticket is used for one store and for one load at most, and
    only tickets that the counters have handed out are used. *)
Theorem tickets_used_once c sched s :
  is_pow2 (Q_SIZE c) = true ->
  horizon c (Z.of_nat (length sched)) ->
  reaches c sched s ->
  NoDup (stores s).*1 /\ NoDup (loads s).*1 /\
  (forall h x, (h, x) ∈ stores s -> 0 <= h < head_ (queue s)) /\
  (forall t v, (t, v) ∈ loads s -> 0 <= t < tail_ (queue s) /\ t < head_ (queue s)).
Proof.
  intros Hpow Hhor Hreach.
  pose proof (ring_inv_reaches c sched s Hpow Hhor Hreach) as HI. ring_fields HI.
  split_and!; try done.
  - intros h x Hin. destruct (Hsr _ _ Hin) as [H1 _]. exact H1.
  - intros t v Hin. split; [exact (Hlr _ _ Hin)|].
    destruct (Hsr _ _ (Hsub _ Hin)) as [H1 _]. apply H1.
Qed.

Lemma tickets_used_once_witness :
  exists s,
    reaches (mkParams 1 1 2) (sched_slot_reuse) s /\
    (stores s).*1 = [0; 1; 2] /\ NoDup (loads s).*1.
Proof.
  eexists. split; [reach_by_run|]. split; [vm_compute; reflexivity|].
  apply (tickets_used_once (mkParams 1 1 2) (sched_slot_reuse)).
  - reflexivity.
  - horizon_by_run.
  - reach_by_run.
Defined.

(** X4. What a push has stored stays in its slot until the pop with the
    same ticket has read it. *)
Theorem unread_item_stays c sched s h x :
  is_pow2 (Q_SIZE c) = true ->
  horizon c (Z.of_nat (length sched)) ->
  reaches c sched s ->
  (h, x) ∈ stores s -> h ∉ (loads s).*1 ->
  ptr_array_ (queue s) !! slot_of c h = Some x.
Proof.
  intros Hpow Hhor Hreach Hin Hnot.
  pose proof (ring_inv_reaches c sched s Hpow Hhor Hreach) as HI.
  pose proof (ri_stored_range _ _ HI _ _ Hin) as [Hh _].
  rewrite slot_of_mod; [|done|unfold horizon in Hhor; lia|lia].
  by apply (ri_slots _ _ HI).
Qed.

Lemma unread_item_stays_witness :
  exists s,
    reaches (mkParams 1 1 2) (push_call 0 7 ++ push_call 0 8 ++ pop_call_wait 0 1) s /\
    stores s = [(0, 7); (1, 8)] /\ loads s = [(0, 7)] /\
    ptr_array_ (queue s) !! 1%nat = Some 8.
Proof.
  eexists. split; [reach_by_run|]. split; [vm_compute; reflexivity|].
  split; [vm_compute; reflexivity|].
  apply (unread_item_stays (mkParams 1 1 2)
           (push_call 0 7 ++ push_call 0 8 ++ pop_call_wait 0 1) _ 1 8).
  - reflexivity.
  - horizon_by_run.
  - reach_by_run.
  - vm_compute. repeat constructor.
  - vm_compute. apply not_elem_of_cons. split; [discriminate|apply not_elem_of_nil].
Defined.

(** X5. Accesses to the slot array never collide: while a producer is
    about to store into its slot (line 217), no other producer is about
    to store into the same slot and no consumer is about to load it
    (line 254). *)
Theorem slot_access_exclusive c sched s p tp x :
  is_pow2 (Q_SIZE c) = true ->
  horizon c (Z.of_nat (length sched)) ->
  reaches c sched s ->
  prods s !! p = Some tp -> pc tp = PWrite x ->
  (forall p' tp' x', prods s !! p' = Some tp' -> pc tp' = PWrite x' -> p' <> p ->
     slot_of c (reg_head (thr_p_ (queue s)) p')
     <> slot_of c (reg_head (thr_p_ (queue s)) p)) /\
  (forall k tk, cons s !! k = Some tk -> pc tk = CRead ->
     slot_of c (reg_tail (thr_p_ (queue s)) k)
     <> slot_of c (reg_head (thr_p_ (queue s)) p)).
Proof.
  intros Hpow Hhor Hreach Hp Hpc.
  pose proof (ring_inv_reaches c sched s Hpow Hhor Hreach) as HI.
  assert (HQ : 0 < Q_SIZE c <= ULONG_MAX) by (unfold horizon in Hhor; lia).
  assert (Hh : holds (t_prods (tickets_of s)) p (reg_head (thr_p_ (queue s)) p) Passed).
  { eapply holds_prod_intro; [done|]. by rewrite Hpc. }
  pose proof (ri_prod_lt _ _ HI _ _ _ Hh) as Hh0.
  split.
  - intros p' tp' x' Hp' Hpc' Hne.
    assert (Hh' : holds (t_prods (tickets_of s)) p' (reg_head (thr_p_ (queue s)) p') Passed).
    { eapply holds_prod_intro; [done|]. by rewrite Hpc'. }
    pose proof (ri_prod_lt _ _ HI _ _ _ Hh') as Hh0'.
    rewrite !slot_of_mod by (done || lia).
    apply mod_window; [lia..| |].
    + intros Heq. apply Hne. eapply (ri_prod_distinct _ _ HI); [exact Hh'|].
      rewrite Heq. exact Hh.
    + pose proof (passed_producers_window _ _ _ _ _ _ (proj1 HQ) HI Hh Hh').
      pose proof (passed_producers_window _ _ _ _ _ _ (proj1 HQ) HI Hh' Hh). lia.
  - intros k tk Hk Hpck.
    assert (Hc : holds (t_cons (tickets_of s)) k (reg_tail (thr_p_ (queue s)) k) Passed).
    { eapply holds_cons_intro; [done|]. by rewrite Hpck. }
    pose proof (ri_cons_lt _ _ HI _ _ _ Hc) as Hc0.
    pose proof (ri_cons_passed _ _ HI _ _ _ _ _ _ Hc ltac:(done) Hh).
    pose proof (ri_prod_passed _ _ HI _ _ _ _ _ _ Hh ltac:(done) Hc).
    rewrite !slot_of_mod by (done || lia).
    apply mod_window; lia.
Qed.

Lemma slot_access_exclusive_witness :
  exists s,
    reaches (mkParams 2 1 2) sched_two_writers s /\
    map pc (prods s) = [PWrite 7; PWrite 8] /\
    slot_of (mkParams 2 1 2) (reg_head (thr_p_ (queue s)) 1)
    <> slot_of (mkParams 2 1 2) (reg_head (thr_p_ (queue s)) 0).
Proof.
  eexists. split; [reach_by_run|]. split; [vm_compute; reflexivity|].
  eapply (proj1 (slot_access_exclusive (mkParams 2 1 2) sched_two_writers _ 0%nat _ 7
                   eq_refl ltac:(horizon_by_run) ltac:(reach_by_run)
                   ltac:(vm_compute; reflexivity) ltac:(vm_compute; reflexivity))
            1%nat _ 8).
  - vm_compute; reflexivity.
  - vm_compute; reflexivity.
  - discriminate.
Defined.

Lemma quiescent_counters c sched s :
  horizon c (Z.of_nat (length sched)) ->
  reaches c sched s ->
  quiescent s ->
  tail_ (queue s) <= head_ (queue s) <= tail_ (queue s) + Q_SIZE c.
Proof.
  intros Hhor Hreach [HP HC].
  destruct (covered_reaches c sched s Hhor Hreach) as [HT HH].
  split.
  - destruct (Z.le_gt_cases (tail_ (queue s)) (head_ (queue s))) as [|Hgt]; [done|exfalso].
    destruct (HT (head_ (queue s)) ltac:(lia)) as (k & tk & Hk & Hc).
    by rewrite (HC k tk Hk) in Hc.
  - destruct (Z.le_gt_cases (head_ (queue s)) (tail_ (queue s) + Q_SIZE c)) as [|Hgt];
      [done|exfalso].
    destruct (HH (tail_ (queue s) + Q_SIZE c) ltac:(lia)) as (p & tp & Hp & Hc).
    by rewrite (HP p tp Hp) in Hc.
Qed.

(** X7. Whenever no thread is inside a call, the counters are as the
    specification's data model has them: [tail <= head <= tail + Q]. *)
Theorem quiescent_live_items c sched s :
  horizon c (Z.of_nat (length sched)) ->
  reaches c sched s ->
  quiescent s ->
  spec_live_items c (queue s).
Proof.
  intros Hhor Hreach Hq.
  pose proof (quiescent_counters c sched s Hhor Hreach Hq). unfold spec_live_items. lia.
Qed.

Lemma quiescent_live_items_witness :
  exists s,
    reaches (mkParams 1 1 2) (push_call 0 7) s /\
    head_ (queue s) = 1 /\ tail_ (queue s) = 0 /\
    spec_live_items (mkParams 1 1 2) (queue s).
Proof.
  eexists. split; [reach_by_run|]. split; [vm_compute; reflexivity|].
  split; [vm_compute; reflexivity|].
  apply (quiescent_live_items (mkParams 1 1 2) (push_call 0 7)).
  - horizon_by_run.
  - reach_by_run.
  - split; intros [|i] t Hl; vm_compute in Hl; by simplify_eq.
Defined.

Lemma quiescent_all_used c s :
  ring_inv (Q_SIZE c) (tickets_of s) ->
  quiescent s ->
  (forall h, 0 <= h < head_ (queue s) -> h ∈ (stores s).*1) /\
  (forall t, 0 <= t < tail_ (queue s) -> t ∈ (loads s).*1).
Proof.
  intros HI [HP HC]. ring_fields HI. split.
  - intros h Hh. destruct (Hhc h Hh) as [|(p & st & (t & Hp & Hc)%holds_prod_claim & _)];
      [done|]. by rewrite (HP p t Hp) in Hc.
  - intros t Ht. destruct (Htc t Ht) as [|(k & st & (tk & Hk & Hc)%holds_cons_claim & _)];
      [done|]. by rewrite (HC k tk Hk) in Hc.
Qed.

(** X8. Whenever no thread is inside a call, every ticket below [head_]
    has had its store and every ticket below [tail_] its load, and the
    items pushed and not popped sit in the array in ticket order: slot
    [t & Q_MASK] holds the item of ticket [t] for [tail_ <= t < head_]. *)
Theorem quiescent_contents c sched s :
  is_pow2 (Q_SIZE c) = true ->
  horizon c (Z.of_nat (length sched)) ->
  reaches c sched s ->
  quiescent s ->
  (forall h, 0 <= h < head_ (queue s) -> h ∈ (stores s).*1) /\
  (forall t, 0 <= t < tail_ (queue s) -> t ∈ (loads s).*1) /\
  (forall t, tail_ (queue s) <= t < head_ (queue s) ->
     exists x, (t, x) ∈ stores s /\ ptr_array_ (queue s) !! slot_of c t = Some x).
Proof.
  intros Hpow Hhor Hreach Hq.
  pose proof (ring_inv_reaches c sched s Hpow Hhor Hreach) as HI.
  destruct (quiescent_all_used c s HI Hq) as [Hst Hld].
  split; [done|]. split; [done|].
  intros t Ht. pose proof (ri_tail_nonneg _ _ HI) as Ht0. cbn in Ht0.
  destruct (proj1 (elem_of_fst _ _) (Hst t ltac:(lia))) as (x & Hin).
  exists x. split; [done|].
  rewrite slot_of_mod; [|done|unfold horizon in Hhor; lia|lia].
  apply (ri_slots _ _ HI); [done|].
  intros (v & Hl)%elem_of_fst. apply (ri_loaded_range _ _ HI) in Hl. cbn in Hl. lia.
Qed.

Lemma quiescent_contents_witness :
  exists s,
    reaches (mkParams 1 1 2) (push_call 0 7 ++ push_call 0 8 ++ pop_call_wait 0 1) s /\
    head_ (queue s) = 2 /\ tail_ (queue s) = 1 /\
    exists x, (1, x) ∈ stores s /\
      ptr_array_ (queue s) !! slot_of (mkParams 1 1 2) 1 = Some x.
Proof.
  eexists. split; [reach_by_run|]. split; [vm_compute; reflexivity|].
  split; [vm_compute; reflexivity|].
  apply (quiescent_contents (mkParams 1 1 2)
           (push_call 0 7 ++ push_call 0 8 ++ pop_call_wait 0 1)).
  - reflexivity.
  - horizon_by_run.
  - reach_by_run.
  - split; intros [|i] t Hl; vm_compute in Hl; by simplify_eq.
  - vm_compute. split; [discriminate|reflexivity].
Defined.

(** ** One thread at a time *)

Lemma thr_pos_lookup c tid q e :
  0 <= tid < n_threads c -> thr_p_ q !! Z.to_nat tid = Some e ->
  thr_pos c tid q = Ok e.
Proof.
  intros Ht He. unfold thr_pos. destruct (Z.ltb_spec tid (n_threads c)); [|lia].
  by rewrite He.
Qed.

Lemma store_thr_head_Ok c tid v q e :
  0 <= tid < n_threads c -> thr_p_ q !! Z.to_nat tid = Some e ->
  store_thr_head c tid v q
  = Ok (set_thr_p_ (<[Z.to_nat tid := ThrPos.mk v (ThrPos.tail e)]> (thr_p_ q)) q).
Proof. intros Ht He. unfold store_thr_head. by rewrite (thr_pos_lookup c tid q e). Qed.

Lemma store_thr_tail_Ok c tid v q e :
  0 <= tid < n_threads c -> thr_p_ q !! Z.to_nat tid = Some e ->
  store_thr_tail c tid v q
  = Ok (set_thr_p_ (<[Z.to_nat tid := ThrPos.mk (ThrPos.head e) v]> (thr_p_ q)) q).
Proof. intros Ht He. unfold store_thr_tail. by rewrite (thr_pos_lookup c tid q e). Qed.

Lemma push_done_step fuel c tid q pc q1 pc1 ev q' :
  push_step c tid q pc = Ok (q1, pc1, ev) -> is_PIdle pc1 = false ->
  (exists evs, push_steps fuel c tid q1 pc1 = Ok (q', evs)) ->
  exists evs, push_steps (S fuel) c tid q pc = Ok (q', evs).
Proof.
  intros H1 H2 (evs & H3). exists (ev :: evs).
  cbn [push_steps]. rewrite H1. cbn [obind]. by rewrite H2, H3.
Qed.

Lemma push_done_last fuel c tid q pc q1 ev :
  push_step c tid q pc = Ok (q1, PIdle, ev) ->
  exists evs, push_steps (S fuel) c tid q pc = Ok (q1, evs).
Proof. intros H1. exists [ev]. cbn [push_steps]. by rewrite H1. Qed.

Lemma push_wait_step fuel c tid q pc q1 pc1 ev :
  push_step c tid q pc = Ok (q1, pc1, ev) -> is_PIdle pc1 = false ->
  push_steps fuel c tid q1 pc1 = NoStep ->
  push_steps (S fuel) c tid q pc = NoStep.
Proof.
  intros H1 H2 H3. cbn [push_steps]. rewrite H1. cbn [obind]. by rewrite H2, H3.
Qed.

Lemma pop_done_step fuel c tid q pc q1 pc1 ev q' ret :
  pop_step c tid q pc = Ok (q1, pc1, ev) -> is_CIdle pc1 = false ->
  (exists evs, pop_steps fuel c tid q1 pc1 = Ok (q', ret, evs)) ->
  exists evs, pop_steps (S fuel) c tid q pc = Ok (q', ret, evs).
Proof.
  intros H1 H2 (evs & H3). exists (ev :: evs).
  cbn [pop_steps]. rewrite H1. cbn [obind]. by rewrite H2, H3.
Qed.

Lemma pop_done_last fuel c tid q ret q1 ev :
  pop_step c tid q (CRelease ret) = Ok (q1, CIdle, ev) ->
  exists evs, pop_steps (S fuel) c tid q (CRelease ret) = Ok (q1, ret, evs).
Proof. intros H1. exists [ev]. cbn [pop_steps]. by rewrite H1. Qed.

Lemma pop_wait_step fuel c tid q pc q1 pc1 ev :
  pop_step c tid q pc = Ok (q1, pc1, ev) -> is_CIdle pc1 = false ->
  pop_steps fuel c tid q1 pc1 = NoStep ->
  pop_steps (S fuel) c tid q pc = NoStep.
Proof.
  intros H1 H2 H3. cbn [pop_steps]. rewrite H1. cbn [obind]. by rewrite H2, H3.
Qed.

(** *** Waiting *)

Lemma push_stuck_step c tid q pc :
  push_stuck c tid q pc ->
  exists q1 pc1 ev, push_step c tid q pc = Ok (q1, pc1, ev) /\
    is_PIdle pc1 = false /\ push_stuck c tid q1 pc1.
Proof.
  intros (Ht & Hl & Hreg & Hlt & HQ & Hh & Hpc).
  destruct (thr_pos_Ok c q tid Ht Hl) as (e & He & Hpos).
  assert (Hmine : reg_head (thr_p_ q) (Z.to_nat tid) = ThrPos.head e).
  { unfold reg_head. by rewrite He. }
  destruct pc; try done; cbn [push_step]; rewrite ?Hpos; cbn [obind].
  - assert (Hc : (wrap (last_tail_ q + Q_SIZE c) <=? ThrPos.head e) = true).
    { rewrite wrap_small by lia. lia. }
    rewrite Hc. eexists _, _, _. split; [done|]. split; [done|]. split_and!; try done; lia.
  - eexists _, _, _. split; [done|]. split; [done|]. split_and!; try done; lia.
  - eexists _, _, _. split; [done|]. split; [done|]. split_and!; try done; lia.
  - destruct Hpc as (Hi & Hm). destruct (Z.ltb_spec i (n_consumers_ c)) as [Hlt'|Hge].
    + destruct (load_thr_Ok c q i (n_consumers_ c)) as (e' & He' & ->);
        [lia|done|unfold n_threads; lia|done|].
      cbn [obind]. eexists _, _, _. split; [done|]. split; [done|].
      pose proof (Hreg _ _ He').
      split_and!; try done; try lia; destruct (ThrPos.tail e' <? min) eqn:E; lia.
    + eexists _, _, _. split; [done|]. split; [done|].
      split_and!; cbn; try done; lia.
Qed.

Lemma push_stuck_spins c tid fuel : forall q pc,
  push_stuck c tid q pc -> push_steps fuel c tid q pc = NoStep.
Proof.
  induction fuel as [|fuel IH]; intros q pc Hs; [done|].
  destruct (push_stuck_step c tid q pc Hs) as (q1 & pc1 & ev & Hstep & Hidle & Hs1).
  eapply push_wait_step; [done..|]. by apply IH.
Qed.

Lemma pop_stuck_step c tid q pc :
  pop_stuck c tid q pc ->
  exists q1 pc1 ev, pop_step c tid q pc = Ok (q1, pc1, ev) /\
    is_CIdle pc1 = false /\ pop_stuck c tid q1 pc1.
Proof.
  intros (Ht & Hl & Hlh & Hh & Hpc).
  destruct (thr_pos_Ok c q tid Ht Hl) as (e & He & Hpos).
  assert (Hmine : reg_tail (thr_p_ q) (Z.to_nat tid) = ThrPos.tail e).
  { unfold reg_tail. by rewrite He. }
  destruct pc; try done; cbn [pop_step]; rewrite ?Hpos; cbn [obind].
  - assert (Hc : (last_head_ q <=? ThrPos.tail e) = true) by lia.
    rewrite Hc. eexists _, _, _. split; [done|]. split; [done|]. split_and!; try done; lia.
  - eexists _, _, _. split; [done|]. split; [done|]. split_and!; try done; lia.
  - eexists _, _, _. split; [done|]. split; [done|]. split_and!; try done; lia.
  - destruct Hpc as (Hi & Hm). destruct (Z.ltb_spec i (n_producers_ c)) as [Hlt'|Hge].
    + destruct (load_thr_Ok c q i (n_producers_ c)) as (e' & He' & ->);
        [lia|done|unfold n_threads; lia|done|].
      cbn [obind]. eexists _, _, _. split; [done|]. split; [done|].
      split_and!; try done; try lia. destruct (ThrPos.head e' <? min) eqn:E; lia.
    + eexists _, _, _. split; [done|]. split; [done|].
      split_and!; cbn; try done; lia.
Qed.

Lemma pop_stuck_spins c tid fuel : forall q pc,
  pop_stuck c tid q pc -> pop_steps fuel c tid q pc = NoStep.
Proof.
  induction fuel as [|fuel IH]; intros q pc Hs; [done|].
  destruct (pop_stuck_step c tid q pc Hs) as (q1 & pc1 & ev & Hstep & Hidle & Hs1).
  eapply pop_wait_step; [done..|]. by apply IH.
Qed.

(** X13. A [push] on a full queue does not return as long as no consumer
    takes a step: with [head_] at [tail_ + Q_SIZE] or beyond, the caller
    draws its ticket and then goes round the loop of lines 203-215 for
    as many steps as it is given. *)
Theorem push_alone_waits_when_full c q tid x fuel :
  0 <= tid < n_threads c ->
  length (thr_p_ q) = Z.to_nat (n_threads c) ->
  (forall i e, thr_p_ q !! i = Some e -> 0 <= ThrPos.tail e) ->
  0 <= last_tail_ q <= tail_ q ->
  0 <= Q_SIZE c ->
  tail_ q + Q_SIZE c <= head_ q <= ULONG_MAX ->
  push_alone fuel c tid x q = NoStep.
Proof.
  intros Ht Hl Hreg Hlt HQ Hfull.
  destruct (thr_pos_Ok c q tid Ht Hl) as (e & He & _).
  assert (Hn : (Z.to_nat tid < length (thr_p_ q))%nat) by by eapply lookup_lt_Some.
  unfold push_alone.
  destruct fuel as [|fuel]; [done|].
  eapply push_wait_step; [reflexivity|done|].
  destruct fuel as [|fuel]; [done|].
  eapply push_wait_step; [cbn [push_step]; by rewrite (store_thr_head_Ok c tid _ q e)|done|].
  destruct fuel as [|fuel]; [done|].
  eapply push_wait_step; [reflexivity|done|].
  destruct fuel as [|fuel]; [done|].
  eapply push_wait_step; [reflexivity|done|].
  destruct fuel as [|fuel]; [done|].
  eapply push_wait_step.
  { cbn [push_step]. rewrite (store_thr_head_Ok c tid _ _ (ThrPos.mk (head_ q) (ThrPos.tail e))); [done..|].
    cbn. by apply list_lookup_insert_eq. }
  { done. }
  apply push_stuck_spins. cbn.
  unfold push_stuck; cbn; rewrite ?length_insert. split_and!; try done; try lia.
  - intros i e' Hi.
    apply list_lookup_insert_Some in Hi as [(_ & <- & _)|(_ & Hi)]; cbn.
    + by eapply Hreg.
    + apply list_lookup_insert_Some in Hi as [(_ & <- & _)|(_ & Hi)]; cbn; by eapply Hreg.
  - unfold reg_head. rewrite list_lookup_insert_eq by (rewrite length_insert; lia). cbn. lia.
  - unfold reg_head. rewrite list_lookup_insert_eq by (rewrite length_insert; lia). cbn. lia.
Qed.

(** X14. A [pop] on an empty queue does not return as long as no producer
    takes a step: with [tail_] at [head_] or beyond, the caller draws its
    ticket and then goes round the loop of lines 240-252 for as many
    steps as it is given. *)
Theorem pop_alone_waits_when_empty c q tid fuel :
  0 <= tid < n_threads c ->
  length (thr_p_ q) = Z.to_nat (n_threads c) ->
  last_head_ q <= head_ q ->
  head_ q <= tail_ q ->
  pop_alone fuel c tid q = NoStep.
Proof.
  intros Ht Hl Hlh Hempty.
  destruct (thr_pos_Ok c q tid Ht Hl) as (e & He & _).
  assert (Hn : (Z.to_nat tid < length (thr_p_ q))%nat) by by eapply lookup_lt_Some.
  unfold pop_alone.
  destruct fuel as [|fuel]; [done|].
  eapply pop_wait_step; [reflexivity|done|].
  destruct fuel as [|fuel]; [done|].
  eapply pop_wait_step; [cbn [pop_step]; by rewrite (store_thr_tail_Ok c tid _ q e)|done|].
  destruct fuel as [|fuel]; [done|].
  eapply pop_wait_step; [reflexivity|done|].
  destruct fuel as [|fuel]; [done|].
  eapply pop_wait_step; [reflexivity|done|].
  destruct fuel as [|fuel]; [done|].
  eapply pop_wait_step.
  { cbn [pop_step]. rewrite (store_thr_tail_Ok c tid _ _ (ThrPos.mk (ThrPos.head e) (tail_ q))); [done..|].
    cbn. by apply list_lookup_insert_eq. }
  { done. }
  apply pop_stuck_spins. cbn.
  unfold pop_stuck; cbn; rewrite ?length_insert. split_and!; try done; try lia.
  unfold reg_tail. rewrite list_lookup_insert_eq by (rewrite length_insert; lia). cbn. lia.
Qed.

Lemma push_alone_waits_when_full_witness :
  push_alone 1000 (mkParams 1 1 2) 0 9 (mkQ 2 0 0 0 [sentinel] [7; 8]) = NoStep.
Proof.
  apply push_alone_waits_when_full.
  - vm_compute. split; [discriminate|reflexivity].
  - reflexivity.
  - intros [|i] e He; vm_compute in He; simplify_eq. vm_compute. discriminate.
  - vm_compute. split; discriminate.
  - vm_compute. discriminate.
  - vm_compute. split; discriminate.
Defined.

Lemma pop_alone_waits_when_empty_witness :
  pop_alone 1000 (mkParams 1 1 2) 0 (mkQ 0 0 0 0 [sentinel] [0; 0]) = NoStep.
Proof.
  apply pop_alone_waits_when_empty.
  - vm_compute. split; [discriminate|reflexivity].
  - reflexivity.
  - vm_compute. discriminate.
  - vm_compute. discriminate.
Defined.

(** *** Completing *)

(** The scan of lines 209-213 over a registry whose tails are all the
    sentinel leaves the minimum as it was. *)
Lemma push_scan_done c tid x q m q' fuel : forall k i,
  k = Z.to_nat (n_consumers_ c - i) -> 0 <= i ->
  length (thr_p_ q) = Z.to_nat (n_threads c) ->
  (forall j e, thr_p_ q !! j = Some e -> ThrPos.tail e = ULONG_MAX) ->
  m <= ULONG_MAX ->
  (exists evs, push_steps fuel c tid (set_last_tail_ m q) (PTest x) = Ok (q', evs)) ->
  exists evs, push_steps (k + S fuel) c tid q (PScan x i m) = Ok (q', evs).
Proof.
  induction k as [|k IH]; intros i Hk Hi Hl Hreg Hm Hrest.
  - cbn [Nat.add]. eapply push_done_step.
    { cbn [push_step]. destruct (Z.ltb_spec i (n_consumers_ c)); [lia|reflexivity]. }
    { done. }
    exact Hrest.
  - cbn [Nat.add]. destruct (load_thr_Ok c q i (n_consumers_ c)) as (e & He & Hload);
      [unfold n_threads; lia|lia|unfold n_threads; lia|done|].
    eapply push_done_step.
    { cbn [push_step]. destruct (Z.ltb_spec i (n_consumers_ c)); [|lia].
      rewrite Hload. cbn [obind]. rewrite (Hreg _ _ He).
      destruct (Z.ltb_spec ULONG_MAX m); [lia|reflexivity]. }
    { done. }
    apply (IH (i + 1)); try done; lia.
Qed.

Lemma pop_scan_done c tid q m q' ret fuel : forall k i,
  k = Z.to_nat (n_producers_ c - i) -> 0 <= i ->
  length (thr_p_ q) = Z.to_nat (n_threads c) ->
  (forall j e, thr_p_ q !! j = Some e -> ThrPos.head e = ULONG_MAX) ->
  m <= ULONG_MAX ->
  (exists evs, pop_steps fuel c tid (set_last_head_ m q) CTest = Ok (q', ret, evs)) ->
  exists evs, pop_steps (k + S fuel) c tid q (CScan i m) = Ok (q', ret, evs).
Proof.
  induction k as [|k IH]; intros i Hk Hi Hl Hreg Hm Hrest.
  - cbn [Nat.add]. eapply pop_done_step.
    { cbn [pop_step]. destruct (Z.ltb_spec i (n_producers_ c)); [lia|reflexivity]. }
    { done. }
    exact Hrest.
  - cbn [Nat.add]. destruct (load_thr_Ok c q i (n_producers_ c)) as (e & He & Hload);
      [unfold n_threads; lia|lia|unfold n_threads; lia|done|].
    eapply pop_done_step.
    { cbn [pop_step]. destruct (Z.ltb_spec i (n_producers_ c)); [|lia].
      rewrite Hload. cbn [obind]. rewrite (Hreg _ _ He).
      destruct (Z.ltb_spec ULONG_MAX m); [lia|reflexivity]. }
    { done. }
    apply (IH (i + 1)); try done; lia.
Qed.

(** From the test of line 203 on, when the ticket is within [Q_SIZE] of
    [last_tail_]: the store into the slot and the release. *)
Lemma push_pass_done c tid x q e fuel :
  0 <= tid < n_threads c -> thr_p_ q !! Z.to_nat tid = Some e ->
  0 <= last_tail_ q -> last_tail_ q + Q_SIZE c <= ULONG_MAX -> 0 <= Q_SIZE c ->
  ThrPos.head e < last_tail_ q + Q_SIZE c ->
  (slot_of c (ThrPos.head e) < length (ptr_array_ q))%nat ->
  exists evs, push_steps (3 + fuel) c tid q (PTest x)
    = Ok (mkQ (head_ q) (tail_ q) (last_head_ q) (last_tail_ q)
              (<[Z.to_nat tid := ThrPos.mk ULONG_MAX (ThrPos.tail e)]> (thr_p_ q))
              (<[slot_of c (ThrPos.head e) := x]> (ptr_array_ q)), evs).
Proof.
  intros Ht He Hlt Hnw HQ Hroom Hslot. cbn [Nat.add].
  pose proof (thr_pos_lookup c tid q e Ht He) as Hpos.
  destruct (lookup_lt_is_Some_2 _ _ Hslot) as [old Hold].
  eapply push_done_step.
  { cbn [push_step]. rewrite Hpos. cbn [obind].
    destruct (Z.leb_spec (wrap (last_tail_ q + Q_SIZE c)) (ThrPos.head e)) as [Hle|]; [|done].
    rewrite wrap_small in Hle by lia. lia. }
  { done. }
  eapply push_done_step.
  { cbn [push_step]. rewrite Hpos. cbn [obind]. fold (slot_of c (ThrPos.head e)).
    by rewrite Hold. }
  { done. }
  eapply push_done_last. cbn [push_step].
  by rewrite (store_thr_head_Ok c tid _ _ e).
Qed.

Lemma pop_pass_done c tid q e ret fuel :
  0 <= tid < n_threads c -> thr_p_ q !! Z.to_nat tid = Some e ->
  ThrPos.tail e < last_head_ q ->
  ptr_array_ q !! slot_of c (ThrPos.tail e) = Some ret ->
  exists evs, pop_steps (3 + fuel) c tid q CTest
    = Ok (mkQ (head_ q) (tail_ q) (last_head_ q) (last_tail_ q)
              (<[Z.to_nat tid := ThrPos.mk (ThrPos.head e) ULONG_MAX]> (thr_p_ q))
              (ptr_array_ q), ret, evs).
Proof.
  intros Ht He Hroom Hslot. cbn [Nat.add].
  pose proof (thr_pos_lookup c tid q e Ht He) as Hpos.
  eapply pop_done_step.
  { cbn [pop_step]. rewrite Hpos. cbn [obind].
    destruct (Z.leb_spec (last_head_ q) (ThrPos.tail e)) as [Hle|]; [lia|done]. }
  { done. }
  eapply pop_done_step.
  { cbn [pop_step]. rewrite Hpos. cbn [obind]. fold (slot_of c (ThrPos.tail e)).
    by rewrite Hslot. }
  { done. }
  eapply pop_done_last. cbn [pop_step].
  by rewrite (store_thr_tail_Ok c tid _ _ e).
Qed.

Lemma holds_items_push c q L x lt' :
  is_pow2 (Q_SIZE c) = true -> Q_SIZE c <= ULONG_MAX ->
  holds_items c q L -> Z.of_nat (length L) < Q_SIZE c ->
  0 <= lt' <= tail_ q ->
  holds_items c
    (mkQ (head_ q + 1) (tail_ q) (last_head_ q) lt' (thr_p_ q)
         (<[slot_of c (head_ q) := x]> (ptr_array_ q)))
    (L ++ [x]).
Proof.
  intros Hpow HQ [Hreg Harr Ht Hh Hroom Hlt Hlh Hsl] Hlen Hlt'.
  destruct (is_pow2_spec _ Hpow) as [Hpos _].
  constructor; cbn [head_ tail_ last_head_ last_tail_ thr_p_ ptr_array_];
    rewrite ?length_insert, ?length_app; cbn [length]; try done; try lia.
  intros i y Hi. apply lookup_app_Some in Hi as [Hi|[Hge Hi]].
  - apply lookup_lt_Some in Hi as Hlt0.
    rewrite list_lookup_insert_ne; [by apply Hsl|].
    rewrite !slot_of_mod by (done || lia). apply mod_window; lia.
  - apply list_lookup_singleton_Some in Hi as [Hi <-].
    replace (tail_ q + Z.of_nat i) with (head_ q) by lia.
    apply list_lookup_insert_eq. rewrite Harr, slot_of_mod by (done || lia).
    pose proof (Z.mod_pos_bound (head_ q) (Q_SIZE c) Hpos). lia.
Qed.

Lemma holds_items_pop c q L x lh' :
  holds_items c q (x :: L) ->
  0 <= lh' <= head_ q ->
  holds_items c
    (mkQ (head_ q) (tail_ q + 1) lh' (last_tail_ q) (thr_p_ q) (ptr_array_ q)) L.
Proof.
  intros [Hreg Harr Ht Hh Hroom Hlt Hlh Hsl] Hlh'. cbn [length] in *.
  constructor; cbn [head_ tail_ last_head_ last_tail_ thr_p_ ptr_array_];
    try done; try lia.
  intros i y Hi. specialize (Hsl (S i) y Hi).
  by replace (tail_ q + 1 + Z.of_nat i) with (tail_ q + Z.of_nat (S i)) by lia.
Qed.

Lemma sentinel_registry c tid :
  0 <= tid < n_threads c ->
  replicate (Z.to_nat (n_threads c)) sentinel !! Z.to_nat tid = Some sentinel /\
  forall v w,
    <[Z.to_nat tid := sentinel]>
      (<[Z.to_nat tid := v]>
         (<[Z.to_nat tid := w]> (replicate (Z.to_nat (n_threads c)) sentinel)))
    = replicate (Z.to_nat (n_threads c)) sentinel.
Proof.
  intros Ht. split.
  - apply lookup_replicate_2. lia.
  - intros v w. by rewrite !list_insert_insert_eq, insert_replicate.
Qed.

(** A [push(x)] alone on a queue that is not full: the queue it leaves. *)
Lemma push_alone_result c q L tid x fuel :
  is_pow2 (Q_SIZE c) = true ->
  holds_items c q L ->
  Z.of_nat (length L) < Q_SIZE c ->
  0 <= tid < n_threads c ->
  head_ q + Q_SIZE c < ULONG_MAX ->
  (12 + Z.to_nat (n_consumers_ c) <= fuel)%nat ->
  exists lt' evs,
    0 <= lt' <= tail_ q /\
    push_alone fuel c tid x q
    = Ok (mkQ (head_ q + 1) (tail_ q) (last_head_ q) lt' (thr_p_ q)
              (<[slot_of c (head_ q) := x]> (ptr_array_ q)), evs).
Proof.
  intros Hpow HI Hlen Ht Hnw Hfuel.
  pose proof HI as [Hreg Harr Htl Hh Hroom Hlt Hlh Hsl].
  destruct (is_pow2_spec _ Hpow) as [Hpos _].
  destruct (sentinel_registry c tid Ht) as [He Hback].
  set (R := replicate (Z.to_nat (n_threads c)) sentinel) in *.
  assert (Hn : (Z.to_nat tid < length R)%nat) by by eapply lookup_lt_Some.
  set (e1 := ThrPos.mk (head_ q) ULONG_MAX).
  set (R2 := <[Z.to_nat tid := e1]> (<[Z.to_nat tid := e1]> R)).
  assert (He2 : R2 !! Z.to_nat tid = Some e1).
  { apply list_lookup_insert_eq. by rewrite length_insert. }
  assert (Hslot : (slot_of c (head_ q) < length (ptr_array_ q))%nat).
  { rewrite Harr, slot_of_mod by (done || lia).
    pose proof (Z.mod_pos_bound (head_ q) (Q_SIZE c) Hpos). lia. }
  assert (Hfin : forall lt',
            mkQ (wrap (head_ q + 1)) (tail_ q) (last_head_ q) lt'
                (<[Z.to_nat tid := ThrPos.mk ULONG_MAX ULONG_MAX]> R2)
                (<[slot_of c (head_ q) := x]> (ptr_array_ q))
            = mkQ (head_ q + 1) (tail_ q) (last_head_ q) lt' (thr_p_ q)
                  (<[slot_of c (head_ q) := x]> (ptr_array_ q))).
  { intros lt'. unfold R2. fold sentinel. by rewrite Hback, wrap_small, Hreg by lia. }
  set (q3 := mkQ (wrap (head_ q + 1)) (tail_ q) (last_head_ q) (last_tail_ q) R2 (ptr_array_ q)).
  cut (exists lt', 0 <= lt' <= tail_ q /\
         exists evs, push_steps (fuel - 5) c tid q3 (PTest x)
           = Ok (mkQ (head_ q + 1) (tail_ q) (last_head_ q) lt' (thr_p_ q)
                     (<[slot_of c (head_ q) := x]> (ptr_array_ q)), evs)).
  { intros (lt' & Hlt' & Hrun).
    cut (exists evs', push_alone fuel c tid x q
           = Ok (mkQ (head_ q + 1) (tail_ q) (last_head_ q) lt' (thr_p_ q)
                     (<[slot_of c (head_ q) := x]> (ptr_array_ q)), evs')).
    { intros (evs' & Hall). by exists lt', evs'. }
    replace fuel with (5 + (fuel - 5))%nat by lia. cbn [Nat.add]. unfold push_alone.
    eapply push_done_step; [reflexivity|done|].
    eapply push_done_step;
      [cbn [push_step]; by rewrite (store_thr_head_Ok c tid _ q sentinel) by (done || by rewrite Hreg)|done|].
    eapply push_done_step; [reflexivity|done|].
    eapply push_done_step; [reflexivity|done|].
    eapply push_done_step.
    { cbn [push_step]. rewrite (store_thr_head_Ok c tid _ _ e1); [reflexivity|done|].
      cbn. rewrite Hreg. by apply list_lookup_insert_eq. }
    { done. }
    cbn. rewrite Hreg. rewrite Hreg in Hrun. exact Hrun. }
  destruct (Z.leb_spec (wrap (last_tail_ q + Q_SIZE c)) (head_ q)) as [Hwait|Hpass].
  - rewrite wrap_small in Hwait by lia.
    set (q4 := set_last_tail_ (tail_ q) q3).
    destruct (push_pass_done c tid x q4 e1 (fuel - 12 - Z.to_nat (n_consumers_ c)) Ht He2)
      as (evs & Hrun); cbn; try done; try lia.
    exists (tail_ q). split; [lia|]. rewrite <- (Hfin (tail_ q)).
    replace (fuel - 5)%nat
      with (S (S (S (Z.to_nat (n_consumers_ c - 0)
                     + S (3 + (fuel - 12 - Z.to_nat (n_consumers_ c)))))))
      by (rewrite Z.sub_0_r; lia).
    eapply push_done_step.
    { cbn [push_step]. rewrite (thr_pos_lookup c tid q3 e1 Ht He2). cbn [obind].
      cbn. destruct (Z.leb_spec (wrap (last_tail_ q + Q_SIZE c)) (head_ q)) as [|Hc];
        [reflexivity|rewrite wrap_small in Hc by lia; lia]. }
    { done. }
    eapply push_done_step; [reflexivity|done|].
    eapply push_done_step; [reflexivity|done|].
    eapply (push_scan_done c tid x q3 (tail_ q)); try done; try lia.
    + cbn. unfold R2, R. by rewrite !length_insert, length_replicate.
    + intros j e' Hj. cbn in Hj. unfold R2, R in Hj.
      apply list_lookup_insert_Some in Hj as [(_ & <- & _)|(_ & Hj)]; [done|].
      apply list_lookup_insert_Some in Hj as [(_ & <- & _)|(_ & Hj)]; [done|].
      by apply lookup_replicate in Hj as [-> _].
    + eexists. exact Hrun.
  - rewrite wrap_small in Hpass by lia.
    destruct (push_pass_done c tid x q3 e1 (fuel - 8) Ht He2) as (evs & Hrun);
      cbn; try done; try lia.
    exists (last_tail_ q). split; [lia|]. rewrite <- (Hfin (last_tail_ q)).
    replace (fuel - 5)%nat with (3 + (fuel - 8))%nat by lia. eexists. exact Hrun.
Qed.

(** A [pop()] alone on a queue that holds an item: the queue it leaves. *)
Lemma pop_alone_result c q L tid x fuel :
  holds_items c q (x :: L) ->
  0 <= tid < n_threads c ->
  head_ q < ULONG_MAX ->
  (12 + Z.to_nat (n_producers_ c) <= fuel)%nat ->
  exists lh' evs,
    0 <= lh' <= head_ q /\
    pop_alone fuel c tid q
    = Ok (mkQ (head_ q) (tail_ q + 1) lh' (last_tail_ q) (thr_p_ q) (ptr_array_ q),
          x, evs).
Proof.
  intros HI Ht Hnw Hfuel.
  pose proof HI as [Hreg Harr Htl Hh Hroom Hlt Hlh Hsl]. cbn [length] in *.
  destruct (sentinel_registry c tid Ht) as [He Hback].
  set (R := replicate (Z.to_nat (n_threads c)) sentinel) in *.
  assert (Hn : (Z.to_nat tid < length R)%nat) by by eapply lookup_lt_Some.
  set (e1 := ThrPos.mk ULONG_MAX (tail_ q)).
  set (R2 := <[Z.to_nat tid := e1]> (<[Z.to_nat tid := e1]> R)).
  assert (He2 : R2 !! Z.to_nat tid = Some e1).
  { apply list_lookup_insert_eq. by rewrite length_insert. }
  assert (Hslot : ptr_array_ q !! slot_of c (tail_ q) = Some x).
  { specialize (Hsl 0%nat x eq_refl). by rewrite Z.add_0_r in Hsl. }
  assert (Hfin : forall lh',
            mkQ (head_ q) (wrap (tail_ q + 1)) lh' (last_tail_ q)
                (<[Z.to_nat tid := ThrPos.mk ULONG_MAX ULONG_MAX]> R2)
                (ptr_array_ q)
            = mkQ (head_ q) (tail_ q + 1) lh' (last_tail_ q) (thr_p_ q) (ptr_array_ q)).
  { intros lh'. unfold R2. fold sentinel. by rewrite Hback, wrap_small, Hreg by lia. }
  set (q3 := mkQ (head_ q) (wrap (tail_ q + 1)) (last_head_ q) (last_tail_ q) R2 (ptr_array_ q)).
  cut (exists lh', 0 <= lh' <= head_ q /\
         exists evs, pop_steps (fuel - 5) c tid q3 CTest
           = Ok (mkQ (head_ q) (tail_ q + 1) lh' (last_tail_ q) (thr_p_ q) (ptr_array_ q),
                 x, evs)).
  { intros (lh' & Hlh' & Hrun).
    cut (exists evs', pop_alone fuel c tid q
           = Ok (mkQ (head_ q) (tail_ q + 1) lh' (last_tail_ q) (thr_p_ q) (ptr_array_ q),
                 x, evs')).
    { intros (evs' & Hall). by exists lh', evs'. }
    replace fuel with (5 + (fuel - 5))%nat by lia. cbn [Nat.add]. unfold pop_alone.
    eapply pop_done_step; [reflexivity|done|].
    eapply pop_done_step;
      [cbn [pop_step]; by rewrite (store_thr_tail_Ok c tid _ q sentinel) by (done || by rewrite Hreg)|done|].
    eapply pop_done_step; [reflexivity|done|].
    eapply pop_done_step; [reflexivity|done|].
    eapply pop_done_step.
    { cbn [pop_step]. rewrite (store_thr_tail_Ok c tid _ _ e1); [reflexivity|done|].
      cbn. rewrite Hreg. by apply list_lookup_insert_eq. }
    { done. }
    cbn. rewrite Hreg. rewrite Hreg in Hrun. exact Hrun. }
  destruct (Z.leb_spec (last_head_ q) (tail_ q)) as [Hwait|Hpass].
  - set (q4 := set_last_head_ (head_ q) q3).
    destruct (pop_pass_done c tid q4 e1 x (fuel - 12 - Z.to_nat (n_producers_ c)) Ht He2)
      as (evs & Hrun); cbn; try done; try lia.
    exists (head_ q). split; [lia|]. rewrite <- (Hfin (head_ q)).
    replace (fuel - 5)%nat
      with (S (S (S (Z.to_nat (n_producers_ c - 0)
                     + S (3 + (fuel - 12 - Z.to_nat (n_producers_ c)))))))
      by (rewrite Z.sub_0_r; lia).
    eapply pop_done_step.
    { cbn [pop_step]. rewrite (thr_pos_lookup c tid q3 e1 Ht He2). cbn [obind].
      cbn. destruct (Z.leb_spec (last_head_ q) (tail_ q)) as [|Hc]; [reflexivity|lia]. }
    { done. }
    eapply pop_done_step; [reflexivity|done|].
    eapply pop_done_step; [reflexivity|done|].
    eapply (pop_scan_done c tid q3 (head_ q)); try done; try lia.
    + cbn. unfold R2, R. by rewrite !length_insert, length_replicate.
    + intros j e' Hj. cbn in Hj. unfold R2, R in Hj.
      apply list_lookup_insert_Some in Hj as [(_ & <- & _)|(_ & Hj)]; [done|].
      apply list_lookup_insert_Some in Hj as [(_ & <- & _)|(_ & Hj)]; [done|].
      by apply lookup_replicate in Hj as [-> _].
    + eexists. exact Hrun.
  - destruct (pop_pass_done c tid q3 e1 x (fuel - 8) Ht He2) as (evs & Hrun);
      cbn; try done; try lia.
    exists (last_head_ q). split; [lia|]. rewrite <- (Hfin (last_head_ q)).
    replace (fuel - 5)%nat with (3 + (fuel - 8))%nat by lia. eexists. exact Hrun.
Qed.

Lemma holds_items_new c blk_thr blk_arr q :
  0 <= sizeof_ThrPos * n_threads c <= ULONG_MAX ->
  LockFreeQueue_new c blk_thr blk_arr = Ok q ->
  length (ptr_array_ q) = Z.to_nat (Q_SIZE c) -> 0 <= Q_SIZE c ->
  holds_items c q [].
Proof.
  intros Hfit Hnew Hlen HQ.
  apply LockFreeQueue_new_Ok in Hnew as (bytes & arr & _ & _ & ->).
  rewrite thr_p_len_fits by (unfold sizeof_ThrPos in *; lia).
  constructor; cbn in *; try done; lia.
Qed.

(** X11. A [push(x)] made while no other thread is inside a call, on a
    queue that is not full, returns (within 12 steps and one per consumer
    scanned) and appends [x] to the items the queue holds. *)
Theorem push_alone_appends c q L tid x fuel :
  is_pow2 (Q_SIZE c) = true ->
  holds_items c q L ->
  Z.of_nat (length L) < Q_SIZE c ->
  0 <= tid < n_threads c ->
  head_ q + Q_SIZE c < ULONG_MAX ->
  (12 + Z.to_nat (n_consumers_ c) <= fuel)%nat ->
  exists q' evs,
    push_alone fuel c tid x q = Ok (q', evs) /\ holds_items c q' (L ++ [x]) /\
    head_ q' = head_ q + 1 /\ tail_ q' = tail_ q.
Proof.
  intros Hpow HI Hlen Ht Hnw Hfuel.
  destruct (push_alone_result c q L tid x fuel Hpow HI Hlen Ht Hnw Hfuel)
    as (lt' & evs & Hlt' & Hrun).
  eexists _, evs. split; [exact Hrun|]. split; [|done].
  pose proof (hi_tail _ _ _ HI). pose proof (hi_head _ _ _ HI).
  apply holds_items_push; try done; lia.
Qed.

(** X12. A [pop()] made while no other thread is inside a call, on a
    queue that holds an item, returns the oldest item (within 12 steps
    and one per producer scanned) and leaves the others. *)
Theorem pop_alone_takes_oldest c q L tid x fuel :
  holds_items c q (x :: L) ->
  0 <= tid < n_threads c ->
  head_ q < ULONG_MAX ->
  (12 + Z.to_nat (n_producers_ c) <= fuel)%nat ->
  exists q' evs,
    pop_alone fuel c tid q = Ok (q', x, evs) /\ holds_items c q' L /\
    head_ q' = head_ q /\ tail_ q' = tail_ q + 1.
Proof.
  intros HI Ht Hnw Hfuel.
  destruct (pop_alone_result c q L tid x fuel HI Ht Hnw Hfuel)
    as (lh' & evs & Hlh' & Hrun).
  eexists _, evs. split; [exact Hrun|]. split; [|done].
  by apply (holds_items_pop c q L x).
Qed.

Lemma holds_items_fresh :
  holds_items (mkParams 1 1 2) (mkQ 0 0 0 0 [sentinel] [0; 0]) [].
Proof.
  constructor; try reflexivity; try (vm_compute; split; discriminate);
    try (vm_compute; discriminate).
  all: intros i x Hi; by destruct i.
Qed.

Lemma push_alone_appends_witness :
  exists q' evs,
    push_alone 13 (mkParams 1 1 2) 0 7 (mkQ 0 0 0 0 [sentinel] [0; 0]) = Ok (q', evs) /\
    holds_items (mkParams 1 1 2) q' [7] /\
    head_ q' = 1 /\ tail_ q' = 0.
Proof.
  apply (push_alone_appends (mkParams 1 1 2) (mkQ 0 0 0 0 [sentinel] [0; 0]) [] 0 7 13).
  - reflexivity.
  - apply holds_items_fresh.
  - vm_compute. reflexivity.
  - vm_compute. split; [discriminate|reflexivity].
  - vm_compute. reflexivity.
  - vm_compute. lia.
Defined.

Lemma holds_items_one :
  holds_items (mkParams 1 1 2) (mkQ 1 0 0 0 [sentinel] [7; 0]) [7].
Proof.
  constructor; try reflexivity; try (vm_compute; split; discriminate);
    try (vm_compute; discriminate).
  all: intros [|i] x Hi; [|by destruct i]; vm_compute in Hi; simplify_eq; reflexivity.
Qed.

Lemma pop_alone_takes_oldest_witness :
  exists q' evs,
    pop_alone 13 (mkParams 1 1 2) 0 (mkQ 1 0 0 0 [sentinel] [7; 0]) = Ok (q', 7, evs) /\
    holds_items (mkParams 1 1 2) q' [] /\
    head_ q' = 1 /\ tail_ q' = 0 + 1.
Proof.
  apply (pop_alone_takes_oldest (mkParams 1 1 2) (mkQ 1 0 0 0 [sentinel] [7; 0]) [] 0 7 13).
  - apply holds_items_one.
  - vm_compute. split; [discriminate|reflexivity].
  - vm_compute. reflexivity.
  - vm_compute. lia.
Defined.

(** ** The serialized queue as a list of items *)

Lemma naive_holds_push Q x q L :
  is_pow2 Q = true -> NaiveQueue.head_ q + Q < ULONG_MAX ->
  naive_holds Q q L ->
  (Z.of_nat (length L) < Q ->
   exists q', NaiveQueue.push Q x q = Some q' /\ naive_holds Q q' (L ++ [x])) /\
  (Z.of_nat (length L) = Q -> NaiveQueue.push Q x q = None).
Proof.
  intros Hpow Hnw [Ht Hh Hroom Hlen Hsl].
  destruct (is_pow2_spec Q Hpow) as [Hpos _].
  assert (Hmask : NaiveQueue.Q_MASK Q = Q - 1) by (apply naive_mask; lia).
  unfold NaiveQueue.push, NaiveQueue.not_full. rewrite wrap_small by lia. split.
  - intros Hlt. destruct (Z.ltb_spec (NaiveQueue.head_ q) (NaiveQueue.tail_ q + Q)); [|lia].
    eexists. split; [done|].
    constructor; cbn [NaiveQueue.head_ NaiveQueue.tail_ NaiveQueue.ptr_array_];
      rewrite ?length_insert, ?length_app, ?wrap_small; cbn [length]; try done; try lia.
    intros i y Hi. rewrite Hmask in *. apply lookup_app_Some in Hi as [Hi|[Hge Hi]].
    + apply lookup_lt_Some in Hi as Hlt0.
      rewrite list_lookup_insert_ne; [by apply Hsl|].
      rewrite !band_mod by (done || lia). apply mod_window; lia.
    + apply list_lookup_singleton_Some in Hi as [Hi <-].
      replace (NaiveQueue.tail_ q + Z.of_nat i) with (NaiveQueue.head_ q) by lia.
      apply list_lookup_insert_eq. rewrite Hlen, band_mod by (done || lia).
      pose proof (Z.mod_pos_bound (NaiveQueue.head_ q) Q Hpos). lia.
  - intros Heq. by destruct (Z.ltb_spec (NaiveQueue.head_ q) (NaiveQueue.tail_ q + Q)); [lia|].
Qed.

Lemma naive_holds_pop Q q L :
  NaiveQueue.head_ q < ULONG_MAX ->
  naive_holds Q q L ->
  match L with
  | [] => NaiveQueue.pop Q q = None
  | x :: L' => exists q', NaiveQueue.pop Q q = Some (x, q') /\ naive_holds Q q' L'
  end.
Proof.
  intros Hnw [Ht Hh Hroom Hlen Hsl]. unfold NaiveQueue.pop, NaiveQueue.not_empty.
  destruct L as [|x L]; cbn [length] in *.
  - by destruct (Z.ltb_spec (NaiveQueue.tail_ q) (NaiveQueue.head_ q)); [lia|].
  - destruct (Z.ltb_spec (NaiveQueue.tail_ q) (NaiveQueue.head_ q)); [|lia].
    pose proof (Hsl 0%nat x eq_refl) as H0. rewrite Z.add_0_r in H0. rewrite H0.
    eexists. split; [done|].
    constructor; cbn [NaiveQueue.head_ NaiveQueue.tail_ NaiveQueue.ptr_array_];
      rewrite ?wrap_small; try done; try lia.
    intros i y Hi. specialize (Hsl (S i) y Hi).
    by replace (NaiveQueue.tail_ q + 1 + Z.of_nat i)
      with (NaiveQueue.tail_ q + Z.of_nat (S i)) by lia.
Qed.

Lemma naive_holds_run Q cs : forall q out L q' out',
  is_pow2 Q = true ->
  NaiveQueue.head_ q + Z.of_nat (length cs) + Q < ULONG_MAX ->
  naive_holds Q q L ->
  NaiveQueue.run Q cs q out = Some (q', out') ->
  exists L', naive_holds Q q' L' /\ out' ++ L' = out ++ L ++ pushes_of cs /\
    NaiveQueue.head_ q' = NaiveQueue.head_ q + Z.of_nat (length (pushes_of cs)).
Proof.
  induction cs as [|[x|] cs IH]; intros q out L q' out' Hpow Hnw HI Hrun;
    destruct (is_pow2_spec Q Hpow) as [Hpos _].
  - cbn in *. simplify_eq. exists L. rewrite app_nil_r. split_and!; [done..|lia].
  - cbn [NaiveQueue.run pushes_of flat_map length] in *.
    change (flat_map _ cs) with (pushes_of cs) in *.
    destruct (NaiveQueue.push Q x q) as [q1|] eqn:Hpush; [|done].
    pose proof (nh_room _ _ _ HI) as Hroom.
    destruct (naive_holds_push Q x q L Hpow ltac:(lia) HI) as [Hlt Hfull].
    destruct (Z.eq_dec (Z.of_nat (length L)) Q) as [Heq|Hne].
    { rewrite (Hfull Heq) in Hpush. done. }
    destruct (Hlt ltac:(lia)) as (q1' & Hq1 & HI1). simplify_eq.
    assert (Hh1 : NaiveQueue.head_ q1 = NaiveQueue.head_ q + 1).
    { pose proof (nh_head _ _ _ HI). pose proof (nh_head _ _ _ HI1).
      pose proof (nh_tail _ _ _ HI).
      unfold NaiveQueue.push in Hpush. destruct (NaiveQueue.not_full Q q); [|done].
      simplify_eq. cbn. apply wrap_small. lia. }
    destruct (IH q1 out (L ++ [x]) q' out' Hpow ltac:(lia) HI1 Hrun) as (L' & HI' & Hout & Hh').
    exists L'. split; [done|]. split.
    + rewrite Hout, <- !app_assoc. done.
    + cbn [app length]. lia.
  - cbn [NaiveQueue.run pushes_of flat_map length] in *.
    change (flat_map _ cs) with (pushes_of cs) in *. cbn [app] in *.
    destruct (NaiveQueue.pop Q q) as [[v q1]|] eqn:Hpop; [|done].
    pose proof (naive_holds_pop Q q L ltac:(lia) HI) as Hp.
    destruct L as [|y L]; [congruence|].
    destruct Hp as (q1' & Hq1 & HI1). simplify_eq.
    assert (Hh1 : NaiveQueue.head_ q1 = NaiveQueue.head_ q).
    { unfold NaiveQueue.pop in Hpop. destruct (NaiveQueue.not_empty q); [|done].
      destruct (_ !! _); by simplify_eq. }
    destruct (IH q1 (out ++ [v]) L q' out' Hpow ltac:(lia) HI1 Hrun) as (L' & HI' & Hout & Hh').
    exists L'. split; [done|]. split; [|lia].
    rewrite Hout, <- !app_assoc. done.
Qed.

(** X16. The serialized queue is first in, first out for calls in any
    number and order: what the pops have returned is a front piece of
    what was pushed, the queue holds the rest in order, and it never
    holds more than [Q_SIZE] items. *)
Theorem NaiveQueue_fifo Q cs arr q out :
  is_pow2 Q = true ->
  Z.of_nat (length cs) + Q < ULONG_MAX ->
  length arr = Z.to_nat Q ->
  NaiveQueue.run Q cs (NaiveQueue.mk 0 0 arr) [] = Some (q, out) ->
  out = take (length out) (pushes_of cs) /\
  naive_holds Q q (drop (length out) (pushes_of cs)) /\
  0 <= NaiveQueue.head_ q - NaiveQueue.tail_ q <= Q.
Proof.
  intros Hpow Hnw Hlen Hrun. destruct (is_pow2_spec Q Hpow) as [Hpos _].
  assert (H0 : naive_holds Q (NaiveQueue.mk 0 0 arr) []).
  { constructor; cbn; try done; lia. }
  destruct (naive_holds_run Q cs (NaiveQueue.mk 0 0 arr) [] [] q out Hpow
              ltac:(cbn; lia) H0 Hrun)
    as (L' & HI & Hout & _).
  cbn [app] in Hout. rewrite <- Hout.
  rewrite take_app_length, drop_app_length. split_and!; [done|done|..].
  - pose proof (nh_head _ _ _ HI). lia.
  - pose proof (nh_head _ _ _ HI). pose proof (nh_room _ _ _ HI). lia.
Qed.

Lemma NaiveQueue_fifo_witness :
  exists q,
    NaiveQueue.run 2
      [NaiveQueue.Push 7; NaiveQueue.Push 8; NaiveQueue.Pop; NaiveQueue.Push 9;
       NaiveQueue.Pop; NaiveQueue.Pop; NaiveQueue.Push 10]
      (NaiveQueue.mk 0 0 [0; 0]) [] = Some (q, [7; 8; 9]) /\
    [7; 8; 9] = take 3 [7; 8; 9; 10] /\
    naive_holds 2 q [10] /\
    0 <= NaiveQueue.head_ q - NaiveQueue.tail_ q <= 2.
Proof.
  eexists. split; [vm_compute; reflexivity|].
  apply (NaiveQueue_fifo 2
           [NaiveQueue.Push 7; NaiveQueue.Push 8; NaiveQueue.Pop; NaiveQueue.Push 9;
            NaiveQueue.Pop; NaiveQueue.Pop; NaiveQueue.Push 10] [0; 0]).
  - reflexivity.
  - vm_compute. reflexivity.
  - reflexivity.
  - vm_compute. reflexivity.
Defined.

(** ** Calls made one at a time: the lock-free queue does what the
    serialized queue does *)

Lemma alone_run_holds c fuel cs : forall q nq L out nq' out',
  is_pow2 (Q_SIZE c) = true ->
  Forall (fun tc => 0 <= tc.1 < n_threads c) cs ->
  head_ q + Z.of_nat (length cs) + Q_SIZE c < ULONG_MAX ->
  (12 + Z.to_nat (n_threads c) <= fuel)%nat ->
  holds_items c q L -> naive_holds (Q_SIZE c) nq L ->
  head_ q = NaiveQueue.head_ nq -> tail_ q = NaiveQueue.tail_ nq ->
  NaiveQueue.run (Q_SIZE c) (map snd cs) nq out = Some (nq', out') ->
  exists q' L', alone_run fuel c cs q out = Ok (q', out') /\
    holds_items c q' L' /\ naive_holds (Q_SIZE c) nq' L' /\
    head_ q' = NaiveQueue.head_ nq' /\ tail_ q' = NaiveQueue.tail_ nq'.
Proof.
  induction cs as [|[tid [x|]] cs IH];
    intros q nq L out nq' out' Hpow Htid Hnw Hfuel HI HN Hh Ht Hrun;
    destruct (is_pow2_spec _ Hpow) as [Hpos _].
  - cbn in *. simplify_eq. by exists q, L.
  - apply Forall_cons in Htid as [Htid Hrest].
    cbn [map snd NaiveQueue.run alone_run length] in *.
    destruct (NaiveQueue.push (Q_SIZE c) x nq) as [nq1|] eqn:Hpush; [|done].
    pose proof (nh_room _ _ _ HN) as Hroom.
    destruct (naive_holds_push (Q_SIZE c) x nq L Hpow ltac:(lia) HN) as [Hlt Hfull].
    destruct (Z.eq_dec (Z.of_nat (length L)) (Q_SIZE c)) as [Heq|Hne].
    { rewrite (Hfull Heq) in Hpush. done. }
    destruct (Hlt ltac:(lia)) as (nq1' & Hq1 & HN1). simplify_eq.
    destruct (push_alone_result c q L tid x fuel Hpow HI ltac:(lia) Htid ltac:(lia))
      as (lt' & evs & Hlt' & ->).
    { unfold n_threads in *. lia. }
    cbn [obind fst].
    set (q1 := mkQ (head_ q + 1) (tail_ q) (last_head_ q) lt' (thr_p_ q)
                   (<[slot_of c (head_ q) := x]> (ptr_array_ q))).
    assert (HI1 : holds_items c q1 (L ++ [x])).
    { pose proof (hi_tail _ _ _ HI). pose proof (hi_head _ _ _ HI).
      apply holds_items_push; try done; lia. }
    assert (Hh1 : head_ q1 = head_ q + 1) by done.
    assert (Ht1 : tail_ q1 = tail_ q) by done.
    assert (Hn1 : NaiveQueue.head_ nq1 = NaiveQueue.head_ nq + 1 /\
                  NaiveQueue.tail_ nq1 = NaiveQueue.tail_ nq).
    { pose proof (nh_head _ _ _ HN). pose proof (nh_tail _ _ _ HN).
      unfold NaiveQueue.push in Hpush. destruct (NaiveQueue.not_full _ nq); [|done].
      simplify_eq. cbn. split; [|done]. apply wrap_small. lia. }
    apply (IH q1 nq1 (L ++ [x])); try done; lia.
  - apply Forall_cons in Htid as [Htid Hrest].
    cbn [map snd NaiveQueue.run alone_run length] in *.
    destruct (NaiveQueue.pop (Q_SIZE c) nq) as [[v nq1]|] eqn:Hpop; [|done].
    pose proof (naive_holds_pop (Q_SIZE c) nq L ltac:(lia) HN) as Hp.
    destruct L as [|y L]; [congruence|].
    destruct Hp as (nq1' & Hq1 & HN1). simplify_eq.
    destruct (pop_alone_result c q L tid v fuel HI Htid ltac:(lia))
      as (lh' & evs & Hlh' & ->).
    { unfold n_threads in *. lia. }
    cbn [obind fst snd].
    set (q1 := mkQ (head_ q) (tail_ q + 1) lh' (last_tail_ q) (thr_p_ q) (ptr_array_ q)).
    assert (HI1 : holds_items c q1 L) by by apply (holds_items_pop c q L v).
    assert (Hh1 : head_ q1 = head_ q) by done.
    assert (Ht1 : tail_ q1 = tail_ q + 1) by done.
    assert (Hn1 : NaiveQueue.head_ nq1 = NaiveQueue.head_ nq /\
                  NaiveQueue.tail_ nq1 = NaiveQueue.tail_ nq + 1).
    { pose proof (nh_head _ _ _ HN). pose proof (nh_tail _ _ _ HN).
      unfold NaiveQueue.pop in Hpop. destruct (NaiveQueue.not_empty nq); [|done].
      destruct (_ !! _); simplify_eq. cbn. split; [done|]. apply wrap_small.
      cbn [length] in *. lia. }
    apply (IH q1 nq1 L); try done; lia.
Qed.

(** X15. Used by one thread at a time, the lock-free queue does what the
    serialized queue does: as long as [sizeof(ThrPos) * max(N, M)] fits
    [size_t], for calls in any number and order, made by any of the
    threads, each run to its end before the next starts, every call
    that the serialized queue lets through returns, the pops return the
    same values, and the counters end up the same. *)
Theorem alone_run_as_serialized c cs blk_thr arr q0 nq out fuel :
  is_pow2 (Q_SIZE c) = true ->
  0 <= sizeof_ThrPos * n_threads c <= ULONG_MAX ->
  LockFreeQueue_new c blk_thr (Some arr) = Ok q0 ->
  length arr = Z.to_nat (Q_SIZE c) ->
  Forall (fun tc => 0 <= tc.1 < n_threads c) cs ->
  Z.of_nat (length cs) + Q_SIZE c < ULONG_MAX ->
  (12 + Z.to_nat (n_threads c) <= fuel)%nat ->
  NaiveQueue.run (Q_SIZE c) (map snd cs) (NaiveQueue.mk 0 0 arr) [] = Some (nq, out) ->
  exists q', alone_run fuel c cs q0 [] = Ok (q', out) /\
    head_ q' = NaiveQueue.head_ nq /\ tail_ q' = NaiveQueue.tail_ nq.
Proof.
  intros Hpow Hfit Hnew Hlen Htid Hnw Hfuel Hrun.
  destruct (is_pow2_spec _ Hpow) as [Hpos _].
  pose proof Hnew as (bytes & arr' & _ & [= <-] & Hq0)%LockFreeQueue_new_Ok.
  rewrite thr_p_len_fits in Hq0 by (unfold sizeof_ThrPos in *; lia).
  assert (H0 : holds_items c q0 []).
  { eapply holds_items_new; [done|done| |lia]. by rewrite Hq0. }
  assert (N0 : naive_holds (Q_SIZE c) (NaiveQueue.mk 0 0 arr) []).
  { constructor; cbn; try done; lia. }
  destruct (alone_run_holds c fuel cs q0 (NaiveQueue.mk 0 0 arr) [] [] nq out)
    as (q' & L' & Hr & _ & _ & Hh & Ht); try done.
  - rewrite Hq0. cbn. lia.
  - by rewrite Hq0.
  - by rewrite Hq0.
  - by exists q'.
Qed.

Lemma alone_run_as_serialized_witness :
  exists q',
    alone_run 14 (mkParams 2 1 2)
      [(0, NaiveQueue.Push 7); (1, NaiveQueue.Push 8); (0, NaiveQueue.Pop);
       (1, NaiveQueue.Push 9); (0, NaiveQueue.Pop); (0, NaiveQueue.Pop)]
      (mkQ 0 0 0 0 [sentinel; sentinel] [0; 0]) [] = Ok (q', [7; 8; 9]) /\
    head_ q' = 3 /\ tail_ q' = 3.
Proof.
  apply (alone_run_as_serialized (mkParams 2 1 2)
           [(0, NaiveQueue.Push 7); (1, NaiveQueue.Push 8); (0, NaiveQueue.Pop);
            (1, NaiveQueue.Push 9); (0, NaiveQueue.Pop); (0, NaiveQueue.Pop)]
           (Some (replicate 32 0)) [0; 0] _ (NaiveQueue.mk 3 3 [9; 8])).
  - reflexivity.
  - vm_compute. split; discriminate.
  - vm_compute. reflexivity.
  - reflexivity.
  - repeat constructor; vm_compute; discriminate.
  - vm_compute. reflexivity.
  - vm_compute. lia.
  - vm_compute. reflexivity.
Defined.

(** ** The registry between calls *)

Lemma registry_restored_step c a s s' :
  registry_restored s -> sys_step c a s = Ok s' -> registry_restored s'.
Proof.
  intros [HH HT] Hstep. destruct a as [p x|p|k|k].
  - apply sys_step_CallPush in Hstep as (t & Hlook & Hpc & ->).
    split; cbn [queue prods cons]; [|done].
    intros i Hi. apply HH. intros t0 Ht0.
    destruct (decide (i = p)) as [->|Hne].
    + simplify_eq. by rewrite Hpc.
    + apply Hi. by rewrite list_lookup_insert_ne.
  - apply sys_step_StepPush in Hstep as (t & q' & pc' & ev & Hlook & Hstep & ->).
    pose proof (push_step_frame _ _ _ _ _ _ _ Hstep) as [Hfrt Hfrh].
    split; cbn [queue prods cons].
    + intros i Hi. destruct (decide (i = p)) as [->|Hne].
      * specialize (Hi _ (list_lookup_insert_eq _ _ _ (lookup_lt_Some _ _ _ Hlook))).
        rewrite pc_advance in Hi.
        destruct (pc t) eqn:Hpc; step_inv Hstep; try done; q_simpl; reg_simpl;
          repeat case_decide; try done.
        apply HH. intros t0 Ht0. simplify_eq. by rewrite Hpc.
      * rewrite Hfrh by done. apply HH. intros t0 Ht0. apply Hi.
        by rewrite list_lookup_insert_ne.
    + intros i Hi. rewrite Hfrt. by apply HT.
  - apply sys_step_CallPop in Hstep as (t & Hlook & Hpc & ->).
    split; cbn [queue prods cons]; [done|].
    intros i Hi. apply HT. intros t0 Ht0.
    destruct (decide (i = k)) as [->|Hne].
    + simplify_eq. by rewrite Hpc.
    + apply Hi. by rewrite list_lookup_insert_ne.
  - apply sys_step_StepPop in Hstep as (t & q' & pc' & ev & Hlook & Hstep & ->).
    pose proof (pop_step_frame _ _ _ _ _ _ _ Hstep) as [Hfrh Hfrt].
    split; cbn [queue prods cons].
    + intros i Hi. rewrite Hfrh. by apply HH.
    + intros i Hi. destruct (decide (i = k)) as [->|Hne].
      * specialize (Hi _ (list_lookup_insert_eq _ _ _ (lookup_lt_Some _ _ _ Hlook))).
        rewrite pc_advance in Hi.
        destruct (pc t) eqn:Hpc; step_inv Hstep; try done; q_simpl; reg_simpl;
          repeat case_decide; try done.
        apply HT. intros t0 Ht0. simplify_eq. by rewrite Hpc.
      * rewrite Hfrt by done. apply HT. intros t0 Ht0. apply Hi.
        by rewrite list_lookup_insert_ne.
Qed.

Lemma registry_restored_run c sched : forall s s',
  registry_restored s -> run c sched s = Ok s' -> registry_restored s'.
Proof.
  induction sched as [|a sched IH]; intros s s' HR Hrun.
  - cbn in Hrun. by simplify_eq.
  - cbn [run] in Hrun. destruct (sys_step c a s) as [s1| | | |] eqn:Hs; try done.
    cbn [obind] in Hrun. eapply IH; [|done]. by eapply registry_restored_step.
Qed.

Lemma registry_restored_reaches c sched s :
  reaches c sched s -> registry_restored s.
Proof.
  intros (b1 & b2 & q0 & Hnew & Hlen & Hrun).
  eapply registry_restored_run; [|done].
  apply LockFreeQueue_new_Ok in Hnew as (bytes & arr & _ & _ & ->).
  split; intros i _; cbn; unfold reg_head, reg_tail;
    destruct (replicate _ _ !! i) as [e|] eqn:He; try done;
    by apply lookup_replicate in He as [-> _].
Qed.

(** X9. Between calls the registry is as the constructor left it: the
    [head] field of a producer's entry is [ULONG_MAX] unless the producer
    is inside a [push] and has passed the store of line 195, and the
    [tail] field of a consumer's entry is [ULONG_MAX] unless the consumer
    is inside a [pop] and has passed the store of line 229. *)
Theorem registry_restored_between_calls c sched s :
  reaches c sched s ->
  (forall p t, prods s !! p = Some t -> before_publish_p (pc t) = true ->
     reg_head (thr_p_ (queue s)) p = ULONG_MAX) /\
  (forall k t, cons s !! k = Some t -> before_publish_c (pc t) = true ->
     reg_tail (thr_p_ (queue s)) k = ULONG_MAX).
Proof.
  intros Hreach. destruct (registry_restored_reaches c sched s Hreach) as [HH HT].
  split.
  - intros p t Hp Hpc. apply HH. intros t0 Ht0. by simplify_eq.
  - intros k t Hk Hpc. apply HT. intros t0 Ht0. by simplify_eq.
Qed.

Lemma registry_restored_between_calls_witness :
  exists s,
    reaches (mkParams 1 1 2) sched_slot_reuse s /\
    reg_head (thr_p_ (queue s)) 0 = ULONG_MAX.
Proof.
  eexists. split; [reach_by_run|].
  eapply (proj1 (registry_restored_between_calls (mkParams 1 1 2) sched_slot_reuse _
                   ltac:(reach_by_run))).
  - vm_compute. reflexivity.
  - vm_compute. reflexivity.
Defined.




(** ** Calls and their tickets *)

Lemma omap_concat_nil {A B C} (f : B -> option C) (g : A -> list B) (l : list A) :
  (forall x, omap f (g x) = []) -> omap f (concat (map g l)) = [].
Proof.
  intros Hg. induction l as [|a l IH]; [done|]. cbn. by rewrite omap_app, Hg, IH.
Qed.

Lemma omap_imap_nil {A B C} (f : B -> option C) (g : nat -> A -> B) (l : list A) :
  (forall i x, f (g i x) = None) -> omap f (imap g l) = [].
Proof.
  revert g. induction l as [|a l IH]; intros g Hg; [done|].
  cbn. rewrite Hg. apply IH. intros i x. apply Hg.
Qed.

Lemma spec_push_loop_omap tid h0 my_head rounds :
  omap store_of (spec_push_loop tid h0 my_head rounds) = [] /\
  omap faa_head_of (spec_push_loop tid h0 my_head rounds) = [my_head].
Proof.
  unfold spec_push_loop. rewrite !omap_app. cbn.
  rewrite !omap_concat_nil; [done| |].
  - intros r. unfold spec_push_round. rewrite !omap_app. cbn. by rewrite omap_imap_nil.
  - intros r. unfold spec_push_round. rewrite !omap_app. cbn. by rewrite omap_imap_nil.
Qed.

Lemma spec_pop_loop_omap tid t0 my_tail rounds :
  omap load_of (spec_pop_loop tid t0 my_tail rounds) = [] /\
  omap faa_tail_of (spec_pop_loop tid t0 my_tail rounds) = [my_tail].
Proof.
  unfold spec_pop_loop. rewrite !omap_app. cbn.
  rewrite !omap_concat_nil; [done| |].
  - intros r. unfold spec_pop_round. rewrite !omap_app. cbn. by rewrite omap_imap_nil.
  - intros r. unfold spec_pop_round. rewrite !omap_app. cbn. by rewrite omap_imap_nil.
Qed.

(** A completed push has stored its argument under its ticket, and
    nothing else. *)
Lemma spec_push_protocol_store c tid x tr :
  spec_push_protocol c tid x tr ->
  exists h, push_ticket tr = Some h /\ omap store_of tr = [(h, x)].
Proof.
  intros (h0 & h & rounds & lt & _ & _ & ->). exists h.
  destruct (spec_push_loop_omap tid h0 h rounds) as [E1 E2].
  unfold push_ticket. rewrite !omap_app, E1, E2. done.
Qed.

Lemma spec_pop_protocol_load c tid ret tr :
  spec_pop_protocol c tid ret tr ->
  exists t, pop_ticket tr = Some t /\ omap load_of tr = [(t, ret)].
Proof.
  intros (t0 & t & rounds & lh & _ & _ & ->). exists t.
  destruct (spec_pop_loop_omap tid t0 t rounds) as [E1 E2].
  unfold pop_ticket. rewrite !omap_app, E1, E2. done.
Qed.

(** A push in progress has stored something only if it stands in front
    of its release, and then its argument under its ticket. *)
Lemma ppc_trace_store c tid mine pc tr h x :
  ppc_trace c tid mine pc tr -> (h, x) ∈ omap store_of tr ->
  push_ticket tr = Some h /\ x = ppc_arg pc /\ is_PIdle pc = false.
Proof.
  intros Htr Hin. unfold push_ticket.
  destruct pc; cbn [ppc_trace] in Htr;
    repeat match goal with
    | H : exists _, _ |- _ => destruct H as [? H]
    | H : _ /\ _ |- _ => destruct H as [? H]
    end; subst;
    rewrite ?omap_app, ?(proj1 (spec_push_loop_omap _ _ _ _)), ?omap_imap_nil in Hin
      by done;
    cbn in Hin; try (by apply elem_of_nil in Hin).
  apply list_elem_of_singleton in Hin as [= <- <-].
  by rewrite !omap_app, (proj2 (spec_push_loop_omap _ _ _ _)).
Qed.

Lemma elem_of_concat_map {A B} (g : A -> list B) (l : list A) y :
  y ∈ concat (map g l) <-> exists a, a ∈ l /\ y ∈ g a.
Proof.
  induction l as [|a l IH]; cbn.
  - split; [by intros ?%elem_of_nil|]. by intros (a & ?%elem_of_nil & _).
  - rewrite elem_of_app, IH. split.
    + intros [H|(b & Hb & H)]; [exists a; split; [by left|done]|].
      exists b. split; [by right|done].
    + intros (b & [->|Hb]%elem_of_cons & H); [by left|right]. by exists b.
Qed.

Lemma elem_of_stores s h x :
  (h, x) ∈ stores s <->
  exists p t, prods s !! p = Some t /\ (h, x) ∈ omap store_of (events_of t).
Proof.
  unfold stores. rewrite elem_of_concat_map. split.
  - intros (t & (p & Hp)%list_elem_of_lookup & Hin). by exists p, t.
  - intros (p & t & Hp & Hin). exists t. split; [by eapply list_elem_of_lookup_2|done].
Qed.

Lemma elem_of_loads s t v :
  (t, v) ∈ loads s <->
  exists k tk, cons s !! k = Some tk /\ (t, v) ∈ omap load_of (events_of tk).
Proof.
  unfold loads. rewrite elem_of_concat_map. split.
  - intros (tk & (k & Hk)%list_elem_of_lookup & Hin). by exists k, tk.
  - intros (k & tk & Hk & Hin). exists tk. split; [by eapply list_elem_of_lookup_2|done].
Qed.

Lemma omap_concat_elem {A B C} (f : B -> option C) (g : A -> list B) (l : list A) y :
  y ∈ omap f (concat (map g l)) <-> exists a, a ∈ l /\ y ∈ omap f (g a).
Proof.
  induction l as [|a l IH]; cbn.
  - split; [by intros ?%elem_of_nil|]. by intros (a & ?%elem_of_nil & _).
  - rewrite omap_app, elem_of_app, IH. split.
    + intros [H|(b & Hb & H)]; [exists a; split; [by left|done]|].
      exists b. split; [by right|done].
    + intros (b & [->|Hb]%elem_of_cons & H); [by left|right]. by exists b.
Qed.

(** A completed pop has loaded what it returned, under its ticket. *)
Lemma completed_pop_load c s k tc ret tr :
  traces_inv c s ->
  cons s !! k = Some tc -> (ret, tr) ∈ hist tc ->
  exists t, pop_ticket tr = Some t /\ omap load_of tr = [(t, ret)] /\ (t, ret) ∈ loads s.
Proof.
  intros [HPc HPh HCc HCh] Hk Hj.
  pose proof (proj1 (Forall_forall _ _) (HCh k tc Hk) _ Hj) as Hproto. cbn in Hproto.
  destruct (spec_pop_protocol_load _ _ _ _ Hproto) as (t & Htk & Hload).
  exists t. split; [done|]. split; [done|].
  apply elem_of_loads. exists k, tc. split; [done|].
  unfold events_of. rewrite omap_app. apply elem_of_app. left.
  apply omap_concat_elem. exists (ret, tr). split; [done|].
  cbn. rewrite Hload. by apply list_elem_of_singleton.
Qed.

(** A store under ticket [t] was made by the push that drew [t], and is
    the argument of that push. *)
Lemma store_push_call c s t x :
  traces_inv c s ->
  (t, x) ∈ stores s ->
  exists p tp tr, prods s !! p = Some tp /\ (x, tr) ∈ push_calls tp /\
    push_ticket tr = Some t.
Proof.
  intros [HPc HPh HCc HCh] Hin.
  apply elem_of_stores in Hin as (p & tp & Hp & Hin).
  exists p, tp. unfold events_of in Hin. rewrite omap_app in Hin.
  apply elem_of_app in Hin as [Hin|Hin].
  - apply omap_concat_elem in Hin as ([y tr'] & Hh & Hin). cbn in Hin.
    pose proof (proj1 (Forall_forall _ _) (HPh p tp Hp) _ Hh) as Hpp. cbn in Hpp.
    destruct (spec_push_protocol_store _ _ _ _ Hpp) as (h & Hpt & Hst).
    rewrite Hst in Hin. apply list_elem_of_singleton in Hin as [= <- <-].
    exists tr'. split_and!; [done| |done].
    unfold push_calls. apply elem_of_app. by left.
  - destruct (ppc_trace_store _ _ _ _ _ _ _ (HPc p tp Hp) Hin) as (Hpt & -> & Hidle).
    exists (cur tp). split_and!; [done| |done].
    unfold push_calls. rewrite Hidle. apply elem_of_app. right.
    by apply list_elem_of_singleton.
Qed.

(** X6. First in, first out by ticket, call by call: every [pop] that
    has returned has drawn a ticket, and returned the argument of the
    [push] that drew the same ticket. *)
Theorem pop_returns_push_of_same_ticket c sched s k tc j ret tr :
  is_pow2 (Q_SIZE c) = true ->
  horizon c (Z.of_nat (length sched)) ->
  reaches c sched s ->
  cons s !! k = Some tc ->
  hist tc !! j = Some (ret, tr) ->
  exists t p tp tr',
    pop_ticket tr = Some t /\
    prods s !! p = Some tp /\
    (ret, tr') ∈ push_calls tp /\
    push_ticket tr' = Some t.
Proof.
  intros Hpow Hhor Hreach Hk Hj.
  pose proof (traces_reaches c sched s Hhor Hreach) as Htr.
  pose proof (ring_inv_reaches c sched s Hpow Hhor Hreach) as HI.
  destruct (completed_pop_load c s k tc ret tr Htr Hk) as (t & Htk & _ & Hin).
  { by eapply list_elem_of_lookup_2. }
  apply (ri_sub _ _ HI) in Hin.
  destruct (store_push_call c s t ret Htr Hin) as (p & tp & tr' & Hp & Hcall & Hpt).
  by exists t, p, tp, tr'.
Qed.

Lemma pop_returns_push_of_same_ticket_witness :
  exists s tc tr t p tp tr',
    reaches (mkParams 1 1 2) sched_slot_reuse s /\
    cons s !! 0%nat = Some tc /\
    hist tc !! 2%nat = Some (9, tr) /\
    pop_ticket tr = Some t /\
    prods s !! p = Some tp /\
    (9, tr') ∈ push_calls tp /\
    push_ticket tr' = Some t.
Proof.
  assert (Hreach : exists s, reaches (mkParams 1 1 2) sched_slot_reuse s /\
            exists tc tr, cons s !! 0%nat = Some tc /\ hist tc !! 2%nat = Some (9, tr)).
  { eexists. split; [reach_by_run|]. eexists _, _. split; vm_compute; reflexivity. }
  destruct Hreach as (s & Hreach & tc & tr & Hk & Hj).
  destruct (pop_returns_push_of_same_ticket (mkParams 1 1 2) sched_slot_reuse s 0%nat tc
              2%nat 9 tr eq_refl ltac:(horizon_by_run) Hreach Hk Hj)
    as (t & p & tp & tr' & H1 & H2 & H3 & H4).
  by exists s, tc, tr, t, p, tp, tr'.
Defined.

(** ** No pointer is returned twice *)

Lemma NoDup_concat_index {A B} (f : A -> list B) (l : list A) i j a b x :
  NoDup (concat (map f l)) ->
  l !! i = Some a -> l !! j = Some b -> x ∈ f a -> x ∈ f b -> i = j.
Proof.
  revert i j. induction l as [|c l IH]; intros i j Hnd Hi Hj Ha Hb; [done|].
  cbn in Hnd. apply NoDup_app in Hnd as (Hc & Hdisj & Hrest).
  assert (Hin : forall n y, l !! n = Some y -> x ∈ f y -> x ∈ concat (map f l)).
  { intros n y Hn Hy. apply elem_of_concat_map. exists y.
    split; [by eapply list_elem_of_lookup_2|done]. }
  destruct i as [|i], j as [|j]; cbn in *; simplify_eq; try done.
  - exfalso. by eapply Hdisj, Hin.
  - exfalso. by eapply Hdisj, Hin.
  - f_equal. by eapply IH.
Qed.

Lemma NoDup_concat_part {A B} (f : A -> list B) (l : list A) i a :
  NoDup (concat (map f l)) -> l !! i = Some a -> NoDup (f a).
Proof.
  revert i. induction l as [|c l IH]; intros i Hnd Hi; [done|].
  cbn in Hnd. apply NoDup_app in Hnd as (Hc & _ & Hrest).
  destruct i as [|i]; cbn in Hi; simplify_eq; [done|]. by eapply IH.
Qed.

Lemma NoDup_fst_functional {A B} (l : list (A * B)) x a b :
  NoDup l.*1 -> (x, a) ∈ l -> (x, b) ∈ l -> a = b.
Proof.
  induction l as [|[y c] l IH]; intros Hnd Ha Hb; [by apply elem_of_nil in Ha|].
  rewrite fmap_cons in Hnd. apply NoDup_cons in Hnd as [Hy Hnd]. cbn in Hy.
  apply elem_of_cons in Ha as [[= -> ->]|Ha], Hb as [[= <-]|Hb]; try done.
  - exfalso. apply Hy. apply list_elem_of_fmap. by exists (y, b).
  - simplify_eq. exfalso. apply Hy. apply list_elem_of_fmap. by exists (x, a).
  - by apply IH.
Qed.

Lemma NoDup_snd {A B} (l : list (A * B)) :
  NoDup l.*1 ->
  (forall t1 t2 v, (t1, v) ∈ l -> (t2, v) ∈ l -> t1 = t2) ->
  NoDup l.*2.
Proof.
  induction l as [|[t v] l IH]; intros Hnd Hinj; [constructor|].
  rewrite fmap_cons in *. apply NoDup_cons in Hnd as [Ht Hnd]. cbn in *.
  apply NoDup_cons. split.
  - intros ([t' v'] & Hv & Hin)%list_elem_of_fmap. cbn in Hv. subst v'.
    apply Ht. assert (t = t') as ->.
    { apply (Hinj t t' v); [by left|by right]. }
    apply list_elem_of_fmap. by exists (t', v).
  - apply IH; [done|]. intros t1 t2 w H1 H2. apply (Hinj t1 t2 w); by right.
Qed.

(** The loads recorded in the completed calls of a thread carry, in
    order, the values the calls returned. *)
Lemma hist_loads c tid (h : list (Z * list event)) :
  Forall (fun e => spec_pop_protocol c tid e.1 e.2) h ->
  (omap load_of (concat (map snd h))).*2 = map fst h.
Proof.
  induction h as [|[ret tr] h IH]; intros Hall; [done|].
  apply Forall_cons in Hall as [Hp Hall]. cbn in *.
  destruct (spec_pop_protocol_load _ _ _ _ Hp) as (t & _ & Hl).
  rewrite omap_app, fmap_app, Hl, IH by done. done.
Qed.

Lemma pushed_push_calls (t : thread ppc) : pushed t = (push_calls t).*1.
Proof.
  unfold pushed, push_calls. rewrite fmap_app. f_equal. by destruct (is_PIdle (pc t)).
Qed.

Lemma elem_of_all_pushed s v :
  v ∈ all_pushed s <-> exists p tp, prods s !! p = Some tp /\ v ∈ pushed tp.
Proof.
  unfold all_pushed. rewrite elem_of_concat_map. split.
  - intros (t & (p & Hp)%list_elem_of_lookup & Hin). by exists p, t.
  - intros (p & t & Hp & Hin). exists t. split; [by eapply list_elem_of_lookup_2|done].
Qed.

Lemma elem_of_all_popped s v :
  v ∈ all_popped s <-> exists k tk, cons s !! k = Some tk /\ v ∈ popped tk.
Proof.
  unfold all_popped. rewrite elem_of_concat_map. split.
  - intros (t & (k & Hk)%list_elem_of_lookup & Hin). by exists k, t.
  - intros (k & t & Hk & Hin). exists t. split; [by eapply list_elem_of_lookup_2|done].
Qed.

(** With distinct arguments, a value was stored under one ticket only. *)
Lemma stores_injective c s t1 t2 v :
  traces_inv c s -> NoDup (all_pushed s) ->
  (t1, v) ∈ stores s -> (t2, v) ∈ stores s -> t1 = t2.
Proof.
  intros Htr Hnd H1 H2.
  destruct (store_push_call c s t1 v Htr H1) as (p1 & tp1 & tr1 & Hp1 & Hc1 & Ht1).
  destruct (store_push_call c s t2 v Htr H2) as (p2 & tp2 & tr2 & Hp2 & Hc2 & Ht2).
  assert (Hv1 : v ∈ pushed tp1).
  { rewrite pushed_push_calls. apply list_elem_of_fmap. by exists (v, tr1). }
  assert (Hv2 : v ∈ pushed tp2).
  { rewrite pushed_push_calls. apply list_elem_of_fmap. by exists (v, tr2). }
  assert (p1 = p2) as -> by (by eapply (NoDup_concat_index pushed (prods s))).
  simplify_eq.
  pose proof (NoDup_concat_part pushed (prods s) _ _ Hnd Hp1) as Hnd1.
  rewrite pushed_push_calls in Hnd1.
  assert (tr1 = tr2) as -> by (by eapply NoDup_fst_functional).
  congruence.
Qed.

Lemma concat_map_app_perm {A B} (f g : A -> list B) (l : list A) :
  concat (map (fun a => f a ++ g a) l) ≡ₚ concat (map f l) ++ concat (map g l).
Proof.
  induction l as [|a l IH]; [done|]. cbn. rewrite IH.
  rewrite <- !app_assoc. f_equiv. rewrite !app_assoc. f_equiv.
  apply Permutation_app_comm.
Qed.

Lemma all_popped_loads c s :
  traces_inv c s ->
  exists done rest, loads s ≡ₚ done ++ rest /\ done.*2 = all_popped s.
Proof.
  intros [HPc HPh HCc HCh].
  exists (concat (map (fun t => omap load_of (concat (map snd (hist t)))) (cons s))),
         (concat (map (fun t => omap load_of (cur t)) (cons s))).
  split.
  - rewrite <- concat_map_app_perm. unfold loads, events_of.
    assert (E : map (fun t : thread cpc => omap load_of (concat (map snd (hist t)) ++ cur t))
                  (cons s)
              = map (fun t => omap load_of (concat (map snd (hist t))) ++ omap load_of (cur t))
                  (cons s)).
    { apply map_ext. intros t. apply omap_app. }
    by rewrite E.
  - unfold all_popped, popped.
    assert (Hk : forall l : list (thread cpc),
              (forall t, t ∈ l -> exists tid,
                 Forall (fun e => spec_pop_protocol c tid e.1 e.2) (hist t)) ->
              (concat (map (fun t => omap load_of (concat (map snd (hist t)))) l)).*2
              = concat (map (fun t => map fst (hist t)) l)).
    { induction l as [|t l IH]; intros Hall; [done|]. cbn.
      destruct (Hall t) as (tid & Ht); [by left|].
      rewrite fmap_app, (hist_loads c tid) by done. f_equal.
      apply IH. intros t' Ht'. apply Hall. by right. }
    apply Hk. intros t (k & Hk')%list_elem_of_lookup. exists (Z.of_nat k). by apply HCh.
Qed.

(** Distinct arguments give distinct results, each of them an
    argument, in every state that fits the protocol and the tickets. *)
Lemma popped_distinct c s :
  traces_inv c s -> ring_inv (Q_SIZE c) (tickets_of s) ->
  NoDup (all_pushed s) ->
  NoDup (all_popped s) /\ (forall v, v ∈ all_popped s -> v ∈ all_pushed s).
Proof.
  intros Htr HI Hnd.
  destruct (all_popped_loads c s Htr) as (done & rest & Hperm & Hdone).
  assert (Hsub : forall tv, tv ∈ done -> tv ∈ stores s).
  { intros tv Hin. apply (ri_sub _ _ HI). cbn. rewrite Hperm. apply elem_of_app. by left. }
  split.
  - rewrite <- Hdone. apply NoDup_snd.
    + pose proof (ri_loaded_nodup _ _ HI) as Hl. cbn in Hl.
      rewrite Hperm, fmap_app in Hl. by apply NoDup_app in Hl as (Hl & _ & _).
    + intros t1 t2 v H1 H2. eapply (stores_injective c s); eauto.
  - intros v Hv. rewrite <- Hdone in Hv.
    apply list_elem_of_fmap in Hv as ([t v'] & -> & Hin). cbn.
    destruct (store_push_call c s t v' Htr (Hsub _ Hin)) as (p & tp & tr & Hp & Hc & _).
    apply elem_of_all_pushed. exists p, tp. split; [done|].
    rewrite pushed_push_calls. apply list_elem_of_fmap. by exists (v', tr).
Qed.

(** X18. Nothing is returned twice and nothing is made up: as long as
    the producers are given pairwise distinct pointers, the values the
    pops have returned are pairwise distinct, and each of them is the
    argument of a push. *)
Theorem pops_distinct_and_pushed c sched s :
  is_pow2 (Q_SIZE c) = true ->
  horizon c (Z.of_nat (length sched)) ->
  reaches c sched s ->
  NoDup (all_pushed s) ->
  NoDup (all_popped s) /\ (forall v, v ∈ all_popped s -> v ∈ all_pushed s).
Proof.
  intros Hpow Hhor Hreach Hnd.
  apply (popped_distinct c s); [| |done].
  - exact (traces_reaches c sched s Hhor Hreach).
  - exact (ring_inv_reaches c sched s Hpow Hhor Hreach).
Qed.

Lemma pops_distinct_and_pushed_witness :
  exists s,
    reaches (mkParams 1 1 2) sched_slot_reuse s /\
    all_pushed s = [7; 8; 9] /\ all_popped s = [7; 8; 9] /\
    NoDup (all_popped s).
Proof.
  eexists. split; [reach_by_run|]. split; [vm_compute; reflexivity|].
  split; [vm_compute; reflexivity|].
  apply (pops_distinct_and_pushed (mkParams 1 1 2) sched_slot_reuse).
  - reflexivity.
  - horizon_by_run.
  - reach_by_run.
  - vm_compute. repeat (apply NoDup_cons; split;
      [intros Hin%list_elem_of_In; cbn in Hin; intuition discriminate|]).
    apply NoDup_nil_2.
Defined.

(** ** What a call leaves alone *)

(** X17. A step of [push] by thread [p] writes nothing but [head_],
    [last_tail_], the [head] field of the caller's registry entry and the
    caller's slot: it leaves [tail_], [last_head_], every [tail] field of
    the registry, the [head] fields of the other entries and the other
    slots as they were. A step of [pop] by thread [k] writes nothing but
    [tail_], [last_head_] and the [tail] field of the caller's entry: the
    slot array is left as it was, the slot just read included. *)
Theorem steps_write_their_own c tid q :
  (forall pc q' pc' ev,
     push_step c (Z.of_nat tid) q pc = Ok (q', pc', ev) ->
     tail_ q' = tail_ q /\ last_head_ q' = last_head_ q /\
     (forall i, reg_tail (thr_p_ q') i = reg_tail (thr_p_ q) i) /\
     (forall i, i <> tid -> reg_head (thr_p_ q') i = reg_head (thr_p_ q) i) /\
     (forall j, j <> slot_of c (reg_head (thr_p_ q) tid) ->
        ptr_array_ q' !! j = ptr_array_ q !! j)) /\
  (forall pc q' pc' ev,
     pop_step c (Z.of_nat tid) q pc = Ok (q', pc', ev) ->
     head_ q' = head_ q /\ last_tail_ q' = last_tail_ q /\
     (forall i, reg_head (thr_p_ q') i = reg_head (thr_p_ q) i) /\
     (forall i, i <> tid -> reg_tail (thr_p_ q') i = reg_tail (thr_p_ q) i) /\
     ptr_array_ q' = ptr_array_ q).
Proof.
  split.
  - intros pc q' pc' ev Hstep.
    pose proof (push_step_frame _ _ _ _ _ _ _ Hstep) as [Hfrt Hfrh].
    split_and!; try done.
    all: destruct pc; step_inv Hstep; q_simpl; try done.
    intros j Hj. reg_simpl. unfold slot_of in Hj. by rewrite list_lookup_insert_ne.
  - intros pc q' pc' ev Hstep.
    pose proof (pop_step_frame _ _ _ _ _ _ _ Hstep) as [Hfrh Hfrt].
    split_and!; try done.
    all: destruct pc; by step_inv Hstep.
Qed.

(** ** Each step does what its event says *)

Lemma push_step_event c tid q pc q' pc' ev :
  push_step c tid q pc = Ok (q', pc', ev) -> spec_event_done c tid ev q q'.
Proof.
  intros H. destruct pc; cbn [push_step] in H;
    unfold store_thr_head, load_thr in H;
    repeat match type of H with
    | context [thr_pos ?c ?p ?q] =>
        let E := fresh "Hpos" in
        destruct (thr_pos c p q) eqn:E; cbn [obind] in H; [apply thr_pos_inv in E|discriminate..]
    | context [if ?b then _ else _] => destruct b eqn:?
    | context [match ?x with _ => _ end] => destruct x eqn:?; cbn [obind] in H
    end; simplify_eq; cbn [spec_event_done]; eauto 8.
  - split_and!; eauto. by eapply lookup_lt_Some.
Qed.

Lemma pop_step_event c tid q pc q' pc' ev :
  pop_step c tid q pc = Ok (q', pc', ev) -> spec_event_done c tid ev q q'.
Proof.
  intros H. destruct pc; cbn [pop_step] in H;
    unfold store_thr_tail, load_thr in H;
    repeat match type of H with
    | context [thr_pos ?c ?p ?q] =>
        let E := fresh "Hpos" in
        destruct (thr_pos c p q) eqn:E; cbn [obind] in H; [apply thr_pos_inv in E|discriminate..]
    | context [if ?b then _ else _] => destruct b eqn:?
    | context [match ?x with _ => _ end] => destruct x eqn:?; cbn [obind] in H
    end; simplify_eq; cbn [spec_event_done]; eauto 8.
Qed.

Lemma push_step_recorded c p s1 t1 s2 :
  prods s1 !! p = Some t1 -> sys_step c (StepPush p) s1 = Ok s2 ->
  exists t2 ev, prods s2 !! p = Some t2 /\ events_of t2 = events_of t1 ++ [ev] /\
    spec_event_done c (Z.of_nat p) ev (queue s1) (queue s2).
Proof.
  intros Hp Hstep.
  apply sys_step_StepPush in Hstep as (t & q' & pc' & ev & Hl & Hps & ->).
  rewrite Hp in Hl. injection Hl as <-.
  exists (advance is_PIdle (ppc_arg (pc t1)) t1 pc' ev), ev. cbn [prods queue].
  split_and!.
  - apply list_lookup_insert_eq. by eapply lookup_lt_Some.
  - apply events_of_advance.
  - by eapply push_step_event.
Qed.

Lemma pop_step_recorded c k s1 t1 s2 :
  cons s1 !! k = Some t1 -> sys_step c (StepPop k) s1 = Ok s2 ->
  exists t2 ev, cons s2 !! k = Some t2 /\ events_of t2 = events_of t1 ++ [ev] /\
    spec_event_done c (Z.of_nat k) ev (queue s1) (queue s2).
Proof.
  intros Hk Hstep.
  apply sys_step_StepPop in Hstep as (t & q' & pc' & ev & Hl & Hps & ->).
  rewrite Hk in Hl. injection Hl as <-.
  exists (advance is_CIdle (cpc_ret (pc t1)) t1 pc' ev), ev. cbn [cons queue].
  split_and!.
  - apply list_lookup_insert_eq. by eapply lookup_lt_Some.
  - apply events_of_advance.
  - by eapply pop_step_event.
Qed.

(** C2. Every completed [push(x)] of every producer, in every
    interleaving, consists of these steps in this order: read [head_]
    and store it in the caller's registry entry; a full fence;
    fetch-and-add 1 to [head_] and store the value it returned,
    [my_head], in the entry; then, as long as the test finds
    [my_head >= last_tail_ + Q_SIZE], yield, read [tail_], read the
    registry tail of each of the consumers 0 .. M-1 and store the minimum
    of all these values in [last_tail_]; after the test that fails, store
    [x] in [ptr_array_[my_head & (Q_SIZE - 1)]]; and set the entry back
    to [ULONG_MAX].  Each step does to the queue what its event says and
    nothing else.  Afterwards [x] is in its slot until the pop that
    holds [my_head] has read it, and the caller's entry is [ULONG_MAX]
    until its next call. *)
Theorem push_follows_protocol c sched s p t j x tr :
  horizon c (Z.of_nat (length sched)) ->
  reaches c sched s ->
  prods s !! p = Some t ->
  hist t !! j = Some (x, tr) ->
  spec_push_protocol c (Z.of_nat p) x tr /\
  (forall s1 t1 s2,
     prods s1 !! p = Some t1 -> sys_step c (StepPush p) s1 = Ok s2 ->
     exists t2 ev, prods s2 !! p = Some t2 /\ events_of t2 = events_of t1 ++ [ev] /\
       spec_event_done c (Z.of_nat p) ev (queue s1) (queue s2)) /\
  (exists my_head, push_ticket tr = Some my_head /\ (my_head, x) ∈ stores s /\
     (is_pow2 (Q_SIZE c) = true -> my_head ∉ (loads s).*1 ->
      ptr_array_ (queue s) !! slot_of c my_head = Some x)) /\
  (is_PIdle (pc t) = true -> reg_head (thr_p_ (queue s)) p = ULONG_MAX).
Proof.
  intros Hhor Hreach Hp Hj.
  pose proof (tr_prod_hist _ _ (traces_reaches c sched s Hhor Hreach) p t Hp) as Hall.
  pose proof (Forall_lookup_1 _ _ _ _ Hall Hj) as Hproto. cbn in Hproto.
  split; [done|]. split; [intros s1 t1 s2; apply push_step_recorded|]. split.
  - destruct (spec_push_protocol_store _ _ _ _ Hproto) as (h & Hh & Hst).
    assert (Hin : (h, x) ∈ stores s).
    { apply elem_of_stores. exists p, t. split; [done|].
      unfold events_of. rewrite omap_app. apply elem_of_app. left.
      apply omap_concat_elem. exists (x, tr).
      split; [by eapply list_elem_of_lookup_2|]. cbn. rewrite Hst. by left. }
    exists h. split_and!; [done..|]. intros Hpow Hun.
    pose proof (ring_inv_reaches c sched s Hpow Hhor Hreach) as HR.
    destruct (ri_stored_range _ _ HR h x Hin) as [[Hh0 _] _].
    rewrite slot_of_mod; [|done|unfold horizon in Hhor; lia|done].
    by apply (ri_slots _ _ HR).
  - intros Hidle. destruct (registry_restored_reaches c sched s Hreach) as [HH _].
    apply HH. intros t0 Ht0. rewrite Hp in Ht0. injection Ht0 as <-.
    by destruct (pc t).
Qed.

Lemma push_follows_protocol_witness :
  exists s t e,
    reaches (mkParams 1 1 2) (push_call 0 7 ++ push_call 0 8 ++ pop_call_wait 0 1) s /\
    prods s !! 0%nat = Some t /\
    hist t !! 1%nat = Some e /\
    e.1 = 8 /\
    spec_push_protocol (mkParams 1 1 2) 0 e.1 e.2 /\
    ptr_array_ (queue s) !! 1%nat = Some 8 /\
    reg_head (thr_p_ (queue s)) 0 = ULONG_MAX.
Proof.
  eexists _, _, (_, _). split; [reach_by_run|].
  split; [vm_compute; reflexivity|]. split; [vm_compute; reflexivity|].
  split; [vm_compute; reflexivity|].
  eassert (H : _ /\ _ /\ _ /\ _).
  { eapply (push_follows_protocol (mkParams 1 1 2)
              (push_call 0 7 ++ push_call 0 8 ++ pop_call_wait 0 1) _ 0%nat _ 1%nat).
    - horizon_by_run.
    - reach_by_run.
    - vm_compute; reflexivity.
    - vm_compute; reflexivity. }
  destruct H as (HA & _ & (h & Hh & _ & Hslot) & HC).
  split; [exact HA|]. split; [|apply HC; reflexivity].
  vm_compute in Hh. injection Hh as <-.
  apply Hslot; [reflexivity|].
  vm_compute. intros Hin%list_elem_of_In. cbn in Hin. intuition discriminate.
Defined.

(** C3. Every completed [pop()] of every consumer, in every
    interleaving, consists of these steps in this order: read [tail_] and
    store it in the caller's registry entry; a full fence; fetch-and-add
    1 to [tail_] and store the value it returned, [my_tail], in the
    entry; then, as long as the test finds [my_tail >= last_head_],
    yield, read [head_], read the registry head of each of the producers
    0 .. N-1 and store the minimum of all these values in [last_head_];
    after the test that fails, read [ptr_array_[my_tail & (Q_SIZE - 1)]];
    set the entry back to [ULONG_MAX]; the value read is the one
    returned.  Each step does to the queue what its event says and
    nothing else: the value of the read is what the slot holds.
    Afterwards the caller's entry is [ULONG_MAX] until its next call,
    and the value returned is the one the push that held [my_tail] had
    stored. *)
Theorem pop_follows_protocol c sched s k t j ret tr :
  horizon c (Z.of_nat (length sched)) ->
  reaches c sched s ->
  cons s !! k = Some t ->
  hist t !! j = Some (ret, tr) ->
  spec_pop_protocol c (Z.of_nat k) ret tr /\
  (forall s1 t1 s2,
     cons s1 !! k = Some t1 -> sys_step c (StepPop k) s1 = Ok s2 ->
     exists t2 ev, cons s2 !! k = Some t2 /\ events_of t2 = events_of t1 ++ [ev] /\
       spec_event_done c (Z.of_nat k) ev (queue s1) (queue s2)) /\
  (exists my_tail, pop_ticket tr = Some my_tail /\ (my_tail, ret) ∈ loads s /\
     (is_pow2 (Q_SIZE c) = true -> (my_tail, ret) ∈ stores s)) /\
  (is_CIdle (pc t) = true -> reg_tail (thr_p_ (queue s)) k = ULONG_MAX).
Proof.
  intros Hhor Hreach Hk Hj.
  pose proof (traces_reaches c sched s Hhor Hreach) as Htr.
  pose proof (tr_cons_hist _ _ Htr k t Hk) as Hall.
  pose proof (Forall_lookup_1 _ _ _ _ Hall Hj) as Hproto. cbn in Hproto.
  split; [done|]. split; [intros s1 t1 s2; apply pop_step_recorded|]. split.
  - destruct (completed_pop_load c s k t ret tr Htr Hk) as (my & Hmy & _ & Hin).
    { by eapply list_elem_of_lookup_2. }
    exists my. split_and!; [done..|]. intros Hpow.
    by apply (ri_sub _ _ (ring_inv_reaches c sched s Hpow Hhor Hreach)).
  - intros Hidle. destruct (registry_restored_reaches c sched s Hreach) as [_ HT].
    apply HT. intros t0 Ht0. rewrite Hk in Ht0. injection Ht0 as <-.
    by destruct (pc t).
Qed.

Lemma pop_follows_protocol_witness :
  exists s t e,
    reaches (mkParams 1 1 2) (push_call 0 7 ++ push_call 0 8 ++ pop_call_wait 0 1) s /\
    cons s !! 0%nat = Some t /\
    hist t !! 0%nat = Some e /\
    e.1 = 7 /\
    spec_pop_protocol (mkParams 1 1 2) 0 e.1 e.2 /\
    (0, 7) ∈ stores s /\
    reg_tail (thr_p_ (queue s)) 0 = ULONG_MAX.
Proof.
  eexists _, _, (_, _). split; [reach_by_run|].
  split; [vm_compute; reflexivity|]. split; [vm_compute; reflexivity|].
  split; [vm_compute; reflexivity|].
  eassert (H : _ /\ _ /\ _ /\ _).
  { eapply (pop_follows_protocol (mkParams 1 1 2)
              (push_call 0 7 ++ push_call 0 8 ++ pop_call_wait 0 1) _ 0%nat _ 0%nat).
    - horizon_by_run.
    - reach_by_run.
    - vm_compute; reflexivity.
    - vm_compute; reflexivity. }
  destruct H as (HA & _ & (my & Hmy & _ & Hst) & HC).
  split; [exact HA|]. split; [|apply HC; reflexivity].
  vm_compute in Hmy. injection Hmy as <-. apply Hst. reflexivity.
Defined.

(** ** The serialized queue lets its calls through *)

(** C5. [NaiveQueue::push(x)] goes past its wait only when
    [head_ - tail_] is not [Q_SIZE], and waits when it is; it then stores
    [x] at [ptr_array_[head_ & Q_MASK]] and adds 1 to [head_].
    [NaiveQueue::pop()] goes past its wait only when [head_] is not
    [tail_], and waits when it is; it then returns
    [ptr_array_[tail_ & Q_MASK]] and adds 1 to [tail_].  And the calls
    do go through: in a state the queue's own calls can have left,
    [tail_ <= head_ <= tail_ + Q_SIZE] short of the wrap-around, a push
    on a queue that is not full returns, with [x] stored and [head_]
    one more, and a pop on a queue that is not empty returns what its
    slot holds, with [tail_] one more; with a capacity that is a power
    of two the slot is inside the array. *)
Theorem NaiveQueue_push_pop_guarded Q x q :
  0 <= NaiveQueue.head_ q <= ULONG_MAX ->
  0 <= NaiveQueue.tail_ q <= ULONG_MAX ->
  (forall q', NaiveQueue.push Q x q = Some q' ->
     NaiveQueue.head_ q - NaiveQueue.tail_ q <> Q /\
     q' = NaiveQueue.mk (NaiveQueue.head_ q + 1) (NaiveQueue.tail_ q)
            (<[Z.to_nat (band (NaiveQueue.head_ q) (NaiveQueue.Q_MASK Q)) := x]>
               (NaiveQueue.ptr_array_ q))) /\
  (NaiveQueue.head_ q - NaiveQueue.tail_ q = Q -> NaiveQueue.push Q x q = None) /\
  (forall v q', NaiveQueue.pop Q q = Some (v, q') ->
     NaiveQueue.head_ q <> NaiveQueue.tail_ q /\
     NaiveQueue.ptr_array_ q !! Z.to_nat (band (NaiveQueue.tail_ q) (NaiveQueue.Q_MASK Q)) = Some v /\
     q' = NaiveQueue.mk (NaiveQueue.head_ q) (NaiveQueue.tail_ q + 1) (NaiveQueue.ptr_array_ q)) /\
  (NaiveQueue.head_ q = NaiveQueue.tail_ q -> NaiveQueue.pop Q q = None) /\
  (NaiveQueue.tail_ q <= NaiveQueue.head_ q <= NaiveQueue.tail_ q + Q ->
   NaiveQueue.tail_ q + Q <= ULONG_MAX ->
   NaiveQueue.head_ q - NaiveQueue.tail_ q <> Q ->
   NaiveQueue.push Q x q
   = Some (NaiveQueue.mk (NaiveQueue.head_ q + 1) (NaiveQueue.tail_ q)
             (<[Z.to_nat (band (NaiveQueue.head_ q) (NaiveQueue.Q_MASK Q)) := x]>
                (NaiveQueue.ptr_array_ q)))) /\
  (NaiveQueue.tail_ q <= NaiveQueue.head_ q ->
   NaiveQueue.head_ q <> NaiveQueue.tail_ q ->
   forall v,
     NaiveQueue.ptr_array_ q !! Z.to_nat (band (NaiveQueue.tail_ q) (NaiveQueue.Q_MASK Q))
     = Some v ->
     NaiveQueue.pop Q q
     = Some (v, NaiveQueue.mk (NaiveQueue.head_ q) (NaiveQueue.tail_ q + 1)
                  (NaiveQueue.ptr_array_ q))) /\
  (NaiveQueue.tail_ q <= NaiveQueue.head_ q ->
   NaiveQueue.head_ q <> NaiveQueue.tail_ q ->
   is_pow2 Q = true -> Q <= ULONG_MAX ->
   length (NaiveQueue.ptr_array_ q) = Z.to_nat Q ->
   exists v,
     NaiveQueue.ptr_array_ q !! Z.to_nat (band (NaiveQueue.tail_ q) (NaiveQueue.Q_MASK Q))
     = Some v /\
     NaiveQueue.pop Q q
     = Some (v, NaiveQueue.mk (NaiveQueue.head_ q) (NaiveQueue.tail_ q + 1)
                  (NaiveQueue.ptr_array_ q))).
Proof.
  intros Hh Ht.
  assert (Hfull : NaiveQueue.head_ q - NaiveQueue.tail_ q = Q ->
                  wrap (NaiveQueue.tail_ q + Q) = NaiveQueue.head_ q).
  { intros HQ. rewrite wrap_small; lia. }
  assert (Hpop : NaiveQueue.tail_ q <= NaiveQueue.head_ q ->
            NaiveQueue.head_ q <> NaiveQueue.tail_ q ->
            forall v,
              NaiveQueue.ptr_array_ q
                !! Z.to_nat (band (NaiveQueue.tail_ q) (NaiveQueue.Q_MASK Q)) = Some v ->
              NaiveQueue.pop Q q
              = Some (v, NaiveQueue.mk (NaiveQueue.head_ q) (NaiveQueue.tail_ q + 1)
                           (NaiveQueue.ptr_array_ q))).
  { intros Hle Hne v Hv. unfold NaiveQueue.pop, NaiveQueue.not_empty.
    destruct (Z.ltb_spec (NaiveQueue.tail_ q) (NaiveQueue.head_ q)); [|lia].
    rewrite Hv, wrap_small by lia. done. }
  split_and!.
  - intros q' Hp. apply NaiveQueue_push_Some in Hp as [Hlt ->]; [|lia].
    split; [|done]. intros HQ. apply Hfull in HQ. lia.
  - intros HQ. unfold NaiveQueue.push, NaiveQueue.not_full.
    rewrite (Hfull HQ), Z.ltb_irrefl. done.
  - intros v q' Hp. apply NaiveQueue_pop_Some in Hp as (Hlt & Hv & ->); [|lia..].
    split_and!; [lia|done..].
  - intros Heq. unfold NaiveQueue.pop, NaiveQueue.not_empty.
    rewrite Heq, Z.ltb_irrefl. done.
  - intros Hinv Hw Hne. unfold NaiveQueue.push, NaiveQueue.not_full.
    rewrite wrap_small by lia.
    destruct (Z.ltb_spec (NaiveQueue.head_ q) (NaiveQueue.tail_ q + Q)); [|lia].
    by rewrite wrap_small by lia.
  - exact Hpop.
  - intros Hle Hne Hpow HQm Hlen. destruct (is_pow2_spec Q Hpow) as [HQ _].
    destruct (lookup_lt_is_Some_2 (NaiveQueue.ptr_array_ q)
                (Z.to_nat (band (NaiveQueue.tail_ q) (NaiveQueue.Q_MASK Q)))) as [v Hv].
    { rewrite Hlen, naive_mask by lia.
      pose proof (band_le (NaiveQueue.tail_ q) (Q - 1)). lia. }
    exists v. split; [done|]. by apply Hpop.
Qed.

Lemma NaiveQueue_push_pop_guarded_witness :
  NaiveQueue.push 2 7 (NaiveQueue.mk 1 0 [5; 0])
  = Some (NaiveQueue.mk 2 0 [5; 7]) /\
  NaiveQueue.pop 2 (NaiveQueue.mk 1 0 [5; 0])
  = Some (5, NaiveQueue.mk 1 1 [5; 0]) /\
  NaiveQueue.push 2 8 (NaiveQueue.mk 2 0 [5; 7]) = None /\
  NaiveQueue.pop 2 (NaiveQueue.mk 2 2 [5; 7]) = None.
Proof.
  pose proof (NaiveQueue_push_pop_guarded 2 7 (NaiveQueue.mk 1 0 [5; 0])
                ltac:(vm_compute; split; discriminate)
                ltac:(vm_compute; split; discriminate))
    as (_ & _ & _ & _ & H1 & H2 & _).
  pose proof (NaiveQueue_push_pop_guarded 2 8 (NaiveQueue.mk 2 0 [5; 7])
                ltac:(vm_compute; split; discriminate)
                ltac:(vm_compute; split; discriminate)) as (_ & H3 & _).
  pose proof (NaiveQueue_push_pop_guarded 2 8 (NaiveQueue.mk 2 2 [5; 7])
                ltac:(vm_compute; split; discriminate)
                ltac:(vm_compute; split; discriminate)) as (_ & _ & _ & H4 & _).
  split_and!.
  - apply H1; vm_compute; try split; discriminate.
  - apply (H2 ltac:(vm_compute; discriminate) ltac:(vm_compute; discriminate) 5). reflexivity.
  - apply H3. reflexivity.
  - apply H4. reflexivity.
Defined.

(** ** The test *)

Lemma reaches_step c sched s a s' :
  reaches c sched s -> sys_step c a s = Ok s' -> reaches c (sched ++ [a]) s'.
Proof.
  intros (b1 & b2 & q0 & Hnew & Hlen & Hrun) Hstep.
  exists b1, b2, q0. split_and!; [done..|].
  rewrite run_app, Hrun. cbn [obind run]. by rewrite Hstep.
Qed.

(** A thread inside a call has a step to take, and the step succeeds. *)
Lemma push_step_enabled c q tid pc :
  0 <= tid < n_threads c ->
  length (thr_p_ q) = Z.to_nat (n_threads c) ->
  is_PIdle pc = false ->
  push_step c tid q pc <> NoStep.
Proof.
  intros Ht Hl Hidle.
  destruct (thr_pos_Ok c q tid Ht Hl) as (e & He & Hpos).
  assert (Hnc : n_consumers_ c <= n_threads c) by (unfold n_threads; lia).
  destruct pc; cbn [push_step]; unfold store_thr_head;
    rewrite ?Hpos; cbn [obind]; try discriminate.
  - destruct (Z.ltb_spec i (n_consumers_ c)) as [Hi|Hi]; [|discriminate].
    by destruct (load_thr_Ok c q i _ ltac:(lia) Hi Hnc Hl) as (e' & _ & ->).
  - by destruct (ptr_array_ q !! _).
Qed.

Lemma pop_step_enabled c q tid pc :
  0 <= tid < n_threads c ->
  length (thr_p_ q) = Z.to_nat (n_threads c) ->
  is_CIdle pc = false ->
  pop_step c tid q pc <> NoStep.
Proof.
  intros Ht Hl Hidle.
  destruct (thr_pos_Ok c q tid Ht Hl) as (e & He & Hpos).
  assert (Hnp : n_producers_ c <= n_threads c) by (unfold n_threads; lia).
  destruct pc; cbn [pop_step]; unfold store_thr_tail;
    rewrite ?Hpos; cbn [obind]; try discriminate.
  - destruct (Z.ltb_spec i (n_producers_ c)) as [Hi|Hi]; [|discriminate].
    by destruct (load_thr_Ok c q i _ ltac:(lia) Hi Hnp Hl) as (e' & _ & ->).
  - by destruct (ptr_array_ q !! _).
Qed.

Lemma slot_in_bounds c n s v :
  horizon c n -> inv c n s -> 0 <= v ->
  is_Some (ptr_array_ (queue s) !! Z.to_nat (band v (Q_MASK c))).
Proof.
  intros (HQ & Hn & Hhor) HI Hv. unfold ULONG_MAX in Hhor.
  assert (Hmask : Q_MASK c = Q_SIZE c - 1).
  { unfold Q_MASK. apply wrap_small. unfold ULONG_MAX. lia. }
  apply lookup_lt_is_Some_2. rewrite (inv_arr_len _ _ _ HI), Hmask.
  pose proof (band_le v (Q_SIZE c - 1) Hv ltac:(lia)). lia.
Qed.

Lemma step_push_runs c n s p t :
  sizeof_ThrPos * n_threads c <= ULONG_MAX ->
  horizon c n -> inv c n s ->
  prods s !! p = Some t -> is_PIdle (pc t) = false ->
  exists s', sys_step c (StepPush p) s = Ok s'.
Proof.
  intros Hfit Hhor HI Hp Hidle.
  pose proof (inv_reg_len _ _ _ HI) as Hrl.
  apply lookup_lt_Some in Hp as Hlt'. rewrite (inv_prods_len _ _ _ HI) in Hlt'.
  assert (Hp' : 0 <= Z.of_nat p < n_threads c) by (unfold n_threads; lia).
  rewrite thr_p_len_fits in Hrl by lia.
  destruct (push_step_registry_ok c (queue s) (Z.of_nat p) (pc t) Hp' Hrl) as [Ha Hr].
  pose proof (push_step_enabled c (queue s) (Z.of_nat p) (pc t) Hp' Hrl Hidle) as Hn.
  cbn [sys_step]. rewrite Hp.
  destruct (push_step c (Z.of_nat p) (queue s) (pc t)) as [[[q' pc'] ev]| | | |] eqn:E;
    cbn [obind]; try done; [by eexists|].
  exfalso. apply push_step_slot in E as (e & He & Hnone); [|done..].
  rewrite Nat2Z.id in He.
  destruct (slot_in_bounds c n s (ThrPos.head e) Hhor HI) as [y Hy]; [|congruence].
  pose proof (inv_reg_head _ _ _ HI p) as Hrh. unfold reg_head in Hrh. rewrite He in Hrh.
  pose proof (inv_head _ _ _ HI).
  destruct Hrh as [->|Hm]; unfold ULONG_MAX; lia.
Qed.

Lemma step_pop_runs c n s k t :
  sizeof_ThrPos * n_threads c <= ULONG_MAX ->
  horizon c n -> inv c n s ->
  cons s !! k = Some t -> is_CIdle (pc t) = false ->
  exists s', sys_step c (StepPop k) s = Ok s'.
Proof.
  intros Hfit Hhor HI Hk Hidle.
  pose proof (inv_reg_len _ _ _ HI) as Hrl.
  apply lookup_lt_Some in Hk as Hlt'. rewrite (inv_cons_len _ _ _ HI) in Hlt'.
  assert (Hk' : 0 <= Z.of_nat k < n_threads c) by (unfold n_threads; lia).
  rewrite thr_p_len_fits in Hrl by lia.
  destruct (pop_step_registry_ok c (queue s) (Z.of_nat k) (pc t) Hk' Hrl) as [Ha Hr].
  pose proof (pop_step_enabled c (queue s) (Z.of_nat k) (pc t) Hk' Hrl Hidle) as Hn.
  cbn [sys_step]. rewrite Hk.
  destruct (pop_step c (Z.of_nat k) (queue s) (pc t)) as [[[q' pc'] ev]| | | |] eqn:E;
    cbn [obind]; try done; [by eexists|].
  exfalso. apply pop_step_slot in E as (e & He & Hnone); [|done..].
  rewrite Nat2Z.id in He.
  destruct (slot_in_bounds c n s (ThrPos.tail e) Hhor HI) as [y Hy]; [|congruence].
  pose proof (inv_reg_tail _ _ _ HI k) as Hrt. unfold reg_tail in Hrt. rewrite He in Hrt.
  pose proof (inv_tail _ _ _ HI).
  destruct Hrt as [->|Hm]; unfold ULONG_MAX; lia.
Qed.

(** Counting under an update. *)
Lemma how_many_insert {A} (f : A -> bool) (l : list A) k a b :
  l !! k = Some a ->
  (how_many f (<[k := b]> l) + (if f a then 1 else 0)
   = how_many f l + (if f b then 1 else 0))%nat.
Proof.
  unfold how_many. revert k. induction l as [|x l IH]; intros [|k] Hk; try done; simpl in *.
  - simplify_eq. destruct (f a), (f b); simpl; lia.
  - specialize (IH k Hk). destruct (f x), (f a), (f b); simpl in *; lia.
Qed.

Lemma how_many_le {A} (f : A -> bool) (l : list A) :
  (how_many f l <= length l)%nat.
Proof.
  unfold how_many. induction l as [|x l IH]; cbn; [lia|]. destruct (f x); cbn [length]; lia.
Qed.

Lemma how_many_lt {A} (f : A -> bool) (l : list A) k a :
  l !! k = Some a -> f a = false -> (how_many f l < length l)%nat.
Proof.
  unfold how_many. revert k. induction l as [|x l IH]; intros [|k] Hk Hf; try done; cbn in *.
  - simplify_eq. rewrite Hf. pose proof (how_many_le f l). unfold how_many in *. cbn [length]. lia.
  - specialize (IH k Hk Hf). destruct (f x); cbn [length]; lia.
Qed.

Lemma how_many_all {A} (f : A -> bool) (l : list A) :
  forallb f l = true -> how_many f l = length l.
Proof.
  unfold how_many. induction l as [|x l IH]; cbn; [done|].
  intros [Hx Hl]%andb_true_iff. rewrite Hx. cbn. by rewrite IH.
Qed.

Lemma how_many_none {A} (f : A -> bool) (l : list A) :
  (forall a, a ∈ l -> f a = false) -> how_many f l = 0%nat.
Proof.
  unfold how_many. induction l as [|x l IH]; cbn; [done|].
  intros H. rewrite (H x) by (by left). apply IH. intros a Ha. apply H. by right.
Qed.

Lemma NoDup_concat_intro {A B} (f : A -> list B) (l : list A) :
  (forall i a, l !! i = Some a -> NoDup (f a)) ->
  (forall i j a b x, l !! i = Some a -> l !! j = Some b -> x ∈ f a -> x ∈ f b -> i = j) ->
  NoDup (concat (map f l)).
Proof.
  induction l as [|c l IH]; intros Hnd Hdisj; [constructor|].
  cbn. apply NoDup_app. split_and!.
  - by apply (Hnd 0%nat).
  - intros x Hx (b & Hb & Hxb)%elem_of_concat_map.
    apply list_elem_of_lookup in Hb as (j & Hj).
    by specialize (Hdisj 0%nat (S j) c b x eq_refl Hj Hx Hxb).
  - apply IH.
    + intros i a Hi. by apply (Hnd (S i)).
    + intros i j a b x Hi Hj Ha Hb.
      by specialize (Hdisj (S i) (S j) a b x Hi Hj Ha Hb) as [= ->].
Qed.

Lemma x_index_Some g v i :
  x_index g v = Some i <->
  t_x g <= v < t_x g + x_size g /\ i = Z.to_nat (v - t_x g).
Proof.
  unfold x_index.
  destruct (Z.leb_spec (t_x g) v), (Z.ltb_spec v (t_x g + x_size g)); cbn;
    split; try (intros [= <-]); try (intros [? ->]); try done; lia.
Qed.

Lemma cell_is_insert_ne g xs v w b b' i :
  x_index g w = Some i -> v <> w ->
  cell_is g xs v b -> cell_is g (<[i := b']> xs) v b.
Proof.
  intros Hw Hne (j & Hv & Hj). exists j. split; [done|].
  rewrite list_lookup_insert_ne; [done|].
  apply x_index_Some in Hw as [? ->]. apply x_index_Some in Hv as [? ->]. lia.
Qed.

Lemma cell_is_insert_eq g xs v b i :
  x_index g v = Some i -> (i < length xs)%nat -> cell_is g (<[i := b]> xs) v b.
Proof.
  intros Hv Hi. exists i. split; [done|]. by apply list_lookup_insert_eq.
Qed.

(** The addresses pushed so far lie in [x] and are pairwise distinct. *)
Lemma all_pushed_ok g s (pl : list producer_at) :
  length pl = length (prods s) ->
  length (prods s) = Z.to_nat (PRODUCERS g) ->
  (forall p a t, pl !! p = Some a -> prods s !! p = Some t -> producer_ok g p a t) ->
  (forall v, v ∈ all_pushed s -> t_x g <= v < t_x g + x_size g) /\
  NoDup (all_pushed s).
Proof.
  intros Hl HP Hok.
  assert (Hel : forall p t j v, prods s !! p = Some t -> pushed t !! j = Some v ->
            v = t_x g + (Z.of_nat p + Z.of_nat j * PRODUCERS g) /\
            Z.of_nat p + Z.of_nat j * PRODUCERS g < x_size g /\
            Z.of_nat p < PRODUCERS g).
  { intros p t j v Hp Hj. apply lookup_lt_Some in Hp as Hlt.
    destruct (lookup_lt_is_Some_2 pl p) as [a Ha]; [lia|].
    destruct (Hok p a t Ha Hp) as [Hv _]. destruct (Hv j v Hj). split_and!; [done..|lia]. }
  split.
  - intros v (p & t & Hp & (j & Hj)%list_elem_of_lookup)%elem_of_all_pushed.
    destruct (Hel p t j v Hp Hj) as (-> & ? & ?). nia.
  - apply NoDup_concat_intro.
    + intros p t Hp. apply NoDup_alt. intros i j v Hi Hj.
      destruct (Hel p t i v Hp Hi) as (E1 & _ & ?).
      destruct (Hel p t j v Hp Hj) as (E2 & _ & _). nia.
    + intros p1 p2 t1 t2 v Hp1 Hp2 (j1 & Hj1)%list_elem_of_lookup (j2 & Hj2)%list_elem_of_lookup.
      destruct (Hel p1 t1 j1 v Hp1 Hj1) as (E1 & _ & ?).
      destruct (Hel p2 t2 j2 v Hp2 Hj2) as (E2 & _ & ?).
      assert (Z.of_nat j1 = Z.of_nat j2) by nia. nia.
Qed.

Lemma check_data_zero xs :
  Forall (fun b => b <> X_EMPTY /\ b <> X_MISSED) xs -> check_data xs = 0.
Proof.
  induction 1 as [|b xs [H0 H1] _ IH]; [done|]. cbn [check_data].
  destruct (Z.eqb_spec b X_EMPTY); [done|]. by destruct (Z.eqb_spec b X_MISSED).
Qed.

Lemma concat_map_insert_same {A B} (f : A -> list B) (l : list A) i y y' :
  l !! i = Some y -> f y' = f y ->
  concat (map f (<[i := y']> l)) = concat (map f l).
Proof.
  revert i. induction l as [|a l IH]; intros [|i] Hl Hf; try done; simpl in *.
  - simplify_eq. by rewrite Hf.
  - by rewrite (IH i Hl Hf).
Qed.

Lemma all_pushed_same s p t t' q' cs :
  prods s !! p = Some t -> pushed t' = pushed t ->
  all_pushed (mkSys q' (<[p := t']> (prods s)) cs) = all_pushed s.
Proof. intros Hp Ht. unfold all_pushed. cbn [prods]. by apply concat_map_insert_same with t. Qed.

Lemma all_popped_same s k t t' q' ps :
  cons s !! k = Some t -> popped t' = popped t ->
  all_popped (mkSys q' ps (<[k := t']> (cons s))) = all_popped s.
Proof. intros Hk Ht. unfold all_popped. cbn [cons]. by apply concat_map_insert_same with t. Qed.

Lemma all_popped_return s k t t' q' ps ret :
  cons s !! k = Some t -> popped t' = popped t ++ [ret] ->
  all_popped (mkSys q' ps (<[k := t']> (cons s))) ≡ₚ ret :: all_popped s.
Proof.
  intros Hk Ht. unfold all_popped. cbn [cons].
  by rewrite (concat_map_insert popped (cons s) k t t' [ret] Hk Ht).
Qed.

Lemma all_pushed_call s p t x cs :
  prods s !! p = Some t -> pc t = PIdle ->
  all_pushed (mkSys (queue s) (<[p := mkThread (PLoadHead x) [] (hist t)]> (prods s)) cs)
  ≡ₚ x :: all_pushed s.
Proof.
  intros Hp Hpc. unfold all_pushed. cbn [prods].
  rewrite (concat_map_insert pushed (prods s) p t _ [x] Hp); [done|].
  unfold pushed. cbn. rewrite Hpc. cbn. by rewrite app_nil_r.
Qed.

Section test_proofs.
Context (g : test_config).
Hypothesis Hfits : test_fits g.

(** What the invariant of the test gives about the queue. *)
Lemma test_inv_facts steps st :
  horizon (t_queue g) steps -> test_inv g steps st ->
  (exists m, horizon (t_queue g) m /\ inv (t_queue g) m (ts_sys st)) /\
  (forall v, v ∈ all_pushed (ts_sys st) -> t_x g <= v < t_x g + x_size g) /\
  NoDup (all_pushed (ts_sys st)) /\
  NoDup (all_popped (ts_sys st)) /\
  (forall v, v ∈ all_popped (ts_sys st) -> v ∈ all_pushed (ts_sys st)).
Proof.
  intros Hhor HT. destruct (ti_reach _ _ _ HT) as (sched & Hlen & Hreach).
  assert (Hhor' : horizon (t_queue g) (Z.of_nat (length sched))) by (unfold horizon in *; lia).
  pose proof (inv_reaches (t_queue g) sched _ Hhor' Hreach) as HI.
  pose proof (traces_reaches (t_queue g) sched _ Hhor' Hreach) as Htr.
  pose proof (ring_inv_reaches (t_queue g) sched _ (tf_pow2 _ Hfits) Hhor' Hreach) as HR.
  destruct (all_pushed_ok g (ts_sys st) (ts_prods st)) as [Hrange Hnd].
  { apply (ti_prods_len _ _ _ HT). }
  { apply (inv_prods_len _ _ _ HI). }
  { apply (ti_prod _ _ _ HT). }
  destruct (popped_distinct (t_queue g) _ Htr HR Hnd) as [Hnd' Hsub].
  split_and!; try done. by exists (Z.of_nat (length sched)).
Qed.

Lemma test_inv_reach_step steps st a s' :
  test_inv g steps st -> sys_step (t_queue g) a (ts_sys st) = Ok s' ->
  exists sched, Z.of_nat (length sched) <= steps + 1 /\ reaches (t_queue g) sched s'.
Proof.
  intros HT Hstep. destruct (ti_reach _ _ _ HT) as (sched & Hlen & Hreach).
  exists (sched ++ [a]). split; [rewrite length_app; cbn; lia|].
  by eapply reaches_step.
Qed.

Lemma test_inv_reach_stay steps st :
  test_inv g steps st ->
  exists sched, Z.of_nat (length sched) <= steps + 1 /\ reaches (t_queue g) sched (ts_sys st).
Proof.
  intros HT. destruct (ti_reach _ _ _ HT) as (sched & Hlen & Hreach).
  exists sched. split; [lia|done].
Qed.

(** The address a producer is about to push has not been pushed. *)
Lemma next_push_fresh steps st p t i :
  horizon (t_queue g) steps -> test_inv g steps st ->
  ts_prods st !! p = Some (AtFor i) -> prods (ts_sys st) !! p = Some t ->
  (t_x g + i ∉ all_pushed (ts_sys st)) /\ 0 <= i /\ 0 < PRODUCERS g.
Proof.
  intros Hhor HT Hat Hp.
  destruct (test_inv_facts steps st Hhor HT) as [(m & Hm & HI) _].
  pose proof (inv_prods_len _ _ _ HI) as HPl.
  apply lookup_lt_Some in Hp as Hlt. fold (PRODUCERS g) in HPl.
  destruct (ti_prod _ _ _ HT p _ t Hat Hp) as (_ & Hpc & ->).
  split; [|nia].
  intros (p2 & t2 & Hp2 & (j & Hj)%list_elem_of_lookup)%elem_of_all_pushed.
  apply lookup_lt_Some in Hp2 as Hlt2.
  destruct (lookup_lt_is_Some_2 (ts_prods st) p2) as [a2 Ha2].
  { rewrite (ti_prods_len _ _ _ HT). lia. }
  destruct (ti_prod _ _ _ HT p2 _ t2 Ha2 Hp2) as (Hel & _).
  destruct (Hel j _ Hj) as [E _].
  assert (Z.of_nat j = Z.of_nat (length (hist t))) by nia.
  assert (p2 = p) as -> by nia. simplify_eq.
  apply lookup_lt_Some in Hj. unfold pushed in Hj. rewrite Hpc in Hj. cbn in Hj.
  rewrite length_app, length_map in Hj. cbn in Hj. lia.
Qed.

Lemma test_inv_for_push steps st p i :
  horizon (t_queue g) (steps + 1) -> 0 <= steps -> test_inv g steps st ->
  ts_prods st !! p = Some (AtFor i) -> i < x_size g ->
  exists s', sys_step (t_queue g) (CallPush p (t_x g + i)) (ts_sys st) = Ok s' /\
    test_inv g (steps + 1)
      (mkTestState s' (<[Z.to_nat i := X_MISSED]> (ts_x st)) (ts_n st)
         (<[p := InPush i]> (ts_prods st)) (ts_cons st)).
Proof.
  intros Hhor1 Hsteps HT Hat Hi.
  assert (Hhor : horizon (t_queue g) steps) by (unfold horizon in *; lia).
  destruct (test_inv_facts steps st Hhor HT) as (_ & Hrange & Hnd & Hnd' & Hsub).
  destruct (lookup_lt_is_Some_2 (prods (ts_sys st)) p) as [t Hp].
  { rewrite <- (ti_prods_len _ _ _ HT). by eapply lookup_lt_Some. }
  destruct (next_push_fresh steps st p t i Hhor HT Hat Hp) as (Hfresh & Hi0 & HP0).
  destruct (ti_prod _ _ _ HT p _ t Hat Hp) as (Hel & Hpc & Hival).
  assert (Hstep : sys_step (t_queue g) (CallPush p (t_x g + i)) (ts_sys st)
            = Ok (mkSys (queue (ts_sys st))
                    (<[p := mkThread (PLoadHead (t_x g + i)) [] (hist t)]> (prods (ts_sys st)))
                    (cons (ts_sys st)))).
  { cbn [sys_step]. by rewrite Hp, Hpc. }
  eexists. split; [exact Hstep|].
  assert (Hidx : x_index g (t_x g + i) = Some (Z.to_nat i)).
  { apply x_index_Some. split; [lia|]. f_equal. lia. }
  pose proof (all_pushed_call (ts_sys st) p t (t_x g + i) (cons (ts_sys st)) Hp Hpc) as Hall.
  constructor; cbn [ts_sys ts_x ts_n ts_prods ts_cons prods cons].
  - by eapply test_inv_reach_step.
  - rewrite length_insert. apply (ti_x_len _ _ _ HT).
  - rewrite !length_insert. apply (ti_prods_len _ _ _ HT).
  - apply (ti_cons_len _ _ _ HT).
  - intros p' a t' Ha Ht'. destruct (decide (p' = p)) as [->|Hne].
    + rewrite list_lookup_insert_eq in Ha by (by eapply lookup_lt_Some).
      rewrite list_lookup_insert_eq in Ht' by (by eapply lookup_lt_Some).
      simplify_eq. split; [|done].
      intros j v Hj. unfold pushed in Hj. cbn in Hj.
      apply lookup_app_Some in Hj as [Hj|[Hge Hj]].
      * apply (Hel j v). unfold pushed. rewrite Hpc. cbn. by rewrite app_nil_r.
      * rewrite length_map in Hge, Hj.
        apply list_lookup_singleton_Some in Hj as [Hj <-].
        assert (j = length (hist t)) as -> by lia. split; [done|lia].
    + rewrite list_lookup_insert_ne in Ha by done.
      rewrite list_lookup_insert_ne in Ht' by done.
      by apply (ti_prod _ _ _ HT).
  - apply (ti_cons _ _ _ HT).
  - intros k a tk v Ha Hk Hv Hpend.
    apply cell_is_insert_ne with (t_x g + i); [done| |by eapply (ti_marked _ _ _ HT)].
    intros ->. apply Hfresh, Hsub. apply elem_of_all_popped. by exists k, tk.
  - intros v Hv Hun. rewrite Hall in Hv.
    destruct (decide (v = t_x g + i)) as [->|Hne].
    + apply cell_is_insert_eq; [done|]. rewrite (ti_x_len _ _ _ HT). lia.
    + apply elem_of_cons in Hv as [?|Hv]; [done|].
      apply cell_is_insert_ne with (t_x g + i); [done|done|].
      by apply (ti_missed _ _ _ HT).
  - apply (ti_n _ _ _ HT).
  - apply (ti_started _ _ _ HT).
  - apply (ti_ended _ _ _ HT).
Qed.


Lemma test_fits_registry : sizeof_ThrPos * n_threads (t_queue g) <= ULONG_MAX.
Proof.
  pose proof (tf_N _ Hfits). pose proof (tf_producers _ Hfits).
  pose proof (tf_consumers _ Hfits). pose proof (tf_int _ Hfits).
  assert (0 <= x_size g) by (unfold x_size; nia).
  unfold n_threads, sizeof_ThrPos, ULONG_MAX, INT_MAX, PRODUCERS, CONSUMERS in *. lia.
Qed.

Lemma test_inv_for_end steps st p i :
  test_inv g steps st -> ts_prods st !! p = Some (AtFor i) ->
  test_inv g (steps + 1)
    (mkTestState (ts_sys st) (ts_x st) (ts_n st)
       (<[p := ProducerEnded]> (ts_prods st)) (ts_cons st)).
Proof.
  intros HT Hat.
  constructor; cbn [ts_sys ts_x ts_n ts_prods ts_cons]; try apply HT.
  - by apply test_inv_reach_stay.
  - rewrite length_insert. apply (ti_prods_len _ _ _ HT).
  - intros p' a t Ha Ht. destruct (decide (p' = p)) as [->|Hne].
    + rewrite list_lookup_insert_eq in Ha by (by eapply lookup_lt_Some). simplify_eq.
      destruct (ti_prod _ _ _ HT p _ t Hat Ht) as (Hel & Hpc & _). by split.
    + rewrite list_lookup_insert_ne in Ha by done. by apply (ti_prod _ _ _ HT).
Qed.

Lemma test_inv_in_push steps st p i :
  horizon (t_queue g) (steps + 1) -> 0 <= steps -> test_inv g steps st ->
  ts_prods st !! p = Some (InPush i) ->
  exists s', sys_step (t_queue g) (StepPush p) (ts_sys st) = Ok s' /\
    test_inv g (steps + 1)
      (mkTestState s' (ts_x st) (ts_n st)
         (<[p := if match prods s' !! p with
                    | Some t => is_PIdle (pc t) | None => false end
                 then AtFor (wrap (i + PRODUCERS g)) else InPush i]> (ts_prods st))
         (ts_cons st)).
Proof.
  intros Hhor1 Hsteps HT Hat.
  assert (Hhor : horizon (t_queue g) steps) by (unfold horizon in *; lia).
  destruct (test_inv_facts steps st Hhor HT) as ([m [Hm HI]] & Hrange & Hnd & Hnd' & Hsub).
  destruct (lookup_lt_is_Some_2 (prods (ts_sys st)) p) as [t Hp].
  { rewrite <- (ti_prods_len _ _ _ HT). by eapply lookup_lt_Some. }
  destruct (ti_prod _ _ _ HT p _ t Hat Hp) as (Hel & Hpc & Hival).
  destruct (step_push_runs (t_queue g) m (ts_sys st) p t test_fits_registry Hm HI Hp Hpc)
    as [s' Hstep].
  exists s'. split; [done|].
  pose proof Hstep as Hstep'.
  apply sys_step_StepPush in Hstep' as (t0 & q' & pc' & ev & Hp0 & Hps & ->).
  simplify_eq.
  pose proof (pushed_advance _ _ _ _ _ _ _ Hps) as Hpushed.
  cbn [prods]. rewrite list_lookup_insert_eq by (by eapply lookup_lt_Some).
  assert (Hpcadv : pc (advance is_PIdle (ppc_arg (pc t)) t pc' ev) = pc').
  { unfold advance. by destruct (is_PIdle pc'). }
  rewrite Hpcadv.
  assert (Hall : all_pushed (mkSys q'
              (<[p := advance is_PIdle (ppc_arg (pc t)) t pc' ev]> (prods (ts_sys st)))
              (cons (ts_sys st))) = all_pushed (ts_sys st)).
  { by apply all_pushed_same with t. }
  constructor; cbn [ts_sys ts_x ts_n ts_prods ts_cons prods cons]; try apply HT.
  - by eapply test_inv_reach_step.
  - rewrite !length_insert. apply (ti_prods_len _ _ _ HT).
  - intros p' a t' Ha Ht'. destruct (decide (p' = p)) as [->|Hne].
    + rewrite list_lookup_insert_eq in Ha by (by eapply lookup_lt_Some).
      rewrite list_lookup_insert_eq in Ht' by (by eapply lookup_lt_Some).
      simplify_eq. split; [by rewrite Hpushed|].
      rewrite Hpcadv. destruct (is_PIdle pc') eqn:Hidle'.
      * split; [by destruct pc'|]. unfold advance. rewrite Hidle'. cbn [hist].
        rewrite length_app. cbn [length].
        assert (Hlast : pushed t !! length (hist t) = Some (ppc_arg (pc t))).
        { unfold pushed. rewrite Hpc.
          rewrite lookup_app_r by (by rewrite length_map).
          by rewrite length_map, Nat.sub_diag. }
        destruct (Hel _ _ Hlast) as [_ Hlt].
        pose proof (tf_producers _ Hfits). pose proof (tf_int _ Hfits).
        pose proof (tf_consumers _ Hfits). unfold INT_MAX in *.
        rewrite wrap_small by (unfold ULONG_MAX; lia). lia.
      * split; [done|]. unfold advance. by rewrite Hidle'.
    + rewrite list_lookup_insert_ne in Ha by done.
      rewrite list_lookup_insert_ne in Ht' by done.
      by apply (ti_prod _ _ _ HT).
  - intros v Hv Hun. rewrite Hall in Hv. by apply (ti_missed _ _ _ HT).
Qed.

Lemma wrap_int_small z : - 2147483648 <= z <= INT_MAX -> wrap_int z = z.
Proof. unfold wrap_int, INT_MAX. intros H. rewrite Z.mod_small; lia. Qed.

Lemma test_inv_while_pop steps st k :
  horizon (t_queue g) (steps + 1) -> 0 <= steps -> test_inv g steps st ->
  ts_cons st !! k = Some AtWhile -> ts_n st < x_size g ->
  exists s', sys_step (t_queue g) (CallPop k) (ts_sys st) = Ok s' /\
    test_inv g (steps + 1)
      (mkTestState s' (ts_x st) (wrap_int (ts_n st + 1)) (ts_prods st)
         (<[k := InPop]> (ts_cons st))).
Proof.
  intros Hhor1 Hsteps HT Hat Hn.
  destruct (lookup_lt_is_Some_2 (cons (ts_sys st)) k) as [t Hk].
  { rewrite <- (ti_cons_len _ _ _ HT). by eapply lookup_lt_Some. }
  pose proof (ti_cons _ _ _ HT k _ t Hat Hk) as Hpc. cbn in Hpc.
  assert (Hstep : sys_step (t_queue g) (CallPop k) (ts_sys st)
            = Ok (mkSys (queue (ts_sys st)) (prods (ts_sys st))
                    (<[k := mkThread CLoadTail [] (hist t)]> (cons (ts_sys st))))).
  { cbn [sys_step]. by rewrite Hk, Hpc. }
  eexists. split; [exact Hstep|].
  assert (Hall : all_popped (mkSys (queue (ts_sys st)) (prods (ts_sys st))
              (<[k := mkThread CLoadTail [] (hist t)]> (cons (ts_sys st))))
            = all_popped (ts_sys st)).
  { by apply all_popped_same with t. }
  pose proof (ti_n _ _ _ HT) as Hn0.
  pose proof (tf_int _ Hfits) as Hint. pose proof (tf_consumers _ Hfits) as HC.
  rewrite wrap_int_small by (unfold INT_MAX in *; lia).
  constructor; cbn [ts_sys ts_x ts_n ts_prods ts_cons prods cons]; try apply HT.
  - by eapply test_inv_reach_step.
  - rewrite !length_insert. apply (ti_cons_len _ _ _ HT).
  - intros k' a t' Ha Ht'. destruct (decide (k' = k)) as [->|Hne].
    + rewrite list_lookup_insert_eq in Ha by (by eapply lookup_lt_Some).
      rewrite list_lookup_insert_eq in Ht' by (by eapply lookup_lt_Some).
      by simplify_eq.
    + rewrite list_lookup_insert_ne in Ha by done.
      rewrite list_lookup_insert_ne in Ht' by done.
      by apply (ti_cons _ _ _ HT k').
  - intros k' a t' v Ha Ht' Hv Hpend. destruct (decide (k' = k)) as [->|Hne].
    + rewrite list_lookup_insert_eq in Ha by (by eapply lookup_lt_Some).
      rewrite list_lookup_insert_eq in Ht' by (by eapply lookup_lt_Some).
      simplify_eq. by apply (ti_marked _ _ _ HT k AtWhile t).
    + rewrite list_lookup_insert_ne in Ha by done.
      rewrite list_lookup_insert_ne in Ht' by done.
      by apply (ti_marked _ _ _ HT k' a t').
  - intros v Hv Hun. rewrite Hall in Hun. apply (ti_missed _ _ _ HT); [done|].
    destruct Hun as [Hun|(k' & a & Ha & Hpend)]; [by left|right].
    destruct (decide (k' = k)) as [->|Hne].
    + rewrite list_lookup_insert_eq in Ha by (by eapply lookup_lt_Some). by simplify_eq.
    + rewrite list_lookup_insert_ne in Ha by done. by exists k', a.
  - lia.
  - rewrite Hall. pose proof (ti_started _ _ _ HT) as Hs.
    pose proof (how_many_insert is_InPop _ k _ InPop Hat) as Hc. cbn in Hc. lia.
  - pose proof (ti_ended _ _ _ HT) as He.
    pose proof (how_many_insert is_ConsumerEnded _ k _ InPop Hat) as Hc. cbn in Hc. lia.
Qed.

Lemma test_inv_while_end steps st k :
  horizon (t_queue g) (steps + 1) -> 0 <= steps -> test_inv g steps st ->
  ts_cons st !! k = Some AtWhile -> x_size g <= ts_n st ->
  test_inv g (steps + 1)
    (mkTestState (ts_sys st) (ts_x st) (wrap_int (ts_n st + 1)) (ts_prods st)
       (<[k := ConsumerEnded]> (ts_cons st))).
Proof.
  intros Hhor1 Hsteps HT Hat Hn.
  assert (Hhor : horizon (t_queue g) steps) by (unfold horizon in *; lia).
  destruct (test_inv_facts steps st Hhor HT) as ([m [Hm HI]] & _).
  pose proof (ti_n _ _ _ HT) as Hn0.
  pose proof (tf_int _ Hfits) as Hint. pose proof (tf_consumers _ Hfits) as HC.
  pose proof (ti_ended _ _ _ HT) as He. pose proof (ti_started _ _ _ HT) as Hs.
  pose proof (how_many_lt is_ConsumerEnded _ k _ Hat eq_refl) as Hlt.
  rewrite (ti_cons_len _ _ _ HT), (inv_cons_len _ _ _ HI) in Hlt.
  fold (CONSUMERS g) in Hlt.
  rewrite wrap_int_small by (unfold INT_MAX in *; lia).
  constructor; cbn [ts_sys ts_x ts_n ts_prods ts_cons]; try apply HT.
  - by apply test_inv_reach_stay.
  - rewrite length_insert. apply (ti_cons_len _ _ _ HT).
  - intros k' a t' Ha Ht'. destruct (decide (k' = k)) as [->|Hne].
    + rewrite list_lookup_insert_eq in Ha by (by eapply lookup_lt_Some). simplify_eq.
      apply (ti_cons _ _ _ HT k AtWhile t' Hat Ht').
    + rewrite list_lookup_insert_ne in Ha by done. by apply (ti_cons _ _ _ HT k').
  - intros k' a t' v Ha Ht' Hv Hpend. destruct (decide (k' = k)) as [->|Hne].
    + rewrite list_lookup_insert_eq in Ha by (by eapply lookup_lt_Some). simplify_eq.
      by apply (ti_marked _ _ _ HT k AtWhile t').
    + rewrite list_lookup_insert_ne in Ha by done. by apply (ti_marked _ _ _ HT k' a t').
  - intros v Hv Hun. apply (ti_missed _ _ _ HT); [done|].
    destruct Hun as [Hun|(k' & a & Ha & Hpend)]; [by left|right].
    destruct (decide (k' = k)) as [->|Hne].
    + rewrite list_lookup_insert_eq in Ha by (by eapply lookup_lt_Some). by simplify_eq.
    + rewrite list_lookup_insert_ne in Ha by done. by exists k', a.
  - lia.
  - pose proof (how_many_insert is_InPop _ k _ ConsumerEnded Hat) as Hc. cbn in Hc. lia.
  - pose proof (how_many_insert is_ConsumerEnded _ k _ ConsumerEnded Hat) as Hc. cbn in Hc. lia.
Qed.

Lemma test_inv_in_pop steps st k :
  horizon (t_queue g) (steps + 1) -> 0 <= steps -> test_inv g steps st ->
  ts_cons st !! k = Some InPop ->
  exists s', sys_step (t_queue g) (StepPop k) (ts_sys st) = Ok s' /\
    test_inv g (steps + 1)
      (mkTestState s' (ts_x st) (ts_n st) (ts_prods st)
         (<[k := match cons s' !! k with
                 | Some t => if is_CIdle (pc t) then AtAssert (default 0 (last (popped t)))
                             else InPop
                 | None => InPop
                 end]> (ts_cons st))).
Proof.
  intros Hhor1 Hsteps HT Hat.
  assert (Hhor : horizon (t_queue g) steps) by (unfold horizon in *; lia).
  destruct (test_inv_facts steps st Hhor HT) as ([m [Hm HI]] & Hrange & Hnd & Hnd' & Hsub).
  destruct (lookup_lt_is_Some_2 (cons (ts_sys st)) k) as [t Hk].
  { rewrite <- (ti_cons_len _ _ _ HT). by eapply lookup_lt_Some. }
  pose proof (ti_cons _ _ _ HT k _ t Hat Hk) as Hpc. cbn in Hpc.
  destruct (step_pop_runs (t_queue g) m (ts_sys st) k t test_fits_registry Hm HI Hk Hpc)
    as [s' Hstep].
  exists s'. split; [done|].
  destruct (test_inv_reach_step steps st _ s' HT Hstep) as (sched' & Hlen' & Hreach').
  assert (Hhor' : horizon (t_queue g) (Z.of_nat (length sched')))
    by (unfold horizon in *; lia).
  pose proof (traces_reaches _ sched' _ Hhor' Hreach') as Htr'.
  pose proof (ring_inv_reaches _ sched' _ (tf_pow2 _ Hfits) Hhor' Hreach') as HR'.
  apply sys_step_StepPop in Hstep as (t0 & q' & pc' & ev & Hk0 & Hps & ->).
  simplify_eq.
  set (t' := advance is_CIdle (cpc_ret (pc t)) t pc' ev) in *.
  cbn [cons]. rewrite list_lookup_insert_eq by (by eapply lookup_lt_Some).
  assert (Hpcadv : pc t' = pc').
  { unfold t', advance. by destruct (is_CIdle pc'). }
  rewrite Hpcadv.
  assert (Hpushed : all_pushed (mkSys q' (prods (ts_sys st)) (<[k := t']> (cons (ts_sys st))))
            = all_pushed (ts_sys st)) by done.
  destruct (is_CIdle pc') eqn:Hidle'.
  - (* the call returns *)
    assert (Hpop : popped t' = popped t ++ [cpc_ret (pc t)]).
    { unfold t', advance, popped. rewrite Hidle'. cbn [hist]. by rewrite map_app. }
    set (ret := cpc_ret (pc t)) in *.
    assert (Hlast : last (popped t') = Some ret) by (by rewrite Hpop, last_snoc).
    rewrite Hlast. change (default 0 (Some ret)) with ret.
    pose proof (all_popped_return (ts_sys st) k t t' q' (prods (ts_sys st)) ret Hk Hpop)
      as Hall.
    destruct (popped_distinct _ _ Htr' HR') as [Hnd2 _]; [by rewrite Hpushed|].
    rewrite Hall in Hnd2. apply NoDup_cons in Hnd2 as [Hnew _].
    constructor; cbn [ts_sys ts_x ts_n ts_prods ts_cons prods cons]; try apply HT.
    + by exists sched'.
    + rewrite !length_insert. apply (ti_cons_len _ _ _ HT).
    + intros k' a t2 Ha Ht2. destruct (decide (k' = k)) as [->|Hne].
      * rewrite list_lookup_insert_eq in Ha by (by eapply lookup_lt_Some).
        rewrite list_lookup_insert_eq in Ht2 by (by eapply lookup_lt_Some).
        simplify_eq. cbn. split; [|done]. rewrite Hpcadv. by destruct pc'.
      * rewrite list_lookup_insert_ne in Ha by done.
        rewrite list_lookup_insert_ne in Ht2 by done.
        by apply (ti_cons _ _ _ HT k').
    + intros k' a t2 v Ha Ht2 Hv Hpend. destruct (decide (k' = k)) as [->|Hne].
      * rewrite list_lookup_insert_eq in Ha by (by eapply lookup_lt_Some).
        rewrite list_lookup_insert_eq in Ht2 by (by eapply lookup_lt_Some).
        simplify_eq. cbn in Hpend. rewrite Hpop in Hv.
        apply elem_of_app in Hv as [Hv|Hv%list_elem_of_singleton]; [|congruence].
        by apply (ti_marked _ _ _ HT k InPop t).
      * rewrite list_lookup_insert_ne in Ha by done.
        rewrite list_lookup_insert_ne in Ht2 by done.
        by apply (ti_marked _ _ _ HT k' a t2).
    + intros v Hv Hun. rewrite Hpushed in Hv. apply (ti_missed _ _ _ HT); [done|].
      destruct Hun as [Hun|(k' & a & Ha & Hpend)].
      * left. intros Hin. apply Hun. rewrite Hall. by right.
      * destruct (decide (k' = k)) as [->|Hne].
        -- rewrite list_lookup_insert_eq in Ha by (by eapply lookup_lt_Some).
           simplify_eq. cbn in Hpend. simplify_eq. by left.
        -- rewrite list_lookup_insert_ne in Ha by done. right. by exists k', a.
    + pose proof (ti_started _ _ _ HT) as Hs.
      pose proof (how_many_insert is_InPop _ k _ (AtAssert ret) Hat) as Hc. cbn in Hc.
      apply Permutation_length in Hall. cbn [length] in Hall. rewrite Hall. lia.
    + pose proof (ti_ended _ _ _ HT) as He.
      pose proof (how_many_insert is_ConsumerEnded _ k _ (AtAssert ret) Hat) as Hc.
      cbn in Hc. lia.
  - (* the call goes on *)
    assert (Hpop : popped t' = popped t).
    { unfold t', advance, popped. by rewrite Hidle'. }
    assert (Hall : all_popped (mkSys q' (prods (ts_sys st)) (<[k := t']> (cons (ts_sys st))))
              = all_popped (ts_sys st)) by (by apply all_popped_same with t).
    rewrite (list_insert_id _ _ _ Hat).
    constructor; cbn [ts_sys ts_x ts_n ts_prods ts_cons prods cons]; try apply HT.
    + by exists sched'.
    + rewrite length_insert. apply (ti_cons_len _ _ _ HT).
    + intros k' a t2 Ha Ht2. destruct (decide (k' = k)) as [->|Hne].
      * rewrite list_lookup_insert_eq in Ht2 by (by eapply lookup_lt_Some).
        simplify_eq. cbn. by rewrite Hpcadv.
      * rewrite list_lookup_insert_ne in Ht2 by done.
        by apply (ti_cons _ _ _ HT k').
    + intros k' a t2 v Ha Ht2 Hv Hpend. destruct (decide (k' = k)) as [->|Hne].
      * rewrite list_lookup_insert_eq in Ht2 by (by eapply lookup_lt_Some).
        simplify_eq. rewrite Hpop in Hv. by apply (ti_marked _ _ _ HT k InPop t).
      * rewrite list_lookup_insert_ne in Ht2 by done.
        by apply (ti_marked _ _ _ HT k' a t2).
    + intros v Hv Hun. rewrite Hpushed in Hv. rewrite Hall in Hun.
      by apply (ti_missed _ _ _ HT).
    + rewrite Hall. apply (ti_started _ _ _ HT).
Qed.

(** What a consumer holds after its [pop]: a pointer into [x] that was
    pushed, that only this consumer got, and whose cell holds
    [X_MISSED]. *)
Lemma pending_facts steps st k a v :
  horizon (t_queue g) steps -> test_inv g steps st ->
  ts_cons st !! k = Some a -> pending a = Some v ->
  v <> 0 /\ cell_is g (ts_x st) v X_MISSED /\
  exists t, cons (ts_sys st) !! k = Some t /\ v ∈ popped t /\ pc t = CIdle.
Proof.
  intros Hhor HT Hat Hpend.
  destruct (test_inv_facts steps st Hhor HT) as (_ & Hrange & Hnd & Hnd' & Hsub).
  destruct (lookup_lt_is_Some_2 (cons (ts_sys st)) k) as [t Hk].
  { rewrite <- (ti_cons_len _ _ _ HT). by eapply lookup_lt_Some. }
  pose proof (ti_cons _ _ _ HT k _ t Hat Hk) as Hok.
  assert (Hv : pc t = CIdle /\ last (popped t) = Some v).
  { destruct a; cbn in Hpend, Hok; by simplify_eq. }
  destruct Hv as [Hpc Hlast].
  assert (Hin : v ∈ popped t).
  { apply last_Some in Hlast as [l' ->]. apply elem_of_app. right. by left. }
  assert (Hpu : v ∈ all_pushed (ts_sys st)).
  { apply Hsub, elem_of_all_popped. by exists k, t. }
  pose proof (tf_x _ Hfits). pose proof (Hrange v Hpu).
  split_and!; [lia| |by exists t].
  apply (ti_missed _ _ _ HT); [done|]. right. by exists k, a.
Qed.

Lemma test_inv_assert steps st k v :
  horizon (t_queue g) steps -> test_inv g steps st ->
  ts_cons st !! k = Some (AtAssert v) ->
  test_inv g (steps + 1)
    (mkTestState (ts_sys st) (ts_x st) (ts_n st) (ts_prods st)
       (<[k := AtMark v]> (ts_cons st))).
Proof.
  intros Hhor HT Hat.
  constructor; cbn [ts_sys ts_x ts_n ts_prods ts_cons]; try apply HT.
  - by apply test_inv_reach_stay.
  - rewrite length_insert. apply (ti_cons_len _ _ _ HT).
  - intros k' a t' Ha Ht'. destruct (decide (k' = k)) as [->|Hne].
    + rewrite list_lookup_insert_eq in Ha by (by eapply lookup_lt_Some). simplify_eq.
      apply (ti_cons _ _ _ HT k (AtAssert v) t' Hat Ht').
    + rewrite list_lookup_insert_ne in Ha by done. by apply (ti_cons _ _ _ HT k').
  - intros k' a t' w Ha Ht' Hw Hpend. destruct (decide (k' = k)) as [->|Hne].
    + rewrite list_lookup_insert_eq in Ha by (by eapply lookup_lt_Some). simplify_eq.
      by apply (ti_marked _ _ _ HT k (AtAssert v) t').
    + rewrite list_lookup_insert_ne in Ha by done. by apply (ti_marked _ _ _ HT k' a t').
  - intros w Hw Hun. apply (ti_missed _ _ _ HT); [done|].
    destruct Hun as [Hun|(k' & a & Ha & Hpend)]; [by left|right].
    destruct (decide (k' = k)) as [->|Hne].
    + rewrite list_lookup_insert_eq in Ha by (by eapply lookup_lt_Some). simplify_eq.
      by exists k, (AtAssert v).
    + rewrite list_lookup_insert_ne in Ha by done. by exists k', a.
  - pose proof (ti_started _ _ _ HT) as Hs.
    pose proof (how_many_insert is_InPop _ k _ (AtMark v) Hat) as Hc. cbn in Hc. lia.
  - pose proof (ti_ended _ _ _ HT) as He.
    pose proof (how_many_insert is_ConsumerEnded _ k _ (AtMark v) Hat) as Hc. cbn in Hc. lia.
Qed.

Lemma test_inv_mark steps st k v i :
  horizon (t_queue g) steps -> test_inv g steps st ->
  ts_cons st !! k = Some (AtMark v) -> x_index g v = Some i ->
  test_inv g (steps + 1)
    (mkTestState (ts_sys st) (<[i := to_q_type (Z.of_nat k + 1)]> (ts_x st)) (ts_n st)
       (ts_prods st) (<[k := AtWhile]> (ts_cons st))).
Proof.
  intros Hhor HT Hat Hidx.
  destruct (test_inv_facts steps st Hhor HT) as (_ & Hrange & Hnd & Hnd' & Hsub).
  destruct (pending_facts steps st k _ v Hhor HT Hat eq_refl)
    as (Hv0 & Hcell & t & Hk & Hin & Hpc).
  assert (Hown : forall k' t', cons (ts_sys st) !! k' = Some t' -> v ∈ popped t' -> k' = k).
  { intros k' t' Hk' Hin'. by eapply (NoDup_concat_index popped (cons (ts_sys st))). }
  assert (Hilt : (i < length (ts_x st))%nat).
  { destruct Hcell as (i' & Hi' & Hx). rewrite Hidx in Hi'. simplify_eq.
    by eapply lookup_lt_Some. }
  constructor; cbn [ts_sys ts_x ts_n ts_prods ts_cons]; try apply HT.
  - by apply test_inv_reach_stay.
  - rewrite length_insert. apply (ti_x_len _ _ _ HT).
  - rewrite length_insert. apply (ti_cons_len _ _ _ HT).
  - intros k' a t' Ha Ht'. destruct (decide (k' = k)) as [->|Hne].
    + rewrite list_lookup_insert_eq in Ha by (by eapply lookup_lt_Some). by simplify_eq.
    + rewrite list_lookup_insert_ne in Ha by done. by apply (ti_cons _ _ _ HT k').
  - intros k' a t' w Ha Ht' Hw Hpend. destruct (decide (w = v)) as [->|Hwv].
    + rewrite (Hown k' t' Ht' Hw). by apply cell_is_insert_eq.
    + apply cell_is_insert_ne with v; [done|done|].
      destruct (decide (k' = k)) as [->|Hne].
      * rewrite list_lookup_insert_eq in Ha by (by eapply lookup_lt_Some). simplify_eq.
        apply (ti_marked _ _ _ HT k (AtMark v) t); [done..|]. cbn. congruence.
      * rewrite list_lookup_insert_ne in Ha by done. by apply (ti_marked _ _ _ HT k' a t').
  - intros w Hw Hun.
    assert (Hold : w <> v /\
              (w ∉ all_popped (ts_sys st) \/
               exists k' a, ts_cons st !! k' = Some a /\ pending a = Some w)).
    { destruct Hun as [Hun|(k' & a & Ha & Hpend)].
      - split; [|by left]. intros ->. apply Hun, elem_of_all_popped. by exists k, t.
      - destruct (decide (k' = k)) as [->|Hne].
        + rewrite list_lookup_insert_eq in Ha by (by eapply lookup_lt_Some). by simplify_eq.
        + rewrite list_lookup_insert_ne in Ha by done.
          split; [|right; by exists k', a]. intros ->.
          destruct (pending_facts steps st k' a v Hhor HT Ha Hpend)
            as (_ & _ & t' & Hk' & Hin' & _).
          by apply Hne, (Hown k' t'). }
    destruct Hold as [Hne Hold].
    apply cell_is_insert_ne with v; [done|done|]. by apply (ti_missed _ _ _ HT).
  - pose proof (ti_started _ _ _ HT) as Hs.
    pose proof (how_many_insert is_InPop _ k _ AtWhile Hat) as Hc. cbn in Hc. lia.
  - pose proof (ti_ended _ _ _ HT) as He.
    pose proof (how_many_insert is_ConsumerEnded _ k _ AtWhile Hat) as Hc. cbn in Hc. lia.
Qed.

(** No step of the test fails, and each keeps the invariant. *)
Lemma test_step_inv steps st a :
  horizon (t_queue g) (steps + 1) -> 0 <= steps -> test_inv g steps st ->
  (exists st', test_step g a st = Done st' /\ test_inv g (steps + 1) st') \/
  test_step g a st = Stuck.
Proof.
  intros Hhor1 Hsteps HT.
  assert (Hhor : horizon (t_queue g) steps) by (unfold horizon in *; lia).
  destruct a as [p|k]; cbn [test_step].
  - unfold producer_step. destruct (ts_prods st !! p) as [[i|i|]|] eqn:Hat; [| |by right..].
    + destruct (Z.ltb_spec i (x_size g)) as [Hi|Hi].
      * destruct (test_inv_for_push steps st p i Hhor1 Hsteps HT Hat Hi) as (s' & -> & HT').
        left. by eexists.
      * left. eexists. split; [done|]. by eapply test_inv_for_end.
    + destruct (test_inv_in_push steps st p i Hhor1 Hsteps HT Hat) as (s' & -> & HT').
      left. by eexists.
  - unfold consumer_step.
    destruct (ts_cons st !! k) as [[| |v|v|]|] eqn:Hat; [| | | |by right..].
    + destruct (Z.ltb_spec (ts_n st) (x_size g)) as [Hn|Hn].
      * destruct (test_inv_while_pop steps st k Hhor1 Hsteps HT Hat Hn) as (s' & -> & HT').
        left. by eexists.
      * left. eexists. split; [done|]. by apply test_inv_while_end.
    + destruct (test_inv_in_pop steps st k Hhor1 Hsteps HT Hat) as (s' & -> & HT').
      left. by eexists.
    + destruct (pending_facts steps st k _ v Hhor HT Hat eq_refl)
        as (Hv0 & (i & -> & ->) & _).
      destruct (Z.eqb_spec v 0) as [|_]; [done|]. cbn.
      left. eexists. split; [done|]. by apply test_inv_assert.
    + destruct (pending_facts steps st k _ v Hhor HT Hat eq_refl)
        as (Hv0 & (i & Hidx & Hx) & _).
      rewrite Hidx. left. eexists. split; [done|]. by apply (test_inv_mark steps st k v i).
Qed.

Lemma test_run_inv sched : forall steps st,
  horizon (t_queue g) (steps + Z.of_nat (length sched)) -> 0 <= steps ->
  test_inv g steps st ->
  (exists st', test_run g sched st = Done st' /\
     test_inv g (steps + Z.of_nat (length sched)) st') \/
  test_run g sched st = Stuck.
Proof.
  induction sched as [|a sched IH]; intros steps st Hhor Hsteps HT.
  - left. exists st. split; [done|]. cbn. by rewrite Z.add_0_r.
  - cbn [test_run length] in *.
    replace (steps + Z.of_nat (S (length sched)))
      with ((steps + 1) + Z.of_nat (length sched)) in * by lia.
    destruct (test_step_inv steps st a) as [(st' & -> & HT')| ->]; [|done..| |by right].
    { unfold horizon in *. lia. }
    apply IH; [done|lia|done].
Qed.

Lemma test_inv_start blk_thr blk_arr q0 :
  LockFreeQueue_new (t_queue g) blk_thr blk_arr = Ok q0 ->
  length (ptr_array_ q0) = Z.to_nat (Q_SIZE (t_queue g)) ->
  test_inv g 0 (test_start g q0).
Proof.
  intros Hnew Hlen.
  pose proof (tf_N _ Hfits). pose proof (tf_producers _ Hfits).
  assert (Hx : 0 <= x_size g) by (unfold x_size; nia).
  assert (Hpu : all_pushed (sys_init (t_queue g) q0) = []).
  { unfold all_pushed, sys_init. cbn [prods].
    induction (Z.to_nat (n_producers_ (t_queue g))) as [|n IH]; [done|]. cbn. apply IH. }
  assert (Hpo : all_popped (sys_init (t_queue g) q0) = []).
  { unfold all_popped, sys_init. cbn [cons].
    induction (Z.to_nat (n_consumers_ (t_queue g))) as [|n IH]; [done|]. cbn. apply IH. }
  constructor; unfold test_start; cbn [ts_sys ts_x ts_n ts_prods ts_cons].
  - exists []. split; [done|]. by exists blk_thr, blk_arr, q0.
  - by rewrite length_replicate.
  - unfold sys_init. cbn [prods]. by rewrite length_map, length_seq, length_replicate.
  - unfold sys_init. cbn [cons]. by rewrite !length_replicate.
  - intros p a t Ha Ht. unfold sys_init in Ht. cbn [prods] in Ht.
    apply lookup_replicate in Ht as [-> Hp].
    change (map ?f ?l) with (f <$> l) in Ha.
    rewrite list_lookup_fmap, lookup_seq_lt in Ha by done. cbn in Ha. simplify_eq.
    split; [by intros j v Hj|]. cbn. split; [done|lia].
  - intros k a t Ha Ht. unfold sys_init in Ht. cbn [cons] in Ht.
    apply lookup_replicate in Ht as [-> _]. apply lookup_replicate in Ha as [-> _]. done.
  - intros k a t v Ha Ht. unfold sys_init in Ht. cbn [cons] in Ht.
    apply lookup_replicate in Ht as [-> _]. by intros Hv%elem_of_nil.
  - intros v Hv. rewrite Hpu in Hv. by apply elem_of_nil in Hv.
  - done.
  - rewrite Hpo. rewrite how_many_none; [cbn; lia|].
    by intros a [-> _]%elem_of_replicate.
  - rewrite how_many_none; [cbn; lia|].
    by intros a [-> _]%elem_of_replicate.
Qed.

(** Once every consumer has ended, every cell of [x] holds the mark of
    a consumer: each address was pushed, popped by one consumer, and
    written through by it. *)
Lemma all_cells_marked steps st :
  horizon (t_queue g) steps -> test_inv g steps st ->
  1 <= CONSUMERS g ->
  forallb is_ConsumerEnded (ts_cons st) = true ->
  forall i b, ts_x st !! i = Some b ->
    exists k, Z.of_nat k < CONSUMERS g /\ b = to_q_type (Z.of_nat k + 1).
Proof.
  intros Hhor HT HC Hall i b Hb.
  destruct (test_inv_facts steps st Hhor HT) as ([m [Hm HI]] & Hrange & Hnd & Hnd' & Hsub).
  pose proof (tf_N _ Hfits). pose proof (tf_producers _ Hfits).
  assert (Hx : 0 <= x_size g) by (unfold x_size; nia).
  assert (Hcl : length (ts_cons st) = Z.to_nat (CONSUMERS g)).
  { rewrite (ti_cons_len _ _ _ HT). apply (inv_cons_len _ _ _ HI). }
  assert (Hended : forall k a, ts_cons st !! k = Some a -> a = ConsumerEnded).
  { intros k a Ha. apply list_elem_of_lookup_2, list_elem_of_In in Ha.
    pose proof (proj1 (forallb_forall _ _) Hall a Ha). by destruct a. }
  assert (Hlen : length (all_popped (ts_sys st)) = Z.to_nat (x_size g)).
  { pose proof (ti_started _ _ _ HT) as Hs. pose proof (ti_ended _ _ _ HT) as He.
    rewrite (how_many_all _ _ Hall), Hcl in He.
    rewrite how_many_none in Hs; [lia|].
    intros a (k & Ha)%list_elem_of_lookup. by rewrite (Hended k a Ha). }
  assert (Hperm : all_popped (ts_sys st) ≡ₚ seqZ (t_x g) (x_size g)).
  { apply submseteq_length_Permutation; [|by rewrite Hlen, length_seqZ].
    apply NoDup_submseteq; [done|].
    intros v Hv. apply elem_of_seqZ. by apply Hrange, Hsub. }
  apply lookup_lt_Some in Hb as Hi. rewrite (ti_x_len _ _ _ HT) in Hi.
  assert (Hin : t_x g + Z.of_nat i ∈ all_popped (ts_sys st)).
  { rewrite Hperm. apply elem_of_seqZ. lia. }
  apply elem_of_all_popped in Hin as (k & t & Hk & Hv).
  destruct (lookup_lt_is_Some_2 (ts_cons st) k) as [a Ha].
  { rewrite (ti_cons_len _ _ _ HT). by eapply lookup_lt_Some. }
  pose proof (Hended k a Ha) as ->.
  destruct (ti_marked _ _ _ HT k _ t _ Ha Hk Hv) as (i' & Hi' & Hcell); [done|].
  apply x_index_Some in Hi' as [_ ->].
  replace (Z.to_nat (t_x g + Z.of_nat i - t_x g)) with i in Hcell by lia.
  exists k. split; [|congruence].
  apply lookup_lt_Some in Ha. lia.
Qed.

End test_proofs.

(** X19. The test never trips: in every interleaving of the producers
    and consumers of [run_test] on the lock-free queue, no [assert] of
    the consumers fails, no consumer dereferences a pointer that does
    not point into [x], and no step of [push] or [pop] fails. *)
Theorem run_test_never_fails g sched blk_thr blk_arr q0 :
  test_fits g ->
  horizon (t_queue g) (Z.of_nat (length sched)) ->
  LockFreeQueue_new (t_queue g) blk_thr blk_arr = Ok q0 ->
  length (ptr_array_ q0) = Z.to_nat (Q_SIZE (t_queue g)) ->
  run_test g sched q0 <> Asserted /\
  run_test g sched q0 <> Wild /\
  run_test g sched q0 <> QueueFault.
Proof.
  intros Hfits Hhor Hnew Hlen.
  pose proof (test_inv_start g Hfits blk_thr blk_arr q0 Hnew Hlen) as H0.
  unfold run_test.
  destruct (test_run_inv g Hfits sched 0 (test_start g q0)) as [(st & -> & _)| ->];
    [done|lia|done| |done].
  by destruct (all_joined st).
Qed.

(** Once every consumer has ended: each address of [x] was pushed once
    and popped once, and its cell holds the mark of the consumer that
    popped it. *)
Lemma test_end_facts g steps st :
  test_fits g ->
  horizon (t_queue g) steps -> test_inv g steps st ->
  1 <= CONSUMERS g <= 254 ->
  forallb is_ConsumerEnded (ts_cons st) = true ->
  all_pushed (ts_sys st) ≡ₚ seqZ (t_x g) (x_size g) /\
  all_popped (ts_sys st) ≡ₚ seqZ (t_x g) (x_size g) /\
  (forall k t v, cons (ts_sys st) !! k = Some t -> v ∈ popped t ->
     cell_is g (ts_x st) v (Z.of_nat k + 1)) /\
  (forall i b, ts_x st !! i = Some b ->
     exists k : nat, Z.of_nat k < CONSUMERS g /\ b = Z.of_nat k + 1).
Proof.
  intros Hfits Hhor HT HC Hall.
  destruct (test_inv_facts g Hfits steps st Hhor HT)
    as ([m [Hm HI]] & Hrange & Hnd & Hnd' & Hsub).
  pose proof (tf_N _ Hfits). pose proof (tf_producers _ Hfits).
  assert (Hx : 0 <= x_size g) by (unfold x_size; nia).
  assert (Hcl : length (ts_cons st) = Z.to_nat (CONSUMERS g)).
  { rewrite (ti_cons_len _ _ _ HT). apply (inv_cons_len _ _ _ HI). }
  assert (Hended : forall k a, ts_cons st !! k = Some a -> a = ConsumerEnded).
  { intros k a Ha. apply list_elem_of_lookup_2, list_elem_of_In in Ha.
    pose proof (proj1 (forallb_forall _ _) Hall a Ha). by destruct a. }
  assert (Hlen : length (all_popped (ts_sys st)) = Z.to_nat (x_size g)).
  { pose proof (ti_started _ _ _ HT) as Hs. pose proof (ti_ended _ _ _ HT) as He.
    rewrite (how_many_all _ _ Hall), Hcl in He.
    rewrite how_many_none in Hs; [lia|].
    intros a (k & Ha)%list_elem_of_lookup. by rewrite (Hended k a Ha). }
  assert (Hpo : all_popped (ts_sys st) ≡ₚ seqZ (t_x g) (x_size g)).
  { apply submseteq_length_Permutation; [|by rewrite Hlen, length_seqZ].
    apply NoDup_submseteq; [done|].
    intros v Hv. apply elem_of_seqZ. by apply Hrange, Hsub. }
  assert (Hpu : all_pushed (ts_sys st) ≡ₚ seqZ (t_x g) (x_size g)).
  { apply submseteq_length_Permutation.
    - apply NoDup_submseteq; [done|]. intros v Hv. apply elem_of_seqZ. by apply Hrange.
    - rewrite length_seqZ, <- Hlen. apply submseteq_length.
      by apply NoDup_submseteq. }
  assert (Hmark : forall k t v, cons (ts_sys st) !! k = Some t -> v ∈ popped t ->
            cell_is g (ts_x st) v (Z.of_nat k + 1)).
  { intros k t v Hk Hv.
    destruct (lookup_lt_is_Some_2 (ts_cons st) k) as [a Ha].
    { rewrite (ti_cons_len _ _ _ HT). by eapply lookup_lt_Some. }
    pose proof (Hended k a Ha) as ->.
    apply lookup_lt_Some in Ha as Hlt.
    replace (Z.of_nat k + 1) with (to_q_type (Z.of_nat k + 1)).
    - by apply (ti_marked _ _ _ HT k ConsumerEnded t).
    - unfold to_q_type. apply Z.mod_small. lia. }
  split_and!; [done..|].
  intros i b Hb. apply lookup_lt_Some in Hb as Hi. rewrite (ti_x_len _ _ _ HT) in Hi.
  assert (Hin : t_x g + Z.of_nat i ∈ all_popped (ts_sys st)).
  { rewrite Hpo. apply elem_of_seqZ. lia. }
  apply elem_of_all_popped in Hin as (k & t & Hk & Hv).
  destruct (Hmark k t _ Hk Hv) as (i' & Hi' & Hcell).
  apply x_index_Some in Hi' as [_ ->].
  replace (Z.to_nat (t_x g + Z.of_nat i - t_x g)) with i in Hcell by lia.
  exists k. split; [|congruence].
  apply lookup_lt_Some in Hk. rewrite (inv_cons_len _ _ _ HI) in Hk.
  unfold CONSUMERS. lia.
Qed.

(** X20. The test passes: with at least one consumer and at most 254,
    whenever all the threads of [run_test] on the lock-free queue have
    ended, every address of a cell of [x] was pushed exactly once and
    popped exactly once, the cell holds the mark [k + 1] of the
    consumer [k] that popped its address, so that every cell holds the
    mark of a consumer, and the check of [x], which finds no cell that
    is [X_EMPTY] or [X_MISSED], leaves [res] at 0: the test prints
    Passed. *)
Theorem run_test_passes g sched blk_thr blk_arr q0 st :
  test_fits g ->
  1 <= CONSUMERS g <= 254 ->
  horizon (t_queue g) (Z.of_nat (length sched)) ->
  LockFreeQueue_new (t_queue g) blk_thr blk_arr = Ok q0 ->
  length (ptr_array_ q0) = Z.to_nat (Q_SIZE (t_queue g)) ->
  test_run g sched (test_start g q0) = Done st ->
  all_joined st = true ->
  all_pushed (ts_sys st) ≡ₚ seqZ (t_x g) (x_size g) /\
  all_popped (ts_sys st) ≡ₚ seqZ (t_x g) (x_size g) /\
  (forall k t v, cons (ts_sys st) !! k = Some t -> v ∈ popped t ->
     cell_is g (ts_x st) v (Z.of_nat k + 1)) /\
  (forall i b, ts_x st !! i = Some b ->
     exists k : nat, Z.of_nat k < CONSUMERS g /\ b = Z.of_nat k + 1) /\
  run_test g sched q0 = Done 0.
Proof.
  intros Hfits HC Hhor Hnew Hlen Hrun Hj.
  pose proof (test_inv_start g Hfits blk_thr blk_arr q0 Hnew Hlen) as H0.
  destruct (test_run_inv g Hfits sched 0 (test_start g q0)) as [(st' & Hst & HT)|Hst];
    [done|lia|done| |congruence].
  rewrite Hrun in Hst. injection Hst as <-.
  pose proof Hj as [_ Hjc]%andb_true_iff.
  destruct (test_end_facts g _ st Hfits Hhor HT HC Hjc) as (Hpu & Hpo & Hmark & Hcells).
  split_and!; [done..|].
  unfold run_test. rewrite Hrun, Hj. f_equal.
  apply check_data_zero, Forall_lookup. intros i b Hb.
  destruct (Hcells i b Hb) as (k & Hk & ->). unfold X_EMPTY, X_MISSED. lia.
Qed.

Lemma test_small_fits : test_fits test_small.
Proof. constructor; vm_compute; try done; split; discriminate. Qed.

Lemma run_test_never_fails_witness :
  exists q0,
    run_test test_small sched_take_turns q0 = Done 0 /\
    run_test test_small sched_take_turns q0 <> Asserted /\
    run_test test_small sched_take_turns q0 <> Wild /\
    run_test test_small sched_take_turns q0 <> QueueFault.
Proof.
  exists (mkQ 0 0 0 0 (replicate 2 (ThrPos.mk ULONG_MAX ULONG_MAX)) [0; 0]).
  split; [vm_compute; reflexivity|].
  apply (run_test_never_fails test_small sched_take_turns
           (Some (replicate 32 0)) (Some [0; 0])).
  - exact test_small_fits.
  - horizon_by_run.
  - vm_compute. reflexivity.
  - reflexivity.
Defined.

Lemma run_test_passes_witness :
  exists q0 st,
    test_run test_small sched_take_turns (test_start test_small q0) = Done st /\
    ts_x st = [1; 2; 1; 2] /\
    all_popped (ts_sys st) ≡ₚ seqZ 1000 4 /\
    run_test test_small sched_take_turns q0 = Done 0.
Proof.
  exists (mkQ 0 0 0 0 (replicate 2 (ThrPos.mk ULONG_MAX ULONG_MAX)) [0; 0]).
  eexists. split; [vm_compute; reflexivity|]. split; [vm_compute; reflexivity|].
  eassert (H : _ /\ _ /\ _ /\ _ /\ _).
  { eapply (run_test_passes test_small sched_take_turns
              (Some (replicate 32 0)) (Some [0; 0])
              (mkQ 0 0 0 0 (replicate 2 (ThrPos.mk ULONG_MAX ULONG_MAX)) [0; 0])).
    - exact test_small_fits.
    - vm_compute. split; discriminate.
    - horizon_by_run.
    - vm_compute. reflexivity.
    - reflexivity.
    - vm_compute. reflexivity.
    - vm_compute. reflexivity. }
  destruct H as (_ & Hpo & _ & _ & Hres). split; [exact Hpo|exact Hres].
Defined.

(** ** The test on the serialized queue *)

Lemma range_length (l : list Z) b n :
  NoDup l -> (forall v, v ∈ l -> b <= v < b + n) -> 0 <= n ->
  Z.of_nat (length l) <= n.
Proof.
  intros Hnd Hr Hn.
  assert (Hsub : l ⊆+ seqZ b n).
  { apply NoDup_submseteq; [done|]. intros v Hv. apply elem_of_seqZ. by apply Hr. }
  apply submseteq_length in Hsub. rewrite length_seqZ in Hsub. lia.
Qed.

Lemma cell_is_insert_same g xs v w b i :
  x_index g w = Some i -> cell_is g xs v b -> cell_is g (<[i := b]> xs) v b.
Proof.
  intros Hw Hc. destruct (decide (v = w)) as [->|Hne].
  - destruct Hc as (j & Hj & Hx). rewrite Hw in Hj. simplify_eq.
    apply cell_is_insert_eq; [done|]. by eapply lookup_lt_Some.
  - by apply cell_is_insert_ne with w.
Qed.

Ltac ins H :=
  let Hne := fresh "Hne" in
  let Heq := fresh "Heq" in
  apply list_lookup_insert_Some in H as [(<- & Heq & _)|[Hne H]];
  [first [discriminate Heq | injection Heq as <- | subst | idtac]|].

Section naive_test_proofs.
Context (g : test_config).
Hypothesis Hfits : test_fits g.
Hypothesis Hroom : x_size g + Q_SIZE (t_queue g) < ULONG_MAX.

Lemma naive_test_facts st :
  naive_test_inv g st ->
  0 <= x_size g /\
  (forall v, v ∈ nt_pushed st -> t_x g <= v < t_x g + x_size g) /\
  Z.of_nat (length (nt_pushed st)) <= x_size g /\
  NoDup (nt_popped st) /\
  (forall v, v ∈ nt_popped st -> v ∈ nt_pushed st).
Proof.
  intros HT.
  pose proof (tf_N _ Hfits). pose proof (tf_producers _ Hfits).
  assert (Hx : 0 <= x_size g) by (unfold x_size; nia).
  assert (Hr : forall v, v ∈ nt_pushed st -> t_x g <= v < t_x g + x_size g).
  { intros v Hv. destruct (nti_pushed _ _ HT v Hv) as (p & a & j & _ & -> & _ & Hlt). lia. }
  destruct (nti_queue _ _ HT) as (L & _ & HL).
  pose proof (nti_nodup _ _ HT) as Hnd.
  split_and!; [done|done| | |].
  - by apply (range_length _ (t_x g)).
  - rewrite HL in Hnd. by apply NoDup_app in Hnd as (? & _ & _).
  - intros v Hv. rewrite HL. apply elem_of_app. by left.
Qed.

(** The address a producer is at has not been pushed. *)
Lemma naive_fresh st p a :
  naive_test_inv g st ->
  nt_prods st !! p = Some a -> a <> ProducerEnded ->
  (t_x g + pushed_below g a ∉ nt_pushed st) /\ 0 <= pushed_below g a /\ 0 < PRODUCERS g.
Proof.
  intros HT Ha Hne.
  apply lookup_lt_Some in Ha as Hlt. rewrite (nti_prods_len _ _ HT) in Hlt.
  destruct (nti_loop _ _ HT p a Ha Hne) as (J & HJ).
  split; [|nia].
  intros Hin. destruct (nti_pushed _ _ HT _ Hin) as (p' & a' & j & Ha' & Hv & Hb & _).
  apply lookup_lt_Some in Ha' as Hlt'. rewrite (nti_prods_len _ _ HT) in Hlt'.
  assert (Z.of_nat j = Z.of_nat J) by nia.
  assert (p' = p) as -> by nia. simplify_eq. lia.
Qed.

Lemma naive_test_inv_write st p i :
  naive_test_inv g st ->
  nt_prods st !! p = Some (AtFor i) -> i < x_size g ->
  naive_test_inv g
    (mkNaiveTest (nt_queue st) (nt_pushed st) (nt_popped st)
       (<[Z.to_nat i := X_MISSED]> (nt_x st)) (nt_n st)
       (<[p := InPush i]> (nt_prods st)) (nt_cons st)).
Proof.
  intros HT Hat Hi.
  destruct (naive_test_facts st HT) as (Hx & Hrange & Hlen & Hnd & Hsub).
  destruct (naive_fresh st p _ HT Hat) as (Hfresh & Hi0 & HP0); [done|]. cbn in Hfresh, Hi0.
  assert (Hidx : x_index g (t_x g + i) = Some (Z.to_nat i)).
  { apply x_index_Some. split; [lia|]. f_equal. lia. }
  constructor; cbn [nt_queue nt_pushed nt_popped nt_x nt_n nt_prods nt_cons]; try apply HT.
  - rewrite length_insert. apply (nti_x_len _ _ HT).
  - rewrite length_insert. apply (nti_prods_len _ _ HT).
  - intros p' a Ha Hne'. ins Ha; [|by apply (nti_loop _ _ HT)].
    by apply (nti_loop _ _ HT p (AtFor i)).
  - intros p' i' Ha. ins Ha.
    + simplify_eq. split; [done|]. apply cell_is_insert_eq; [done|].
      rewrite (nti_x_len _ _ HT). lia.
    + destruct (nti_in_push _ _ HT p' i' Ha) as [? Hc]. split; [done|].
      by apply cell_is_insert_same with (t_x g + i).
  - intros v Hv. destruct (nti_pushed _ _ HT v Hv) as (p' & a & j & Ha & Hrest).
    destruct (decide (p' = p)) as [->|Hne].
    + simplify_eq. exists p, (InPush i), j. split; [|done].
      apply list_lookup_insert_eq. by eapply lookup_lt_Some.
    + exists p', a, j. split; [|done]. by rewrite list_lookup_insert_ne.
  - intros v Hv. destruct (nti_marked _ _ HT v Hv) as [?|(k & Hk & Hc)]; [by left|right].
    exists k. split; [done|]. apply cell_is_insert_ne with (t_x g + i); [done| |done].
    intros ->. by apply Hfresh, Hsub.
  - intros v Hv Hun. apply cell_is_insert_same with (t_x g + i); [done|].
    by apply (nti_missed _ _ HT).
Qed.

Lemma naive_test_inv_for_end st p i :
  naive_test_inv g st ->
  nt_prods st !! p = Some (AtFor i) ->
  naive_test_inv g
    (mkNaiveTest (nt_queue st) (nt_pushed st) (nt_popped st) (nt_x st) (nt_n st)
       (<[p := ProducerEnded]> (nt_prods st)) (nt_cons st)).
Proof.
  intros HT Hat.
  constructor; cbn [nt_queue nt_pushed nt_popped nt_x nt_n nt_prods nt_cons]; try apply HT.
  - rewrite length_insert. apply (nti_prods_len _ _ HT).
  - intros p' a Ha Hne'. ins Ha; [done|]. by apply (nti_loop _ _ HT).
  - intros p' i' Ha. ins Ha. by apply (nti_in_push _ _ HT p').
  - intros v Hv. destruct (nti_pushed _ _ HT v Hv) as (p' & a & j & Ha & Hv' & Hb & Hlt).
    destruct (decide (p' = p)) as [->|Hne].
    + exists p, ProducerEnded, j. split_and!; [|done..].
      apply list_lookup_insert_eq. by eapply lookup_lt_Some.
    + exists p', a, j. split; [|done]. by rewrite list_lookup_insert_ne.
Qed.

Lemma naive_test_inv_push st p i q' :
  naive_test_inv g st ->
  nt_prods st !! p = Some (InPush i) ->
  NaiveQueue.push (Q_SIZE (t_queue g)) (t_x g + i) (nt_queue st) = Some q' ->
  naive_test_inv g
    (mkNaiveTest q' (nt_pushed st ++ [t_x g + i]) (nt_popped st) (nt_x st) (nt_n st)
       (<[p := AtFor (wrap (i + PRODUCERS g))]> (nt_prods st)) (nt_cons st)).
Proof.
  intros HT Hat Hpush.
  destruct (naive_test_facts st HT) as (Hx & Hrange & Hlen & Hnd & Hsub).
  destruct (naive_fresh st p _ HT Hat) as (Hfresh & Hi0 & HP0); [done|]. cbn in Hfresh, Hi0.
  destruct (nti_in_push _ _ HT p i Hat) as [Hi Hcell].
  destruct (nti_loop _ _ HT p _ Hat) as (J & HJ); [done|]. cbn in HJ.
  destruct (nti_queue _ _ HT) as (L & HL & Hpu).
  pose proof (nti_head _ _ HT) as Hh.
  pose proof (tf_producers _ Hfits) as HP. pose proof (tf_int _ Hfits) as Hint.
  pose proof (tf_consumers _ Hfits) as HC. unfold INT_MAX in *.
  rewrite wrap_small by (unfold ULONG_MAX; lia).
  assert (Hh' : NaiveQueue.head_ q' = NaiveQueue.head_ (nt_queue st) + 1).
  { unfold NaiveQueue.push in Hpush. destruct (NaiveQueue.not_full _ _); [|done].
    simplify_eq. cbn. apply wrap_small. unfold ULONG_MAX in *. lia. }
  assert (HL' : naive_holds (Q_SIZE (t_queue g)) q' (L ++ [t_x g + i])).
  { destruct (naive_holds_push (Q_SIZE (t_queue g)) (t_x g + i) (nt_queue st) L
                (tf_pow2 _ Hfits)) as [Hlt Hfull]; [lia|done|].
    pose proof (nh_room _ _ _ HL) as Hr.
    destruct (Z.eq_dec (Z.of_nat (length L)) (Q_SIZE (t_queue g))) as [Heq|Hneq].
    - rewrite (Hfull Heq) in Hpush. done.
    - destruct (Hlt ltac:(lia)) as (q'' & Hq'' & Hh''). by simplify_eq. }
  constructor; cbn [nt_queue nt_pushed nt_popped nt_x nt_n nt_prods nt_cons]; try apply HT.
  - exists (L ++ [t_x g + i]). split; [done|]. by rewrite Hpu, app_assoc.
  - rewrite length_app. cbn. lia.
  - rewrite length_insert. apply (nti_prods_len _ _ HT).
  - intros p' a Ha Hne'. ins Ha; [|by apply (nti_loop _ _ HT)].
    exists (S J). cbn [pushed_below]. lia.
  - intros p' i' Ha. ins Ha. by apply (nti_in_push _ _ HT p').
  - intros v [Hv|Hv%list_elem_of_singleton]%elem_of_app; [|subst v].
    + destruct (nti_pushed _ _ HT v Hv) as (p' & a & j & Ha & Hv' & Hb & Hlt).
      destruct (decide (p' = p)) as [->|Hne].
      * assert (a = InPush i) as -> by congruence.
        exists p, (AtFor (i + PRODUCERS g)), j. split_and!; [|done| |done].
        -- apply list_lookup_insert_eq. by eapply lookup_lt_Some.
        -- cbn in *. lia.
      * exists p', a, j. split; [|done]. by rewrite list_lookup_insert_ne.
    + exists p, (AtFor (i + PRODUCERS g)), J. split_and!.
      * apply list_lookup_insert_eq. by eapply lookup_lt_Some.
      * by rewrite HJ.
      * cbn. lia.
      * lia.
  - apply NoDup_app. split_and!; [apply HT| |apply NoDup_singleton].
    intros v Hv Hv'%list_elem_of_singleton. by subst v.
  - intros v [Hv|Hv%list_elem_of_singleton]%elem_of_app Hun.
    + by apply (nti_missed _ _ HT).
    + by subst v.
Qed.

Lemma naive_test_inv_while st k :
  naive_test_inv g st ->
  nt_cons st !! k = Some AtWhile ->
  naive_test_inv g
    (mkNaiveTest (nt_queue st) (nt_pushed st) (nt_popped st) (nt_x st)
       (wrap_int (nt_n st + 1)) (nt_prods st)
       (<[k := if nt_n st <? x_size g then InPop else ConsumerEnded]> (nt_cons st))).
Proof.
  intros HT Hat.
  pose proof (nti_n _ _ HT) as Hn0.
  pose proof (tf_int _ Hfits) as Hint. pose proof (tf_consumers _ Hfits) as HC.
  pose proof (nti_ended _ _ HT) as He. pose proof (nti_started _ _ HT) as Hs.
  pose proof (how_many_lt is_ConsumerEnded _ k _ Hat eq_refl) as Hlt.
  rewrite (nti_cons_len _ _ HT) in Hlt.
  rewrite wrap_int_small by (unfold INT_MAX in *; lia).
  set (b := if nt_n st <? x_size g then InPop else ConsumerEnded).
  assert (Hb : pending b = None) by (unfold b; by destruct (_ <? _)).
  constructor; cbn [nt_queue nt_pushed nt_popped nt_x nt_n nt_prods nt_cons]; try apply HT.
  - rewrite length_insert. apply (nti_cons_len _ _ HT).
  - intros k' a v Ha Hp. ins Ha; [congruence|]. by apply (nti_pending _ _ HT k' a).
  - intros k1 k2 a1 a2 v H1 H2 Hp1 Hp2. ins H1; [congruence|]. ins H2; [congruence|].
    by apply (nti_pending_one _ _ HT k1 k2 a1 a2 v).
  - intros v Hv. destruct (nti_marked _ _ HT v Hv) as [(k' & a & Ha & Hp)|?]; [left|by right].
    exists k', a. split; [|done]. rewrite list_lookup_insert_ne; [done|].
    intros ->. rewrite Hat in Ha. by simplify_eq.
  - intros v Hv Hun. apply (nti_missed _ _ HT); [done|].
    destruct Hun as [?|(k' & a & Ha & Hp)]; [by left|right].
    ins Ha; [congruence|]. by exists k', a.
  - lia.
  - pose proof (how_many_insert is_InPop _ k _ b Hat) as Hc. cbn in Hc.
    unfold b in *. destruct (Z.ltb_spec (nt_n st) (x_size g)); cbn in Hc; lia.
  - pose proof (how_many_insert is_ConsumerEnded _ k _ b Hat) as Hc. cbn in Hc.
    unfold b in *. destruct (Z.ltb_spec (nt_n st) (x_size g)); cbn in Hc; lia.
Qed.

(** A [pop] that finds the queue not empty returns the oldest address
    pushed and not popped. *)
Lemma naive_pop_runs st :
  naive_test_inv g st ->
  NaiveQueue.not_empty (nt_queue st) = true ->
  exists v q' L',
    NaiveQueue.pop (Q_SIZE (t_queue g)) (nt_queue st) = Some (v, q') /\
    naive_holds (Q_SIZE (t_queue g)) q' L' /\
    nt_pushed st = (nt_popped st ++ [v]) ++ L' /\
    NaiveQueue.head_ q' = NaiveQueue.head_ (nt_queue st).
Proof.
  intros HT Hne.
  destruct (naive_test_facts st HT) as (Hx & Hrange & Hlen & Hnd & Hsub).
  destruct (nti_queue _ _ HT) as (L & HL & Hpu).
  pose proof (nti_head _ _ HT) as Hh.
  pose proof (naive_holds_pop (Q_SIZE (t_queue g)) (nt_queue st) L) as Hpop.
  destruct (is_pow2_spec _ (tf_pow2 _ Hfits)) as [HQ _].
  destruct L as [|v L'].
  - pose proof (nh_head _ _ _ HL) as Hh0. cbn in Hh0.
    unfold NaiveQueue.not_empty in Hne. apply Z.ltb_lt in Hne. lia.
  - destruct Hpop as (q' & Hq' & HL'); [unfold ULONG_MAX in *; lia|done|].
    exists v, q', L'. split_and!; [done|done|by rewrite <- app_assoc|].
    unfold NaiveQueue.pop in Hq'. rewrite Hne in Hq'.
    destruct (_ !! _); [|done]. by simplify_eq.
Qed.

Lemma naive_test_inv_pop st k v q' :
  naive_test_inv g st ->
  nt_cons st !! k = Some InPop ->
  NaiveQueue.not_empty (nt_queue st) = true ->
  NaiveQueue.pop (Q_SIZE (t_queue g)) (nt_queue st) = Some (v, q') ->
  naive_test_inv g
    (mkNaiveTest q' (nt_pushed st) (nt_popped st ++ [v]) (nt_x st) (nt_n st)
       (nt_prods st) (<[k := AtAssert v]> (nt_cons st))).
Proof.
  intros HT Hat Hne Hpop.
  destruct (naive_pop_runs st HT Hne) as (v0 & q0 & L' & Hpop0 & HL' & Hpu & Hh').
  rewrite Hpop in Hpop0. simplify_eq.
  pose proof (nti_nodup _ _ HT) as Hnd. rewrite Hpu in Hnd.
  apply NoDup_app in Hnd as (Hnd & _ & _).
  apply NoDup_app in Hnd as (_ & Hnew & _).
  assert (Hfresh : v0 ∉ nt_popped st).
  { intros Hin. apply (Hnew v0 Hin). by left. }
  constructor; cbn [nt_queue nt_pushed nt_popped nt_x nt_n nt_prods nt_cons]; try apply HT.
  - by exists L'.
  - rewrite Hh'. apply (nti_head _ _ HT).
  - rewrite length_insert. apply (nti_cons_len _ _ HT).
  - intros k' a w Ha Hp. apply elem_of_app. ins Ha.
    + cbn in Hp. simplify_eq. right. by left.
    + left. by apply (nti_pending _ _ HT k' a).
  - intros k1 k2 a1 a2 w H1 H2 Hp1 Hp2.
    destruct (decide (k1 = k2)) as [|Hk]; [done|]. exfalso.
    ins H1; ins H2; try done.
    + cbn in Hp1. simplify_eq. by apply Hfresh, (nti_pending _ _ HT k2 a2).
    + cbn in Hp2. simplify_eq. by apply Hfresh, (nti_pending _ _ HT k1 a1).
    + by apply Hk, (nti_pending_one _ _ HT k1 k2 a1 a2 w).
  - intros w [Hw|Hw%list_elem_of_singleton]%elem_of_app.
    + destruct (nti_marked _ _ HT w Hw) as [(k' & a & Ha & Hp)|?]; [left|by right].
      exists k', a. split; [|done]. rewrite list_lookup_insert_ne; [done|].
      intros ->. rewrite Hat in Ha. by simplify_eq.
    + subst w. left. exists k, (AtAssert v0). split; [|done].
      apply list_lookup_insert_eq. by eapply lookup_lt_Some.
  - intros w Hw Hun. apply (nti_missed _ _ HT); [done|].
    destruct Hun as [Hun|(k' & a & Ha & Hp)].
    + left. intros Hin. apply Hun, elem_of_app. by left.
    + ins Ha.
      * cbn in Hp. simplify_eq. by left.
      * right. by exists k', a.
  - pose proof (nti_started _ _ HT) as Hs.
    pose proof (how_many_insert is_InPop _ k _ (AtAssert v0) Hat) as Hc. cbn in Hc.
    rewrite length_app. cbn [length]. lia.
  - pose proof (nti_ended _ _ HT) as He.
    pose proof (how_many_insert is_ConsumerEnded _ k _ (AtAssert v0) Hat) as Hc.
    cbn in Hc. lia.
Qed.

Lemma naive_pending_facts st k a v :
  naive_test_inv g st ->
  nt_cons st !! k = Some a -> pending a = Some v ->
  v <> 0 /\ cell_is g (nt_x st) v X_MISSED /\ v ∈ nt_popped st /\ v ∈ nt_pushed st.
Proof.
  intros HT Hat Hp.
  destruct (naive_test_facts st HT) as (Hx & Hrange & Hlen & Hnd & Hsub).
  pose proof (nti_pending _ _ HT k a v Hat Hp) as Hin.
  pose proof (Hrange v (Hsub v Hin)). pose proof (tf_x _ Hfits).
  split_and!; [lia| |done|by apply Hsub].
  apply (nti_missed _ _ HT); [by apply Hsub|]. right. by exists k, a.
Qed.

Lemma naive_test_inv_assert st k v :
  naive_test_inv g st ->
  nt_cons st !! k = Some (AtAssert v) ->
  naive_test_inv g
    (mkNaiveTest (nt_queue st) (nt_pushed st) (nt_popped st) (nt_x st) (nt_n st)
       (nt_prods st) (<[k := AtMark v]> (nt_cons st))).
Proof.
  intros HT Hat.
  constructor; cbn [nt_queue nt_pushed nt_popped nt_x nt_n nt_prods nt_cons]; try apply HT.
  - rewrite length_insert. apply (nti_cons_len _ _ HT).
  - intros k' a w Ha Hp. ins Ha.
    + by apply (nti_pending _ _ HT k (AtAssert v)).
    + by apply (nti_pending _ _ HT k' a).
  - intros k1 k2 a1 a2 w H1 H2 Hp1 Hp2.
    assert (Hold : forall k' a, <[k := AtMark v]> (nt_cons st) !! k' = Some a ->
              pending a = Some w ->
              exists a', nt_cons st !! k' = Some a' /\ pending a' = Some w).
    { intros k' a Ha Hp. ins Ha; [by exists (AtAssert v)|by exists a]. }
    destruct (Hold _ _ H1 Hp1) as (a1' & H1' & Hp1').
    destruct (Hold _ _ H2 Hp2) as (a2' & H2' & Hp2').
    by apply (nti_pending_one _ _ HT k1 k2 a1' a2' w).
  - intros w Hw. destruct (nti_marked _ _ HT w Hw) as [(k' & a & Ha & Hp)|?]; [left|by right].
    destruct (decide (k' = k)) as [->|Hne].
    + exists k, (AtMark v). split; [apply list_lookup_insert_eq; by eapply lookup_lt_Some|].
      rewrite Hat in Ha. by simplify_eq.
    + exists k', a. split; [|done]. by rewrite list_lookup_insert_ne.
  - intros w Hw Hun. apply (nti_missed _ _ HT); [done|].
    destruct Hun as [?|(k' & a & Ha & Hp)]; [by left|right].
    ins Ha; [by exists k, (AtAssert v)|by exists k', a].
  - pose proof (nti_started _ _ HT) as Hs.
    pose proof (how_many_insert is_InPop _ k _ (AtMark v) Hat) as Hc. cbn in Hc. lia.
  - pose proof (nti_ended _ _ HT) as He.
    pose proof (how_many_insert is_ConsumerEnded _ k _ (AtMark v) Hat) as Hc. cbn in Hc. lia.
Qed.

Lemma naive_test_inv_mark st k v i :
  naive_test_inv g st ->
  nt_cons st !! k = Some (AtMark v) -> x_index g v = Some i ->
  naive_test_inv g
    (mkNaiveTest (nt_queue st) (nt_pushed st) (nt_popped st)
       (<[i := to_q_type (Z.of_nat k + 1)]> (nt_x st)) (nt_n st)
       (nt_prods st) (<[k := AtWhile]> (nt_cons st))).
Proof.
  intros HT Hat Hidx.
  destruct (naive_pending_facts st k _ v HT Hat eq_refl) as (Hv0 & Hcell & Hpo & Hpu).
  assert (Hilt : (i < length (nt_x st))%nat).
  { destruct Hcell as (i' & Hi' & Hx). rewrite Hidx in Hi'. simplify_eq.
    by eapply lookup_lt_Some. }
  apply lookup_lt_Some in Hat as Hk. rewrite (nti_cons_len _ _ HT) in Hk.
  assert (Hother : forall k' a w, nt_cons st !! k' = Some a -> pending a = Some w ->
            k' <> k -> w <> v).
  { intros k' a w Ha Hp Hne ->. by apply Hne, (nti_pending_one _ _ HT k' k a (AtMark v) v). }
  constructor; cbn [nt_queue nt_pushed nt_popped nt_x nt_n nt_prods nt_cons]; try apply HT.
  - rewrite length_insert. apply (nti_x_len _ _ HT).
  - rewrite length_insert. apply (nti_cons_len _ _ HT).
  - intros p i' Ha. destruct (nti_in_push _ _ HT p i' Ha) as [Hi' Hc]. split; [done|].
    apply cell_is_insert_ne with v; [done| |done].
    intros Heq. destruct (naive_fresh st p _ HT Ha) as (Hfresh & _); [done|].
    cbn in Hfresh. by rewrite Heq in Hfresh.
  - intros k' a w Ha Hp. ins Ha; [done|]. by apply (nti_pending _ _ HT k' a).
  - intros k1 k2 a1 a2 w H1 H2 Hp1 Hp2. ins H1; [done|]. ins H2; [done|].
    by apply (nti_pending_one _ _ HT k1 k2 a1 a2 w).
  - intros w Hw. destruct (decide (w = v)) as [->|Hwv].
    + right. exists k. split; [lia|]. by apply cell_is_insert_eq.
    + destruct (nti_marked _ _ HT w Hw) as [(k' & a & Ha & Hp)|(k' & Hk' & Hc)].
      * left. exists k', a. split; [|done]. rewrite list_lookup_insert_ne; [done|].
        intros ->. rewrite Hat in Ha. simplify_eq. cbn in Hp. congruence.
      * right. exists k'. split; [done|]. by apply cell_is_insert_ne with v.
  - intros w Hw Hun.
    assert (Hold : w <> v /\
              (w ∉ nt_popped st \/
               exists k' a, nt_cons st !! k' = Some a /\ pending a = Some w)).
    { destruct Hun as [Hun|(k' & a & Ha & Hp)].
      - split; [|by left]. by intros ->.
      - ins Ha; [done|]. split; [by eapply Hother|]. right. by exists k', a. }
    destruct Hold as [Hne Hold].
    apply cell_is_insert_ne with v; [done|done|]. by apply (nti_missed _ _ HT).
  - pose proof (nti_started _ _ HT) as Hs.
    pose proof (how_many_insert is_InPop _ k _ AtWhile Hat) as Hc. cbn in Hc. lia.
  - pose proof (nti_ended _ _ HT) as He.
    pose proof (how_many_insert is_ConsumerEnded _ k _ AtWhile Hat) as Hc. cbn in Hc. lia.
Qed.

Lemma naive_test_step_inv st a :
  naive_test_inv g st ->
  (exists st', naive_test_step g a st = Done st' /\ naive_test_inv g st') \/
  naive_test_step g a st = Stuck.
Proof.
  intros HT. destruct a as [p|k]; cbn [naive_test_step].
  - unfold naive_producer_step.
    destruct (nt_prods st !! p) as [[i|i|]|] eqn:Hat; [| |by right..].
    + destruct (Z.ltb_spec i (x_size g)) as [Hi|Hi]; left; eexists; (split; [done|]).
      * by apply naive_test_inv_write.
      * by eapply naive_test_inv_for_end.
    + destruct (NaiveQueue.push _ _ _) as [q'|] eqn:Hpush; [|by right].
      left. eexists. split; [done|]. by apply naive_test_inv_push.
  - unfold naive_consumer_step.
    destruct (nt_cons st !! k) as [[| |v|v|]|] eqn:Hat; [| | | |by right..].
    + left. eexists. split; [done|]. by apply naive_test_inv_while.
    + destruct (NaiveQueue.not_empty (nt_queue st)) eqn:Hne; [|by right].
      destruct (naive_pop_runs st HT Hne) as (v & q' & L' & Hpop & _). rewrite Hpop.
      left. eexists. split; [done|]. by apply naive_test_inv_pop.
    + destruct (naive_pending_facts st k _ v HT Hat eq_refl)
        as (Hv0 & (i & -> & ->) & _).
      destruct (Z.eqb_spec v 0) as [|_]; [done|]. cbn.
      left. eexists. split; [done|]. by apply naive_test_inv_assert.
    + destruct (naive_pending_facts st k _ v HT Hat eq_refl)
        as (Hv0 & (i & Hidx & Hx) & _).
      rewrite Hidx. left. eexists. split; [done|]. by apply (naive_test_inv_mark st k v i).
Qed.

Lemma naive_test_run_inv sched : forall st,
  naive_test_inv g st ->
  (exists st', naive_test_run g sched st = Done st' /\ naive_test_inv g st') \/
  naive_test_run g sched st = Stuck.
Proof.
  induction sched as [|a sched IH]; intros st HT.
  - left. by exists st.
  - cbn [naive_test_run].
    destruct (naive_test_step_inv st a HT) as [(st' & -> & HT')| ->]; [|by right].
    by apply IH.
Qed.

Lemma naive_test_inv_start arr :
  length arr = Z.to_nat (Q_SIZE (t_queue g)) ->
  naive_test_inv g (naive_test_start g (NaiveQueue.mk 0 0 arr)).
Proof.
  intros Hlen.
  pose proof (tf_N _ Hfits). pose proof (tf_producers _ Hfits).
  assert (Hx : 0 <= x_size g) by (unfold x_size; nia).
  destruct (is_pow2_spec _ (tf_pow2 _ Hfits)) as [HQ _].
  constructor; unfold naive_test_start;
    cbn [nt_queue nt_pushed nt_popped nt_x nt_n nt_prods nt_cons]; try done.
  - exists []. split; [|done]. constructor; cbn; try done; try lia.
  - by rewrite length_replicate.
  - by rewrite length_map, length_seq.
  - by rewrite length_replicate.
  - intros p a Ha _. change (map ?f ?l) with (f <$> l) in Ha.
    apply list_lookup_fmap_Some in Ha as (p' & -> & Hp').
    apply lookup_seq in Hp' as [-> _]. exists 0%nat. cbn. lia.
  - intros p i Ha. change (map ?f ?l) with (f <$> l) in Ha.
    by apply list_lookup_fmap_Some in Ha as (p' & ? & Hp').
  - intros v Hv. by apply elem_of_nil in Hv.
  - constructor.
  - intros k a v Ha Hp. apply lookup_replicate in Ha as [-> _]. done.
  - intros k1 k2 a1 a2 v Ha _ Hp. apply lookup_replicate in Ha as [-> _]. done.
  - intros v Hv. by apply elem_of_nil in Hv.
  - intros v Hv. by apply elem_of_nil in Hv.
  - rewrite how_many_none; [cbn; lia|]. by intros a [-> _]%elem_of_replicate.
  - rewrite how_many_none; [cbn; lia|]. by intros a [-> _]%elem_of_replicate.
Qed.

(** Once every consumer has ended, every cell of [x] holds the mark of
    a consumer. *)
Lemma naive_all_cells_marked st :
  naive_test_inv g st ->
  1 <= CONSUMERS g ->
  forallb is_ConsumerEnded (nt_cons st) = true ->
  forall i b, nt_x st !! i = Some b ->
    exists k, Z.of_nat k < CONSUMERS g /\ b = to_q_type (Z.of_nat k + 1).
Proof.
  intros HT HC Hall i b Hb.
  destruct (naive_test_facts st HT) as (Hx & Hrange & Hlen & Hnd & Hsub).
  assert (Hended : forall k a, nt_cons st !! k = Some a -> a = ConsumerEnded).
  { intros k a Ha. apply list_elem_of_lookup_2, list_elem_of_In in Ha.
    pose proof (proj1 (forallb_forall _ _) Hall a Ha). by destruct a. }
  assert (Hl : length (nt_popped st) = Z.to_nat (x_size g)).
  { pose proof (nti_started _ _ HT) as Hs. pose proof (nti_ended _ _ HT) as He.
    rewrite (how_many_all _ _ Hall), (nti_cons_len _ _ HT) in He.
    rewrite how_many_none in Hs; [lia|].
    intros a (k & Ha)%list_elem_of_lookup. by rewrite (Hended k a Ha). }
  assert (Hperm : nt_popped st ≡ₚ seqZ (t_x g) (x_size g)).
  { apply submseteq_length_Permutation; [|by rewrite Hl, length_seqZ].
    apply NoDup_submseteq; [done|].
    intros v Hv. apply elem_of_seqZ. by apply Hrange, Hsub. }
  apply lookup_lt_Some in Hb as Hi. rewrite (nti_x_len _ _ HT) in Hi.
  assert (Hin : t_x g + Z.of_nat i ∈ nt_popped st).
  { rewrite Hperm. apply elem_of_seqZ. lia. }
  destruct (nti_marked _ _ HT _ Hin) as [(k & a & Ha & Hp)|(k & Hk & i' & Hi' & Hcell)].
  - rewrite (Hended k a Ha) in Hp. done.
  - apply x_index_Some in Hi' as [_ ->].
    replace (Z.to_nat (t_x g + Z.of_nat i - t_x g)) with i in Hcell by lia.
    exists k. split; [done|congruence].
Qed.

End naive_test_proofs.

(** X21. The test never trips on the serialized queue either: in every
    interleaving of the producers and consumers of [run_test] on
    [NaiveQueue], no [assert] of a consumer fails, no consumer
    dereferences a pointer that does not point into [x], and no [pop]
    reads outside the slot array. *)
Theorem run_test_naive_never_fails g sched arr :
  test_fits g ->
  x_size g + Q_SIZE (t_queue g) < ULONG_MAX ->
  length arr = Z.to_nat (Q_SIZE (t_queue g)) ->
  run_test_naive g sched (NaiveQueue.mk 0 0 arr) <> Asserted /\
  run_test_naive g sched (NaiveQueue.mk 0 0 arr) <> Wild /\
  run_test_naive g sched (NaiveQueue.mk 0 0 arr) <> QueueFault.
Proof.
  intros Hfits Hroom Hlen.
  pose proof (naive_test_inv_start g Hfits arr Hlen) as H0.
  unfold run_test_naive.
  destruct (naive_test_run_inv g Hfits Hroom sched _ H0) as [(st & -> & _)| ->]; [|done].
  by destruct (_ && _).
Qed.

(** Once every consumer has ended on the serialized queue: each address
    of [x] was pushed once, the pops returned the addresses in the
    order they were pushed, and every cell holds the mark of a
    consumer. *)
Lemma naive_test_end_facts g st :
  test_fits g ->
  naive_test_inv g st ->
  1 <= CONSUMERS g <= 254 ->
  forallb is_ConsumerEnded (nt_cons st) = true ->
  nt_pushed st ≡ₚ seqZ (t_x g) (x_size g) /\
  nt_popped st = nt_pushed st /\
  (forall i b, nt_x st !! i = Some b ->
     exists k : nat, Z.of_nat k < CONSUMERS g /\ b = Z.of_nat k + 1).
Proof.
  intros Hfits HT HC Hall.
  destruct (naive_test_facts g Hfits st HT) as (Hx & Hrange & Hlen & Hnd & Hsub).
  assert (Hended : forall k a, nt_cons st !! k = Some a -> a = ConsumerEnded).
  { intros k a Ha. apply list_elem_of_lookup_2, list_elem_of_In in Ha.
    pose proof (proj1 (forallb_forall _ _) Hall a Ha). by destruct a. }
  assert (Hl : length (nt_popped st) = Z.to_nat (x_size g)).
  { pose proof (nti_started _ _ HT) as Hs. pose proof (nti_ended _ _ HT) as He.
    rewrite (how_many_all _ _ Hall), (nti_cons_len _ _ HT) in He.
    rewrite how_many_none in Hs; [lia|].
    intros a (k & Ha)%list_elem_of_lookup. by rewrite (Hended k a Ha). }
  assert (Heq : nt_popped st = nt_pushed st).
  { destruct (nti_queue _ _ HT) as (L & _ & HL).
    rewrite HL, length_app in Hlen.
    destruct L as [|v L]; [by rewrite HL, app_nil_r|cbn in Hlen; lia]. }
  split_and!; [|done|].
  - rewrite <- Heq. apply submseteq_length_Permutation; [|by rewrite Hl, length_seqZ].
    apply NoDup_submseteq; [done|].
    intros v Hv. apply elem_of_seqZ. by apply Hrange, Hsub.
  - intros i b Hb.
    destruct (naive_all_cells_marked g Hfits st HT) with (i := i) (b := b)
      as (k & Hk & ->); [lia|done..|].
    exists k. split; [done|]. unfold to_q_type. apply Z.mod_small. lia.
Qed.

(** X22. The test passes on the serialized queue: with at least one
    consumer and at most 254, whenever all the threads of [run_test]
    on [NaiveQueue] have ended, every address of a cell of [x] was
    pushed exactly once, the pops returned the addresses pushed, in
    the order of the pushes, every cell of [x] holds the mark [k + 1]
    of a consumer [k], and the check of [x], which finds no cell that
    is [X_EMPTY] or [X_MISSED], leaves [res] at 0. *)
Theorem run_test_naive_passes g sched arr st :
  test_fits g ->
  1 <= CONSUMERS g <= 254 ->
  x_size g + Q_SIZE (t_queue g) < ULONG_MAX ->
  length arr = Z.to_nat (Q_SIZE (t_queue g)) ->
  naive_test_run g sched (naive_test_start g (NaiveQueue.mk 0 0 arr)) = Done st ->
  forallb is_ProducerEnded (nt_prods st) && forallb is_ConsumerEnded (nt_cons st) = true ->
  nt_pushed st ≡ₚ seqZ (t_x g) (x_size g) /\
  nt_popped st = nt_pushed st /\
  (forall i b, nt_x st !! i = Some b ->
     exists k : nat, Z.of_nat k < CONSUMERS g /\ b = Z.of_nat k + 1) /\
  run_test_naive g sched (NaiveQueue.mk 0 0 arr) = Done 0.
Proof.
  intros Hfits HC Hroom Hlen Hrun Hj.
  pose proof (naive_test_inv_start g Hfits arr Hlen) as H0.
  destruct (naive_test_run_inv g Hfits Hroom sched _ H0) as [(st' & Hst & HT)|Hst];
    [|congruence].
  rewrite Hrun in Hst. injection Hst as <-.
  pose proof Hj as [_ Hjc]%andb_true_iff.
  destruct (naive_test_end_facts g st Hfits HT HC Hjc) as (Hpu & Heq & Hcells).
  split_and!; [done..|].
  unfold run_test_naive. rewrite Hrun, Hj. f_equal.
  apply check_data_zero, Forall_lookup. intros i b Hb.
  destruct (Hcells i b Hb) as (k & Hk & ->). unfold X_EMPTY, X_MISSED. lia.
Qed.

Lemma run_test_naive_never_fails_witness :
  run_test_naive test_small sched_naive_turns (NaiveQueue.mk 0 0 [0; 0]) = Done 0 /\
  run_test_naive test_small sched_naive_turns (NaiveQueue.mk 0 0 [0; 0]) <> Asserted /\
  run_test_naive test_small sched_naive_turns (NaiveQueue.mk 0 0 [0; 0]) <> Wild /\
  run_test_naive test_small sched_naive_turns (NaiveQueue.mk 0 0 [0; 0]) <> QueueFault.
Proof.
  split; [vm_compute; reflexivity|].
  apply (run_test_naive_never_fails test_small sched_naive_turns [0; 0]).
  - exact test_small_fits.
  - vm_compute. reflexivity.
  - reflexivity.
Defined.

Lemma run_test_naive_passes_witness :
  exists st,
    naive_test_run test_small sched_naive_turns
      (naive_test_start test_small (NaiveQueue.mk 0 0 [0; 0])) = Done st /\
    nt_x st = [1; 2; 1; 2] /\
    nt_popped st = [1000; 1001; 1002; 1003] /\
    nt_popped st = nt_pushed st /\
    run_test_naive test_small sched_naive_turns (NaiveQueue.mk 0 0 [0; 0]) = Done 0.
Proof.
  eexists. split; [vm_compute; reflexivity|].
  split; [vm_compute; reflexivity|]. split; [vm_compute; reflexivity|].
  eassert (H : _ /\ _ /\ _ /\ _).
  { eapply (run_test_naive_passes test_small sched_naive_turns [0; 0]).
    - exact test_small_fits.
    - vm_compute. split; discriminate.
    - vm_compute. reflexivity.
    - reflexivity.
    - vm_compute. reflexivity.
    - vm_compute. reflexivity. }
  destruct H as (_ & Heq & _ & Hres). split; [exact Heq|exact Hres].
Defined.

(** X23. [main] as a whole: whatever the interleavings of the two tests,
    either [main] gets to its end with both tests passed ([res] is 0
    for the lock-free queue and for the serialized queue), or the
    schedule leaves it before the end; an [assert] fails only in a
    constructor, when [memalign] has returned NULL; no pointer outside
    [x] is dereferenced and no step of a queue fails. *)
Theorem main_passes g blk_thr blk_arr blk_naive sched sched_naive :
  test_fits g ->
  1 <= CONSUMERS g <= 254 ->
  horizon (t_queue g) (Z.of_nat (length sched)) ->
  x_size g + Q_SIZE (t_queue g) < ULONG_MAX ->
  (forall arr, blk_arr = Some arr -> length arr = Z.to_nat (Q_SIZE (t_queue g))) ->
  (forall arr, blk_naive = Some arr -> length arr = Z.to_nat (Q_SIZE (t_queue g))) ->
  match main g blk_thr blk_arr blk_naive sched sched_naive with
  | Done res => res = (0, 0)
  | Asserted => blk_thr = None \/ blk_arr = None \/ blk_naive = None
  | Wild | QueueFault => False
  | Stuck => True
  end.
Proof.
  intros Hfits HC Hhor Hroom Harr Hnaive.
  assert (Hpass : forall xs,
            (forall i b, xs !! i = Some b ->
               exists k, Z.of_nat k < CONSUMERS g /\ b = to_q_type (Z.of_nat k + 1)) ->
            check_data xs = 0).
  { intros xs Hxs. apply check_data_zero, Forall_lookup. intros i b Hb.
    destruct (Hxs i b Hb) as (k & Hk & ->).
    unfold to_q_type, X_EMPTY, X_MISSED. rewrite Z.mod_small by lia. lia. }
  unfold main.
  destruct (LockFreeQueue_new (t_queue g) blk_thr blk_arr) as [q0| | | |] eqn:Hnew;
    try (unfold LockFreeQueue_new in Hnew;
         destruct blk_thr; [|by left]; destruct blk_arr; [done|by right; left]).
  assert (Hlen : length (ptr_array_ q0) = Z.to_nat (Q_SIZE (t_queue g))).
  { apply LockFreeQueue_new_Ok in Hnew as (bytes & arr & _ & -> & ->). by apply Harr. }
  pose proof (test_inv_start g Hfits blk_thr blk_arr q0 Hnew Hlen) as H0.
  unfold run_test.
  destruct (test_run_inv g Hfits sched 0 (test_start g q0)) as [(st & -> & HT)| ->];
    [done|lia|done| |done].
  destruct (all_joined st) eqn:Hj; [|done].
  apply andb_true_iff in Hj as [_ Hj].
  rewrite (Hpass (ts_x st)).
  2:{ apply (all_cells_marked g Hfits _ st Hhor HT); [lia|done]. }
  destruct blk_naive as [arr|]; cbn [NaiveQueue.new]; [|by right; right].
  pose proof (naive_test_inv_start g Hfits arr (Hnaive arr eq_refl)) as H1.
  unfold run_test_naive.
  destruct (naive_test_run_inv g Hfits Hroom sched_naive _ H1) as [(st' & -> & HT')| ->];
    [|done].
  destruct (_ && _) eqn:Hj'; [|done].
  apply andb_true_iff in Hj' as [_ Hj'].
  rewrite (Hpass (nt_x st')); [done|].
  apply (naive_all_cells_marked g Hfits st' HT'); [lia|done].
Qed.

Lemma main_passes_witness :
  main test_small (Some (replicate 32 0)) (Some [0; 0]) (Some [0; 0])
    sched_take_turns sched_naive_turns = Done (0, 0) /\
  match main test_small (Some (replicate 32 0)) (Some [0; 0]) (Some [0; 0])
          sched_take_turns sched_naive_turns with
  | Done res => res = (0, 0)
  | Asserted => Some (replicate 32 0) = None \/ Some [0; 0] = None \/ Some [0; 0] = None
  | Wild | QueueFault => False
  | Stuck => True
  end.
Proof.
  split; [vm_compute; reflexivity|].
  apply (main_passes test_small (Some (replicate 32 0)) (Some [0; 0]) (Some [0; 0])
           sched_take_turns sched_naive_turns).
  - exact test_small_fits.
  - vm_compute. split; discriminate.
  - horizon_by_run.
  - vm_compute. reflexivity.
  - intros arr [= <-]. reflexivity.
  - intros arr [= <-]. reflexivity.
Defined.
